(** * Interval collections of the sequence DDS

    A shallow embedding of [packages/dds/sequence/src/intervalCollection.ts]:
    the serialized interval formats, the two interval variants (numeric
    [Interval] and reference-backed [SequenceInterval]), the interval
    indices, [LocalIntervalCollection] and [IntervalCollection], together
    with the properties of them that the specification states.

    Conventions of the embedding.
    - JS numbers that hold positions, sequence numbers and bit flags are [Z];
      bit operations are [Z.land], [Z.lor] and [Z.lnot].
    - A JS object used as a property bag is a [gmap string JsValue] plus the
      set of keys that [Object.defineProperty] made non-writable.
    - [undefined] in an optional position is [None].
    - Interval objects are mutable and shared between the indices, so they
      live in a store ([gmap nat TInterval]) and the indices hold addresses.
    - Code that throws or asserts returns a [Result]; stateful code is a
      function [S -> Result A * S], so that the state an exception leaves
      behind is part of the model. *)

From Stdlib Require Import ZArith Lia.
From stdpp Require Import gmap strings list pretty.

Local Open Scope Z_scope.
Local Set Warnings "-register-all".

(** ** JavaScript values and property bags *)

Inductive JsValue : Type :=
| JUndefined
| JNull
| JBool (b : bool)
| JNum (n : Z)
| JStr (s : string)
| JArr (l : list JsValue)
| JObject (address : nat).

(** [v !== undefined] *)
Definition isDefined (v : JsValue) : bool :=
  match v with JUndefined => false | _ => true end.

(** A [PropertySet]: the own enumerable properties of the object and the
    keys whose [writable] attribute is false. *)
Record PropertySet : Type := mkProps {
  entries : gmap string JsValue;
  nonWritable : gset string
}.

(** [{}] and [createMap()] *)
Definition emptyProps : PropertySet := mkProps ∅ ∅.

(** [props[key]]; a missing key reads as [undefined]. *)
Definition getProp (p : PropertySet) (key : string) : JsValue :=
  default JUndefined (entries p !! key).

(** [props?.[key]] on a possibly undefined bag. *)
Definition getPropOpt (p : option PropertySet) (key : string) : JsValue :=
  match p with Some q => getProp q key | None => JUndefined end.

(** [{ ...props, [key]: v }]: a fresh object, every property writable. *)
Definition spreadWith (p : option PropertySet) (key : string) (v : JsValue)
  : PropertySet :=
  mkProps (<[key := v]> (match p with Some q => entries q | None => ∅ end)) ∅.

(** [Object.defineProperty(props, key, {configurable: false, enumerable: true,
    writable: false})]: the value is kept, the key becomes non-writable. A key
    that was missing is created holding [undefined]. *)
Definition defineNonWritable (p : PropertySet) (key : string) : PropertySet :=
  mkProps (<[key := getProp p key]> (entries p)) ({[key]} ∪ nonWritable p).

(** Modelled from the spec: the reserved property keys. [reservedRangeLabelsKey]
    is a constant of the merge-tree package, which is not part of the sources
    at hand; [reservedIntervalIdKey] is declared in intervalCollection.ts. *)
Definition reservedRangeLabelsKey : string := "referenceRangeLabels".
Definition reservedIntervalIdKey : string := "intervalId".

(** Modelled from the spec: [addProperties(oldProps, newProps)] of merge-tree
    ("writes it into properties"): every key of [newProps] is written into
    [oldProps], created when undefined; a [null] value deletes the key. *)
Definition extendKey (acc : gmap string JsValue) (kv : string * JsValue)
  : gmap string JsValue :=
  match kv.2 with
  | JNull => delete kv.1 acc
  | v => <[kv.1 := v]> acc
  end.

Definition addProperties (oldProps : option PropertySet) (newProps : PropertySet)
  : PropertySet :=
  let old := default emptyProps oldProps in
  mkProps (foldl extendKey (entries old) (map_to_list (entries newProps)))
          (nonWritable old).

(** ** Interval types and stickiness *)

Module IntervalType.
Definition Simple : Z := 0.
Definition Nest : Z := 1.
Definition SlideOnRemove : Z := 2.
Definition Transient : Z := 4.
End IntervalType.

Module IntervalStickiness.
Definition NONE : Z := 0.
Definition START : Z := 1.
Definition END : Z := 2.
Definition FULL : Z := 3.
End IntervalStickiness.

(** ** Serialized forms *)

(** [ISerializedInterval] *)
Record ISerializedInterval : Type := mkSerialized {
  ser_sequenceNumber : Z;
  ser_start : Z;
  ser_end : Z;
  ser_intervalType : Z;
  ser_stickiness : option Z;
  ser_properties : option PropertySet
}.

(** [SerializedIntervalDelta]: [start], [end] and [properties] are optional. *)
Record SerializedIntervalDelta : Type := mkDelta {
  d_sequenceNumber : Z;
  d_start : option Z;
  d_end : option Z;
  d_intervalType : Z;
  d_stickiness : option Z;
  d_properties : option PropertySet
}.

(** [CompressedSerializedInterval]: the five- or six-element array
    [[start, end, sequenceNumber, intervalType, properties, stickiness?]]. *)
Inductive CompressedSerializedInterval : Type :=
| Compressed5 (c_start c_end c_seq c_type : Z) (c_props : PropertySet)
| Compressed6 (c_start c_end c_seq c_type : Z) (c_props : PropertySet)
              (c_stickiness : Z).

(** [[label]] for an optional label *)
Definition labelArray (label : option string) : JsValue :=
  JArr [match label with Some l => JStr l | None => JUndefined end].

Definition decompressInterval (interval : CompressedSerializedInterval)
  (label : option string) : ISerializedInterval :=
  match interval with
  | Compressed5 s e q t p =>
      {| ser_start := s; ser_end := e; ser_sequenceNumber := q;
         ser_intervalType := t;
         ser_properties :=
           Some (spreadWith (Some p) reservedRangeLabelsKey (labelArray label));
         ser_stickiness := None |}
  | Compressed6 s e q t p k =>
      {| ser_start := s; ser_end := e; ser_sequenceNumber := q;
         ser_intervalType := t;
         ser_properties :=
           Some (spreadWith (Some p) reservedRangeLabelsKey (labelArray label));
         ser_stickiness := Some k |}
  end.

Definition compressInterval (interval : ISerializedInterval)
  : CompressedSerializedInterval :=
  let props :=
    spreadWith (ser_properties interval) reservedRangeLabelsKey JUndefined in
  match ser_stickiness interval with
  | Some k =>
      if bool_decide (k ≠ IntervalStickiness.END)
      then Compressed6 (ser_start interval) (ser_end interval)
             (ser_sequenceNumber interval) (ser_intervalType interval) props k
      else Compressed5 (ser_start interval) (ser_end interval)
             (ser_sequenceNumber interval) (ser_intervalType interval) props
  | None =>
      Compressed5 (ser_start interval) (ser_end interval)
        (ser_sequenceNumber interval) (ser_intervalType interval) props
  end.

(** The data carried by a property bag, attributes apart. *)
Definition propsData (p : option PropertySet) : gmap string JsValue :=
  match p with Some q => entries q | None => ∅ end.

(** Two serialized intervals that JSON cannot tell apart: equal fields and
    property bags holding the same entries. *)
Definition sameSerialized (a b : ISerializedInterval) : Prop :=
  ser_sequenceNumber a = ser_sequenceNumber b ∧
  ser_start a = ser_start b ∧
  ser_end a = ser_end b ∧
  ser_intervalType a = ser_intervalType b ∧
  ser_stickiness a = ser_stickiness b ∧
  propsData (ser_properties a) = propsData (ser_properties b).

(** [interval[4]] and [interval[5]] of a compressed interval *)
Definition compressedProps (c : CompressedSerializedInterval) : PropertySet :=
  match c with
  | Compressed5 _ _ _ _ p => p
  | Compressed6 _ _ _ _ p _ => p
  end.

Definition compressedStickiness (c : CompressedSerializedInterval) : option Z :=
  match c with
  | Compressed5 _ _ _ _ _ => None
  | Compressed6 _ _ _ _ _ k => Some k
  end.

(** ** Exceptions and state *)

Inductive Error : Type :=
| LoggingError (message : string)
| UsageError (message : string)
| TypeError (message : string)
| AssertionFailed (code : Z).

Inductive Result (A : Type) : Type :=
| Ok (a : A)
| Throw (e : Error).
Arguments Ok {A} a.
Arguments Throw {A} e.

Definition bindR {A B : Type} (m : Result A) (k : A → Result B) : Result B :=
  match m with
  | Ok a => k a
  | Throw e => Throw e
  end.

(** [assert(cond, code)] of common-utils *)
Definition jsAssert (cond : bool) (code : Z) : Result unit :=
  if cond then Ok () else Throw (AssertionFailed code).

(** A computation over the mutable state [S]. An exception does not undo the
    writes made before it, so the state is returned in both cases. *)
Definition M (S A : Type) : Type := S → Result A * S.

Definition ret {S A : Type} (a : A) : M S A := λ s, (Ok a, s).

Definition bindM {S A B : Type} (m : M S A) (k : A → M S B) : M S B :=
  λ s, match m s with
       | (Ok a, s') => k a s'
       | (Throw e, s') => (Throw e, s')
       end.

Definition throw {S A : Type} (e : Error) : M S A := λ s, (Throw e, s).
Definition liftR {S A : Type} (r : Result A) : M S A := λ s, (r, s).
Definition get {S : Type} : M S S := λ s, (Ok s, s).
Definition put {S : Type} (s : S) : M S unit := λ _, (Ok (), s).
Definition update {S : Type} (f : S → S) : M S unit := λ s, (Ok (), f s).

Declare Scope js_scope.
Delimit Scope js_scope with js.
Notation "'try!' x ':=' m 'in' k" := (bindR m (λ x, k))
  (at level 10, x pattern, m at level 100, k at level 200) : js_scope.
Notation "'let!' x ':=' m 'in' k" := (bindM m (λ x, k))
  (at level 10, x pattern, m at level 100, k at level 200) : js_scope.
Notation "m ';;' k" := (bindM m (λ _, k))
  (at level 100, k at level 200, right associativity) : js_scope.
Local Open Scope js_scope.

(** [for (const x of xs) body(x)] *)
Fixpoint forEach {S A : Type} (xs : list A) (body : A → M S unit) : M S unit :=
  match xs with
  | [] => ret ()
  | x :: rest => body x ;; forEach rest body
  end.

(** ** The sequence CRDT surface (merge-tree) *)

(** Modelled from the spec: the bit flags of merge-tree's [ReferenceType]
    (section 3, PositionReference); the enum itself is not part of the
    sources at hand. *)
Module ReferenceType.
Definition Simple : Z := 0.
Definition Tile : Z := 1.
Definition NestBegin : Z := 2.
Definition NestEnd : Z := 4.
Definition RangeBegin : Z := 16.
Definition RangeEnd : Z := 32.
Definition SlideOnRemove : Z := 64.
Definition StayOnRemove : Z := 128.
Definition Transient : Z := 256.
End ReferenceType.

(** Modelled from the spec: [refTypeIncludesFlag] of merge-tree. *)
Definition refTypeIncludesFlag (refType flags : Z) : bool :=
  negb (Z.land refType flags =? 0).

Inductive SlidingPreference : Type := BACKWARD | FORWARD.

(** Modelled from the spec: the sentinel that a detached reference resolves
    to, and the sequence number of an op that is not yet acknowledged. *)
Definition DetachedReferencePosition : Z := -1.
Definition UnassignedSequenceNumber : Z := -1.

(** A segment is an opaque handle owned by the merge tree. *)
Definition ISegment : Type := nat.

(** [{ segment, offset }] *)
Record Segoff : Type := mkSegoff {
  so_segment : option ISegment;
  so_offset : option Z
}.

(** [LocalReferencePosition]: what the interval code reads and writes of a
    reference. The slide callbacks of a reference are kept with the interval
    that installed them (see [SequenceInterval.callbacks]). *)
Record LocalReferencePosition : Type := mkRef {
  getSegment : option ISegment;
  getOffset : Z;
  refType : Z;
  slidingPreference : SlidingPreference;
  ref_properties : option PropertySet
}.

(** [ref.addProperties(newProps)] *)
Definition ref_addProperties (ref : LocalReferencePosition) (newProps : PropertySet)
  : LocalReferencePosition :=
  mkRef (getSegment ref) (getOffset ref) (refType ref) (slidingPreference ref)
        (Some (addProperties (ref_properties ref) newProps)).

(** [ref.refType = t] *)
Definition ref_setRefType (ref : LocalReferencePosition) (t : Z)
  : LocalReferencePosition :=
  mkRef (getSegment ref) (getOffset ref) t (slidingPreference ref)
        (ref_properties ref).

(** [ISequencedDocumentMessage]: the fields of an op the interval code reads. *)
Record ISequencedDocumentMessage : Type := mkOp {
  sequenceNumber : Z;
  referenceSequenceNumber : Z;
  clientId : string
}.

(** The merge-tree [Client] as the interval code consumes it (section 6 of the
    specification). Its methods are the readings of the current state of the
    sequence; [compareReferencePositions] is the order the merge tree gives
    to the references it holds, [hasLocalRef seg ref] is
    [seg.localRefs.has(ref)]. *)
Record Client : Type := mkClient {
  getCurrentSeq : Z;
  collabWindowClientId : Z;
  getLongClientId : Z → string;
  getContainingSegment : Z → option (Z * string) → option Z → Segoff;
  getSlideToSegment : Segoff → Segoff;
  findReconnectionPosition : ISegment → Z → Z;
  cachedLength : ISegment → Z;
  localReferencePositionToPosition : LocalReferencePosition → Z;
  compareReferencePositions : LocalReferencePosition → LocalReferencePosition → Z;
  hasLocalRef : ISegment → LocalReferencePosition → bool
}.

(** Modelled from the spec: "Create(segment, offset, refType,
    slidingPreference) -> Reference. Binds a reference to a live segment."
    A sliding preference that is not given is Forward, an offset that is not
    given is 0. *)
Definition createLocalReferencePosition (segment : ISegment) (offset : option Z)
  (refType : Z) (properties : option PropertySet)
  (slidingPreference : option SlidingPreference) : LocalReferencePosition :=
  mkRef (Some segment) (default 0 offset) refType
        (default FORWARD slidingPreference) properties.

(** Modelled from the spec: "CreateDetached(refType) -> Reference. For
    references whose anchor segment has vanished." *)
Definition createDetachedLocalReferencePosition (refType : Z)
  : LocalReferencePosition :=
  mkRef None 0 refType FORWARD None.

(** Modelled from the spec: merge-tree's [PropertiesManager], which "tracks
    pending property annotations": per key, the number of local changes that
    are not yet acknowledged. *)
Module PropertiesManager.

Record t : Type := mk {
  pendingKeyUpdateCount : gmap string Z;
  pendingRewriteCount : Z
}.

Definition new : t := mk ∅ 0.

(** [props[key] = v], which throws on a non-writable key (strict mode);
    [null] deletes the key. *)
Definition writeKey (props : PropertySet) (key : string) (v : JsValue)
  : Result PropertySet :=
  if bool_decide (key ∈ nonWritable props)
  then Throw (TypeError "Cannot assign to read only property")
  else Ok (mkProps (extendKey (entries props) (key, v)) (nonWritable props)).

(** One round of the loop over the keys of [newProps]. The accumulator is the
    property bag, the manager and the deltas. *)
Definition addKey (seq : option Z) (collaborating : bool)
  (acc : Result (PropertySet * t * PropertySet)) (kv : string * JsValue)
  : Result (PropertySet * t * PropertySet) :=
  try! (props, mgr, deltas) := acc in
  let local := bool_decide (seq = Some UnassignedSequenceNumber) in
  let blocked :=
    collaborating && negb local &&
    bool_decide (is_Some (pendingKeyUpdateCount mgr !! kv.1)) in
  if blocked then Ok (props, mgr, deltas)
  else
    let mgr' :=
      if collaborating && local
      then mk (<[kv.1 := default 0 (pendingKeyUpdateCount mgr !! kv.1) + 1]>
                 (pendingKeyUpdateCount mgr))
              (pendingRewriteCount mgr)
      else mgr in
    let previous :=
      match getProp props kv.1 with JUndefined => JNull | v => v end in
    try! props' := writeKey props kv.1 kv.2 in
    Ok (props', mgr', mkProps (<[kv.1 := previous]> (entries deltas)) ∅).

(** [addProperties(oldProps, newProps, op, seq, collaborating)] without a
    combining op: the changed bag, the manager and the deltas ([None] when
    pending rewrites block the change). *)
Definition addProperties (mgr : t) (oldProps newProps : PropertySet)
  (seq : option Z) (collaborating : bool)
  : Result (PropertySet * t * option PropertySet) :=
  if (0 <? pendingRewriteCount mgr) &&
     negb (bool_decide (seq = Some UnassignedSequenceNumber)) && collaborating
  then Ok (oldProps, mgr, None)
  else
    try! (props, mgr', deltas) :=
      foldl (addKey seq collaborating) (Ok (oldProps, mgr, emptyProps))
            (map_to_list (entries newProps)) in
    Ok (props, mgr', Some deltas).

(** [copyTo(oldProps, newProps, newManager)]: "properties and
    property-manager state are copied". *)
Definition copyTo (mgr : t) (oldProps newProps : PropertySet)
  : PropertySet * t :=
  (mkProps (entries oldProps ∪ entries newProps) (nonWritable newProps), mgr).

(** [ackPendingProperties({type: ANNOTATE, props})]: one pending change less
    for every key of [props] that has some; a count that reaches zero is
    dropped. *)
Definition ackKey (counts : gmap string Z) (kv : string * JsValue)
  : gmap string Z :=
  match counts !! kv.1 with
  | Some n => if n - 1 =? 0 then delete kv.1 counts else <[kv.1 := n - 1]> counts
  | None => counts
  end.

Definition ackPendingProperties (mgr : t) (props : PropertySet) : t :=
  mk (foldl ackKey (pendingKeyUpdateCount mgr) (map_to_list (entries props)))
     (pendingRewriteCount mgr).

End PropertiesManager.

(** ** Intervals *)

(** [`${v}`] *)
Fixpoint toStringJs (v : JsValue) : string :=
  match v with
  | JUndefined => "undefined"
  | JNull => "null"
  | JBool true => "true"
  | JBool false => "false"
  | JNum n => pretty n
  | JStr s => s
  | JArr l =>
      (fix join (l : list JsValue) : string :=
         match l with
         | [] => ""
         | [x] => match x with JUndefined | JNull => "" | _ => toStringJs x end
         | x :: rest =>
             (match x with JUndefined | JNull => "" | _ => toStringJs x end)
               +:+ "," +:+ join rest
         end) l
  | JObject _ => "[object Object]"
  end.

(** JS truthiness of an optional number: [undefined] and [0] are falsy. *)
Definition truthyNumber (n : option Z) : bool :=
  match n with Some k => negb (k =? 0) | None => false end.

(** JS truthiness of an optional boolean. *)
Definition truthyFlag (b : option bool) : bool := default false b.

(** The numeric values of the [SlidingPreference] constants. *)
Definition slidingPreferenceValue (p : SlidingPreference) : Z :=
  match p with BACKWARD => 0 | FORWARD => 1 end.

Definition startReferenceSlidingPreference (stickiness : Z) : SlidingPreference :=
  if negb (Z.land stickiness IntervalStickiness.START =? 0)
  then BACKWARD else FORWARD.

Definition endReferenceSlidingPreference (stickiness : Z) : SlidingPreference :=
  if negb (Z.land stickiness IntervalStickiness.END =? 0)
  then FORWARD else BACKWARD.

(** *** The numeric interval *)

Module Interval.

Record t : Type := mk {
  start : Z;
  end_ : Z;
  properties : PropertySet;
  propertyManager : PropertiesManager.t;
  auxProps : option (list PropertySet);
  forceCompare : option Z
}.

Definition addProperties (this : t) (newProps : option PropertySet)
  (collaborating : bool) (seq : option Z) : Result (t * option PropertySet) :=
  match newProps with
  | Some p =>
      try! (props, mgr, deltas) :=
        PropertiesManager.addProperties (propertyManager this) (properties this)
          p seq collaborating in
      Ok (mk (start this) (end_ this) props mgr (auxProps this)
             (forceCompare this), deltas)
  | None => Ok (this, None)
  end.

(** [new Interval(start, end, props)] *)
Definition new (start end_ : Z) (props : option PropertySet) : Result t :=
  let this := mk start end_ emptyProps PropertiesManager.new None None in
  match props with
  | Some p => try! (this', _) := addProperties this (Some p) false None in Ok this'
  | None => Ok this
  end.

Definition getIntervalId (this : t) : Result string :=
  let id := getProp (properties this) reservedIntervalIdKey in
  try! _ := jsAssert (isDefined id) 0x5e1 in
  Ok (toStringJs id).

Definition serialize (this : t) : ISerializedInterval :=
  {| ser_end := end_ this; ser_intervalType := 0; ser_sequenceNumber := 0;
     ser_start := start this; ser_stickiness := None;
     ser_properties := Some (properties this) |}.

Definition clone (this : t) : Result t :=
  new (start this) (end_ this) (Some (properties this)).

Definition compareStart (this b : t) : Z := start this - start b.
Definition compareEnd (this b : t) : Z := end_ this - end_ b.

Definition modify (this : t) (label : string) (start' end' : option Z)
  (op : option ISequencedDocumentMessage) : Result (option t) :=
  let startPos := default (start this) start' in
  let endPos := default (end_ this) end' in
  if (start this =? startPos) && (end_ this =? endPos)
  then Ok None
  else
    try! newInterval := new startPos endPos None in
    let '(props, mgr) :=
      PropertiesManager.copyTo (propertyManager this) (properties this)
        (properties newInterval) in
    Ok (Some (mk startPos endPos props mgr (auxProps newInterval)
                 (forceCompare newInterval))).

(** [getAdditionalPropertySets()] *)
Definition getAdditionalPropertySets (this : t) : list PropertySet :=
  default [] (auxProps this).

(** [addPropertySet(props)] *)
Definition addPropertySet (this : t) (props : PropertySet) : t :=
  mk (start this) (end_ this) (properties this) (propertyManager this)
     (Some (default [] (auxProps this) ++ [props])) (forceCompare this).

(** [overlaps(b)] *)
Definition overlaps (this b : t) : bool :=
  (start this <=? end_ b) && (end_ this >=? start b).

(** [union(b)] *)
Definition union (this b : t) : Result t :=
  new (Z.min (start this) (start b)) (Z.max (end_ this) (end_ b))
      (Some (properties this)).

(** [getProperties()] *)
Definition getProperties (this : t) : PropertySet := properties this.

End Interval.

(** *** The sequence interval *)

Definition createPositionReferenceFromSegoff (client : Client) (segoff : Segoff)
  (refType : Z) (op : option ISequencedDocumentMessage) (localSeq : option Z)
  (fromSnapshot : option bool) (slidingPreference : option SlidingPreference)
  : Result LocalReferencePosition :=
  match so_segment segoff with
  | Some segment =>
      Ok (createLocalReferencePosition segment (so_offset segoff) refType None
            slidingPreference)
  | None =>
      if negb (bool_decide (is_Some op)) && negb (truthyNumber localSeq) &&
         negb (truthyFlag fromSnapshot) &&
         negb (refTypeIncludesFlag refType ReferenceType.Transient)
      then Throw (UsageError "Non-transient references need segment")
      else Ok (createDetachedLocalReferencePosition refType)
  end.

Definition createPositionReference (client : Client) (pos : Z) (refType : Z)
  (op : option ISequencedDocumentMessage) (fromSnapshot : option bool)
  (localSeq : option Z) (slidingPreference : option SlidingPreference)
  : Result LocalReferencePosition :=
  try! segoff :=
    match op with
    | Some o =>
        try! _ := jsAssert
                    (negb (Z.land refType ReferenceType.SlideOnRemove =? 0))
                    0x2f5 in
        let segoff :=
          getContainingSegment client pos
            (Some (referenceSequenceNumber o, clientId o)) None in
        Ok (getSlideToSegment client segoff)
    | None =>
        try! _ := jsAssert
                    ((Z.land refType ReferenceType.SlideOnRemove =? 0)
                     || truthyFlag fromSnapshot)
                    0x2f6 in
        Ok (getContainingSegment client pos None localSeq)
    end in
  createPositionReferenceFromSegoff client segoff refType op localSeq
    fromSnapshot slidingPreference.


Module SequenceInterval.

(** [callbacks] holds the pair of closures that [addIntervalListeners]
    creates; a closure is its captured variables, [pendingChanges] and
    [previousInterval]. Both endpoint references point their [beforeSlide]
    and [afterSlide] slots at this one pair. *)
Inductive t : Type := mk {
  client : Client;
  start : LocalReferencePosition;
  end_ : LocalReferencePosition;
  intervalType : Z;
  properties : PropertySet;
  propertyManager : PropertiesManager.t;
  stickiness : Z;
  callbacks : option listener;
  forceCompare : option Z
}
with listener : Type := mkListener {
  pendingChanges : Z;
  previousInterval : option t
}.

Definition setEndpoints (this : t) (s e : LocalReferencePosition) : t :=
  mk (client this) s e (intervalType this) (properties this)
     (propertyManager this) (stickiness this) (callbacks this)
     (forceCompare this).

Definition setCallbacks (this : t) (cb : option listener) : t :=
  mk (client this) (start this) (end_ this) (intervalType this)
     (properties this) (propertyManager this) (stickiness this) cb
     (forceCompare this).

Definition setProps (this : t) (props : PropertySet)
  (mgr : PropertiesManager.t) : t :=
  mk (client this) (start this) (end_ this) (intervalType this) props mgr
     (stickiness this) (callbacks this) (forceCompare this).

Definition addProperties (this : t) (newProps : PropertySet)
  (collab : bool) (seq : option Z) : Result (t * option PropertySet) :=
  try! (props, mgr, deltas) :=
    PropertiesManager.addProperties (propertyManager this) (properties this)
      newProps seq collab in
  Ok (setProps this props mgr, deltas).

(** [new SequenceInterval(client, start, end, intervalType, props, stickiness)];
    a stickiness that is not given is End. *)
Definition new (client : Client) (start end_ : LocalReferencePosition)
  (intervalType : Z) (props : option PropertySet) (stickiness : option Z)
  : Result t :=
  let this :=
    mk client start end_ intervalType emptyProps PropertiesManager.new
       (default IntervalStickiness.END stickiness) None None in
  match props with
  | Some p => try! (this', _) := addProperties this p false None in Ok this'
  | None => Ok this
  end.

Definition addPositionChangeListeners (this : t) (closures : listener) : t :=
  match callbacks this with
  | None => setCallbacks this (Some closures)
  | Some _ => this
  end.

Definition removePositionChangeListeners (this : t) : t :=
  setCallbacks this None.

Definition serialize (this : t) : ISerializedInterval :=
  let startPosition :=
    localReferencePositionToPosition (client this) (start this) in
  let endPosition :=
    localReferencePositionToPosition (client this) (end_ this) in
  {| ser_end := endPosition; ser_intervalType := intervalType this;
     ser_sequenceNumber := getCurrentSeq (client this);
     ser_start := startPosition;
     ser_properties := Some (properties this);
     ser_stickiness :=
       if bool_decide (stickiness this ≠ IntervalStickiness.END)
       then Some (stickiness this) else None |}.

Definition clone (this : t) : Result t :=
  new (client this) (start this) (end_ this) (intervalType this)
      (Some (properties this)) (Some (stickiness this)).

Definition compareStart (this b : t) : Z :=
  compareReferencePositions (client this) (start this) (start b).
Definition compareEnd (this b : t) : Z :=
  compareReferencePositions (client this) (end_ this) (end_ b).

Definition getIntervalId (this : t) : Result string :=
  let id := getProp (properties this) reservedIntervalIdKey in
  try! _ := jsAssert (isDefined id) 0x5e2 in
  Ok (toStringJs id).

Definition modify (this : t) (label : string)
  (start' end' : option Z) (op : option ISequencedDocumentMessage)
  (localSeq : option Z) (stickiness : option Z)
  : Result t :=
  let stickiness := default IntervalStickiness.END stickiness in
  let getRefType (baseType : Z) : Z :=
    match op with
    | None =>
        Z.lor (Z.land baseType (Z.lnot ReferenceType.SlideOnRemove))
              ReferenceType.StayOnRemove
    | Some _ => baseType
    end in
  try! startRef :=
    match start' with
    | Some s =>
        try! ref :=
          createPositionReference (client this) s
            (getRefType (refType (start this))) op None
            localSeq (Some (startReferenceSlidingPreference stickiness)) in
        match ref_properties (start this) with
        | Some p => Ok (ref_addProperties ref p)
        | None => Ok ref
        end
    | None => Ok (start this)
    end in
  try! endRef :=
    match end' with
    | Some e =>
        try! ref :=
          createPositionReference (client this) e
            (getRefType (refType (end_ this))) op None
            localSeq (Some (endReferenceSlidingPreference stickiness)) in
        match ref_properties (end_ this) with
        | Some p => Ok (ref_addProperties ref p)
        | None => Ok ref
        end
    | None => Ok (end_ this)
    end in
  try! newInterval :=
    new (client this) startRef endRef
      (intervalType this) None None in
  let '(props, mgr) :=
    PropertiesManager.copyTo (propertyManager this)
      (properties this)
      (properties newInterval) in
  Ok (setProps newInterval props mgr).

(** [overlaps(b)] *)
Definition overlaps (this b : t) : bool :=
  (compareReferencePositions (client this) (start this) (end_ b) <=? 0) &&
  (compareReferencePositions (client this) (end_ this) (start b) >=? 0).

(** [overlapsPos(bstart, bend)] *)
Definition overlapsPos (this : t) (bstart bend : Z) : bool :=
  let startPos := localReferencePositionToPosition (client this) (start this) in
  let endPos := localReferencePositionToPosition (client this) (end_ this) in
  (endPos >? bstart) && (startPos <? bend).

End SequenceInterval.

Definition createSequenceInterval (label : string) (start end_ : Z)
  (client : Client) (intervalType : Z) (op : option ISequencedDocumentMessage)
  (fromSnapshot : option bool) (stickiness : option Z)
  : Result SequenceInterval.t :=
  let stickiness := default IntervalStickiness.END stickiness in
  let '(beginRefType, endRefType) :=
    if intervalType =? IntervalType.Transient
    then (ReferenceType.Transient, ReferenceType.Transient)
    else
      let '(b, e) :=
        if intervalType =? IntervalType.Nest
        then (ReferenceType.NestBegin, ReferenceType.NestEnd)
        else (ReferenceType.RangeBegin, ReferenceType.RangeEnd) in
      if bool_decide (is_Some op) || truthyFlag fromSnapshot
      then (Z.lor b ReferenceType.SlideOnRemove,
            Z.lor e ReferenceType.SlideOnRemove)
      else (Z.lor b ReferenceType.StayOnRemove,
            Z.lor e ReferenceType.StayOnRemove) in
  try! startLref :=
    createPositionReference client start beginRefType op fromSnapshot None
      (Some (startReferenceSlidingPreference stickiness)) in
  try! endLref :=
    createPositionReference client end_ endRefType op fromSnapshot None
      (Some (endReferenceSlidingPreference stickiness)) in
  let rangeProp :=
    mkProps {[reservedRangeLabelsKey := labelArray (Some label)]} ∅ in
  SequenceInterval.new client (ref_addProperties startLref rangeProp)
    (ref_addProperties endLref rangeProp) intervalType (Some rangeProp)
    (Some stickiness).

Definition createInterval (label : string) (start end_ : Z)
  : Result Interval.t :=
  let rangeProp :=
    if 0 <? Z.of_nat (String.length label)
    then mkProps {[reservedRangeLabelsKey := labelArray (Some label)]} ∅
    else emptyProps in
  Interval.new start end_ (Some rangeProp).

(** *** The interface the collections are generic in *)

(** [TInterval extends ISerializableInterval]. [asSequenceInterval] is the
    test [interval instanceof SequenceInterval] together with the downcast,
    [ofSequenceInterval] writes a changed sequence interval back. A method
    that updates the object in place returns the updated object. *)
Module I.

Class ISerializableInterval (T : Type) : Type := {
  properties : T → PropertySet;
  setProperties : T → PropertySet → T;
  ackPendingProperties : T → PropertySet → T;
  serialize : T → ISerializedInterval;
  addProperties : T → PropertySet → bool → option Z
                  → Result (T * option PropertySet);
  getIntervalId : T → Result string;
  compare : T → T → Result Z;
  modify : T → string → option Z → option Z
           → option ISequencedDocumentMessage → option Z → Result (option T);
  asSequenceInterval : T → option SequenceInterval.t;
  ofSequenceInterval : T → SequenceInterval.t → T;
  forceCompare : T → option Z;
  setForceCompare : T → Z → T
}.

End I.

(** [thisId > bId ? 1 : thisId < bId ? -1 : 0] on strings *)
Definition compareIds (thisId bId : string) : Z :=
  match String.compare thisId bId with
  | Gt => 1
  | Lt => -1
  | Eq => 0
  end.

(** [compare(b)], shared by both variants: by start, then by end, then by id;
    an empty id is falsy and ties. *)
Definition compareWith {T : Type} (compareStart compareEnd : T → T → Z)
  (getIntervalId : T → Result string) (this b : T) : Result Z :=
  let startResult := compareStart this b in
  if startResult =? 0 then
    let endResult := compareEnd this b in
    if endResult =? 0 then
      try! thisId := getIntervalId this in
      if bool_decide (thisId ≠ "") then
        try! bId := getIntervalId b in
        if bool_decide (bId ≠ "") then Ok (compareIds thisId bId) else Ok 0
      else Ok 0
    else Ok endResult
  else Ok startResult.

#[export] Instance Interval_ISerializableInterval
  : I.ISerializableInterval Interval.t := {|
  I.properties := Interval.properties;
  I.setProperties := λ this p,
    Interval.mk (Interval.start this) (Interval.end_ this) p
      (Interval.propertyManager this) (Interval.auxProps this)
      (Interval.forceCompare this);
  I.ackPendingProperties := λ this p,
    Interval.mk (Interval.start this) (Interval.end_ this)
      (Interval.properties this)
      (PropertiesManager.ackPendingProperties (Interval.propertyManager this) p)
      (Interval.auxProps this) (Interval.forceCompare this);
  I.serialize := Interval.serialize;
  I.addProperties := λ this p collab seq,
    Interval.addProperties this (Some p) collab seq;
  I.getIntervalId := Interval.getIntervalId;
  I.compare :=
    compareWith Interval.compareStart Interval.compareEnd Interval.getIntervalId;
  I.modify := λ this label s e op _, Interval.modify this label s e op;
  I.asSequenceInterval := λ _, None;
  I.ofSequenceInterval := λ this _, this;
  I.forceCompare := Interval.forceCompare;
  I.setForceCompare := λ this n,
    Interval.mk (Interval.start this) (Interval.end_ this)
      (Interval.properties this) (Interval.propertyManager this)
      (Interval.auxProps this) (Some n)
|}.

#[export] Instance SequenceInterval_ISerializableInterval
  : I.ISerializableInterval SequenceInterval.t := {|
  I.properties := SequenceInterval.properties;
  I.setProperties := λ this p,
    SequenceInterval.setProps this p (SequenceInterval.propertyManager this);
  I.ackPendingProperties := λ this p,
    SequenceInterval.setProps this (SequenceInterval.properties this)
      (PropertiesManager.ackPendingProperties
         (SequenceInterval.propertyManager this) p);
  I.serialize := SequenceInterval.serialize;
  I.addProperties := SequenceInterval.addProperties;
  I.getIntervalId := SequenceInterval.getIntervalId;
  I.compare :=
    compareWith SequenceInterval.compareStart SequenceInterval.compareEnd
      SequenceInterval.getIntervalId;
  I.modify := λ this label s e op localSeq,
    try! newInterval := SequenceInterval.modify this label s e op localSeq None in
    Ok (Some newInterval);
  I.asSequenceInterval := Some;
  I.ofSequenceInterval := λ _ si, si;
  I.forceCompare := SequenceInterval.forceCompare;
  I.setForceCompare := λ this n,
    SequenceInterval.mk (SequenceInterval.client this)
      (SequenceInterval.start this) (SequenceInterval.end_ this)
      (SequenceInterval.intervalType this) (SequenceInterval.properties this)
      (SequenceInterval.propertyManager this) (SequenceInterval.stickiness this)
      (SequenceInterval.callbacks this) (Some n)
|}.

(** [IIntervalHelpers<TInterval>] *)
Record IIntervalHelpers (T : Type) : Type := mkHelpers {
  compareEnds : T → T → Z;
  compareStarts : option (T → T → Z);
  create : string → Z → Z → option Client → Z
           → option ISequencedDocumentMessage → option bool → option Z
           → Result T
}.
Arguments compareEnds {T} _ _ _.
Arguments compareStarts {T} _.
Arguments create {T} _ _ _ _ _ _ _ _ _.

(** Calling [createSequenceInterval] without a client dereferences
    [undefined]. *)
Definition sequenceIntervalHelpers : IIntervalHelpers SequenceInterval.t := {|
  compareEnds := SequenceInterval.compareEnd;
  compareStarts := Some SequenceInterval.compareStart;
  create := λ label s e client intervalType op fromSnapshot stickiness,
    match client with
    | Some c =>
        createSequenceInterval label s e c intervalType op fromSnapshot stickiness
    | None => Throw (TypeError "Cannot read properties of undefined")
    end
|}.

Definition intervalHelpers : IIntervalHelpers Interval.t := {|
  compareEnds := λ a b, Interval.end_ a - Interval.end_ b;
  compareStarts := Some (λ a b, Interval.start a - Interval.start b);
  create := λ label s e _ _ _ _ _, createInterval label s e
|}.

(** The helpers that [createIntervalIndex] and [IntervalCollectionFactory.load]
    build: no [compareStarts]. *)
Definition compareIntervalEnds (a b : Interval.t) : Z :=
  Interval.end_ a - Interval.end_ b.

Definition numericHelpers : IIntervalHelpers Interval.t := {|
  compareEnds := compareIntervalEnds;
  compareStarts := None;
  create := λ label s e _ _ _ _ _, createInterval label s e
|}.

(** ** Indices *)

(** Interval objects are shared between the indices and updated in place:
    the store maps the address of an object to its current value. *)
Definition readObject {T : Type} (store : gmap nat T) (address : nat) : Result T :=
  match store !! address with
  | Some v => Ok v
  | None => Throw (TypeError "no object at this address")
  end.

(** Modelled from the spec: merge-tree's [RedBlackTree], "a red-black tree
    keyed by" a comparator. The model is the list of the stored objects in key
    order; an entry whose key compares equal to the one given is the entry
    found. *)
Module RedBlackTree.
Section WithComparator.
Context {T : Type}.
Variable compareKeys : T → T → Result Z.
Variable store : gmap nat T.

Definition isEmpty (tree : list nat) : bool :=
  match tree with [] => true | _ => false end.

(** [tree.remove(key)] *)
Fixpoint remove (key : T) (tree : list nat) : Result (list nat) :=
  match tree with
  | [] => Ok []
  | a :: rest =>
      try! v := readObject store a in
      try! c := compareKeys key v in
      try! rest' := remove key rest in
      Ok (if c =? 0 then rest' else a :: rest')
  end.

Fixpoint insert (key : T) (address : nat) (tree : list nat)
  : Result (list nat) :=
  match tree with
  | [] => Ok [address]
  | a :: rest =>
      try! v := readObject store a in
      try! c := compareKeys key v in
      if c <? 0 then Ok (address :: a :: rest)
      else try! rest' := insert key address rest in Ok (a :: rest')
  end.

(** [tree.put(key, data)]: an entry with an equal key is replaced. *)
Definition put (key : T) (address : nat) (tree : list nat)
  : Result (list nat) :=
  try! tree' := remove key tree in
  insert key address tree'.

(** [tree.mapRange(action, accum, start, end)] with an action that collects
    the data of the node: the entries from [lo] to [hi], in key order. *)
Fixpoint mapRange (lo hi : T) (tree : list nat) : Result (list nat) :=
  match tree with
  | [] => Ok []
  | a :: rest =>
      try! v := readObject store a in
      try! cl := compareKeys lo v in
      try! ch := compareKeys v hi in
      try! rest' := mapRange lo hi rest in
      Ok (if (cl <=? 0) && (ch <=? 0) then a :: rest' else rest')
  end.

End WithComparator.
End RedBlackTree.

(** [compareOverrideables(a, b)] *)
Definition compareOverrideables (forceCompareA forceCompareB : option Z) : Z :=
  default 0 forceCompareA - default 0 forceCompareB.

(** The host's [String.prototype.localeCompare]; the model takes the order of
    the code units. *)
Definition localeCompare (a b : string) : Z := compareIds a b.

(** The indices that this file and intervalIndex.ts define. Every variant
    holds the state of the class of that name. *)
Inductive IntervalIndex : Type :=
| OverlappingIntervalsIndex (intervalTree : list nat)
| IdIntervalIndex (intervalIdMap : gmap string nat)
| EndpointIndex (endIntervalTree : list nat)
| EndpointInRangeIndex (intervalTree : list nat)
| StartpointInRangeIndex (intervalTree : list nat).

Section Indexes.
Context {T : Type} {ops : I.ISerializableInterval T}.
Variable helpers : IIntervalHelpers T.

(** The comparator that the constructor of [EndpointInRangeIndex] builds. *)
Definition endpointInRangeComparator (a b : T) : Result Z :=
  let compareEndsResult := compareEnds helpers a b in
  if negb (compareEndsResult =? 0) then Ok compareEndsResult
  else
    let overrideablesComparison :=
      compareOverrideables (I.forceCompare a) (I.forceCompare b) in
    if negb (overrideablesComparison =? 0) then Ok overrideablesComparison
    else
      try! aId := I.getIntervalId a in
      try! bId := I.getIntervalId b in
      Ok (localeCompare aId bId).

(** The comparator that the constructor of [StartpointInRangeIndex] builds. *)
Definition startpointInRangeComparator (a b : T) : Result Z :=
  match compareStarts helpers with
  | None => Throw (AssertionFailed 0x6d1)
  | Some compareStarts =>
      let compareStartsResult := compareStarts a b in
      if negb (compareStartsResult =? 0) then Ok compareStartsResult
      else
        let overrideablesComparison :=
          compareOverrideables (I.forceCompare a) (I.forceCompare b) in
        if negb (overrideablesComparison =? 0) then Ok overrideablesComparison
        else
          try! aId := I.getIntervalId a in
          try! bId := I.getIntervalId b in
          Ok (localeCompare aId bId)
  end.

(** The comparator of the tree an index keeps; the id index keeps a map. *)
Definition comparatorOf (index : IntervalIndex) : T → T → Result Z :=
  match index with
  | OverlappingIntervalsIndex _ => I.compare
  | IdIntervalIndex _ => λ _ _, Ok 0
  | EndpointIndex _ => λ a b, Ok (compareEnds helpers a b)
  | EndpointInRangeIndex _ => endpointInRangeComparator
  | StartpointInRangeIndex _ => startpointInRangeComparator
  end.

(** The tree of a tree-backed index, and the index with another tree. *)
Definition treeOf (index : IntervalIndex) : list nat :=
  match index with
  | IdIntervalIndex _ => []
  | OverlappingIntervalsIndex tree
  | EndpointIndex tree
  | EndpointInRangeIndex tree
  | StartpointInRangeIndex tree => tree
  end.

Definition withTree (index : IntervalIndex) (tree : list nat) : IntervalIndex :=
  match index with
  | IdIntervalIndex intervalIdMap => IdIntervalIndex intervalIdMap
  | OverlappingIntervalsIndex _ => OverlappingIntervalsIndex tree
  | EndpointIndex _ => EndpointIndex tree
  | EndpointInRangeIndex _ => EndpointInRangeIndex tree
  | StartpointInRangeIndex _ => StartpointInRangeIndex tree
  end.

(** [index.add(interval)]: the tree-backed indices put the interval in their
    tree; [IdIntervalIndex.add] makes the id of the interval immutable, which
    changes the object in the store, and sets the entry of the map. *)
Definition IntervalIndex_add (index : IntervalIndex) (interval : nat)
  (store : gmap nat T) : Result (IntervalIndex * gmap nat T) :=
  try! v := readObject store interval in
  match index with
  | IdIntervalIndex intervalIdMap =>
      try! id := I.getIntervalId v in
      let v' :=
        I.setProperties v
          (defineNonWritable (I.properties v) reservedIntervalIdKey) in
      Ok (IdIntervalIndex (<[id := interval]> intervalIdMap),
          <[interval := v']> store)
  | _ =>
      try! tree' :=
        RedBlackTree.put (comparatorOf index) store v interval (treeOf index) in
      Ok (withTree index tree', store)
  end.

(** [index.remove(interval)] *)
Definition IntervalIndex_remove (index : IntervalIndex) (interval : nat)
  (store : gmap nat T) : Result IntervalIndex :=
  try! v := readObject store interval in
  match index with
  | IdIntervalIndex intervalIdMap =>
      try! id := I.getIntervalId v in
      Ok (IdIntervalIndex (delete id intervalIdMap))
  | _ =>
      try! tree' :=
        RedBlackTree.remove (comparatorOf index) store v (treeOf index) in
      Ok (withTree index tree')
  end.

(** [EndpointInRangeIndex.findIntervalsWithEndpointInRange(start, end)] on the
    tree of the index; [client] is the client the index was created with. *)
Definition findIntervalsWithEndpointInRange (client : option Client)
  (store : gmap nat T) (intervalTree : list nat) (start end_ : Z)
  : Result (list nat) :=
  if (start <=? 0) || (end_ <? start) || RedBlackTree.isEmpty intervalTree
  then Ok []
  else
    try! transientStartInterval :=
      create helpers "transient" start start client IntervalType.Transient
        None None None in
    try! transientEndInterval :=
      create helpers "transient" end_ end_ client IntervalType.Transient
        None None None in
    RedBlackTree.mapRange endpointInRangeComparator store
      (I.setForceCompare transientStartInterval (-1))
      (I.setForceCompare transientEndInterval 1) intervalTree.

(** [StartpointInRangeIndex.findIntervalsWithStartpointInRange(start, end)] *)
Definition findIntervalsWithStartpointInRange (client : option Client)
  (store : gmap nat T) (intervalTree : list nat) (start end_ : Z)
  : Result (list nat) :=
  if (start <=? 0) || (end_ <? start) || RedBlackTree.isEmpty intervalTree
  then Ok []
  else
    try! transientStartInterval :=
      create helpers "transient" start start client IntervalType.Transient
        None None None in
    try! transientEndInterval :=
      create helpers "transient" end_ end_ client IntervalType.Transient
        None None None in
    RedBlackTree.mapRange startpointInRangeComparator store
      (I.setForceCompare transientStartInterval (-1))
      (I.setForceCompare transientEndInterval 1) intervalTree.

(** How many entries of the index hold the interval object. *)
Definition occurrences (index : IntervalIndex) (interval : nat) : nat :=
  match index with
  | IdIntervalIndex intervalIdMap =>
      size (filter (λ kv : string * nat, kv.2 = interval) intervalIdMap)
  | _ => length (filter (λ a, a = interval) (treeOf index))
  end.

End Indexes.

(** ** LocalIntervalCollection *)

(** [v[0]]: the first element of an array, the first character of a string;
    [null] and [undefined] cannot be indexed. *)
Definition index0 (v : JsValue) : Result JsValue :=
  match v with
  | JArr (x :: _) => Ok x
  | JStr (String c _) => Ok (JStr (String c ""))
  | JUndefined | JNull => Throw (TypeError "Cannot read properties of undefined")
  | _ => Ok JUndefined
  end.

(** [v !== label] for a string [label] *)
Definition differsFromString (v : JsValue) (label : string) : bool :=
  match v with
  | JStr s => negb (bool_decide (s = label))
  | _ => true
  end.

Module LocalIntervalCollection.
Section WithInterval.
Context {T : Type} {ops : I.ISerializableInterval T}.

(** The three indices the constructor creates are the first three members of
    [indexes], in the order of the set: overlapping, id, endpoint; the indices
    appended later follow. [store] holds the interval objects, [uuidSource]
    the identifiers that the calls of [uuid()] return, and [positionChanges]
    the calls of the [onPositionChange] callback made so far, latest first. *)
Record t : Type := mk {
  client : option Client;
  label : string;
  helpers : IIntervalHelpers T;
  onPositionChange : bool;
  indexes : list IntervalIndex;
  store : gmap nat T;
  nextAddress : nat;
  uuidSource : nat → string;
  uuidCalls : nat;
  positionChanges : list (nat * SequenceInterval.t)
}.

Definition setIndexes (this : t) (ixs : list IntervalIndex) : t :=
  mk (client this) (label this) (helpers this) (onPositionChange this) ixs
     (store this) (nextAddress this) (uuidSource this) (uuidCalls this)
     (positionChanges this).

Definition setStore (this : t) (s : gmap nat T) : t :=
  mk (client this) (label this) (helpers this) (onPositionChange this)
     (indexes this) s (nextAddress this) (uuidSource this) (uuidCalls this)
     (positionChanges this).

(** [new LocalIntervalCollection(client, label, helpers, onPositionChange)] *)
Definition new (client : option Client) (label : string)
  (helpers : IIntervalHelpers T) (onPositionChange : bool)
  (uuidSource : nat → string) : t :=
  mk client label helpers onPositionChange
     [OverlappingIntervalsIndex []; IdIntervalIndex ∅; EndpointIndex []]
     ∅ 0%nat uuidSource 0%nat [].

(** [this.idIntervalIndex.getIntervalById(id)] *)
Definition idIntervalMap (this : t) : gmap string nat :=
  match indexes this !! 1%nat with
  | Some (IdIntervalIndex intervalIdMap) => intervalIdMap
  | _ => ∅
  end.

Definition getIntervalById (this : t) (id : string) : option nat :=
  idIntervalMap this !! id.

(** Reading and writing the interval objects. *)
Definition readInterval (interval : nat) : M t T :=
  λ this, (readObject (store this) interval, this).

Definition writeInterval (interval : nat) (v : T) : M t unit :=
  update (λ this, setStore this (<[interval := v]> (store this))).

(** A constructor call: the new object gets a fresh address. *)
Definition allocate (v : T) : M t nat :=
  λ this,
    (Ok (nextAddress this),
     mk (client this) (label this) (helpers this) (onPositionChange this)
        (indexes this) (<[nextAddress this := v]> (store this))
        (S (nextAddress this)) (uuidSource this) (uuidCalls this)
        (positionChanges this)).

(** [uuid()] *)
Definition uuid : M t string :=
  λ this,
    (Ok (uuidSource this (uuidCalls this)),
     mk (client this) (label this) (helpers this) (onPositionChange this)
        (indexes this) (store this) (nextAddress this) (uuidSource this)
        (S (uuidCalls this)) (positionChanges this)).

Definition legacyIdPrefix : string := "legacy".

Definition createLegacyId (start end_ : Z) : string :=
  legacyIdPrefix +:+ pretty start +:+ "-" +:+ pretty end_.

(** [ensureSerializedId(serializedInterval)]: the id and the serialized
    interval as the call leaves it. *)
Definition ensureSerializedId (serializedInterval : ISerializedInterval)
  : JsValue * ISerializedInterval :=
  let id := getPropOpt (ser_properties serializedInterval) reservedIntervalIdKey in
  let '(id, properties) :=
    if isDefined id then (id, default emptyProps (ser_properties serializedInterval))
    else
      let id :=
        JStr (createLegacyId (ser_start serializedInterval)
                (ser_end serializedInterval)) in
      let newProps := mkProps {[reservedIntervalIdKey := id]} ∅ in
      (id, addProperties (ser_properties serializedInterval) newProps) in
  (id,
   {| ser_sequenceNumber := ser_sequenceNumber serializedInterval;
      ser_start := ser_start serializedInterval;
      ser_end := ser_end serializedInterval;
      ser_intervalType := ser_intervalType serializedInterval;
      ser_stickiness := ser_stickiness serializedInterval;
      ser_properties := Some (defineNonWritable properties reservedIntervalIdKey) |}).

(** [for (const index of this.indexes) index.remove(interval)]; the indices
    before a failing one stay updated. *)
Fixpoint removeFromEach (hs : IIntervalHelpers T) (store : gmap nat T)
  (interval : nat) (ixs : list IntervalIndex)
  : Result unit * list IntervalIndex :=
  match ixs with
  | [] => (Ok (), [])
  | index :: rest =>
      match IntervalIndex_remove hs index interval store with
      | Ok index' =>
          let '(r, rest') := removeFromEach hs store interval rest in
          (r, index' :: rest')
      | Throw e => (Throw e, index :: rest)
      end
  end.

Definition removeIntervalFromIndexes (interval : nat) : M t unit :=
  λ this,
    let '(r, ixs) :=
      removeFromEach (helpers this) (store this) interval (indexes this) in
    (r, setIndexes this ixs).

(** [for (const index of this.indexes) index.add(interval)] *)
Fixpoint addToEach (hs : IIntervalHelpers T) (store : gmap nat T)
  (interval : nat) (ixs : list IntervalIndex)
  : Result unit * (list IntervalIndex * gmap nat T) :=
  match ixs with
  | [] => (Ok (), ([], store))
  | index :: rest =>
      match IntervalIndex_add hs index interval store with
      | Ok (index', store') =>
          let '(r, (rest', store'')) := addToEach hs store' interval rest in
          (r, (index' :: rest', store''))
      | Throw e => (Throw e, (index :: rest, store))
      end
  end.

Definition addIntervalToIndexes (interval : nat) : M t unit :=
  λ this,
    let '(r, (ixs, s)) :=
      addToEach (helpers this) (store this) interval (indexes this) in
    (r, setStore (setIndexes this ixs) s).

Definition appendIndex (index : IntervalIndex) : M t unit :=
  update (λ this, setIndexes this (indexes this ++ [index])).

Definition removeIntervalListeners (interval : nat) : M t unit :=
  let! v := readInterval interval in
  match I.asSequenceInterval v with
  | Some si =>
      writeInterval interval
        (I.ofSequenceInterval v (SequenceInterval.removePositionChangeListeners si))
  | None => ret ()
  end.

Definition removeExistingInterval (interval : nat) : M t unit :=
  removeIntervalFromIndexes interval ;;
  removeIntervalListeners interval.

Definition createInterval (start end_ : Z) (intervalType : Z)
  (op : option ISequencedDocumentMessage) (stickiness : option Z) : M t nat :=
  let! this := get in
  let! v :=
    liftR (create (helpers this) (label this) start end_ (client this)
             intervalType op None
             (Some (default IntervalStickiness.END stickiness))) in
  allocate v.

Definition linkEndpointsToInterval (interval : nat) : M t unit :=
  let! v := readInterval interval in
  match I.asSequenceInterval v with
  | Some si =>
      let backPointer := mkProps {["interval" := JObject interval]} ∅ in
      writeInterval interval
        (I.ofSequenceInterval v
           (SequenceInterval.setEndpoints si
              (ref_addProperties (SequenceInterval.start si) backPointer)
              (ref_addProperties (SequenceInterval.end_ si) backPointer)))
  | None => ret ()
  end.

(** [cloneRef] of [addIntervalListeners] *)
Definition cloneRef (this : t) (ref : LocalReferencePosition)
  : Result LocalReferencePosition :=
  match getSegment ref with
  | None => Ok ref
  | Some segment =>
      match client this with
      | Some _ =>
          Ok (createLocalReferencePosition segment (Some (getOffset ref))
                ReferenceType.Transient (ref_properties ref)
                (Some (slidingPreference ref)))
      | None => Throw (TypeError "Cannot read properties of undefined")
      end
  end.

(** [addIntervalListeners(interval)]: a sequence interval without listeners
    gets a new pair of closures, with [pendingChanges = 0] and no
    [previousInterval]. *)
Definition addIntervalListeners (interval : nat) : M t unit :=
  let! v := readInterval interval in
  match I.asSequenceInterval v with
  | Some si =>
      writeInterval interval
        (I.ofSequenceInterval v
           (SequenceInterval.addPositionChangeListeners si
              (SequenceInterval.mkListener 0 None)))
  | None => ret ()
  end.

Definition setListener (interval : nat) (closures : SequenceInterval.listener)
  : M t unit :=
  let! v := readInterval interval in
  match I.asSequenceInterval v with
  | Some si =>
      writeInterval interval
        (I.ofSequenceInterval v (SequenceInterval.setCallbacks si (Some closures)))
  | None => ret ()
  end.

(** The first closure of [addIntervalListeners], which the merge tree calls
    through [beforeSlide] of either endpoint. A reference without callbacks
    calls nothing. *)
Definition beforePositionChange (interval : nat) : M t unit :=
  let! v := readInterval interval in
  match I.asSequenceInterval v with
  | Some si =>
      match SequenceInterval.callbacks si with
      | Some closures =>
          let pendingChanges := SequenceInterval.pendingChanges closures + 1 in
          setListener interval
            (SequenceInterval.mkListener pendingChanges
               (SequenceInterval.previousInterval closures)) ;;
          match SequenceInterval.previousInterval closures with
          | Some _ => ret ()
          | None =>
              let! this := get in
              let! previousInterval := liftR (SequenceInterval.clone si) in
              let! startClone :=
                liftR (cloneRef this (SequenceInterval.start previousInterval)) in
              let! endClone :=
                liftR (cloneRef this (SequenceInterval.end_ previousInterval)) in
              setListener interval
                (SequenceInterval.mkListener pendingChanges
                   (Some (SequenceInterval.setEndpoints previousInterval
                            startClone endClone))) ;;
              removeIntervalFromIndexes interval
          end
      | None => ret ()
      end
  | None => ret ()
  end.

(** [this.onPositionChange?.(interval, previousInterval)] *)
Definition callOnPositionChange (interval : nat)
  (previousInterval : SequenceInterval.t) : M t unit :=
  update (λ this,
    if onPositionChange this
    then mk (client this) (label this) (helpers this) (onPositionChange this)
            (indexes this) (store this) (nextAddress this) (uuidSource this)
            (uuidCalls this)
            ((interval, previousInterval) :: positionChanges this)
    else this).

(** The second closure of [addIntervalListeners], called through
    [afterSlide]. *)
Definition afterPositionChange (interval : nat) : M t unit :=
  let! v := readInterval interval in
  match I.asSequenceInterval v with
  | Some si =>
      match SequenceInterval.callbacks si with
      | Some closures =>
          match SequenceInterval.previousInterval closures with
          | None => throw (AssertionFailed 0x3fa)
          | Some previousInterval =>
              let pendingChanges := SequenceInterval.pendingChanges closures - 1 in
              setListener interval
                (SequenceInterval.mkListener pendingChanges
                   (Some previousInterval)) ;;
              if pendingChanges =? 0 then
                addIntervalToIndexes interval ;;
                callOnPositionChange interval previousInterval ;;
                setListener interval
                  (SequenceInterval.mkListener pendingChanges None)
              else ret ()
          end
      | None => ret ()
      end
  | None => ret ()
  end.

(** [add(interval)] *)
Definition add (interval : nat) : M t unit :=
  linkEndpointsToInterval interval ;;
  addIntervalToIndexes interval ;;
  addIntervalListeners interval.

Definition addInterval (start end_ : Z) (intervalType : Z)
  (props : option PropertySet) (op : option ISequencedDocumentMessage)
  (stickiness : option Z) : M t nat :=
  let! interval :=
    createInterval start end_ intervalType op
      (Some (default IntervalStickiness.END stickiness)) in
  let! this := get in
  match props with
  | Some p =>
      let labels := getProp p reservedRangeLabelsKey in
      let! foreign :=
        if isDefined labels
        then let! first := liftR (index0 labels) in
             ret (differsFromString first (label this))
        else ret false in
      if (foreign : bool)
      then throw (LoggingError
             "Adding an interval that belongs to another interval collection is not permitted")
      else
        let! v := readInterval interval in
        let! r := liftR (I.addProperties v p false None) in
        writeInterval interval r.1
  | None => ret ()
  end ;;
  let! v := readInterval interval in
  match getProp (I.properties v) reservedIntervalIdKey with
  | JUndefined | JNull =>
      let! id := uuid in
      writeInterval interval
        (I.setProperties v
           (mkProps (<[reservedIntervalIdKey := JStr id]> (entries (I.properties v)))
                    (nonWritable (I.properties v))))
  | _ => ret ()
  end ;;
  add interval ;;
  ret interval.

Definition changeInterval (interval : nat) (start end_ : option Z)
  (op : option ISequencedDocumentMessage) (localSeq : option Z)
  : M t (option nat) :=
  let! this := get in
  let! v := readInterval interval in
  let! modified := liftR (I.modify v (label this) start end_ op localSeq) in
  match modified with
  | Some v' =>
      let! newInterval := allocate v' in
      removeExistingInterval interval ;;
      add newInterval ;;
      ret (Some newInterval)
  | None => ret None
  end.

(** Modelled from the spec: the slide protocol of section 4.1. When a segment
    is acknowledged removed the merge tree calls [beforeSlide] of a reference
    on it, assigns the reference its new segment, and calls [afterSlide];
    the references of the two endpoints of one interval may slide in the same
    operation. *)
Inductive Endpoint : Type := startEndpoint | endEndpoint.

Inductive SlideStep : Type :=
| beforeSlide
| slideTo (which : Endpoint) (segment : option ISegment) (offset : Z)
| afterSlide.

Definition moveReference (ref : LocalReferencePosition)
  (segment : option ISegment) (offset : Z) : LocalReferencePosition :=
  mkRef segment offset (refType ref) (slidingPreference ref) (ref_properties ref).

(** The merge tree assigns an endpoint reference of the interval its new
    place. *)
Definition slideReference (interval : nat) (which : Endpoint)
  (segment : option ISegment) (offset : Z) : M t unit :=
  let! v := readInterval interval in
  match I.asSequenceInterval v with
  | Some si =>
      writeInterval interval
        (I.ofSequenceInterval v
           (match which with
            | startEndpoint =>
                SequenceInterval.setEndpoints si
                  (moveReference (SequenceInterval.start si) segment offset)
                  (SequenceInterval.end_ si)
            | endEndpoint =>
                SequenceInterval.setEndpoints si (SequenceInterval.start si)
                  (moveReference (SequenceInterval.end_ si) segment offset)
            end))
  | None => ret ()
  end.

Definition slideStep (interval : nat) (step : SlideStep) : M t unit :=
  match step with
  | beforeSlide => beforePositionChange interval
  | slideTo which segment offset => slideReference interval which segment offset
  | afterSlide => afterPositionChange interval
  end.

(** What the collection goes through while the merge tree slides the
    endpoints of one interval. *)
Definition slide (interval : nat) (steps : list SlideStep) : M t unit :=
  forEach steps (slideStep interval).

End WithInterval.
Arguments t T : clear implicits.
End LocalIntervalCollection.

(** ** IntervalCollection *)

(** A property value used as the key of a [Map<string, _>]: only a string can
    be a key that is present. *)
Definition stringKey (v : JsValue) : option string :=
  match v with JStr s => Some s | _ => None end.

(** [const { [key]: _, ...rest } = props] *)
Definition withoutKey (props : PropertySet) (key : string) : PropertySet :=
  mkProps (delete key (entries props)) ∅.

(** [a !== b] on optional numbers *)
Definition differs (a b : option Z) : bool := negb (bool_decide (a = b)).

Module IntervalCollection.
Section WithInterval.
Context {T : Type} {ops : I.ISerializableInterval T}.

(** What the collection emits to its listeners. [previousInterval] is the
    object as a listener sees it during the call. *)
Inductive Event : Type :=
| addIntervalEvent (interval : nat) (local : bool)
    (op : option ISequencedDocumentMessage)
| deleteIntervalEvent (interval : nat) (local : bool)
    (op : option ISequencedDocumentMessage)
| changeIntervalEvent (interval : nat) (previousInterval : T) (local : bool)
    (op : option ISequencedDocumentMessage) (slide : bool)
| propertyChangedEvent (interval : nat) (propertyDeltas : option PropertySet)
    (local : bool) (op : option ISequencedDocumentMessage).

(** [this.emitter.emit(opName, undefined, params, { localSeq })] *)
Record EmittedOp : Type := mkEmitted {
  opName : string;
  params : SerializedIntervalDelta;
  localSeq : Z
}.

(** [collabWindowLocalSeq] is [client.getCollabWindow().localSeq], the counter
    that [getNextLocalSeq] advances. [emitted], [events] and [deserialized]
    record the calls of the op emitter, of the event listeners and of the
    deserializer, latest first. *)
Record t : Type := mk {
  helpers : IIntervalHelpers T;
  requiresClient : bool;
  intervalStickinessEnabled : option bool;
  savedSerializedIntervals : option (list ISerializedInterval);
  localCollection : option (LocalIntervalCollection.t T);
  onDeserialize : bool;
  client : option Client;
  localSeqToSerializedInterval : gmap Z SerializedIntervalDelta;
  localSeqToRebasedInterval : gmap Z SerializedIntervalDelta;
  pendingChangesStart : gmap string (list SerializedIntervalDelta);
  pendingChangesEnd : gmap string (list SerializedIntervalDelta);
  collabWindowLocalSeq : Z;
  emitted : list EmittedOp;
  events : list Event;
  deserialized : list nat
}.

Definition attached (this : t) : bool := bool_decide (is_Some (localCollection this)).

Definition setLocalCollection (this : t)
  (lc : option (LocalIntervalCollection.t T)) : t :=
  mk (helpers this) (requiresClient this) (intervalStickinessEnabled this)
     (savedSerializedIntervals this) lc (onDeserialize this) (client this)
     (localSeqToSerializedInterval this) (localSeqToRebasedInterval this)
     (pendingChangesStart this) (pendingChangesEnd this)
     (collabWindowLocalSeq this) (emitted this) (events this)
     (deserialized this).

Definition setLocalSeqToSerializedInterval (this : t)
  (m : gmap Z SerializedIntervalDelta) : t :=
  mk (helpers this) (requiresClient this) (intervalStickinessEnabled this)
     (savedSerializedIntervals this) (localCollection this) (onDeserialize this)
     (client this) m (localSeqToRebasedInterval this)
     (pendingChangesStart this) (pendingChangesEnd this)
     (collabWindowLocalSeq this) (emitted this) (events this)
     (deserialized this).

Definition setPendingChangesStart (this : t)
  (m : gmap string (list SerializedIntervalDelta)) : t :=
  mk (helpers this) (requiresClient this) (intervalStickinessEnabled this)
     (savedSerializedIntervals this) (localCollection this) (onDeserialize this)
     (client this) (localSeqToSerializedInterval this)
     (localSeqToRebasedInterval this) m (pendingChangesEnd this)
     (collabWindowLocalSeq this) (emitted this) (events this)
     (deserialized this).

Definition setPendingChangesEnd (this : t)
  (m : gmap string (list SerializedIntervalDelta)) : t :=
  mk (helpers this) (requiresClient this) (intervalStickinessEnabled this)
     (savedSerializedIntervals this) (localCollection this) (onDeserialize this)
     (client this) (localSeqToSerializedInterval this)
     (localSeqToRebasedInterval this) (pendingChangesStart this) m
     (collabWindowLocalSeq this) (emitted this) (events this)
     (deserialized this).

(** [this.emit(...)] *)
Definition emit (e : Event) : M t unit :=
  update (λ this,
    mk (helpers this) (requiresClient this) (intervalStickinessEnabled this)
       (savedSerializedIntervals this) (localCollection this)
       (onDeserialize this) (client this) (localSeqToSerializedInterval this)
       (localSeqToRebasedInterval this) (pendingChangesStart this)
       (pendingChangesEnd this) (collabWindowLocalSeq this) (emitted this)
       (e :: events this) (deserialized this)).

(** [this.emitter.emit(opName, undefined, params, { localSeq })] *)
Definition emitOp (opName : string) (params : SerializedIntervalDelta)
  (localSeq : Z) : M t unit :=
  update (λ this,
    mk (helpers this) (requiresClient this) (intervalStickinessEnabled this)
       (savedSerializedIntervals this) (localCollection this)
       (onDeserialize this) (client this) (localSeqToSerializedInterval this)
       (localSeqToRebasedInterval this) (pendingChangesStart this)
       (pendingChangesEnd this) (collabWindowLocalSeq this)
       (mkEmitted opName params localSeq :: emitted this)
       (events this) (deserialized this)).

(** [if (this.onDeserialize) this.onDeserialize(interval)] *)
Definition callOnDeserialize (interval : nat) : M t unit :=
  update (λ this,
    if onDeserialize this
    then mk (helpers this) (requiresClient this) (intervalStickinessEnabled this)
            (savedSerializedIntervals this) (localCollection this)
            (onDeserialize this) (client this)
            (localSeqToSerializedInterval this)
            (localSeqToRebasedInterval this) (pendingChangesStart this)
            (pendingChangesEnd this) (collabWindowLocalSeq this) (emitted this)
            (events this) (interval :: deserialized this)
    else this).

(** A method of the attached local collection, run on [this.localCollection]. *)
Definition onLocalCollection {A : Type}
  (m : M (LocalIntervalCollection.t T) A) : M t A :=
  λ this,
    match localCollection this with
    | Some lc => let '(r, lc') := m lc in (r, setLocalCollection this (Some lc'))
    | None => (Throw (TypeError "Cannot read properties of undefined"), this)
    end.

Definition getNextLocalSeq : M t Z :=
  λ this,
    match client this with
    | Some _ =>
        let n := collabWindowLocalSeq this + 1 in
        (Ok n,
         mk (helpers this) (requiresClient this) (intervalStickinessEnabled this)
            (savedSerializedIntervals this) (localCollection this)
            (onDeserialize this) (client this)
            (localSeqToSerializedInterval this)
            (localSeqToRebasedInterval this) (pendingChangesStart this)
            (pendingChangesEnd this) n (emitted this) (events this)
            (deserialized this))
    | None => (Ok 0, this)
    end.

(** The previous interval as a listener of [changeInterval] sees it: the
    endpoints of a sequence interval are typed Transient during the call. *)
Definition asSeenByListener (previousInterval : T) : T :=
  match I.asSequenceInterval previousInterval with
  | Some si =>
      I.ofSequenceInterval previousInterval
        (SequenceInterval.setEndpoints si
           (ref_setRefType (SequenceInterval.start si) ReferenceType.Transient)
           (ref_setRefType (SequenceInterval.end_ si) ReferenceType.Transient))
  | None => previousInterval
  end.

Definition emitChange (interval : nat) (previousInterval : T) (local slide : bool)
  (op : option ISequencedDocumentMessage) : M t unit :=
  emit (changeIntervalEvent interval (asSeenByListener previousInterval)
          local op slide).

Definition getIntervalById (id : JsValue) : M t (option nat) :=
  λ this,
    match localCollection this with
    | None =>
        (Throw (LoggingError "attach must be called before accessing intervals"),
         this)
    | Some lc =>
        (Ok (match stringKey id with
             | Some s => LocalIntervalCollection.getIntervalById lc s
             | None => None
             end), this)
    end.

(** [add(start, end, intervalType, props, stickiness)] *)
Definition add (start end_ : Z) (intervalType : Z) (props : option PropertySet)
  (stickiness : option Z) : M t nat :=
  let stickiness := default IntervalStickiness.END stickiness in
  let! this := get in
  if negb (attached this)
  then throw (LoggingError "attach must be called prior to adding intervals")
  else if negb (Z.land intervalType IntervalType.Transient =? 0)
  then throw (LoggingError "Can not add transient intervals")
  else if negb (stickiness =? IntervalStickiness.END) &&
          negb (default false (intervalStickinessEnabled this))
  then throw (UsageError
         "attempted to set interval stickiness without enabling `intervalStickinessEnabled` feature flag")
  else
    let! interval :=
      onLocalCollection
        (LocalIntervalCollection.addInterval start end_ intervalType props None
           (Some stickiness)) in
    let! v := onLocalCollection (LocalIntervalCollection.readInterval interval) in
    let serializedInterval :=
      {| d_end := Some end_; d_intervalType := intervalType;
         d_properties := Some (I.properties v);
         d_sequenceNumber :=
           match client this with Some c => getCurrentSeq c | None => 0 end;
         d_start := Some start; d_stickiness := Some stickiness |} in
    let! localSeq := getNextLocalSeq in
    update (λ this, setLocalSeqToSerializedInterval this
              (<[localSeq := serializedInterval]>
                 (localSeqToSerializedInterval this))) ;;
    emitOp "add" serializedInterval localSeq ;;
    emit (addIntervalEvent interval true None) ;;
    ret interval.

Definition addPendingChangeHelper (id : string) (start : bool)
  (serializedInterval : SerializedIntervalDelta) : M t unit :=
  update (λ this,
    if start
    then setPendingChangesStart this
           (<[id := default [] (pendingChangesStart this !! id)
                    ++ [serializedInterval]]> (pendingChangesStart this))
    else setPendingChangesEnd this
           (<[id := default [] (pendingChangesEnd this !! id)
                    ++ [serializedInterval]]> (pendingChangesEnd this))).

Definition addPendingChange (id : string)
  (serializedInterval : SerializedIntervalDelta) : M t unit :=
  (if bool_decide (is_Some (d_start serializedInterval))
   then addPendingChangeHelper id true serializedInterval else ret ()) ;;
  (if bool_decide (is_Some (d_end serializedInterval))
   then addPendingChangeHelper id false serializedInterval else ret ()).

Definition removePendingChangeHelper (id : JsValue) (start : bool)
  (serializedInterval : SerializedIntervalDelta) : M t unit :=
  let! this := get in
  let pendingChanges :=
    if start then pendingChangesStart this else pendingChangesEnd this in
  match stringKey id with
  | None => ret ()
  | Some key =>
      match pendingChanges !! key with
      | None => ret ()
      | Some entries =>
          let pendingChange := head entries in
          let rest := tail entries in
          let pendingChanges' :=
            if bool_decide (rest = [])
            then delete key pendingChanges
            else <[key := rest]> pendingChanges in
          update (λ this,
            if start then setPendingChangesStart this pendingChanges'
            else setPendingChangesEnd this pendingChanges') ;;
          if differs (pendingChange ≫= d_start) (d_start serializedInterval) ||
             differs (pendingChange ≫= d_end) (d_end serializedInterval)
          then throw (LoggingError "Mismatch in pending changes")
          else ret ()
      end
  end.

Definition removePendingChange (serializedInterval : SerializedIntervalDelta)
  : M t unit :=
  let id := getPropOpt (d_properties serializedInterval) reservedIntervalIdKey in
  (if bool_decide (is_Some (d_start serializedInterval))
   then removePendingChangeHelper id true serializedInterval else ret ()) ;;
  (if bool_decide (is_Some (d_end serializedInterval))
   then removePendingChangeHelper id false serializedInterval else ret ()).

Definition hasPendingChangeStart (this : t) (id : JsValue) : bool :=
  match stringKey id ≫= (pendingChangesStart this !!.) with
  | Some entries => negb (bool_decide (entries = []))
  | None => false
  end.

Definition hasPendingChangeEnd (this : t) (id : JsValue) : bool :=
  match stringKey id ≫= (pendingChangesEnd this !!.) with
  | Some entries => negb (bool_decide (entries = []))
  | None => false
  end.

(** [change(id, start, end)] *)
Definition change (id : JsValue) (start end_ : option Z) : M t (option nat) :=
  let! this := get in
  if negb (attached this)
  then throw (LoggingError "Attach must be called before accessing intervals")
  else
    match id with
    | JStr idString =>
        let! found := getIntervalById id in
        match found with
        | Some interval =>
            let! changed :=
              onLocalCollection
                (LocalIntervalCollection.changeInterval interval start end_
                   None None) in
            match changed with
            | None => ret None
            | Some newInterval =>
                let! v :=
                  onLocalCollection
                    (LocalIntervalCollection.readInterval interval) in
                let full := I.serialize v in
                let! intervalId := liftR (I.getIntervalId v) in
                let serializedInterval :=
                  {| d_sequenceNumber := ser_sequenceNumber full;
                     d_start := start; d_end := end_;
                     d_intervalType := ser_intervalType full;
                     d_stickiness := ser_stickiness full;
                     d_properties :=
                       Some (mkProps
                               {[reservedIntervalIdKey := JStr intervalId]} ∅) |} in
                let! localSeq := getNextLocalSeq in
                update (λ this, setLocalSeqToSerializedInterval this
                          (<[localSeq := serializedInterval]>
                             (localSeqToSerializedInterval this))) ;;
                emitOp "change" serializedInterval localSeq ;;
                addPendingChange idString serializedInterval ;;
                emitChange newInterval v true false None ;;
                ret (Some newInterval)
            end
        | None => ret None
        end
    | _ => throw (LoggingError "Change API requires an ID that is a string")
    end.

(** [getSlideToSegment(lref)] of the collection *)
Definition getSlideToSegment_ (lref : LocalReferencePosition)
  : M t (option Segoff) :=
  let! this := get in
  match client this with
  | None => throw (LoggingError "client does not exist")
  | Some c =>
      let segoff := mkSegoff (getSegment lref) (Some (getOffset lref)) in
      match getSegment lref with
      | Some segment =>
          if hasLocalRef c segment lref then
            let newSegoff := getSlideToSegment c segoff in
            if bool_decide (so_segment segoff = so_segment newSegoff) &&
               bool_decide (so_offset segoff = so_offset newSegoff)
            then ret None
            else ret (Some newSegoff)
          else ret None
      | None => ret None
      end
  end.

(** [setSlideOnRemove(lref)] *)
Definition setSlideOnRemove (lref : LocalReferencePosition)
  : LocalReferencePosition :=
  ref_setRefType lref
    (Z.lor (Z.land (refType lref) (Z.lnot ReferenceType.StayOnRemove))
           ReferenceType.SlideOnRemove).

(** [ackInterval(interval, op)]. The sliding preference is passed to
    [createPositionReferenceFromSegoff] in its fifth position, which is
    [localSeq]. *)
Definition ackInterval (interval : nat) (op : ISequencedDocumentMessage)
  : M t unit :=
  let! v := onLocalCollection (LocalIntervalCollection.readInterval interval) in
  match I.asSequenceInterval v with
  | None => ret ()
  | Some si =>
      if negb (refTypeIncludesFlag (refType (SequenceInterval.start si))
                 ReferenceType.StayOnRemove) &&
         negb (refTypeIncludesFlag (refType (SequenceInterval.end_ si))
                 ReferenceType.StayOnRemove)
      then ret ()
      else
        let! newStart := getSlideToSegment_ (SequenceInterval.start si) in
        let! newEnd := getSlideToSegment_ (SequenceInterval.end_ si) in
        let! this := get in
        let id := getProp (SequenceInterval.properties si) reservedIntervalIdKey in
        let hasPendingStartChange := hasPendingChangeStart this id in
        let hasPendingEndChange := hasPendingChangeEnd this id in
        let start1 :=
          if hasPendingStartChange then SequenceInterval.start si
          else setSlideOnRemove (SequenceInterval.start si) in
        let end1 :=
          if hasPendingEndChange then SequenceInterval.end_ si
          else setSlideOnRemove (SequenceInterval.end_ si) in
        let si1 := SequenceInterval.setEndpoints si start1 end1 in
        onLocalCollection
          (LocalIntervalCollection.writeInterval interval
             (I.ofSequenceInterval v si1)) ;;
        let needsStartUpdate :=
          bool_decide (is_Some newStart) && negb hasPendingStartChange in
        let needsEndUpdate :=
          bool_decide (is_Some newEnd) && negb hasPendingEndChange in
        if needsStartUpdate || needsEndUpdate then
          let! oldInterval := liftR (SequenceInterval.clone si1) in
          onLocalCollection
            (LocalIntervalCollection.removeExistingInterval interval) ;;
          match client this with
          | None => throw (LoggingError "client does not exist")
          | Some c =>
              let! v2 :=
                onLocalCollection
                  (LocalIntervalCollection.readInterval interval) in
              let si2 := default si1 (I.asSequenceInterval v2) in
              let! start2 :=
                match newStart with
                | Some segoff =>
                    if needsStartUpdate then
                      let! ref :=
                        liftR (createPositionReferenceFromSegoff c segoff
                                 (refType (SequenceInterval.start si2)) (Some op)
                                 (Some (slidingPreferenceValue
                                          (startReferenceSlidingPreference
                                             (SequenceInterval.stickiness si2))))
                                 None None) in
                      ret (match ref_properties (SequenceInterval.start si2) with
                           | Some p => ref_addProperties ref p
                           | None => ref
                           end)
                    else ret (SequenceInterval.start si2)
                | None => ret (SequenceInterval.start si2)
                end in
              let! end2 :=
                match newEnd with
                | Some segoff =>
                    if needsEndUpdate then
                      let! ref :=
                        liftR (createPositionReferenceFromSegoff c segoff
                                 (refType (SequenceInterval.end_ si2)) (Some op)
                                 (Some (slidingPreferenceValue
                                          (endReferenceSlidingPreference
                                             (SequenceInterval.stickiness si2))))
                                 None None) in
                      ret (match ref_properties (SequenceInterval.end_ si2) with
                           | Some p => ref_addProperties ref p
                           | None => ref
                           end)
                    else ret (SequenceInterval.end_ si2)
                | None => ret (SequenceInterval.end_ si2)
                end in
              onLocalCollection
                (LocalIntervalCollection.writeInterval interval
                   (I.ofSequenceInterval v2
                      (SequenceInterval.setEndpoints si2 start2 end2))) ;;
              onLocalCollection (LocalIntervalCollection.add interval) ;;
              emitChange interval (I.ofSequenceInterval v oldInterval) true true
                (Some op)
          end
        else ret ()
  end.

(** [ackChange(serializedInterval, local, op, localOpMetadata)];
    [localOpMetadata] is its [localSeq]. *)
Definition ackChange (serializedInterval : SerializedIntervalDelta)
  (local : bool) (op : ISequencedDocumentMessage)
  (localOpMetadata : option Z) : M t unit :=
  let! this := get in
  if negb (attached this)
  then throw (LoggingError "Attach must be called before accessing intervals")
  else
    (if local then
       match localOpMetadata with
       | None => throw (AssertionFailed 0x552)
       | Some localSeq =>
           update (λ this, setLocalSeqToSerializedInterval this
                     (delete localSeq (localSeqToSerializedInterval this))) ;;
           removePendingChange serializedInterval
       end
     else ret ()) ;;
    let properties := default emptyProps (d_properties serializedInterval) in
    let id := getProp properties reservedIntervalIdKey in
    let newProps := withoutKey properties reservedIntervalIdKey in
    liftR (jsAssert (isDefined id) 0x3fe) ;;
    let! found := getIntervalById id in
    match found with
    | None => ret ()
    | Some interval =>
        if local then
          let! v :=
            onLocalCollection (LocalIntervalCollection.readInterval interval) in
          onLocalCollection
            (LocalIntervalCollection.writeInterval interval
               (I.ackPendingProperties v properties)) ;;
          ackInterval interval op
        else
          let! this := get in
          let start :=
            if hasPendingChangeStart this id then None
            else d_start serializedInterval in
          let end_ :=
            if hasPendingChangeEnd this id then None
            else d_end serializedInterval in
          let! newInterval :=
            if bool_decide (is_Some start) || bool_decide (is_Some end_) then
              let! changed :=
                onLocalCollection
                  (LocalIntervalCollection.changeInterval interval start end_
                     (Some op) None) in
              ret (default interval changed)
            else ret interval in
          let! v :=
            onLocalCollection (LocalIntervalCollection.readInterval newInterval) in
          let! r := liftR (I.addProperties v newProps true
                             (Some (sequenceNumber op))) in
          onLocalCollection
            (LocalIntervalCollection.writeInterval newInterval r.1) ;;
          callOnDeserialize newInterval ;;
          (if bool_decide (newInterval ≠ interval) then
             let! old :=
               onLocalCollection
                 (LocalIntervalCollection.readInterval interval) in
             emitChange newInterval old local false (Some op)
           else ret ()) ;;
          if bool_decide (entries newProps ≠ ∅)
          then emit (propertyChangedEvent interval r.2 local (Some op))
          else ret ()
    end.

Definition rebasePositionWithSegmentSlide (pos seqNumberFrom localSeq : Z)
  : M t Z :=
  let! this := get in
  match client this with
  | None => throw (LoggingError "mergeTree client must exist")
  | Some c =>
      let found :=
        getContainingSegment c pos
          (Some (seqNumberFrom, getLongClientId c (collabWindowClientId c)))
          (Some localSeq) in
      match so_segment found with
      | None => throw (AssertionFailed 0x54e)
      | Some segment =>
          let segoff := getSlideToSegment c found in
          match so_segment segoff, so_offset segoff with
          | Some slidSegment, Some slidOffset =>
              match so_offset found with
              | Some offset =>
                  liftR (jsAssert ((0 <=? offset) &&
                                   (offset <? cachedLength c segment)) 0x54f) ;;
                  ret (findReconnectionPosition c slidSegment localSeq
                       + slidOffset)
              | None => throw (AssertionFailed 0x54f)
              end
          | _, _ => ret DetachedReferencePosition
          end
      end
  end.

Definition computeRebasedPositions (localSeq : Z)
  : M t SerializedIntervalDelta :=
  let! this := get in
  liftR (jsAssert (bool_decide (is_Some (client this))) 0x550) ;;
  match localSeqToSerializedInterval this !! localSeq with
  | None => throw (AssertionFailed 0x551)
  | Some original =>
      let! start :=
        match d_start original with
        | Some start =>
            let! p := rebasePositionWithSegmentSlide start
                        (d_sequenceNumber original) localSeq in
            ret (Some p)
        | None => ret None
        end in
      let! end_ :=
        match d_end original with
        | Some end_ =>
            let! p := rebasePositionWithSegmentSlide end_
                        (d_sequenceNumber original) localSeq in
            ret (Some p)
        | None => ret None
        end in
      ret {| d_sequenceNumber := d_sequenceNumber original;
             d_start := start; d_end := end_;
             d_intervalType := d_intervalType original;
             d_stickiness := d_stickiness original;
             d_properties := d_properties original |}
  end.

(** [rebaseLocalInterval(opName, serializedInterval, localSeq)] *)
Definition rebaseLocalInterval (opName : string)
  (serializedInterval : SerializedIntervalDelta) (localSeq : Z)
  : M t (option SerializedIntervalDelta) :=
  let! this := get in
  match client this with
  | None => ret (Some serializedInterval)
  | Some c =>
      if negb (attached this)
      then throw (LoggingError "attachSequence must be called")
      else
        let! positions :=
          match localSeqToRebasedInterval this !! localSeq with
          | Some r => ret r
          | None => computeRebasedPositions localSeq
          end in
        let startRebased := d_start positions in
        let endRebased := d_end positions in
        let intervalId :=
          getPropOpt (d_properties serializedInterval) reservedIntervalIdKey in
        let! localInterval := getIntervalById intervalId in
        let rebased :=
          {| d_start := startRebased; d_end := endRebased;
             d_intervalType := d_intervalType serializedInterval;
             d_sequenceNumber := getCurrentSeq c;
             d_properties := d_properties serializedInterval;
             d_stickiness := None |} in
        (if bool_decide (opName = "change") &&
            (hasPendingChangeStart this intervalId ||
             hasPendingChangeEnd this intervalId)
         then
           removePendingChange serializedInterval ;;
           match stringKey intervalId with
           | Some id => addPendingChange id rebased
           | None => ret ()
           end
         else ret ()) ;;
        if bool_decide (startRebased = Some DetachedReferencePosition) ||
           bool_decide (endRebased = Some DetachedReferencePosition)
        then
          match localInterval with
          | Some interval =>
              onLocalCollection
                (LocalIntervalCollection.removeExistingInterval interval)
          | None => ret ()
          end ;;
          ret None
        else
          match localInterval with
          | Some interval =>
              let! v :=
                onLocalCollection
                  (LocalIntervalCollection.readInterval interval) in
              liftR (jsAssert
                       (bool_decide (is_Some (I.asSequenceInterval v))) 0x3a0) ;;
              onLocalCollection
                (LocalIntervalCollection.changeInterval interval startRebased
                   endRebased None (Some localSeq)) ;;
              ret ()
          | None => ret ()
          end ;;
          ret (Some rebased)
  end.

(** *** Removing intervals, acknowledged additions and removals, attaching *)

(** An [ISerializedInterval] where a [SerializedIntervalDelta] is expected:
    every optional field is present. *)
Definition asDelta (s : ISerializedInterval) : SerializedIntervalDelta :=
  {| d_sequenceNumber := ser_sequenceNumber s; d_start := Some (ser_start s);
     d_end := Some (ser_end s); d_intervalType := ser_intervalType s;
     d_stickiness := ser_stickiness s; d_properties := ser_properties s |}.

(** [deleteExistingInterval(interval, local, op)]. The interval is an object,
    so the test [if (interval)] holds. The arguments of the emitter call are
    evaluated in order: the interval is serialized before the local sequence
    number is advanced. *)
Definition deleteExistingInterval (interval : nat) (local : bool)
  (op : option ISequencedDocumentMessage) : M t unit :=
  let! this := get in
  if negb (attached this)
  then throw (LoggingError "Attach must be called before accessing intervals")
  else
    onLocalCollection (LocalIntervalCollection.removeExistingInterval interval) ;;
    (if local then
       let! v := onLocalCollection (LocalIntervalCollection.readInterval interval) in
       let! localSeq := getNextLocalSeq in
       emitOp "delete" (asDelta (I.serialize v)) localSeq
     else callOnDeserialize interval) ;;
    emit (deleteIntervalEvent interval local op).

(** [removeIntervalById(id)] *)
Definition removeIntervalById (id : JsValue) : M t (option nat) :=
  let! this := get in
  match localCollection this with
  | None =>
      throw (LoggingError "Attach must be called before accessing intervals")
  | Some lc =>
      match stringKey id ≫= LocalIntervalCollection.getIntervalById lc with
      | Some interval =>
          deleteExistingInterval interval true None ;;
          ret (Some interval)
      | None => ret None
      end
  end.

(** [props[key] = v] on a property bag of the caller, in strict mode. *)
Definition assignProp (props : PropertySet) (key : string) (v : JsValue)
  : Result PropertySet :=
  if bool_decide (key ∈ nonWritable props)
  then Throw (TypeError "Cannot assign to read only property")
  else Ok (mkProps (<[key := v]> (entries props)) (nonWritable props)).

(** [changeProperties(id, props)]. The op carries the property bag of the
    caller, into which the id of the interval is written after the interval
    has taken the properties. *)
Definition changeProperties (id : JsValue) (props : option PropertySet)
  : M t unit :=
  let! this := get in
  if negb (attached this)
  then throw (LoggingError "Attach must be called before accessing intervals")
  else
    match id with
    | JStr _ =>
        match props with
        | None =>
            throw (LoggingError
                     "changeProperties should be called with a property set")
        | Some props =>
            if isDefined (getProp props reservedRangeLabelsKey)
            then throw (LoggingError
                   "The label property should not be modified once inserted to the collection")
            else
              let! found := getIntervalById id in
              match found with
              | Some interval =>
                  let! v :=
                    onLocalCollection
                      (LocalIntervalCollection.readInterval interval) in
                  let! r :=
                    liftR (I.addProperties v props true
                             (Some UnassignedSequenceNumber)) in
                  onLocalCollection
                    (LocalIntervalCollection.writeInterval interval r.1) ;;
                  let full := I.serialize r.1 in
                  let! intervalId := liftR (I.getIntervalId r.1) in
                  let! properties :=
                    liftR (assignProp props reservedIntervalIdKey
                             (JStr intervalId)) in
                  let serializedInterval :=
                    {| d_sequenceNumber := ser_sequenceNumber full;
                       d_start := None; d_end := None;
                       d_intervalType := ser_intervalType full;
                       d_stickiness := ser_stickiness full;
                       d_properties := Some properties |} in
                  let! localSeq := getNextLocalSeq in
                  update (λ this, setLocalSeqToSerializedInterval this
                            (<[localSeq := serializedInterval]>
                               (localSeqToSerializedInterval this))) ;;
                  emitOp "change" serializedInterval localSeq ;;
                  emit (propertyChangedEvent interval r.2 true None)
              | None => ret ()
              end
        end
    | _ => throw (LoggingError "Change API requires an ID that is a string")
    end.

(** [ackDelete(serializedInterval, local, op)]. [ensureSerializedId] gives the
    serialized interval of the op an id when it has none; the op is read no
    further. *)
Definition ackDelete (serializedInterval : ISerializedInterval) (local : bool)
  (op : ISequencedDocumentMessage) : M t unit :=
  if local then ret ()
  else
    let! this := get in
    match localCollection this with
    | None =>
        throw (LoggingError "attach must be called prior to deleting intervals")
    | Some lc =>
        let id :=
          (LocalIntervalCollection.ensureSerializedId serializedInterval).1 in
        match stringKey id ≫= LocalIntervalCollection.getIntervalById lc with
        | Some interval => deleteExistingInterval interval local (Some op)
        | None => ret ()
        end
    end.

(** [ackAdd(serializedInterval, local, op, localOpMetadata)];
    [localOpMetadata] is its [localSeq]. The local branch returns
    [undefined]; in the remote branch [addInterval] returns an object, so the
    test [if (interval)] holds. *)
Definition ackAdd (serializedInterval : ISerializedInterval) (local : bool)
  (op : ISequencedDocumentMessage) (localOpMetadata : option Z)
  : M t (option nat) :=
  if local then
    match localOpMetadata with
    | None => throw (AssertionFailed 0x553)
    | Some localSeq =>
        update (λ this, setLocalSeqToSerializedInterval this
                  (delete localSeq (localSeqToSerializedInterval this))) ;;
        let id :=
          getPropOpt (ser_properties serializedInterval) reservedIntervalIdKey in
        let! localInterval := getIntervalById id in
        match localInterval with
        | Some interval => ackInterval interval op ;; ret None
        | None => ret None
        end
    end
  else
    let! this := get in
    if negb (attached this)
    then throw (LoggingError "attachSequence must be called")
    else
      let serializedInterval :=
        (LocalIntervalCollection.ensureSerializedId serializedInterval).2 in
      let! interval :=
        onLocalCollection
          (LocalIntervalCollection.addInterval
             (ser_start serializedInterval) (ser_end serializedInterval)
             (ser_intervalType serializedInterval)
             (ser_properties serializedInterval) (Some op)
             (ser_stickiness serializedInterval)) in
      callOnDeserialize interval ;;
      emit (addIntervalEvent interval local (Some op)) ;;
      ret (Some interval).

(** One round of the loop of [attachGraph] over the saved intervals. *)
Definition attachSaved (client : option Client) (label : string)
  (saved : ISerializedInterval) : M t unit :=
  let serializedInterval :=
    (LocalIntervalCollection.ensureSerializedId saved).2 in
  let! this := get in
  let! v :=
    liftR (create (helpers this) label (ser_start serializedInterval)
             (ser_end serializedInterval) client
             (ser_intervalType serializedInterval) None (Some true)
             (ser_stickiness serializedInterval)) in
  let! interval := onLocalCollection (LocalIntervalCollection.allocate v) in
  match ser_properties serializedInterval with
  | Some properties =>
      let! r := liftR (I.addProperties v properties false None) in
      onLocalCollection (LocalIntervalCollection.writeInterval interval r.1)
  | None => ret ()
  end ;;
  onLocalCollection (LocalIntervalCollection.add interval).

Definition setSavedSerializedIntervals (this : t)
  (saved : option (list ISerializedInterval)) : t :=
  mk (helpers this) (requiresClient this) (intervalStickinessEnabled this)
     saved (localCollection this) (onDeserialize this) (client this)
     (localSeqToSerializedInterval this) (localSeqToRebasedInterval this)
     (pendingChangesStart this) (pendingChangesEnd this)
     (collabWindowLocalSeq this) (emitted this) (events this)
     (deserialized this).

(** [attachGraph(client, label)]. [uuidSource] stands for the identifiers
    that [uuid()] will return to the new local collection. The handler that
    the call registers for the "normalize" event of the client runs outside
    of the call and is not part of it. *)
Definition attachGraph (client : option Client) (label : string)
  (uuidSource : nat → string) : M t unit :=
  let! this := get in
  if attached this
  then throw (LoggingError "Only supports one Sequence attach")
  else if bool_decide (client = None) && requiresClient this
  then throw (LoggingError "Client required for this collection")
  else
    update (λ this,
      mk (helpers this) (requiresClient this) (intervalStickinessEnabled this)
         (savedSerializedIntervals this)
         (Some (LocalIntervalCollection.new client label (helpers this) true
                  uuidSource))
         (onDeserialize this) client (localSeqToSerializedInterval this)
         (localSeqToRebasedInterval this) (pendingChangesStart this)
         (pendingChangesEnd this) (collabWindowLocalSeq this) (emitted this)
         (events this) (deserialized this)) ;;
    forEach (default [] (savedSerializedIntervals this))
            (attachSaved client label) ;;
    update (λ this, setSavedSerializedIntervals this None).

End WithInterval.
Arguments t T : clear implicits.
Arguments Event T : clear implicits.
End IntervalCollection.

(** ** A sequence to run the code on *)

(** A client over a text of [length] characters in which every character is a
    segment of its own; the characters for which [removed] holds are removed
    and acknowledged, and a position on them has nowhere to slide to. *)
Definition positionOf (ref : LocalReferencePosition) : Z :=
  match getSegment ref with
  | Some segment => Z.of_nat segment + getOffset ref
  | None => DetachedReferencePosition
  end.

Definition exampleClient (length : Z) (removed : Z → bool) : Client := {|
  getCurrentSeq := 10;
  collabWindowClientId := 0;
  getLongClientId := λ _, "client-A";
  getContainingSegment := λ pos _ _,
    if (0 <=? pos) && (pos <? length)
    then mkSegoff (Some (Z.to_nat pos)) (Some 0)
    else mkSegoff None None;
  getSlideToSegment := λ segoff,
    match so_segment segoff with
    | Some segment =>
        if removed (Z.of_nat segment) then mkSegoff None None else segoff
    | None => segoff
    end;
  findReconnectionPosition := λ segment _, Z.of_nat segment;
  cachedLength := λ _, 1;
  localReferencePositionToPosition := positionOf;
  compareReferencePositions := λ a b, positionOf a - positionOf b;
  hasLocalRef := λ _ _, true
|}.

Definition exampleUuids (n : nat) : string := "uuid-" +:+ pretty n.

(** The text "0123456789" with nothing removed, and an empty collection of
    sequence intervals over it. *)
Definition exampleText : Client := exampleClient 10 (λ _, false).

Definition emptySequenceCollection : LocalIntervalCollection.t SequenceInterval.t :=
  LocalIntervalCollection.new (Some exampleText) "comments"
    sequenceIntervalHelpers true exampleUuids.

(** The collection of numeric intervals that [createIntervalIndex] returns. *)
Definition emptyNumericCollection : LocalIntervalCollection.t Interval.t :=
  LocalIntervalCollection.new None "" numericHelpers false exampleUuids.

(** One numeric interval, [2, 5], and one sequence interval, [1, 3). *)
Definition numericCollection1 : LocalIntervalCollection.t Interval.t :=
  (LocalIntervalCollection.addInterval 2 5 IntervalType.Simple None None None
     emptyNumericCollection).2.

Definition sequenceCollection1 : LocalIntervalCollection.t SequenceInterval.t :=
  (LocalIntervalCollection.addInterval 1 3 IntervalType.SlideOnRemove None None
     None emptySequenceCollection).2.

(** The object at an address of a collection that is known to hold one. *)
Definition objectAt {T : Type} (lc : LocalIntervalCollection.t T) (a : nat)
  (fallback : T) : T :=
  default fallback (LocalIntervalCollection.store lc !! a).

(** ** Checking that a collection is in good order *)

(** The addresses an index holds. *)
Definition addressesOf (index : IntervalIndex) : list nat :=
  match index with
  | IdIntervalIndex intervalIdMap => (map_to_list intervalIdMap).*2
  | _ => treeOf index
  end.

Section Checks.
Context {T : Type} {ops : I.ISerializableInterval T}.

(** Every object has an address below the next one, and the indices hold
    live objects. *)
Definition boundedCheck (lc : LocalIntervalCollection.t T) : bool :=
  forallb (λ a, bool_decide (a < LocalIntervalCollection.nextAddress lc)%nat)
          (map_to_list (LocalIntervalCollection.store lc)).*1 &&
  forallb (λ ix,
             forallb (λ a, bool_decide
                             (is_Some (LocalIntervalCollection.store lc !! a)))
                     (addressesOf ix))
          (LocalIntervalCollection.indexes lc).

(** The id indices hold the interval under its id only. *)
Definition idConsistentCheck (lc : LocalIntervalCollection.t T) (interval : nat)
  (v : T) : bool :=
  forallb (λ ix,
             match ix with
             | IdIntervalIndex intervalIdMap =>
                 forallb (λ kv : string * nat,
                            if decide (kv.2 = interval)
                            then match I.getIntervalId v with
                                 | Ok id => bool_decide (id = kv.1)
                                 | Throw _ => false
                                 end
                            else true)
                         (map_to_list intervalIdMap)
             | _ => true
             end)
          (LocalIntervalCollection.indexes lc).

(** Every index has its comparator and holds intervals with an id. *)
Definition soundCheck (lc : LocalIntervalCollection.t T) : bool :=
  forallb (λ ix,
             match ix, compareStarts (LocalIntervalCollection.helpers lc) with
             | StartpointInRangeIndex _, None => false
             | _, _ => true
             end &&
             forallb (λ a,
                        match LocalIntervalCollection.store lc !! a
                              ≫= (λ v, match I.getIntervalId v with
                                       | Ok id => Some id
                                       | Throw _ => None
                                       end) with
                        | Some _ => true
                        | None => false
                        end)
                     (addressesOf ix))
          (LocalIntervalCollection.indexes lc).

End Checks.

Definition noInterval : Interval.t :=
  Interval.mk 0 0 emptyProps PropertiesManager.new None None.

Definition noSequenceInterval : SequenceInterval.t :=
  SequenceInterval.mk exampleText (createDetachedLocalReferencePosition 0)
    (createDetachedLocalReferencePosition 0) 0 emptyProps PropertiesManager.new
    IntervalStickiness.END None None.

(** An attached collection of sequence intervals holding the interval [1, 3),
    with no op pending and the stickiness option off. *)
Definition sequenceIntervalCollection1 : IntervalCollection.t SequenceInterval.t :=
  IntervalCollection.mk sequenceIntervalHelpers true None None
    (Some sequenceCollection1) false (Some exampleText) ∅ ∅ ∅ ∅ 0 [] [] [].

(** An attached collection whose interval [1, 3) was added by the op of
    another client, as [ackAdd] adds it: the id comes with the op and the
    endpoints are SlideOnRemove references. Then the local call
    [change("shared-0", 2, undefined)], whose op is on its way: a change of
    the start of the interval is pending. *)
Definition remoteAdd : ISequencedDocumentMessage := mkOp 9 8 "client-B".

Definition sequenceCollection2 : LocalIntervalCollection.t SequenceInterval.t :=
  (LocalIntervalCollection.addInterval 1 3 IntervalType.SlideOnRemove
     (Some (mkProps {[reservedIntervalIdKey := JStr "shared-0"]} ∅))
     (Some remoteAdd) None emptySequenceCollection).2.

Definition sequenceIntervalCollection2 : IntervalCollection.t SequenceInterval.t :=
  (IntervalCollection.change (JStr "shared-0") (Some 2) None
     (IntervalCollection.mk sequenceIntervalHelpers true None None
        (Some sequenceCollection2) false (Some exampleText) ∅ ∅ ∅ ∅ 0 [] [] [])).2.

(** A change of the same interval to [5, 7) by another client, sequenced
    before the local change. *)
Definition remoteChange : SerializedIntervalDelta :=
  {| d_sequenceNumber := 0; d_start := Some 5; d_end := Some 7;
     d_intervalType := IntervalType.SlideOnRemove; d_stickiness := None;
     d_properties :=
       Some (mkProps {[reservedIntervalIdKey := JStr "shared-0"]} ∅) |}.

Definition remoteOp : ISequencedDocumentMessage := mkOp 11 10 "client-B".

(** The local collection of an attached collection. *)
Definition localCollectionOf {T : Type} (this : IntervalCollection.t T)
  (fallback : LocalIntervalCollection.t T) : LocalIntervalCollection.t T :=
  default fallback (IntervalCollection.localCollection this).

(** A text whose characters are all removed: a position has nowhere to slide
    to. An attached collection over it with the interval [1, 3), added
    locally; the op of the addition is pending under local sequence number 1. *)
Definition removedText : Client := exampleClient 10 (λ _, true).

Definition sequenceIntervalCollection3 : IntervalCollection.t SequenceInterval.t :=
  (IntervalCollection.add 1 3 IntervalType.SlideOnRemove None None
     (IntervalCollection.mk sequenceIntervalHelpers true None None
        (Some (LocalIntervalCollection.new (Some removedText) "comments"
                 sequenceIntervalHelpers true exampleUuids))
        false (Some removedText) ∅ ∅ ∅ ∅ 0 [] [] [])).2.

(** The op recorded under a local sequence number. *)
Definition pendingOp {T : Type} (this : IntervalCollection.t T) (localSeq : Z)
  : SerializedIntervalDelta :=
  default (mkDelta 0 None None 0 None None)
          (IntervalCollection.localSeqToSerializedInterval this !! localSeq).

(** The value of a call that is known to return. *)
Definition valueOf {A : Type} (fallback : A) (r : Result A) : A :=
  match r with Ok a => a | Throw _ => fallback end.

(** ** Locating the interval of an endpoint *)

(** The truth value of a value in a condition. *)
Definition truthy (v : JsValue) : bool :=
  match v with
  | JUndefined | JNull => false
  | JBool b => b
  | JNum n => negb (n =? 0)
  | JStr s => negb (bool_decide (s = EmptyString))
  | JArr _ | JObject _ => true
  end.

(** [v?.length]: arrays and strings have a length. *)
Definition lengthOf (v : JsValue) : option nat :=
  match v with
  | JArr l => Some (length l)
  | JStr s => Some (String.length s)
  | _ => None
  end.

(** [IntervalLocator] *)
Record IntervalLocator : Type := mkLocator {
  locator_label : JsValue;
  locator_interval : JsValue
}.

(** [intervalLocatorFromEndpoint(potentialEndpoint)]; an array or a string of
    length 1 has a first element. *)
Definition intervalLocatorFromEndpoint (potentialEndpoint : LocalReferencePosition)
  : option IntervalLocator :=
  let properties := default emptyProps (ref_properties potentialEndpoint) in
  let interval := getProp properties "interval" in
  let collectionNameArray := getProp properties reservedRangeLabelsKey in
  if truthy interval &&
     bool_decide (lengthOf collectionNameArray = Some 1%nat)
  then
    match index0 collectionNameArray with
    | Ok label => Some (mkLocator label interval)
    | Throw _ => None
    end
  else None.

(** ** Further examples *)

(** The removal of the interval "uuid-0" by another client. *)
Definition remoteDelete : ISerializedInterval :=
  {| ser_sequenceNumber := 0; ser_start := 1; ser_end := 3;
     ser_intervalType := IntervalType.SlideOnRemove; ser_stickiness := None;
     ser_properties :=
       Some (mkProps {[reservedIntervalIdKey := JStr "uuid-0"]} ∅) |}.

(** The addition of the interval [4, 6) with the id "remote-7" by another
    client. *)
Definition remoteAdded : ISerializedInterval :=
  {| ser_sequenceNumber := 0; ser_start := 4; ser_end := 6;
     ser_intervalType := IntervalType.SlideOnRemove; ser_stickiness := None;
     ser_properties :=
       Some (mkProps {[reservedIntervalIdKey := JStr "remote-7"]} ∅) |}.

(** A collection of sequence intervals as the factory makes it from a
    snapshot holding the interval "remote-7" and an interval [1, 3) without
    an id. *)
Definition savedWithoutId : ISerializedInterval :=
  {| ser_sequenceNumber := 0; ser_start := 1; ser_end := 3;
     ser_intervalType := IntervalType.SlideOnRemove; ser_stickiness := None;
     ser_properties := None |}.

Definition snapshotCollection : IntervalCollection.t SequenceInterval.t :=
  IntervalCollection.mk sequenceIntervalHelpers true None
    (Some [remoteAdded; savedWithoutId]) None false None ∅ ∅ ∅ ∅ 0 [] [] [].

(** The collection of numeric intervals that [IntervalCollectionFactory.load]
    makes from an empty summary: [new IntervalCollection(helpers, false,
    emitter, [])] attached by [attachGraph(undefined, "")], so its label is
    the empty string. Then the local call [add(2, 5, IntervalType.Simple)]. *)
Definition loadedNumericCollection : IntervalCollection.t Interval.t :=
  (IntervalCollection.attachGraph None "" exampleUuids
     (IntervalCollection.mk numericHelpers false None (Some []) None false None
        ∅ ∅ ∅ ∅ 0 [] [] [])).2.

Definition numericIntervalCollection1 : IntervalCollection.t Interval.t :=
  (IntervalCollection.add 2 5 IntervalType.Simple None None
     loadedNumericCollection).2.

(** The collection "comments" after [addInterval(1, 3, SlideOnRemove,
    undefined, undefined, IntervalStickiness.START)]: one interval that keeps
    to its start. *)
Definition stickyCollection : LocalIntervalCollection.t SequenceInterval.t :=
  (LocalIntervalCollection.addInterval 1 3 IntervalType.SlideOnRemove None None
     (Some IntervalStickiness.START) emptySequenceCollection).2.

(** * Properties *)

Local Open Scope js_scope.

(** ** Reasoning about computations that may throw *)

Lemma bindR_Ok {A B : Type} (m : Result A) (k : A → Result B) (b : B) :
  bindR m k = Ok b → ∃ a, m = Ok a ∧ k a = Ok b.
Proof. destruct m as [a|e]; simpl; [eauto | discriminate]. Qed.

Lemma bindM_Ok {S A B : Type} (m : M S A) (k : A → M S B) (s s' : S) (b : B) :
  bindM m k s = (Ok b, s') → ∃ a s1, m s = (Ok a, s1) ∧ k a s1 = (Ok b, s').
Proof.
  unfold bindM. destruct (m s) as [[a|e] s1]; [eauto | discriminate].
Qed.

Lemma liftR_Ok {S A : Type} (r : Result A) (s s' : S) (a : A) :
  liftR r s = (Ok a, s') → r = Ok a ∧ s' = s.
Proof. unfold liftR. intros [= -> ->]. done. Qed.

Lemma jsAssert_Ok (cond : bool) (code : Z) (u : unit) :
  jsAssert cond code = Ok u → cond = true.
Proof. by destruct cond. Qed.

(** Splits a successful run into the successful runs of its steps. *)
Ltac inv_run H :=
  lazymatch type of H with
  | bindR _ _ = Ok _ =>
      let a := fresh "a" in
      let H1 := fresh "Hstep" in
      apply bindR_Ok in H as (a & H1 & H); inv_run H1; inv_run H
  | bindM _ _ _ = (Ok _, _) =>
      let a := fresh "a" in
      let s := fresh "s" in
      let H1 := fresh "Hstep" in
      apply bindM_Ok in H as (a & s & H1 & H); inv_run H1; inv_run H
  | liftR _ _ = (Ok _, _) =>
      let H1 := fresh "Hstep" in
      apply liftR_Ok in H as [H1 ->]; inv_run H1
  | ret _ _ = (Ok _, _) => unfold ret in H; injection H as <- <-
  | get _ = (Ok _, _) => unfold get in H; injection H as <- <-
  | Ok _ = Ok _ => injection H as H
  | _ => idtac
  end.

Lemma bindM_inv {S A B : Type} (m : M S A) (k : A → M S B) (s s' : S)
    (r : Result B) :
  bindM m k s = (r, s') →
  (∃ e, m s = (Throw e, s') ∧ r = Throw e) ∨
  (∃ a s1, m s = (Ok a, s1) ∧ k a s1 = (r, s')).
Proof.
  unfold bindM. destruct (m s) as [[a|e] s1]; intros H.
  - right. eauto.
  - left. injection H as <- <-. eauto.
Qed.

(** [m] never leaves a state unrelated to the one it started in, whether it
    returns or throws. *)
Definition preserves {S A : Type} (R : S → S → Prop) (m : M S A) : Prop :=
  ∀ s r s', m s = (r, s') → R s s'.

Section Preserves.
Context {S : Type} (R : S → S → Prop).
Hypothesis R_refl : ∀ s, R s s.
Hypothesis R_trans : ∀ s1 s2 s3, R s1 s2 → R s2 s3 → R s1 s3.

Lemma preserves_ret {A : Type} (a : A) : preserves R (ret a).
Proof. intros s r s' [= <- <-]. apply R_refl. Qed.

Lemma preserves_throw {A : Type} (e : Error) : preserves R (@throw S A e).
Proof. intros s r s' [= <- <-]. apply R_refl. Qed.

Lemma preserves_liftR {A : Type} (x : Result A) : preserves R (liftR x).
Proof. intros s r s' [= <- <-]. apply R_refl. Qed.

Lemma preserves_get : preserves R get.
Proof. intros s r s' [= <- <-]. apply R_refl. Qed.

Lemma preserves_bind {A B : Type} (m : M S A) (k : A → M S B) :
  preserves R m → (∀ a, preserves R (k a)) → preserves R (bindM m k).
Proof.
  intros Hm Hk s r s' H.
  apply bindM_inv in H as [(e & H & _) | (a & s1 & H1 & H2)].
  - by eapply Hm.
  - eapply R_trans; [by eapply Hm | by eapply Hk].
Qed.

End Preserves.

(** A step that returns hands over to the rest. *)
Lemma bindM_run {S A B : Type} (m : M S A) (k : A → M S B) (s s1 : S) (a : A) :
  m s = (Ok a, s1) → bindM m k s = k a s1.
Proof. unfold bindM. by intros ->. Qed.

(** A run whose result is known. *)
Lemma pair_from_fst {A B : Type} (p : A * B) (a : A) : p.1 = a → p = (a, p.2).
Proof. destruct p. simpl. by intros ->. Qed.

(** ** Property bags *)

Lemma getProp_defineNonWritable (p : PropertySet) (key key' : string) :
  getProp (defineNonWritable p key) key' = getProp p key'.
Proof.
  unfold getProp, defineNonWritable; simpl.
  destruct (decide (key = key')) as [->|Hne].
  - by rewrite lookup_insert_eq.
  - by rewrite lookup_insert_ne.
Qed.




(** ** Summary compression *)

Section Compression.

Implicit Types (r : ISerializedInterval) (label : option string).

Lemma spreadWith_twice p key v w :
    entries (spreadWith (Some (spreadWith p key v)) key w)
    = <[key := w]> (propsData p).
  Proof.
    unfold spreadWith, propsData; simpl.
    by rewrite insert_insert_eq.
  Qed.

  (** What loading a stored record yields, field by field. *)
Lemma decompress_compress_fields r label :
    let r' := decompressInterval (compressInterval r) label in
    ser_start r' = ser_start r ∧
    ser_end r' = ser_end r ∧
    ser_sequenceNumber r' = ser_sequenceNumber r ∧
    ser_intervalType r' = ser_intervalType r ∧
    ser_stickiness r' =
      match ser_stickiness r with
      | Some k => if bool_decide (k = IntervalStickiness.END) then None else Some k
      | None => None
      end ∧
    propsData (ser_properties r') =
      <[reservedRangeLabelsKey := labelArray label]> (propsData (ser_properties r)).
  Proof.
    unfold compressInterval.
    destruct (ser_stickiness r) as [k|] eqn:Hk; simpl.
    - destruct (decide (k = IntervalStickiness.END)) as [->|Hne].
      + rewrite bool_decide_eq_false_2 by (intros H; by apply H).
        rewrite bool_decide_eq_true_2 by done.
        simpl. by rewrite insert_insert_eq.
      + rewrite bool_decide_eq_true_2 by done.
        rewrite (bool_decide_eq_false_2 (k = _)) by done.
        simpl. by rewrite insert_insert_eq.
    - by rewrite insert_insert_eq.
  Qed.

Lemma rangeLabels_present r label :
    getPropOpt (ser_properties r) reservedRangeLabelsKey = labelArray label →
    propsData (ser_properties r) !! reservedRangeLabelsKey = Some (labelArray label).
  Proof.
    unfold getPropOpt, getProp, propsData.
    destruct (ser_properties r) as [p|]; simpl.
    - destruct (entries p !! reservedRangeLabelsKey); simpl; [congruence|].
      by destruct label.
    - by destruct label.
  Qed.

  (** The stored property bag no longer names the range label. *)
Lemma compressed_props_no_label r :
    getProp (compressedProps (compressInterval r)) reservedRangeLabelsKey
    = JUndefined.
  Proof.
    unfold compressInterval.
    destruct (ser_stickiness r) as [k|]; [case_bool_decide|];
      unfold getProp, spreadWith; simpl; by rewrite lookup_insert_eq.
  Qed.

  (** Loading injects the label of the collection. *)
Lemma decompressed_label (c : CompressedSerializedInterval) label :
    getPropOpt (ser_properties (decompressInterval c label)) reservedRangeLabelsKey
    = labelArray label.
  Proof.
    destruct c; unfold getPropOpt, getProp, spreadWith; simpl;
      by rewrite lookup_insert_eq.
  Qed.

  (** The sixth element is written exactly for a stickiness that is present
      and is not End. *)
Lemma compressed_stickiness r :
    compressedStickiness (compressInterval r) =
      match ser_stickiness r with
      | Some k => if bool_decide (k = IntervalStickiness.END) then None else Some k
      | None => None
      end.
  Proof.
    unfold compressInterval.
    destruct (ser_stickiness r) as [k|]; [|done].
    repeat case_bool_decide; done.
  Qed.

End Compression.

(** What [serialize] writes as stickiness: nothing for a numeric interval,
    and for a sequence interval its stickiness unless that is End. *)
Lemma serialize_stickiness :
  (∀ v : Interval.t, ser_stickiness (Interval.serialize v) = None) ∧
  (∀ v : SequenceInterval.t,
     ser_stickiness (SequenceInterval.serialize v) ≠ Some IntervalStickiness.END ∧
     default IntervalStickiness.END (ser_stickiness (SequenceInterval.serialize v))
     = SequenceInterval.stickiness v).
Proof.
  split; [done|]. intros v. unfold SequenceInterval.serialize. simpl.
  case_bool_decide as Hk; simpl.
  - split; [|done]. intros [= H]. by apply Hk.
  - split; [done|].
    destruct (decide (SequenceInterval.stickiness v = IntervalStickiness.END))
      as [Heq|Hne]; [by rewrite Heq|by destruct Hk].
Qed.

(** C3 (as stated, refuted): the collection of numeric intervals that the
    factory loads is attached under the empty label, and [createInterval]
    writes no range labels for an empty label. The record that [serialize]
    returns for the interval added by [add(2, 5)] has the id as its only
    property; stored and loaded with the label of the collection it comes
    back with [referenceRangeLabels = [""]] as a second property. *)
Lemma compress_decompress_numeric_gains_label :
  let lc := localCollectionOf numericIntervalCollection1 emptyNumericCollection in
  let v := objectAt lc 0 noInterval in
  let r := Interval.serialize v in
  let r' := decompressInterval (compressInterval r)
              (Some (LocalIntervalCollection.label lc)) in
  IntervalCollection.attached numericIntervalCollection1 = true ∧
  LocalIntervalCollection.label lc = "" ∧
  LocalIntervalCollection.getIntervalById lc "uuid-0" = Some 0%nat ∧
  LocalIntervalCollection.store lc !! 0%nat = Some v ∧
  propsData (ser_properties r) = {[reservedIntervalIdKey := JStr "uuid-0"]} ∧
  propsData (ser_properties r') !! reservedRangeLabelsKey = Some (JArr [JStr ""]) ∧
  ¬ sameSerialized r' r.
Proof.
  intros lc v r r'.
  assert (Hr : propsData (ser_properties r)
               = {[reservedIntervalIdKey := JStr "uuid-0"]})
    by (vm_compute; reflexivity).
  assert (Hr' : propsData (ser_properties r') !! reservedRangeLabelsKey
                = Some (JArr [JStr ""])) by (vm_compute; reflexivity).
  split_and!; [by vm_compute..|exact Hr|exact Hr'|].
  intros (_ & _ & _ & _ & _ & Hp). rewrite Hp, Hr in Hr'.
  by vm_compute in Hr'.
Qed.

(** C3 (amended): the record that [serialize] returns for an interval,
    stored in the V2 form and loaded with the label of the collection. The
    range labels are removed on store and set to [[label]] on load, the
    stickiness is omitted exactly when the interval has stickiness End (the
    record has none then) and is otherwise stored and restored, and start,
    end, sequenceNumber, intervalType and every other property are kept. So
    the record of an interval that carries the range labels [[label]] is
    loaded as it was stored. First for numeric intervals, then for sequence
    intervals. *)
Theorem compress_decompress_roundtrip :
  (∀ (v : Interval.t) (label : string),
     let r := Interval.serialize v in
     let c := compressInterval r in
     let r' := decompressInterval c (Some label) in
     getProp (compressedProps c) reservedRangeLabelsKey = JUndefined ∧
     compressedStickiness c = None ∧
     ser_sequenceNumber r' = ser_sequenceNumber r ∧
     ser_start r' = ser_start r ∧
     ser_end r' = ser_end r ∧
     ser_intervalType r' = ser_intervalType r ∧
     ser_stickiness r' = ser_stickiness r ∧
     propsData (ser_properties r')
     = <[reservedRangeLabelsKey := labelArray (Some label)]>
         (propsData (ser_properties r)) ∧
     (getProp (Interval.properties v) reservedRangeLabelsKey
      = labelArray (Some label) →
      sameSerialized r' r)) ∧
  (∀ (v : SequenceInterval.t) (label : string),
     let r := SequenceInterval.serialize v in
     let c := compressInterval r in
     let r' := decompressInterval c (Some label) in
     getProp (compressedProps c) reservedRangeLabelsKey = JUndefined ∧
     (compressedStickiness c = None
      ↔ SequenceInterval.stickiness v = IntervalStickiness.END) ∧
     ser_sequenceNumber r' = ser_sequenceNumber r ∧
     ser_start r' = ser_start r ∧
     ser_end r' = ser_end r ∧
     ser_intervalType r' = ser_intervalType r ∧
     ser_stickiness r' = ser_stickiness r ∧
     default IntervalStickiness.END (ser_stickiness r')
     = SequenceInterval.stickiness v ∧
     propsData (ser_properties r')
     = <[reservedRangeLabelsKey := labelArray (Some label)]>
         (propsData (ser_properties r)) ∧
     (getProp (SequenceInterval.properties v) reservedRangeLabelsKey
      = labelArray (Some label) →
      sameSerialized r' r)).
Proof.
  destruct serialize_stickiness as [Hnum Hseq].
  split.
  - intros v label r c r'.
    destruct (decompress_compress_fields r (Some label))
      as (Hs & He & Hq & Ht & Hk & Hp).
    fold c in Hs, He, Hq, Ht, Hk, Hp. fold r' in Hs, He, Hq, Ht, Hk, Hp.
    assert (Hk' : ser_stickiness r' = ser_stickiness r).
    { rewrite Hk. subst r. by rewrite Hnum. }
    split_and!; try done.
    + apply compressed_props_no_label.
    + intros Hlabel. repeat split; try done.
      rewrite Hp. apply insert_id. by apply rangeLabels_present.
  - intros v label r c r'.
    destruct (decompress_compress_fields r (Some label))
      as (Hs & He & Hq & Ht & Hk & Hp).
    fold c in Hs, He, Hq, Ht, Hk, Hp. fold r' in Hs, He, Hq, Ht, Hk, Hp.
    destruct (Hseq v) as [Hne Hdef]. fold r in Hne, Hdef.
    assert (Hk' : ser_stickiness r' = ser_stickiness r).
    { rewrite Hk. destruct (ser_stickiness r) as [k|]; [|done].
      rewrite bool_decide_eq_false_2; [done|]. intros ->. by apply Hne. }
    split_and!; try done.
    + apply compressed_props_no_label.
    + subst c. rewrite compressed_stickiness. rewrite <- Hdef.
      destruct (ser_stickiness r) as [k|]; simpl; [|done].
      rewrite bool_decide_eq_false_2 by (intros ->; by apply Hne).
      split; [done|]. intros ->. by destruct Hne.
    + by rewrite Hk'.
    + intros Hlabel. repeat split; try done.
      rewrite Hp. apply insert_id. by apply rangeLabels_present.
Qed.

Lemma compress_decompress_roundtrip_witness :
  let v := objectAt stickyCollection 0 noSequenceInterval in
  let r := SequenceInterval.serialize v in
  ser_stickiness r = Some IntervalStickiness.START ∧
  sameSerialized
    (decompressInterval (compressInterval r)
       (Some (LocalIntervalCollection.label stickyCollection))) r.
Proof.
  intros v r. split; [vm_compute; reflexivity|].
  refine (proj2 (proj2 (proj2 (proj2 (proj2 (proj2 (proj2 (proj2 (proj2
            (proj2 compress_decompress_roundtrip v "comments")))))))))
            _).
  vm_compute. reflexivity.
Defined.

(** ** Stickiness and sliding preference *)

(** The rule of the data model: the sliding preference of each endpoint is
    the one its stickiness asks for. *)
Definition stickinessRespected (interval : SequenceInterval.t) : Prop :=
  slidingPreference (SequenceInterval.start interval) =
    startReferenceSlidingPreference (SequenceInterval.stickiness interval) ∧
  slidingPreference (SequenceInterval.end_ interval) =
    endReferenceSlidingPreference (SequenceInterval.stickiness interval).

Section Stickiness.

Implicit Types (this : SequenceInterval.t) (client : Client).

Lemma startReferenceSlidingPreference_spec (stickiness : Z) :
  startReferenceSlidingPreference stickiness =
    if Z.testbit stickiness 0 then BACKWARD else FORWARD.
Proof.
  unfold startReferenceSlidingPreference, IntervalStickiness.START.
  rewrite Z.bit0_odd. change 1 with (Z.ones 1). rewrite Z.land_ones by lia.
  change (2 ^ 1) with 2. rewrite Zmod_odd. by destruct (Z.odd stickiness).
Qed.

Lemma createPositionReferenceFromSegoff_preference client segoff refType op
    localSeq fromSnapshot preference ref :
  createPositionReferenceFromSegoff client segoff refType op localSeq
    fromSnapshot preference = Ok ref →
  slidingPreference ref = default FORWARD preference ∨
  (so_segment segoff = None ∧ slidingPreference ref = FORWARD).
Proof.
  unfold createPositionReferenceFromSegoff.
  destruct (so_segment segoff) as [segment|].
  - intros [= <-]. by left.
  - case_match; [discriminate|]. intros [= <-]. by right.
Qed.

Lemma createPositionReference_preference client pos refType op fromSnapshot
    localSeq preference ref :
  createPositionReference client pos refType op fromSnapshot localSeq
    preference = Ok ref →
  slidingPreference ref = default FORWARD preference ∨
  (getSegment ref = None ∧ slidingPreference ref = FORWARD).
Proof.
  unfold createPositionReference. intros H. inv_run H.
  unfold createPositionReferenceFromSegoff in H.
  destruct (so_segment a) as [segment|].
  - injection H as <-. by left.
  - case_match; [discriminate|]. injection H as <-. by right.
Qed.

(** Adding properties changes the property bag and its manager only. *)
Lemma addProperties_fields this p collab seq r :
  SequenceInterval.addProperties this p collab seq = Ok r →
  SequenceInterval.client r.1 = SequenceInterval.client this ∧
  SequenceInterval.start r.1 = SequenceInterval.start this ∧
  SequenceInterval.end_ r.1 = SequenceInterval.end_ this ∧
  SequenceInterval.stickiness r.1 = SequenceInterval.stickiness this ∧
  SequenceInterval.intervalType r.1 = SequenceInterval.intervalType this ∧
  SequenceInterval.callbacks r.1 = SequenceInterval.callbacks this.
Proof.
  unfold SequenceInterval.addProperties.
  destruct (PropertiesManager.addProperties _ _ _ _ _) as [[[props mgr] d]|];
    simpl; [|discriminate].
  intros [= <-]. done.
Qed.

Lemma new_fields client s e intervalType props stickiness this :
  SequenceInterval.new client s e intervalType props stickiness = Ok this →
  SequenceInterval.client this = client ∧
  SequenceInterval.start this = s ∧ SequenceInterval.end_ this = e ∧
  SequenceInterval.stickiness this = default IntervalStickiness.END stickiness ∧
  SequenceInterval.intervalType this = intervalType ∧
  SequenceInterval.callbacks this = None.
Proof.
  unfold SequenceInterval.new. destruct props as [p|].
  - destruct (SequenceInterval.addProperties _ _ _ _) as [r|] eqn:Hadd;
      simpl; [|discriminate].
    apply addProperties_fields in Hadd. destruct r as [this' d].
    intros [= <-]. simpl in Hadd. tauto.
  - intros [= <-]. done.
Qed.


(** [createSequenceInterval] gives both endpoints the preference that the
    stickiness asks for, unless the position has no segment (a detached
    reference prefers Forward). *)
Lemma createSequenceInterval_respects client label s e intervalType op
    fromSnapshot stickiness this :
  createSequenceInterval label s e client intervalType op fromSnapshot stickiness
  = Ok this →
  SequenceInterval.stickiness this = default IntervalStickiness.END stickiness ∧
  (is_Some (getSegment (SequenceInterval.start this)) →
   slidingPreference (SequenceInterval.start this) =
     startReferenceSlidingPreference (SequenceInterval.stickiness this)) ∧
  (is_Some (getSegment (SequenceInterval.end_ this)) →
   slidingPreference (SequenceInterval.end_ this) =
     endReferenceSlidingPreference (SequenceInterval.stickiness this)).
Proof.
  unfold createSequenceInterval.
  destruct (if intervalType =? IntervalType.Transient then _ else _)
    as [beginRefType endRefType].
  intros H.
  apply bindR_Ok in H as (startLref & Hs & H).
  apply bindR_Ok in H as (endLref & He & H).
  apply new_fields in H as (_ & -> & -> & -> & _). simpl.
  apply createPositionReference_preference in Hs, He.
  split_and!; [done| |].
  - intros [seg Hseg]. destruct Hs as [Hs|[Hs _]]; [done|congruence].
  - intros [seg Hseg]. destruct He as [He|[He _]]; [done|congruence].
Qed.

End Stickiness.

(** An interval with stickiness Start over the example text, as
    [createSequenceInterval] builds it for a local add, and the interval that
    changing its start to 2 yields, the way [IntervalCollection.change]
    calls [modify]. *)
Definition stickyStartInterval : SequenceInterval.t :=
  match createSequenceInterval "comments" 1 3 exampleText
          IntervalType.SlideOnRemove None None (Some IntervalStickiness.START)
  with
  | Ok created => created
  | Throw _ => noSequenceInterval
  end.

Definition stickyStartIntervalChanged : SequenceInterval.t :=
  match SequenceInterval.modify stickyStartInterval "comments" (Some 2) None
          None None None
  with
  | Ok changed => changed
  | Throw _ => noSequenceInterval
  end.

(** C6 (the code at the failing input): the interval is created with
    stickiness Start and both endpoints prefer to slide backward, as the rule
    asks. The changed interval breaks the rule: its stickiness is End, so its
    end should prefer Forward, but the end reference is the old one and
    prefers Backward. *)
Theorem modify_breaks_sliding_preference_rule :
  createSequenceInterval "comments" 1 3 exampleText IntervalType.SlideOnRemove
    None None (Some IntervalStickiness.START) = Ok stickyStartInterval ∧
  stickinessRespected stickyStartInterval ∧
  SequenceInterval.modify stickyStartInterval "comments" (Some 2) None None
    None None = Ok stickyStartIntervalChanged ∧
  SequenceInterval.stickiness stickyStartIntervalChanged = IntervalStickiness.END ∧
  slidingPreference (SequenceInterval.start stickyStartIntervalChanged) = FORWARD ∧
  slidingPreference (SequenceInterval.end_ stickyStartIntervalChanged) = BACKWARD ∧
  ¬ stickinessRespected stickyStartIntervalChanged.
Proof.
  split_and!.
  - vm_compute. reflexivity.
  - split; vm_compute; reflexivity.
  - vm_compute. reflexivity.
  - vm_compute. reflexivity.
  - vm_compute. reflexivity.
  - vm_compute. reflexivity.
  - intros [_ Hend]. vm_compute in Hend. discriminate.
Qed.




(** ** Legacy ids *)

Lemma createLegacyId_example :
  LocalIntervalCollection.createLegacyId 3 17 = "legacy3-17".
Proof. vm_compute. reflexivity. Qed.

Lemma addProperties_singleton (oldProps : option PropertySet) (key : string)
    (v : JsValue) :
  v ≠ JNull →
  entries (addProperties oldProps (mkProps {[key := v]} ∅))
  = <[key := v]> (propsData oldProps).
Proof.
  intros Hv. unfold addProperties; simpl. rewrite map_to_list_singleton. simpl.
  unfold extendKey; simpl.
  assert (propsData oldProps = entries (default emptyProps oldProps)) as <-
    by by destruct oldProps.
  by destruct v.
Qed.

(** C8: [ensureSerializedId] returns the id that the properties hold, when
    they hold one; otherwise it returns "legacy{start}-{end}" and writes it
    into the properties. Either way the id property is non-writable
    afterwards, it holds the id returned, and nothing else of the serialized
    interval changes. *)
Theorem ensureSerializedId_spec (serializedInterval : ISerializedInterval) :
  let existing :=
    getPropOpt (ser_properties serializedInterval) reservedIntervalIdKey in
  let id := (LocalIntervalCollection.ensureSerializedId serializedInterval).1 in
  let after := (LocalIntervalCollection.ensureSerializedId serializedInterval).2 in
  id = (if isDefined existing then existing
        else JStr ("legacy" +:+ pretty (ser_start serializedInterval) +:+ "-"
                   +:+ pretty (ser_end serializedInterval))) ∧
  getPropOpt (ser_properties after) reservedIntervalIdKey = id ∧
  (∃ p, ser_properties after = Some p ∧ reservedIntervalIdKey ∈ nonWritable p) ∧
  (∀ key, key ≠ reservedIntervalIdKey →
     getPropOpt (ser_properties after) key
     = getPropOpt (ser_properties serializedInterval) key) ∧
  ser_start after = ser_start serializedInterval ∧
  ser_end after = ser_end serializedInterval ∧
  ser_sequenceNumber after = ser_sequenceNumber serializedInterval ∧
  ser_intervalType after = ser_intervalType serializedInterval ∧
  ser_stickiness after = ser_stickiness serializedInterval.
Proof.
  intros existing id after. subst id after.
  unfold LocalIntervalCollection.ensureSerializedId. fold existing.
  destruct (isDefined existing) eqn:Hdef; simpl.
  - split_and!; try done.
    + rewrite getProp_defineNonWritable. subst existing.
      by destruct (ser_properties serializedInterval).
    + eexists. split; [done|]. simpl. set_solver.
    + intros key Hne. rewrite getProp_defineNonWritable.
      by destruct (ser_properties serializedInterval).
  - split_and!; try done.
    + rewrite getProp_defineNonWritable. unfold getProp.
      rewrite addProperties_singleton by done. by rewrite lookup_insert_eq.
    + eexists. split; [done|]. simpl. set_solver.
    + intros key Hne. rewrite getProp_defineNonWritable. unfold getProp.
      rewrite addProperties_singleton by done.
      rewrite lookup_insert_ne by done.
      by destruct (ser_properties serializedInterval).
Qed.

(** ** Range queries *)

(** C9: a range with [start ≤ 0] or [start > end] is answered with the empty
    array, whatever the tree of the index and the store hold and whatever the
    helpers would create: no probe interval is made and the tree is not
    visited. *)
Theorem range_queries_reject_bad_ranges {T : Type}
    {ops : I.ISerializableInterval T} (helpers : IIntervalHelpers T)
    (client : option Client) (store : gmap nat T) (intervalTree : list nat)
    (start end_ : Z) :
  start ≤ 0 ∨ start > end_ →
  findIntervalsWithEndpointInRange helpers client store intervalTree start end_
  = Ok [] ∧
  findIntervalsWithStartpointInRange helpers client store intervalTree start end_
  = Ok [].
Proof.
  intros Hbad.
  unfold findIntervalsWithEndpointInRange, findIntervalsWithStartpointInRange.
  assert ((start <=? 0) || (end_ <? start) = true) as ->; [|done].
  apply orb_true_iff. destruct Hbad; [left|right]; lia.
Qed.

Lemma range_queries_reject_bad_ranges_witness :
  findIntervalsWithEndpointInRange numericHelpers None
    (LocalIntervalCollection.store numericCollection1) [0%nat] 0 4 = Ok [] ∧
  findIntervalsWithStartpointInRange numericHelpers None
    (LocalIntervalCollection.store numericCollection1) [0%nat] 5 4 = Ok [].
Proof.
  split.
  - apply (range_queries_reject_bad_ranges numericHelpers None
             (LocalIntervalCollection.store numericCollection1) [0%nat] 0 4).
    left. lia.
  - apply (range_queries_reject_bad_ranges numericHelpers None
             (LocalIntervalCollection.store numericCollection1) [0%nat] 5 4).
    right. lia.
Defined.

(** The guard is what answers: on the same index a good range is
    answered by visiting the tree. *)
Lemma range_query_good_range :
  findIntervalsWithEndpointInRange intervalHelpers None
    (LocalIntervalCollection.store numericCollection1) [0%nat] 4 6
  = Ok [0%nat].
Proof. vm_compute. reflexivity. Qed.

(** ** Indices *)

(** How often an address occurs in a tree. *)
Definition occ (a : nat) (tree : list nat) : nat :=
  length (filter (λ b, b = a) tree).

Lemma occ_cons (a b : nat) (tree : list nat) :
  occ a (b :: tree) = ((if decide (b = a) then 1 else 0) + occ a tree)%nat.
Proof. unfold occ. rewrite filter_cons. by case_decide. Qed.

Section TreeFacts.
Context {T : Type}.
Variable compareKeys : T → T → Result Z.
Variable store : gmap nat T.

(** Removing a key never adds an entry. *)
Lemma remove_occ key tree tree' a :
  RedBlackTree.remove compareKeys store key tree = Ok tree' →
  (occ a tree' ≤ occ a tree)%nat.
Proof.
  revert tree'. induction tree as [|b rest IH]; intros tree' H; simpl in H.
  - injection H as <-. done.
  - apply bindR_Ok in H as (v & Hv & H).
    apply bindR_Ok in H as (c & Hc & H).
    apply bindR_Ok in H as (rest' & Hr & H).
    injection H as <-. specialize (IH _ Hr).
    rewrite occ_cons. destruct (c =? 0); [|rewrite occ_cons]; lia.
Qed.

(** Removing the key of an object removes the object, provided the
    comparator finds a key equal to itself. *)
Lemma remove_absent key tree tree' a :
  RedBlackTree.remove compareKeys store key tree = Ok tree' →
  store !! a = Some key →
  (∀ c, compareKeys key key = Ok c → c = 0) →
  occ a tree' = 0%nat.
Proof.
  intros H Ha Hrefl. revert tree' H.
  induction tree as [|b rest IH]; intros tree' H; simpl in H.
  - injection H as <-. done.
  - apply bindR_Ok in H as (v & Hv & H).
    apply bindR_Ok in H as (c & Hc & H).
    apply bindR_Ok in H as (rest' & Hr & H).
    injection H as <-. specialize (IH _ Hr).
    destruct (c =? 0) eqn:Ec; [done|].
    rewrite occ_cons, IH. case_decide as Hb; [|done].
    subst b. unfold readObject in Hv. rewrite Ha in Hv.
    injection Hv as <-. apply Hrefl in Hc. subst c. done.
Qed.

(** Inserting adds the address once. *)
Lemma insert_occ key address tree tree' a :
  RedBlackTree.insert compareKeys store key address tree = Ok tree' →
  occ a tree' = ((if decide (address = a) then 1 else 0) + occ a tree)%nat.
Proof.
  revert tree'. induction tree as [|b rest IH]; intros tree' H; simpl in H.
  - injection H as <-. by rewrite occ_cons.
  - apply bindR_Ok in H as (v & Hv & H).
    apply bindR_Ok in H as (c & Hc & H).
    destruct (c <? 0).
    + injection H as <-. by rewrite occ_cons.
    + apply bindR_Ok in H as (rest' & Hr & H). injection H as <-.
      rewrite !occ_cons, (IH _ Hr). lia.
Qed.

Lemma put_occ_other key address tree tree' a :
  RedBlackTree.put compareKeys store key address tree = Ok tree' →
  a ≠ address →
  (occ a tree' ≤ occ a tree)%nat.
Proof.
  unfold RedBlackTree.put. intros H Hne.
  apply bindR_Ok in H as (t1 & H1 & H).
  rewrite (insert_occ _ _ _ _ _ H).
  apply (remove_occ _ _ _ a) in H1. case_decide; [congruence|lia].
Qed.

Lemma put_occ_new key address tree tree' :
  RedBlackTree.put compareKeys store key address tree = Ok tree' →
  occ address tree = 0%nat →
  occ address tree' = 1%nat.
Proof.
  unfold RedBlackTree.put. intros H H0.
  apply bindR_Ok in H as (t1 & H1 & H).
  rewrite (insert_occ _ _ _ _ _ H).
  apply (remove_occ _ _ _ address) in H1. case_decide; [lia|done].
Qed.

End TreeFacts.

Section IndexFacts.
Context {T : Type} {ops : I.ISerializableInterval T}.
Variable helpers : IIntervalHelpers T.

Implicit Types (index : IntervalIndex) (store : gmap nat T).

Lemma treeOf_withTree index tree :
  (∀ m, index ≠ IdIntervalIndex m) → treeOf (withTree index tree) = tree.
Proof. destruct index; intros H; try done. by destruct (H intervalIdMap). Qed.

Lemma occurrences_withTree index tree a :
  (∀ m, index ≠ IdIntervalIndex m) →
  occurrences (withTree index tree) a = occ a tree.
Proof. destruct index; intros H; try done. by destruct (H intervalIdMap). Qed.

Lemma occurrences_tree index a :
  (∀ m, index ≠ IdIntervalIndex m) → occurrences index a = occ a (treeOf index).
Proof. destruct index; intros H; try done. by destruct (H intervalIdMap). Qed.

(** [index.remove] never adds an entry. *)
Lemma IntervalIndex_remove_occ index interval store index' a :
  IntervalIndex_remove helpers index interval store = Ok index' →
  (occurrences index' a ≤ occurrences index a)%nat.
Proof.
  unfold IntervalIndex_remove. intros H.
  apply bindR_Ok in H as (v & Hv & H).
  destruct index as [t|m|t|t|t];
    try (apply bindR_Ok in H as (t' & Ht & H); injection H as <-;
         simpl; apply (remove_occ _ _ _ _ _ a) in Ht; exact Ht).
  apply bindR_Ok in H as (id & Hid & H). injection H as <-. simpl.
  rewrite map_filter_delete, map_size_delete. destruct (_ !! id); simpl; lia.
Qed.

(** The id index holds the interval under its id only. *)
Definition idConsistent (index : IntervalIndex) (interval : nat) (v : T) : Prop :=
  ∀ m key, index = IdIntervalIndex m → m !! key = Some interval →
           I.getIntervalId v = Ok key.

(** Every comparator finds the interval equal to itself. *)
Definition selfEqual (v : T) : Prop :=
  ∀ index c, comparatorOf helpers index v v = Ok c → c = 0.

(** [index.remove(interval)] leaves no entry for the interval. *)
Lemma IntervalIndex_remove_absent index interval store index' v :
  IntervalIndex_remove helpers index interval store = Ok index' →
  store !! interval = Some v →
  selfEqual v →
  idConsistent index interval v →
  occurrences index' interval = 0%nat.
Proof.
  unfold IntervalIndex_remove. intros H Hv Hself Hid.
  unfold readObject in H. rewrite Hv in H. simpl in H.
  destruct index as [t|m|t|t|t];
    try (apply bindR_Ok in H as (t' & Ht & H); injection H as <-; simpl;
         eapply remove_absent; [exact Ht | exact Hv | apply Hself]).
  apply bindR_Ok in H as (id & Hgid & H). injection H as <-. simpl.
  apply map_size_empty_iff, map_eq. intros key. rewrite lookup_empty.
  apply map_lookup_filter_None. right. intros a Ha Heq. simpl in Heq. subst a.
  destruct (decide (key = id)) as [->|Hne].
  - by rewrite lookup_delete_eq in Ha.
  - rewrite lookup_delete_ne in Ha by done.
    specialize (Hid m key eq_refl Ha). congruence.
Qed.

(** [index.add(interval)] adds the interval once and nothing else. *)
Lemma IntervalIndex_add_occ_other index interval store index' store' a :
  IntervalIndex_add helpers index interval store = Ok (index', store') →
  a ≠ interval →
  (occurrences index' a ≤ occurrences index a)%nat.
Proof.
  unfold IntervalIndex_add. intros H Hne.
  apply bindR_Ok in H as (v & Hv & H).
  destruct index as [t|m|t|t|t];
    try (apply bindR_Ok in H as (t' & Ht & H); injection H as <- <-; simpl;
         eapply put_occ_other; [exact Ht | done]).
  apply bindR_Ok in H as (id & Hgid & H). injection H as <- <-. simpl.
  rewrite map_filter_insert_False by (simpl; congruence).
  rewrite map_filter_delete, map_size_delete. destruct (_ !! id); simpl; lia.
Qed.

Lemma IntervalIndex_add_occ_new index interval store index' store' :
  IntervalIndex_add helpers index interval store = Ok (index', store') →
  occurrences index interval = 0%nat →
  occurrences index' interval = 1%nat.
Proof.
  unfold IntervalIndex_add. intros H H0.
  apply bindR_Ok in H as (v & Hv & H).
  destruct index as [t|m|t|t|t];
    try (apply bindR_Ok in H as (t' & Ht & H); injection H as <- <-; simpl;
         eapply put_occ_new; [exact Ht | exact H0]).
  apply bindR_Ok in H as (id & Hgid & H). injection H as <- <-.
  simpl in *. apply map_size_empty_iff in H0.
  rewrite map_filter_insert_True by done. rewrite H0, insert_empty.
  apply map_size_singleton.
Qed.

(** The only write [index.add] makes to the store: the id index makes the id
    of the interval non-writable. *)
Lemma IntervalIndex_add_store index interval store index' store' :
  IntervalIndex_add helpers index interval store = Ok (index', store') →
  ∃ v, store !! interval = Some v ∧
       (store' = store ∨
        store' = <[interval :=
                    I.setProperties v
                      (defineNonWritable (I.properties v) reservedIntervalIdKey)]>
                   store).
Proof.
  unfold IntervalIndex_add, readObject. intros H.
  destruct (store !! interval) as [v|] eqn:Hv; simpl in H; [|discriminate].
  exists v. split; [done|].
  destruct index as [t|m|t|t|t];
    try (apply bindR_Ok in H as (t' & Ht & H); injection H as <- <-; by left).
  apply bindR_Ok in H as (id & Hgid & H). injection H as <- <-. by right.
Qed.

End IndexFacts.

(** ** LocalIntervalCollection *)

Lemma Forall2_Forall_transfer {A : Type} (P Q : A → Prop) (R : A → A → Prop)
    (l l' : list A) :
  (∀ x y, P x → R x y → Q y) → Forall P l → Forall2 R l l' → Forall Q l'.
Proof.
  intros HPQ HP HR. induction HR as [|x y l l' Hxy _ IH]; [done|].
  apply Forall_cons in HP as [Hx Hl]. constructor; eauto.
Qed.

Section LocalFacts.
Context {T : Type} {ops : I.ISerializableInterval T}.

(** [obs] is what one looks at in an interval object. The facts below hold
    for every observation that the bookkeeping of the collection leaves
    alone: installing or removing listeners, linking the endpoints to the
    interval, and making the id immutable. *)
Context {O : Type} (obs : T → O).
Hypothesis obs_callbacks : ∀ v si cb,
  I.asSequenceInterval v = Some si →
  obs (I.ofSequenceInterval v (SequenceInterval.setCallbacks si cb)) = obs v.
Hypothesis obs_same : ∀ v si,
  I.asSequenceInterval v = Some si → obs (I.ofSequenceInterval v si) = obs v.
Hypothesis obs_link : ∀ v si p q,
  I.asSequenceInterval v = Some si →
  obs (I.ofSequenceInterval v
         (SequenceInterval.setEndpoints si
            (ref_addProperties (SequenceInterval.start si) p)
            (ref_addProperties (SequenceInterval.end_ si) q))) = obs v.
Hypothesis obs_freeze : ∀ v,
  obs (I.setProperties v
         (defineNonWritable (I.properties v) reservedIntervalIdKey)) = obs v.

Abbreviation lic := (LocalIntervalCollection.t T).
Implicit Types (lc : lic) (interval : nat).

(** The interval is in none of the indices, or once in each. *)
Definition absentFrom (ixs : list IntervalIndex) interval : Prop :=
  Forall (λ ix, occurrences ix interval = 0%nat) ixs.

Definition onceIn (ixs : list IntervalIndex) interval : Prop :=
  Forall (λ ix, occurrences ix interval = 1%nat) ixs.

(** New objects get new addresses, and the indices hold live objects. *)
Definition bounded lc : Prop :=
  (∀ a, is_Some (LocalIntervalCollection.store lc !! a) →
        (a < LocalIntervalCollection.nextAddress lc)%nat) ∧
  Forall (λ ix, ∀ a, occurrences ix a ≠ 0%nat →
                     is_Some (LocalIntervalCollection.store lc !! a))
         (LocalIntervalCollection.indexes lc).

(** From [lc] to [lc']: no object is lost and no observation changes. *)
Definition extends lc lc' : Prop :=
  bounded lc →
  bounded lc' ∧
  (LocalIntervalCollection.nextAddress lc
   ≤ LocalIntervalCollection.nextAddress lc')%nat ∧
  (∀ a v, LocalIntervalCollection.store lc !! a = Some v →
          ∃ v', LocalIntervalCollection.store lc' !! a = Some v' ∧
                obs v' = obs v) ∧
  LocalIntervalCollection.label lc' = LocalIntervalCollection.label lc ∧
  LocalIntervalCollection.helpers lc' = LocalIntervalCollection.helpers lc ∧
  LocalIntervalCollection.client lc' = LocalIntervalCollection.client lc.

Lemma extends_refl lc : extends lc lc.
Proof. intros Hb. split_and!; try done. eauto. Qed.

Lemma extends_trans lc1 lc2 lc3 :
  extends lc1 lc2 → extends lc2 lc3 → extends lc1 lc3.
Proof.
  intros H12 H23 Hb.
  destruct (H12 Hb) as (Hb2 & Hn12 & Hs12 & Hl12 & Hh12 & Hc12).
  destruct (H23 Hb2) as (Hb3 & Hn23 & Hs23 & Hl23 & Hh23 & Hc23).
  split_and!; try congruence; try lia.
  intros a v Ha. destruct (Hs12 _ _ Ha) as (v2 & Ha2 & Ho2).
  destruct (Hs23 _ _ Ha2) as (v3 & Ha3 & Ho3). exists v3. split; congruence.
Qed.

(** Overwriting a live object with one that looks the same. *)
Lemma extends_write lc interval v v' :
  LocalIntervalCollection.store lc !! interval = Some v →
  obs v' = obs v →
  extends lc (LocalIntervalCollection.setStore lc
                (<[interval := v']> (LocalIntervalCollection.store lc))).
Proof.
  intros Hv Ho [Hstore Hix]. split_and!; try done.
  - split; simpl.
    + intros a [w Ha]. destruct (decide (a = interval)) as [->|Hne].
      * apply Hstore. eauto.
      * rewrite lookup_insert_ne in Ha by done. apply Hstore. eauto.
    + eapply Forall_impl; [exact Hix|]. intros ix Hx a Ha. simpl.
      destruct (decide (a = interval)) as [->|Hne].
      * rewrite lookup_insert_eq. eauto.
      * rewrite lookup_insert_ne by done. by apply Hx.
  - intros a w Ha. simpl. destruct (decide (a = interval)) as [->|Hne].
    + rewrite lookup_insert_eq. exists v'. split; [done|]. congruence.
    + rewrite lookup_insert_ne by done. eauto.
Qed.

Lemma writeInterval_extends lc interval v v' r lc' :
  LocalIntervalCollection.store lc !! interval = Some v →
  obs v' = obs v →
  LocalIntervalCollection.writeInterval interval v' lc = (r, lc') →
  extends lc lc'.
Proof.
  intros Hv Ho [= <- <-]. by eapply extends_write.
Qed.

(** *** The loops over the indices *)

Lemma removeFromEach_occ hs store interval ixs r ixs' :
  LocalIntervalCollection.removeFromEach hs store interval ixs = (r, ixs') →
  Forall2 (λ ix ix', ∀ a, (occurrences ix' a ≤ occurrences ix a)%nat) ixs ixs'.
Proof.
  revert r ixs'. induction ixs as [|ix rest IH]; intros r ixs' H; simpl in H.
  - injection H as <- <-. constructor.
  - destruct (IntervalIndex_remove hs ix interval store) as [ix1|e] eqn:Hix.
    + destruct (LocalIntervalCollection.removeFromEach hs store interval rest)
        as [r1 rest1] eqn:Hrest.
      injection H as <- <-. constructor; [|by eapply IH].
      intros a. by eapply IntervalIndex_remove_occ.
    + injection H as <- <-. apply Forall2_same_length_lookup. split; [done|].
      intros i x y Hx Hy a. rewrite Hx in Hy. by injection Hy as <-.
Qed.

Lemma removeFromEach_absent hs store interval ixs ixs' v :
  LocalIntervalCollection.removeFromEach hs store interval ixs = (Ok (), ixs') →
  store !! interval = Some v →
  selfEqual hs v →
  Forall (λ ix, idConsistent ix interval v) ixs →
  absentFrom ixs' interval.
Proof.
  intros H Hv Hself. revert ixs' H.
  induction ixs as [|ix rest IH]; intros ixs' H Hid; simpl in H.
  - injection H as <-. constructor.
  - apply Forall_cons in Hid as [Hid1 Hid].
    destruct (IntervalIndex_remove hs ix interval store) as [ix1|e] eqn:Hix;
      [|discriminate].
    destruct (LocalIntervalCollection.removeFromEach hs store interval rest)
      as [r1 rest1] eqn:Hrest.
    injection H as -> <-. constructor; [|by apply IH].
    by eapply IntervalIndex_remove_absent.
Qed.

(** The store after the loop of [addIntervalToIndexes]: the interval may have
    been frozen, the objects are the same otherwise. *)
Lemma addToEach_store hs store interval ixs r ixs' store' :
  LocalIntervalCollection.addToEach hs store interval ixs = (r, (ixs', store')) →
  (∀ a, a ≠ interval → store' !! a = store !! a) ∧
  (∀ v, store !! interval = Some v →
        ∃ v', store' !! interval = Some v' ∧ obs v' = obs v) ∧
  (store !! interval = None → store' = store ∧ ixs' = ixs).
Proof.
  revert store r ixs' store'.
  induction ixs as [|ix rest IH]; intros store r ixs' store' H; simpl in H.
  - injection H as <- <- <-. split_and!; eauto.
  - destruct (IntervalIndex_add hs ix interval store) as [[ix1 store1]|e] eqn:Hix.
    + destruct (LocalIntervalCollection.addToEach hs store1 interval rest)
        as [r1 [rest1 store2]] eqn:Hrest.
      injection H as <- <- <-.
      destruct (IH _ _ _ _ Hrest) as (Hother & Hat & Hnone).
      apply IntervalIndex_add_store in Hix as (v & Hv & [-> | ->]).
      * split_and!; try done. intros Hn. congruence.
      * split_and!.
        -- intros a Hne. rewrite Hother by done. by rewrite lookup_insert_ne.
        -- intros w Hw. rewrite Hv in Hw. injection Hw as <-.
           destruct (Hat _ (lookup_insert_eq _ _ _)) as (v' & Hv' & Ho).
           exists v'. split; [done|]. by rewrite Ho, obs_freeze.
        -- intros Hn. congruence.
    + injection H as <- <- <-. split_and!; eauto.
Qed.

Lemma addToEach_occ_other hs store interval ixs r ixs' store' :
  LocalIntervalCollection.addToEach hs store interval ixs = (r, (ixs', store')) →
  Forall2 (λ ix ix', ∀ a, a ≠ interval →
                          (occurrences ix' a ≤ occurrences ix a)%nat) ixs ixs'.
Proof.
  revert store r ixs' store'.
  induction ixs as [|ix rest IH]; intros store r ixs' store' H; simpl in H.
  - injection H as <- <- <-. constructor.
  - destruct (IntervalIndex_add hs ix interval store) as [[ix1 store1]|e] eqn:Hix.
    + destruct (LocalIntervalCollection.addToEach hs store1 interval rest)
        as [r1 [rest1 store2]] eqn:Hrest.
      injection H as <- <- <-. constructor; [|by eapply IH].
      intros a Hne. by eapply IntervalIndex_add_occ_other.
    + injection H as <- <- <-. apply Forall2_same_length_lookup. split; [done|].
      intros i x y Hx Hy a _. rewrite Hx in Hy. by injection Hy as <-.
Qed.

Lemma addToEach_once hs store interval ixs ixs' store' :
  LocalIntervalCollection.addToEach hs store interval ixs
    = (Ok (), (ixs', store')) →
  absentFrom ixs interval →
  onceIn ixs' interval.
Proof.
  revert store ixs' store'.
  induction ixs as [|ix rest IH]; intros store ixs' store' H Habs; simpl in H.
  - injection H as <- <-. constructor.
  - apply Forall_cons in Habs as [Habs1 Habs].
    destruct (IntervalIndex_add hs ix interval store) as [[ix1 store1]|e] eqn:Hix;
      [|discriminate].
    destruct (LocalIntervalCollection.addToEach hs store1 interval rest)
      as [r1 [rest1 store2]] eqn:Hrest.
    injection H as -> <- <-. constructor; [|by eapply IH].
    by eapply IntervalIndex_add_occ_new.
Qed.

(** A live object is in the store when [index.add] or the loop succeeds. *)
Lemma addToEach_live hs store interval ixs ixs' store' :
  LocalIntervalCollection.addToEach hs store interval ixs
    = (Ok (), (ixs', store')) →
  ixs ≠ [] → is_Some (store !! interval).
Proof.
  destruct ixs as [|ix rest]; [done|]. simpl. intros H _.
  destruct (IntervalIndex_add hs ix interval store) as [[ix1 store1]|e] eqn:Hix;
    [|discriminate].
  apply IntervalIndex_add_store in Hix as (v & Hv & _). eauto.
Qed.

(** *** The methods *)

Lemma removeIntervalFromIndexes_extends interval :
  preserves extends (LocalIntervalCollection.removeIntervalFromIndexes interval).
Proof.
  intros lc r lc' H. unfold LocalIntervalCollection.removeIntervalFromIndexes in H.
  destruct (LocalIntervalCollection.removeFromEach _ _ _ _) as [r1 ixs'] eqn:Hloop.
  injection H as <- <-. apply removeFromEach_occ in Hloop.
  intros [Hstore Hix]. split_and!; try done; [|eauto].
  split; [done|]. simpl.
  eapply Forall2_Forall_transfer; [|exact Hix|exact Hloop].
  intros ix ix' Hlive Hle a Ha. apply Hlive. specialize (Hle a). lia.
Qed.

Lemma addIntervalToIndexes_extends interval :
  preserves extends (LocalIntervalCollection.addIntervalToIndexes interval).
Proof.
  intros lc r lc' H. unfold LocalIntervalCollection.addIntervalToIndexes in H.
  destruct (LocalIntervalCollection.addToEach _ _ _ _) as [r1 [ixs' s']] eqn:Hloop.
  injection H as <- <-.
  pose proof (addToEach_occ_other _ _ _ _ _ _ _ Hloop) as Hocc.
  apply addToEach_store in Hloop as (Hother & Hat & Hnone).
  assert (Hlive : ∀ a, is_Some (LocalIntervalCollection.store lc !! a) →
                       is_Some (s' !! a)).
  { intros a [w Ha]. destruct (decide (a = interval)) as [->|Hne].
    - destruct (Hat _ Ha) as (v' & -> & _). eauto.
    - rewrite Hother by done. eauto. }
  assert (Hlive' : ∀ a, is_Some (s' !! a) →
                        is_Some (LocalIntervalCollection.store lc !! a)).
  { intros a Ha. destruct (decide (a = interval)) as [->|Hne].
    - destruct (LocalIntervalCollection.store lc !! interval) eqn:E; [eauto|].
      destruct (Hnone eq_refl) as [-> _]. by rewrite E in Ha.
    - by rewrite Hother in Ha. }
  intros [Hstore Hix]. split_and!; try done.
  - split; simpl; [by eauto|].
    destruct (LocalIntervalCollection.store lc !! interval) as [v|] eqn:Hv.
    + eapply Forall2_Forall_transfer; [|exact Hix|exact Hocc].
      intros ix ix' Hold Hle a Ha. destruct (decide (a = interval)) as [->|Hne].
      * apply Hlive. rewrite Hv. eauto.
      * apply Hlive, Hold. specialize (Hle a Hne). lia.
    + destruct (Hnone eq_refl) as [-> ->]. exact Hix.
  - intros a v Ha. destruct (decide (a = interval)) as [->|Hne].
    + by apply Hat.
    + simpl. rewrite Hother by done. eauto.
Qed.

(** Updating a sequence interval in place. *)
Lemma updateSequence_extends interval (f : SequenceInterval.t → SequenceInterval.t) :
  (∀ v si, I.asSequenceInterval v = Some si →
           obs (I.ofSequenceInterval v (f si)) = obs v) →
  preserves extends
    (let! v := LocalIntervalCollection.readInterval interval in
     match I.asSequenceInterval v with
     | Some si =>
         LocalIntervalCollection.writeInterval interval
           (I.ofSequenceInterval v (f si))
     | None => ret ()
     end).
Proof.
  intros Hf lc r lc' H. unfold bindM, LocalIntervalCollection.readInterval in H.
  unfold readObject in H.
  destruct (LocalIntervalCollection.store lc !! interval) as [v|] eqn:Hv.
  - destruct (I.asSequenceInterval v) as [si|] eqn:Hsi.
    + eapply writeInterval_extends; [exact Hv| |exact H]. by apply Hf.
    + injection H as <- <-. apply extends_refl.
  - injection H as <- <-. apply extends_refl.
Qed.

Lemma removeIntervalListeners_extends interval :
  preserves extends (LocalIntervalCollection.removeIntervalListeners interval).
Proof.
  apply (updateSequence_extends interval
           SequenceInterval.removePositionChangeListeners).
  intros v si Hsi. by apply obs_callbacks.
Qed.

Lemma addIntervalListeners_extends interval :
  preserves extends (LocalIntervalCollection.addIntervalListeners interval).
Proof.
  apply (updateSequence_extends interval
           (λ si, SequenceInterval.addPositionChangeListeners si
                    (SequenceInterval.mkListener 0 None))).
  intros v si Hsi. unfold SequenceInterval.addPositionChangeListeners.
  destruct (SequenceInterval.callbacks si); [by apply obs_same|].
  by apply obs_callbacks.
Qed.

Lemma setListener_extends interval closures :
  preserves extends (LocalIntervalCollection.setListener interval closures).
Proof.
  apply (updateSequence_extends interval
           (λ si, SequenceInterval.setCallbacks si (Some closures))).
  intros v si Hsi. by apply obs_callbacks.
Qed.

Lemma linkEndpointsToInterval_extends interval :
  preserves extends (LocalIntervalCollection.linkEndpointsToInterval interval).
Proof.
  apply (updateSequence_extends interval
           (λ si, SequenceInterval.setEndpoints si
                    (ref_addProperties (SequenceInterval.start si)
                       (mkProps {["interval" := JObject interval]} ∅))
                    (ref_addProperties (SequenceInterval.end_ si)
                       (mkProps {["interval" := JObject interval]} ∅)))).
  intros v si Hsi. by apply obs_link.
Qed.

Lemma readInterval_extends interval :
  preserves extends (LocalIntervalCollection.readInterval interval).
Proof. intros lc r lc' [= <- <-]. apply extends_refl. Qed.

Lemma allocate_extends (v : T) :
  preserves extends (LocalIntervalCollection.allocate v).
Proof.
  intros lc r lc' [= <- <-] [Hstore Hix].
  assert (Hfresh : LocalIntervalCollection.store lc
                     !! LocalIntervalCollection.nextAddress lc = None).
  { destruct (_ !! _) eqn:E; [|done]. specialize (Hstore _ (mk_is_Some _ _ E)). lia. }
  split_and!; simpl; try done; [|lia|].
  - split; simpl.
    + intros a [w Ha].
      destruct (decide (a = LocalIntervalCollection.nextAddress lc)) as [->|Hne];
        [lia|].
      rewrite lookup_insert_ne in Ha by done.
      specialize (Hstore a (mk_is_Some _ _ Ha)). lia.
    + eapply Forall_impl; [exact Hix|]. intros ix Hx a Ha. simpl.
      destruct (decide (a = LocalIntervalCollection.nextAddress lc)) as [->|Hne].
      * rewrite lookup_insert_eq. eauto.
      * rewrite lookup_insert_ne by done. by apply Hx.
  - intros a w Ha.
    destruct (decide (a = LocalIntervalCollection.nextAddress lc)) as [->|Hne];
      [congruence|].
    rewrite lookup_insert_ne by done. eauto.
Qed.

Lemma removeExistingInterval_extends interval :
  preserves extends (LocalIntervalCollection.removeExistingInterval interval).
Proof.
  apply preserves_bind; [apply extends_trans| |intros _].
  - apply removeIntervalFromIndexes_extends.
  - apply removeIntervalListeners_extends.
Qed.

Lemma add_extends interval :
  preserves extends (LocalIntervalCollection.add interval).
Proof.
  apply preserves_bind; [apply extends_trans| |intros _].
  - apply linkEndpointsToInterval_extends.
  - apply preserves_bind; [apply extends_trans| |intros _].
    + apply addIntervalToIndexes_extends.
    + apply addIntervalListeners_extends.
Qed.

(** Updating an object leaves the indices alone. *)
Lemma updateSequence_indexes interval (f : SequenceInterval.t → SequenceInterval.t)
    lc r lc' :
  (let! v := LocalIntervalCollection.readInterval interval in
   match I.asSequenceInterval v with
   | Some si =>
       LocalIntervalCollection.writeInterval interval
         (I.ofSequenceInterval v (f si))
   | None => ret ()
   end) lc = (r, lc') →
  LocalIntervalCollection.indexes lc' = LocalIntervalCollection.indexes lc ∧
  LocalIntervalCollection.helpers lc' = LocalIntervalCollection.helpers lc ∧
  LocalIntervalCollection.positionChanges lc'
    = LocalIntervalCollection.positionChanges lc ∧
  ∀ a, a ≠ interval →
       LocalIntervalCollection.store lc' !! a
       = LocalIntervalCollection.store lc !! a.
Proof.
  unfold bindM, LocalIntervalCollection.readInterval. intros H.
  destruct (readObject _ _) as [v|e]; [|by injection H as <- <-].
  destruct (I.asSequenceInterval v) as [si|]; injection H as <- <-; [|done].
  simpl. split_and!; try done. intros a Hne. by rewrite lookup_insert_ne.
Qed.

Lemma removeExistingInterval_Ok interval lc lc' :
  LocalIntervalCollection.removeExistingInterval interval lc = (Ok (), lc') →
  LocalIntervalCollection.removeFromEach (LocalIntervalCollection.helpers lc)
    (LocalIntervalCollection.store lc) interval
    (LocalIntervalCollection.indexes lc)
  = (Ok (), LocalIntervalCollection.indexes lc').
Proof.
  unfold LocalIntervalCollection.removeExistingInterval. intros H.
  apply bindM_Ok in H as ([] & lc1 & H1 & H2).
  apply (updateSequence_indexes interval
           SequenceInterval.removePositionChangeListeners) in H2 as (-> & _).
  unfold LocalIntervalCollection.removeIntervalFromIndexes in H1.
  destruct (LocalIntervalCollection.removeFromEach _ _ _ _) as [r ixs'].
  by injection H1 as -> <-.
Qed.

Lemma add_Ok interval lc lc' :
  LocalIntervalCollection.add interval lc = (Ok (), lc') →
  ∃ store1 store2,
    LocalIntervalCollection.addToEach (LocalIntervalCollection.helpers lc)
      store1 interval (LocalIntervalCollection.indexes lc)
    = (Ok (), (LocalIntervalCollection.indexes lc', store2)).
Proof.
  unfold LocalIntervalCollection.add. intros H.
  apply bindM_Ok in H as ([] & lc1 & H1 & H).
  apply bindM_Ok in H as ([] & lc2 & H2 & H3).
  apply (updateSequence_indexes interval
           (λ si, SequenceInterval.setEndpoints si
                    (ref_addProperties (SequenceInterval.start si)
                       (mkProps {["interval" := JObject interval]} ∅))
                    (ref_addProperties (SequenceInterval.end_ si)
                       (mkProps {["interval" := JObject interval]} ∅))))
    in H1 as (Hix1 & Hh1 & _).
  apply (updateSequence_indexes interval
           (λ si, SequenceInterval.addPositionChangeListeners si
                    (SequenceInterval.mkListener 0 None)))
    in H3 as (Hix3 & _).
  unfold LocalIntervalCollection.addIntervalToIndexes in H2.
  destruct (LocalIntervalCollection.addToEach _ _ _ _) as [r [ixs' s']] eqn:Hloop.
  injection H2 as -> <-. simpl in Hix3.
  exists (LocalIntervalCollection.store lc1), s'.
  rewrite Hix3, <- Hix1, <- Hh1. exact Hloop.
Qed.

(** *** changeInterval *)

(** An interval that [modify] reports as unchanged: nothing happens. *)
Lemma changeInterval_unchanged lc interval v start end_ op localSeq :
  LocalIntervalCollection.store lc !! interval = Some v →
  I.modify v (LocalIntervalCollection.label lc) start end_ op localSeq = Ok None →
  LocalIntervalCollection.changeInterval interval start end_ op localSeq lc
  = (Ok None, lc).
Proof.
  intros Hv Hm. unfold LocalIntervalCollection.changeInterval, bindM, get,
    LocalIntervalCollection.readInterval, readObject, liftR.
  by rewrite Hv, Hm.
Qed.

(** A successful [changeInterval]: either [modify] reported no change and
    nothing happened, or the object that [modify] built is a new object of
    the collection, once in every index, and the old one is in none. *)
Lemma changeInterval_Ok lc interval start end_ op localSeq r lc' :
  LocalIntervalCollection.changeInterval interval start end_ op localSeq lc
  = (Ok r, lc') →
  bounded lc →
  ∃ v, LocalIntervalCollection.store lc !! interval = Some v ∧
    ((I.modify v (LocalIntervalCollection.label lc) start end_ op localSeq
      = Ok None ∧ r = None ∧ lc' = lc) ∨
     (∃ m v',
        I.modify v (LocalIntervalCollection.label lc) start end_ op localSeq
        = Ok (Some m) ∧
        r = Some (LocalIntervalCollection.nextAddress lc) ∧
        LocalIntervalCollection.store lc'
          !! LocalIntervalCollection.nextAddress lc = Some v' ∧
        obs v' = obs m ∧
        interval ≠ LocalIntervalCollection.nextAddress lc ∧
        extends lc lc' ∧
        onceIn (LocalIntervalCollection.indexes lc')
               (LocalIntervalCollection.nextAddress lc) ∧
        (selfEqual (LocalIntervalCollection.helpers lc) v →
         Forall (λ ix, idConsistent ix interval v)
                (LocalIntervalCollection.indexes lc) →
         absentFrom (LocalIntervalCollection.indexes lc') interval))).
Proof.
  unfold LocalIntervalCollection.changeInterval. intros H Hb.
  apply bindM_Ok in H as (this & s0 & [= <- <-] & H).
  apply bindM_Ok in H as (v & s0 & Hread & H).
  unfold LocalIntervalCollection.readInterval in Hread.
  injection Hread as Hread <-. unfold readObject in Hread.
  destruct (LocalIntervalCollection.store lc !! interval) as [v0|] eqn:Hv;
    [|discriminate].
  injection Hread as ->. exists v. split; [done|].
  apply bindM_Ok in H as (modified & s0 & Hm & H).
  apply liftR_Ok in Hm as [Hm ->].
  destruct modified as [m|]; [right | left; by injection H as <- <-].
  apply bindM_Ok in H as (new & lc1 & Halloc & H).
  pose proof (allocate_extends _ _ _ _ Halloc) as Hext1.
  injection Halloc as <- <-.
  set (new := LocalIntervalCollection.nextAddress lc) in *.
  set (lc1 := LocalIntervalCollection.mk _ _ _ _ _ _ _ _ _ _) in *.
  apply bindM_Ok in H as ([] & lc2 & Hrem & H).
  apply bindM_Ok in H as ([] & lc3 & Hadd & H).
  injection H as <- <-.
  pose proof (removeExistingInterval_extends _ _ _ _ Hrem) as Hext2.
  pose proof (add_extends _ _ _ _ Hadd) as Hext3.
  assert (Hne : interval ≠ new).
  { intros ->. destruct Hb as [Hstore _].
    specialize (Hstore new (mk_is_Some _ _ Hv)). subst new. lia. }
  destruct (Hext1 Hb) as (Hb1 & _).
  destruct (Hext2 Hb1) as (Hb2 & _ & Hs2 & _).
  destruct (Hext3 Hb2) as (Hb3 & _ & Hs3 & _).
  assert (Hnew1 : LocalIntervalCollection.store lc1 !! new = Some m)
    by apply lookup_insert_eq.
  destruct (Hs2 _ _ Hnew1) as (m2 & Hnew2 & Ho2).
  destruct (Hs3 _ _ Hnew2) as (m3 & Hnew3 & Ho3).
  apply removeExistingInterval_Ok in Hrem.
  destruct (add_Ok _ _ _ Hadd) as (st1 & st2 & Hloop).
  assert (Habs_new : absentFrom (LocalIntervalCollection.indexes lc) new).
  { destruct Hb as [Hstore Hix]. eapply Forall_impl; [exact Hix|].
    intros ix Hlive. simpl in Hlive.
    destruct (decide (occurrences ix new = 0%nat)) as [|Hocc]; [done|].
    specialize (Hstore _ (Hlive _ Hocc)). subst new. lia. }
  assert (Habs_new2 : absentFrom (LocalIntervalCollection.indexes lc2) new).
  { eapply Forall2_Forall_transfer;
      [|exact Habs_new|exact (removeFromEach_occ _ _ _ _ _ _ Hrem)].
    intros ix ix' H0 Hle. simpl in *. specialize (Hle new). lia. }
  exists m, m3. split_and!; try done.
  - congruence.
  - eapply extends_trans; [exact Hext1|].
    eapply extends_trans; [exact Hext2|exact Hext3].
  - eapply addToEach_once; [exact Hloop|exact Habs_new2].
  - intros Hself Hid.
    assert (Habs2 : absentFrom (LocalIntervalCollection.indexes lc2) interval).
    { eapply removeFromEach_absent; [exact Hrem| |exact Hself|exact Hid].
      simpl. by rewrite lookup_insert_ne. }
    eapply Forall2_Forall_transfer;
      [|exact Habs2|exact (addToEach_occ_other _ _ _ _ _ _ _ Hloop)].
    intros ix ix' H0 Hle. simpl in *. specialize (Hle interval Hne). lia.
Qed.

(** The closures of [addIntervalListeners] and the moves of the merge tree
    keep the objects and what one observes of them, provided the observation
    does not look at the endpoints. *)
Lemma callOnPositionChange_extends interval previousInterval :
  preserves extends
    (LocalIntervalCollection.callOnPositionChange interval previousInterval).
Proof.
  intros lc r lc' [= _ <-] Hb.
  destruct (LocalIntervalCollection.onPositionChange lc);
    split_and!; simpl; try done; eauto.
Qed.

Lemma beforePositionChange_extends interval :
  preserves extends (LocalIntervalCollection.beforePositionChange interval).
Proof.
  unfold LocalIntervalCollection.beforePositionChange.
  apply preserves_bind; [apply extends_trans|apply readInterval_extends|].
  intros v. destruct (I.asSequenceInterval v) as [si|];
    [|apply preserves_ret, extends_refl].
  destruct (SequenceInterval.callbacks si) as [closures|];
    [|apply preserves_ret, extends_refl].
  apply preserves_bind; [apply extends_trans|apply setListener_extends|].
  intros _. destruct (SequenceInterval.previousInterval closures);
    [apply preserves_ret, extends_refl|].
  apply preserves_bind; [apply extends_trans|apply preserves_get, extends_refl|].
  intros this.
  apply preserves_bind; [apply extends_trans|apply preserves_liftR, extends_refl|].
  intros previousInterval.
  apply preserves_bind; [apply extends_trans|apply preserves_liftR, extends_refl|].
  intros startClone.
  apply preserves_bind; [apply extends_trans|apply preserves_liftR, extends_refl|].
  intros endClone.
  apply preserves_bind; [apply extends_trans|apply setListener_extends|].
  intros _. apply removeIntervalFromIndexes_extends.
Qed.

Lemma afterPositionChange_extends interval :
  preserves extends (LocalIntervalCollection.afterPositionChange interval).
Proof.
  unfold LocalIntervalCollection.afterPositionChange.
  apply preserves_bind; [apply extends_trans|apply readInterval_extends|].
  intros v. destruct (I.asSequenceInterval v) as [si|];
    [|apply preserves_ret, extends_refl].
  destruct (SequenceInterval.callbacks si) as [closures|];
    [|apply preserves_ret, extends_refl].
  destruct (SequenceInterval.previousInterval closures) as [previousInterval|];
    [|apply preserves_throw, extends_refl].
  apply preserves_bind; [apply extends_trans|apply setListener_extends|].
  intros _. destruct (_ =? 0); [|apply preserves_ret, extends_refl].
  apply preserves_bind; [apply extends_trans|apply addIntervalToIndexes_extends|].
  intros _.
  apply preserves_bind; [apply extends_trans|apply callOnPositionChange_extends|].
  intros _. apply setListener_extends.
Qed.

Hypothesis obs_move : ∀ v si s e,
  I.asSequenceInterval v = Some si →
  obs (I.ofSequenceInterval v (SequenceInterval.setEndpoints si s e)) = obs v.

Lemma slideReference_extends interval which segment offset :
  preserves extends
    (LocalIntervalCollection.slideReference interval which segment offset).
Proof.
  apply (updateSequence_extends interval
           (λ si, match which with
                  | LocalIntervalCollection.startEndpoint =>
                      SequenceInterval.setEndpoints si
                        (LocalIntervalCollection.moveReference
                           (SequenceInterval.start si) segment offset)
                        (SequenceInterval.end_ si)
                  | LocalIntervalCollection.endEndpoint =>
                      SequenceInterval.setEndpoints si
                        (SequenceInterval.start si)
                        (LocalIntervalCollection.moveReference
                           (SequenceInterval.end_ si) segment offset)
                  end)).
  intros v si Hsi. destruct which; by apply obs_move.
Qed.

Lemma slide_extends interval steps :
  preserves extends (LocalIntervalCollection.slide interval steps).
Proof.
  unfold LocalIntervalCollection.slide.
  induction steps as [|step rest IH]; simpl;
    [apply preserves_ret, extends_refl|].
  apply preserves_bind; [apply extends_trans| |intros _; exact IH].
  destruct step; simpl.
  - apply beforePositionChange_extends.
  - apply slideReference_extends.
  - apply afterPositionChange_extends.
Qed.

End LocalFacts.

(** ** Collections on which the index operations return *)

Lemma occ_elem_of (a : nat) (tree : list nat) : occ a tree ≠ 0%nat ↔ a ∈ tree.
Proof.
  induction tree as [|b rest IH]; [by rewrite elem_of_nil|].
  rewrite occ_cons, elem_of_cons. case_decide as Hb.
  - subst b. split; [by left|lia].
  - rewrite <- IH. split; [intros H; right; lia|].
    intros [->|H]; [done|lia].
Qed.

Section TreeReturns.
Context {T : Type}.
Variable compareKeys : T → T → Result Z.
Variable store : gmap nat T.

(** The key can be compared with every object of the tree. *)
Definition comparableWith (key : T) (tree : list nat) : Prop :=
  ∀ a, a ∈ tree → ∃ v c, store !! a = Some v ∧ compareKeys key v = Ok c.

Lemma remove_returns key tree :
  comparableWith key tree →
  ∃ tree', RedBlackTree.remove compareKeys store key tree = Ok tree'.
Proof.
  induction tree as [|a rest IH]; intros Hcmp; simpl; [eauto|].
  destruct (Hcmp a) as (v & c & Hv & Hc); [by left|].
  destruct IH as [rest' Hrest].
  { intros b Hb. apply Hcmp. by right. }
  unfold readObject. rewrite Hv. simpl. rewrite Hc. simpl. rewrite Hrest.
  simpl. eauto.
Qed.

Lemma insert_returns key address tree :
  comparableWith key tree →
  ∃ tree', RedBlackTree.insert compareKeys store key address tree = Ok tree'.
Proof.
  induction tree as [|a rest IH]; intros Hcmp; simpl; [eauto|].
  destruct (Hcmp a) as (v & c & Hv & Hc); [by left|].
  destruct IH as [rest' Hrest].
  { intros b Hb. apply Hcmp. by right. }
  unfold readObject. rewrite Hv. simpl. rewrite Hc. simpl.
  destruct (c <? 0); [eauto|]. rewrite Hrest. simpl. eauto.
Qed.

Lemma put_returns key address tree :
  comparableWith key tree →
  ∃ tree', RedBlackTree.put compareKeys store key address tree = Ok tree'.
Proof.
  intros Hcmp. unfold RedBlackTree.put.
  destruct (remove_returns key tree Hcmp) as [tree1 H1]. rewrite H1. simpl.
  apply insert_returns. intros a Ha. apply Hcmp.
  apply occ_elem_of. apply occ_elem_of in Ha.
  pose proof (remove_occ _ _ _ _ _ a H1). lia.
Qed.

End TreeReturns.

(** What the interval classes have in common: the bookkeeping of the
    collection (installing and removing listeners, linking the endpoints to
    the interval, making the id immutable) does not touch the id of an
    interval; [modify] hands the id on; and two intervals with an id can be
    compared. *)
Class IntervalLaws (T : Type) {ops : I.ISerializableInterval T} : Prop := {
  id_callbacks : ∀ (v : T) si cb,
    I.asSequenceInterval v = Some si →
    I.getIntervalId (I.ofSequenceInterval v (SequenceInterval.setCallbacks si cb))
    = I.getIntervalId v;
  id_same : ∀ (v : T) si,
    I.asSequenceInterval v = Some si →
    I.getIntervalId (I.ofSequenceInterval v si) = I.getIntervalId v;
  id_link : ∀ (v : T) si p q,
    I.asSequenceInterval v = Some si →
    I.getIntervalId
      (I.ofSequenceInterval v
         (SequenceInterval.setEndpoints si
            (ref_addProperties (SequenceInterval.start si) p)
            (ref_addProperties (SequenceInterval.end_ si) q)))
    = I.getIntervalId v;
  id_freeze : ∀ v : T,
    I.getIntervalId
      (I.setProperties v
         (defineNonWritable (I.properties v) reservedIntervalIdKey))
    = I.getIntervalId v;
  modify_id : ∀ (v : T) label start end_ op localSeq m,
    I.modify v label start end_ op localSeq = Ok (Some m) →
    I.getIntervalId m = I.getIntervalId v;
  compare_returns : ∀ (a b : T) ida idb,
    I.getIntervalId a = Ok ida → I.getIntervalId b = Ok idb →
    ∃ c, I.compare a b = Ok c
}.

Section Health.
Context {T : Type} {ops : I.ISerializableInterval T} {laws : IntervalLaws T}.

Implicit Types (lc : LocalIntervalCollection.t T) (interval : nat)
  (store : gmap nat T) (hs : IIntervalHelpers T).

(** The object at the address is an interval with an id. *)
Definition identified store (a : nat) : Prop :=
  ∃ v id, store !! a = Some v ∧ I.getIntervalId v = Ok id.

(** The comparator of the index exists: [StartpointInRangeIndex] needs
    [compareStarts] of the helpers. *)
Definition comparable hs (index : IntervalIndex) : Prop :=
  ∀ tree, index = StartpointInRangeIndex tree → is_Some (compareStarts hs).

(** An index in good order: its comparator exists and it holds intervals
    with an id. *)
Definition sound hs store (index : IntervalIndex) : Prop :=
  comparable hs index ∧ ∀ a, occurrences index a ≠ 0%nat → identified store a.

Lemma comparatorOf_returns hs index a b ida idb :
  comparable hs index →
  I.getIntervalId a = Ok ida → I.getIntervalId b = Ok idb →
  ∃ c, comparatorOf hs index a b = Ok c.
Proof.
  intros Hcmp Ha Hb. destruct index as [t|m|t|t|t]; simpl; eauto.
  - by eapply compare_returns.
  - unfold endpointInRangeComparator.
    destruct (negb _); [eauto|]. destruct (negb _); [eauto|].
    rewrite Ha, Hb. simpl. eauto.
  - unfold startpointInRangeComparator.
    destruct (Hcmp t eq_refl) as [f ->].
    destruct (negb _); [eauto|]. destruct (negb _); [eauto|].
    rewrite Ha, Hb. simpl. eauto.
Qed.

Lemma sound_comparableWith hs store index v id :
  sound hs store index → (∀ m, index ≠ IdIntervalIndex m) →
  I.getIntervalId v = Ok id →
  comparableWith (comparatorOf hs index) store v (treeOf index).
Proof.
  intros [Hcmp Hids] Htree Hv a Ha.
  destruct (Hids a) as (w & idw & Hw & Hidw).
  { rewrite (occurrences_tree _ _ Htree). by apply occ_elem_of. }
  destruct (comparatorOf_returns hs index v w id idw Hcmp Hv Hidw) as [c Hc].
  eauto.
Qed.

Lemma comparable_withTree hs index tree :
  comparable hs index → comparable hs (withTree index tree).
Proof.
  intros Hcmp t Ht. destruct index; try discriminate. by eapply Hcmp.
Qed.

(** [index.remove(interval)] returns, and leaves the index in good order. *)
Lemma IntervalIndex_remove_returns hs store index interval :
  sound hs store index → identified store interval →
  ∃ index', IntervalIndex_remove hs index interval store = Ok index' ∧
            sound hs store index'.
Proof.
  intros Hsound (v & id & Hv & Hid).
  assert (Hshrink : ∀ index',
            IntervalIndex_remove hs index interval store = Ok index' →
            comparable hs index' →
            sound hs store index').
  { intros index' Hrm Hcmp. split; [done|]. intros a Ha.
    apply (proj2 Hsound).
    pose proof (IntervalIndex_remove_occ hs _ _ _ _ a Hrm). lia. }
  assert (Htree : (∀ m, index ≠ IdIntervalIndex m) →
            ∃ tree', RedBlackTree.remove (comparatorOf hs index) store v
                       (treeOf index) = Ok tree').
  { intros Htree. eapply remove_returns, sound_comparableWith; done. }
  unfold IntervalIndex_remove in *. unfold readObject in *.
  rewrite Hv in *. simpl in *.
  destruct index as [t|m|t|t|t];
    try (destruct Htree as [tree' Htree]; [done|];
         simpl in *; rewrite Htree in *; simpl in *;
         eexists; split; [done|]; apply Hshrink; [done|];
         try (by intros t0); intros t0 _; by eapply (proj1 Hsound)).
  rewrite Hid in *. simpl in *. eexists. split; [done|].
  apply Hshrink; [done|]. by intros t.
Qed.

Lemma removeFromEach_returns hs store interval ixs :
  Forall (sound hs store) ixs → identified store interval →
  ∃ ixs', LocalIntervalCollection.removeFromEach hs store interval ixs
          = (Ok (), ixs') ∧
          Forall (sound hs store) ixs'.
Proof.
  intros Hsound Hid. induction Hsound as [|index rest Hindex Hrest IH]; simpl.
  - eauto.
  - destruct (IntervalIndex_remove_returns hs store index interval Hindex Hid)
      as (index' & -> & Hindex').
    destruct IH as (rest' & -> & Hrest'). eauto.
Qed.

(** An update of objects that keeps their ids keeps the indices in good
    order. *)
Lemma sound_mono hs store store' index :
  (∀ a, identified store a → identified store' a) →
  sound hs store index → sound hs store' index.
Proof. intros Hmono [Hcmp Hids]. split; [done|]. intros a Ha. eauto. Qed.

Lemma identified_insert store a v v' b :
  store !! a = Some v → I.getIntervalId v' = I.getIntervalId v →
  identified store b → identified (<[a := v']> store) b.
Proof.
  intros Hv Hid (w & id & Hw & Hidw). destruct (decide (b = a)) as [->|Hne].
  - exists v', id. rewrite lookup_insert_eq. split; [done|]. congruence.
  - exists w, id. by rewrite lookup_insert_ne.
Qed.

(** [index.add(interval)] returns, and leaves the index in good order. *)
Lemma IntervalIndex_add_returns hs store index interval :
  sound hs store index → identified store interval →
  ∃ index' store',
    IntervalIndex_add hs index interval store = Ok (index', store') ∧
    sound hs store' index' ∧
    (∀ a, identified store a → identified store' a).
Proof.
  intros Hsound (v & id & Hv & Hid).
  assert (Hgrow : ∀ index' store',
            IntervalIndex_add hs index interval store = Ok (index', store') →
            comparable hs index' →
            sound hs store' index' ∧
            (∀ a, identified store a → identified store' a)).
  { intros index' store' Hadd Hcmp.
    assert (Hmono : ∀ a, identified store a → identified store' a).
    { destruct (IntervalIndex_add_store hs _ _ _ _ _ Hadd)
        as (v0 & Hv0 & [-> | ->]); [done|].
      intros a. apply identified_insert with (v := v0); [done|].
      apply id_freeze. }
    split; [|done]. split; [done|]. intros a Ha. apply Hmono.
    destruct (decide (a = interval)) as [->|Hne]; [by exists v, id|].
    apply (proj2 Hsound).
    pose proof (IntervalIndex_add_occ_other hs _ _ _ _ _ a Hadd Hne). lia. }
  assert (Htree : (∀ m, index ≠ IdIntervalIndex m) →
            ∃ tree', RedBlackTree.put (comparatorOf hs index) store v interval
                       (treeOf index) = Ok tree').
  { intros Htree. eapply put_returns, sound_comparableWith; done. }
  unfold IntervalIndex_add in *. unfold readObject in *.
  rewrite Hv in *. simpl in *.
  destruct index as [t|m|t|t|t];
    try (destruct Htree as [tree' Htree]; [done|];
         simpl in *; rewrite Htree in *; simpl in *;
         eexists _, _; split; [done|]; apply Hgrow; [done|];
         try (by intros t0); intros t0 _; by eapply (proj1 Hsound)).
  rewrite Hid in *. simpl in *. eexists _, _. split; [done|].
  apply Hgrow; [done|]. by intros t.
Qed.

Lemma addToEach_returns hs store interval ixs :
  Forall (sound hs store) ixs → identified store interval →
  ∃ ixs' store',
    LocalIntervalCollection.addToEach hs store interval ixs
    = (Ok (), (ixs', store')) ∧
    Forall (sound hs store') ixs' ∧
    (∀ a, identified store a → identified store' a).
Proof.
  intros Hsound. revert store Hsound.
  induction ixs as [|index rest IH]; intros store Hsound Hid; simpl.
  - eauto.
  - apply Forall_cons in Hsound as [Hindex Hrest].
    destruct (IntervalIndex_add_returns hs store index interval Hindex Hid)
      as (index' & store1 & -> & Hindex' & Hmono1).
    destruct (IH store1) as (rest' & store2 & -> & Hrest' & Hmono2).
    { eapply Forall_impl; [exact Hrest|]. intros ix. by apply sound_mono. }
    { by apply Hmono1. }
    eexists _, _. split; [done|]. split; [|by eauto].
    constructor; [|done]. by eapply sound_mono.
Qed.

(** A collection in good order: addresses are allocated in order and every
    index is in good order. *)
Definition healthy lc : Prop :=
  bounded lc ∧
  Forall (sound (LocalIntervalCollection.helpers lc)
                (LocalIntervalCollection.store lc))
         (LocalIntervalCollection.indexes lc).

Lemma identified_extends lc lc' a :
  extends I.getIntervalId lc lc' → bounded lc →
  identified (LocalIntervalCollection.store lc) a →
  identified (LocalIntervalCollection.store lc') a.
Proof.
  intros Hext Hb (v & id & Hv & Hid).
  destruct (Hext Hb) as (_ & _ & Hstore & _).
  destruct (Hstore _ _ Hv) as (v' & Hv' & Hid'). exists v', id.
  split; [done|]. congruence.
Qed.

(** A step that keeps the objects and their ids, and leaves indices that
    were in good order before the objects changed, leaves the collection in
    good order. *)
Lemma healthy_extends lc lc' :
  extends I.getIntervalId lc lc' → healthy lc →
  Forall (sound (LocalIntervalCollection.helpers lc)
                (LocalIntervalCollection.store lc))
         (LocalIntervalCollection.indexes lc') →
  healthy lc'.
Proof.
  intros Hext [Hb Hsound] Hsound'.
  destruct (Hext Hb) as (Hb' & _ & _ & _ & Hhs & _). split; [done|].
  rewrite Hhs. eapply Forall_impl; [exact Hsound'|]. intros ix.
  apply sound_mono. intros a. by apply identified_extends.
Qed.

(** An update of the interval object that keeps its id. *)
Lemma updateSequence_returns interval (f : SequenceInterval.t → SequenceInterval.t)
    lc :
  (∀ v si, I.asSequenceInterval v = Some si →
           I.getIntervalId (I.ofSequenceInterval v (f si)) = I.getIntervalId v) →
  healthy lc → identified (LocalIntervalCollection.store lc) interval →
  ∃ lc',
    (let! v := LocalIntervalCollection.readInterval interval in
     match I.asSequenceInterval v with
     | Some si =>
         LocalIntervalCollection.writeInterval interval
           (I.ofSequenceInterval v (f si))
     | None => ret ()
     end) lc = (Ok (), lc') ∧
    healthy lc' ∧ extends I.getIntervalId lc lc'.
Proof.
  intros Hf Hhealthy (v & id & Hv & Hid).
  assert (Hrun : ∃ lc',
    (let! v := LocalIntervalCollection.readInterval interval in
     match I.asSequenceInterval v with
     | Some si =>
         LocalIntervalCollection.writeInterval interval
           (I.ofSequenceInterval v (f si))
     | None => ret ()
     end) lc = (Ok (), lc')).
  { unfold bindM, LocalIntervalCollection.readInterval, readObject.
    rewrite Hv. destruct (I.asSequenceInterval v); eauto. }
  destruct Hrun as [lc' Hrun]. exists lc'. split; [done|].
  pose proof (updateSequence_extends I.getIntervalId interval f Hf _ _ _ Hrun)
    as Hext.
  split; [|done]. apply (healthy_extends lc); try done.
  apply (updateSequence_indexes interval f) in Hrun as (-> & _).
  apply Hhealthy.
Qed.

(** [removeExistingInterval] returns on a collection in good order. *)
Lemma removeExistingInterval_returns lc interval :
  healthy lc → identified (LocalIntervalCollection.store lc) interval →
  ∃ lc', LocalIntervalCollection.removeExistingInterval interval lc
         = (Ok (), lc') ∧
         healthy lc' ∧ extends I.getIntervalId lc lc'.
Proof.
  intros Hhealthy Hid.
  destruct (removeFromEach_returns _ _ interval _ (proj2 Hhealthy) Hid)
    as (ixs' & Hloop & Hsound').
  set (lc1 := LocalIntervalCollection.setIndexes lc ixs').
  assert (H1 : LocalIntervalCollection.removeIntervalFromIndexes interval lc
               = (Ok (), lc1)).
  { unfold LocalIntervalCollection.removeIntervalFromIndexes.
    by rewrite Hloop. }
  pose proof (removeIntervalFromIndexes_extends I.getIntervalId _ _ _ _ H1)
    as Hext1.
  assert (Hhealthy1 : healthy lc1) by by apply (healthy_extends lc).
  destruct (updateSequence_returns interval
              SequenceInterval.removePositionChangeListeners lc1)
    as (lc' & H2 & Hhealthy' & Hext2); try done.
  { intros v si Hsi. by apply id_callbacks. }
  exists lc'. unfold LocalIntervalCollection.removeExistingInterval.
  rewrite (bindM_run _ _ lc lc1 ()) by exact H1.
  split_and!; try done.
  by eapply extends_trans.
Qed.

(** [add] returns on a collection in good order. *)
Lemma add_returns lc interval :
  healthy lc → identified (LocalIntervalCollection.store lc) interval →
  ∃ lc', LocalIntervalCollection.add interval lc = (Ok (), lc') ∧
         healthy lc' ∧ extends I.getIntervalId lc lc'.
Proof.
  intros Hhealthy Hid.
  destruct (updateSequence_returns interval
              (λ si, SequenceInterval.setEndpoints si
                       (ref_addProperties (SequenceInterval.start si)
                          (mkProps {["interval" := JObject interval]} ∅))
                       (ref_addProperties (SequenceInterval.end_ si)
                          (mkProps {["interval" := JObject interval]} ∅))) lc)
    as (lc1 & H1 & Hhealthy1 & Hext1); try done.
  { intros v si Hsi. by apply id_link. }
  assert (Hid1 : identified (LocalIntervalCollection.store lc1) interval)
    by (eapply identified_extends; [exact Hext1|apply Hhealthy|done]).
  destruct (addToEach_returns _ _ interval _ (proj2 Hhealthy1) Hid1)
    as (ixs' & store' & Hloop & Hsound' & Hmono).
  set (lc2 := LocalIntervalCollection.setStore
                (LocalIntervalCollection.setIndexes lc1 ixs') store').
  assert (H2 : LocalIntervalCollection.addIntervalToIndexes interval lc1
               = (Ok (), lc2)).
  { unfold LocalIntervalCollection.addIntervalToIndexes. by rewrite Hloop. }
  pose proof (addIntervalToIndexes_extends I.getIntervalId id_freeze _ _ _ _ H2)
    as Hext2.
  assert (Hhealthy2 : healthy lc2).
  { split; [apply Hext2, Hhealthy1|]. exact Hsound'. }
  destruct (updateSequence_returns interval
              (λ si, SequenceInterval.addPositionChangeListeners si
                       (SequenceInterval.mkListener 0 None)) lc2)
    as (lc' & H3 & Hhealthy' & Hext3); try done.
  { intros v si Hsi. unfold SequenceInterval.addPositionChangeListeners.
    destruct (SequenceInterval.callbacks si); [by apply id_same|].
    by apply id_callbacks. }
  { by apply Hmono. }
  exists lc'. unfold LocalIntervalCollection.add.
  rewrite (bindM_run _ _ lc lc1 ()) by exact H1.
  rewrite (bindM_run _ _ lc1 lc2 ()) by exact H2.
  split_and!; try done.
  eapply extends_trans; [|exact Hext3].
  eapply extends_trans; [exact Hext1|exact Hext2].
Qed.

(** [changeInterval] returns on a collection in good order whenever
    [modify] of the interval returns, with an interval that has an id when
    it returns one. *)
Lemma changeInterval_returns lc interval v start end_ op localSeq r :
  healthy lc →
  LocalIntervalCollection.store lc !! interval = Some v →
  (∃ id, I.getIntervalId v = Ok id) →
  I.modify v (LocalIntervalCollection.label lc) start end_ op localSeq = Ok r →
  (∀ m, r = Some m → ∃ id, I.getIntervalId m = Ok id) →
  ∃ r' lc',
    LocalIntervalCollection.changeInterval interval start end_ op localSeq lc
    = (Ok r', lc') ∧
    healthy lc' ∧ (r = None → r' = None) ∧ (is_Some r → is_Some r').
Proof.
  intros Hhealthy Hv [id Hid] Hmodify Hm.
  destruct r as [m|].
  2:{ exists None, lc. split; [by eapply changeInterval_unchanged|].
      split_and!; done. }
  destruct (Hm m eq_refl) as [idm Hidm].
  set (new := LocalIntervalCollection.nextAddress lc).
  destruct (LocalIntervalCollection.allocate m lc) as [r1 lc1] eqn:Halloc.
  pose proof (allocate_extends I.getIntervalId m _ _ _ Halloc) as Hext1.
  injection Halloc as <- Hlc1.
  assert (Hnew1 : LocalIntervalCollection.store lc1 !! new = Some m)
    by (rewrite <- Hlc1; apply lookup_insert_eq).
  assert (Hhealthy1 : healthy lc1).
  { apply (healthy_extends lc); try done. rewrite <- Hlc1. apply Hhealthy. }
  assert (Hid1 : identified (LocalIntervalCollection.store lc1) interval).
  { eapply identified_extends; [exact Hext1|apply Hhealthy|]. by exists v, id. }
  destruct (removeExistingInterval_returns lc1 interval Hhealthy1 Hid1)
    as (lc2 & H2 & Hhealthy2 & Hext2).
  assert (Hid2 : identified (LocalIntervalCollection.store lc2) new).
  { eapply identified_extends; [exact Hext2|apply Hhealthy1|]. by exists m, idm. }
  destruct (add_returns lc2 new Hhealthy2 Hid2) as (lc3 & H3 & Hhealthy3 & Hext3).
  exists (Some new), lc3. split_and!; try done; try by eauto.
  unfold LocalIntervalCollection.changeInterval.
  rewrite (bindM_run _ _ lc lc lc) by done.
  rewrite (bindM_run _ _ lc lc v)
    by (unfold LocalIntervalCollection.readInterval, readObject; by rewrite Hv).
  rewrite (bindM_run _ _ lc lc (Some m)) by (unfold liftR; by rewrite Hmodify).
  rewrite (bindM_run _ _ lc lc1 new)
    by (unfold LocalIntervalCollection.allocate; by rewrite Hlc1).
  rewrite (bindM_run _ _ lc1 lc2 ()) by exact H2.
  rewrite (bindM_run _ _ lc2 lc3 ()) by exact H3.
  done.
Qed.

End Health.

(** ** What one observes of an interval *)

(** Of a numeric interval: its endpoints and its id. *)
Definition observeInterval (v : Interval.t) : Z * Z * JsValue :=
  (Interval.start v, Interval.end_ v,
   getProp (Interval.properties v) reservedIntervalIdKey).

(** Of a reference: where it is, its type and its sliding preference. *)
Definition observeReference (ref : LocalReferencePosition)
  : option ISegment * Z * Z * SlidingPreference :=
  (getSegment ref, getOffset ref, refType ref, slidingPreference ref).

(** Of a sequence interval: its endpoint references, stickiness, type, id. *)
Definition observeSequenceInterval (v : SequenceInterval.t) :=
  (observeReference (SequenceInterval.start v),
   observeReference (SequenceInterval.end_ v),
   SequenceInterval.stickiness v, SequenceInterval.intervalType v,
   getProp (SequenceInterval.properties v) reservedIntervalIdKey).

Section Observations.

Lemma observeInterval_callbacks (v : Interval.t) si cb :
  I.asSequenceInterval v = Some si →
  observeInterval (I.ofSequenceInterval v (SequenceInterval.setCallbacks si cb))
  = observeInterval v.
Proof. done. Qed.

Lemma observeInterval_same (v : Interval.t) si :
  I.asSequenceInterval v = Some si →
  observeInterval (I.ofSequenceInterval v si) = observeInterval v.
Proof. done. Qed.

Lemma observeInterval_link (v : Interval.t) si p q :
  I.asSequenceInterval v = Some si →
  observeInterval
    (I.ofSequenceInterval v
       (SequenceInterval.setEndpoints si
          (ref_addProperties (SequenceInterval.start si) p)
          (ref_addProperties (SequenceInterval.end_ si) q)))
  = observeInterval v.
Proof. done. Qed.

Lemma observeInterval_freeze (v : Interval.t) :
  observeInterval
    (I.setProperties v
       (defineNonWritable (I.properties v) reservedIntervalIdKey))
  = observeInterval v.
Proof.
  unfold observeInterval; simpl. by rewrite getProp_defineNonWritable.
Qed.

Lemma observeSequenceInterval_callbacks (v : SequenceInterval.t) si cb :
  I.asSequenceInterval v = Some si →
  observeSequenceInterval
    (I.ofSequenceInterval v (SequenceInterval.setCallbacks si cb))
  = observeSequenceInterval v.
Proof. intros [= ->]. done. Qed.

Lemma observeSequenceInterval_same (v : SequenceInterval.t) si :
  I.asSequenceInterval v = Some si →
  observeSequenceInterval (I.ofSequenceInterval v si) = observeSequenceInterval v.
Proof. intros [= ->]. done. Qed.

Lemma observeSequenceInterval_link (v : SequenceInterval.t) si p q :
  I.asSequenceInterval v = Some si →
  observeSequenceInterval
    (I.ofSequenceInterval v
       (SequenceInterval.setEndpoints si
          (ref_addProperties (SequenceInterval.start si) p)
          (ref_addProperties (SequenceInterval.end_ si) q)))
  = observeSequenceInterval v.
Proof. intros [= ->]. done. Qed.

Lemma observeSequenceInterval_freeze (v : SequenceInterval.t) :
  observeSequenceInterval
    (I.setProperties v
       (defineNonWritable (I.properties v) reservedIntervalIdKey))
  = observeSequenceInterval v.
Proof.
  unfold observeSequenceInterval; simpl. by rewrite getProp_defineNonWritable.
Qed.

End Observations.

(** ** modify *)

(** [Interval.modify]: no new interval when the positions asked for are the
    current ones; otherwise a new interval at the positions asked for, with
    the properties of the old one. *)
Lemma Interval_modify_spec (v : Interval.t) label start end_ op :
  let startPos := default (Interval.start v) start in
  let endPos := default (Interval.end_ v) end_ in
  if bool_decide (startPos = Interval.start v ∧ endPos = Interval.end_ v)
  then Interval.modify v label start end_ op = Ok None
  else ∃ m, Interval.modify v label start end_ op = Ok (Some m) ∧
            Interval.start m = startPos ∧ Interval.end_ m = endPos ∧
            entries (Interval.properties m) = entries (Interval.properties v).
Proof.
  intros startPos endPos. unfold Interval.modify. fold startPos endPos.
  case_bool_decide as Hsame.
  - destruct Hsame as [-> ->]. by rewrite !Z.eqb_refl.
  - destruct ((Interval.start v =? startPos) && (Interval.end_ v =? endPos))
      eqn:E.
    + apply andb_true_iff in E as [E1 E2]. destruct Hsame. split; lia.
    + simpl. eexists. split; [done|]. simpl. split_and!; try done.
      by rewrite (right_id_L ∅ (∪)).
Qed.

(** [SequenceInterval.modify], reached through the interface, always builds
    an interval. *)
Lemma SequenceInterval_modify_Some (v : SequenceInterval.t) label start end_ op
    localSeq r :
  I.modify v label start end_ op localSeq = Ok r →
  ∃ m, r = Some m ∧
       SequenceInterval.modify v label start end_ op localSeq None = Ok m.
Proof.
  simpl. intros H. apply bindR_Ok in H as (m & Hm & [= <-]). eauto.
Qed.

Lemma SequenceInterval_new_properties client s e intervalType stickiness this :
  SequenceInterval.new client s e intervalType None stickiness = Ok this →
  SequenceInterval.properties this = emptyProps.
Proof. by intros [= <-]. Qed.

Lemma SequenceInterval_modify_properties (v : SequenceInterval.t) label start
    end_ op localSeq m :
  SequenceInterval.modify v label start end_ op localSeq None = Ok m →
  entries (SequenceInterval.properties m) = entries (SequenceInterval.properties v).
Proof.
  unfold SequenceInterval.modify. intros H.
  apply bindR_Ok in H as (startRef & Hs & H).
  apply bindR_Ok in H as (endRef & He & H).
  apply bindR_Ok in H as (newInterval & Hn & H).
  apply SequenceInterval_new_properties in Hn. injection H as <-.
  simpl. rewrite Hn. simpl. by rewrite (right_id_L ∅ (∪)).
Qed.

(** ** The interval classes keep their laws *)

Lemma Interval_modify_id (v : Interval.t) label start end_ op
    (localSeq : option Z) m :
  I.modify v label start end_ op localSeq = Ok (Some m) →
  I.getIntervalId m = I.getIntervalId v.
Proof.
  simpl. intros Hm.
  pose proof (Interval_modify_spec v label start end_ op) as Hspec.
  simpl in Hspec. case_bool_decide; [congruence|].
  destruct Hspec as (m' & Hm' & _ & _ & Hprops). rewrite Hm in Hm'.
  injection Hm' as <-. unfold Interval.getIntervalId, getProp.
  by rewrite Hprops.
Qed.

Lemma SequenceInterval_modify_id (v : SequenceInterval.t) label start end_ op
    localSeq m :
  I.modify v label start end_ op localSeq = Ok (Some m) →
  I.getIntervalId m = I.getIntervalId v.
Proof.
  intros Hm. apply SequenceInterval_modify_Some in Hm as (m' & [= <-] & Hm).
  apply SequenceInterval_modify_properties in Hm.
  simpl. unfold SequenceInterval.getIntervalId, getProp. by rewrite Hm.
Qed.

Lemma compareWith_returns {T : Type} (compareStart compareEnd : T → T → Z)
    (getIntervalId : T → Result string) (a b : T) ida idb :
  getIntervalId a = Ok ida → getIntervalId b = Ok idb →
  ∃ c, compareWith compareStart compareEnd getIntervalId a b = Ok c.
Proof.
  intros Ha Hb. unfold compareWith. rewrite Ha, Hb. simpl.
  destruct (_ =? 0); [|eauto]. destruct (_ =? 0); [|eauto].
  repeat case_bool_decide; eauto.
Qed.

#[export] Instance Interval_laws : IntervalLaws Interval.t.
Proof.
  split; try done.
  - intros v. simpl. unfold Interval.getIntervalId. simpl.
    by rewrite getProp_defineNonWritable.
  - apply Interval_modify_id.
  - intros a b ida idb. apply compareWith_returns.
Qed.

#[export] Instance SequenceInterval_laws : IntervalLaws SequenceInterval.t.
Proof.
  split.
  - by intros v si cb [= ->].
  - by intros v si [= ->].
  - by intros v si p q [= ->].
  - intros v. simpl. unfold SequenceInterval.getIntervalId. simpl.
    by rewrite getProp_defineNonWritable.
  - apply SequenceInterval_modify_id.
  - intros a b ida idb. apply compareWith_returns.
Qed.

(** ** Comparators find an interval equal to itself *)

Lemma compareIds_refl (id : string) : compareIds id id = 0.
Proof.
  unfold compareIds. pose proof (String.compare_antisym id id) as H.
  destruct (String.compare id id); simpl in H; congruence.
Qed.

(** The helpers compare an interval as equal to itself. *)
Definition reflexiveHelpers {T : Type} (hs : IIntervalHelpers T) (v : T) : Prop :=
  compareEnds hs v v = 0 ∧ ∀ f, compareStarts hs = Some f → f v v = 0.

Lemma compareWith_refl {T : Type} (compareStart compareEnd : T → T → Z)
    (getIntervalId : T → Result string) (v : T) (c : Z) :
  compareStart v v = 0 → compareEnd v v = 0 →
  compareWith compareStart compareEnd getIntervalId v v = Ok c → c = 0.
Proof.
  unfold compareWith. intros -> ->. simpl.
  destruct (getIntervalId v) as [id|]; simpl; [|discriminate].
  case_bool_decide; intros [= <-]; [apply compareIds_refl|done].
Qed.

Lemma inRange_refl {T : Type} {ops : I.ISerializableInterval T} (v : T) (c : Z) :
  (try! aId := I.getIntervalId v in
   try! bId := I.getIntervalId v in Ok (localeCompare aId bId)) = Ok c →
  c = 0.
Proof.
  destruct (I.getIntervalId v) as [id|]; simpl; [|discriminate].
  intros [= <-]. apply compareIds_refl.
Qed.

Lemma selfEqual_of_compare {T : Type} {ops : I.ISerializableInterval T}
    (hs : IIntervalHelpers T) (v : T) :
  reflexiveHelpers hs v →
  (∀ c, I.compare v v = Ok c → c = 0) →
  selfEqual hs v.
Proof.
  intros [Hends Hstarts] Hcmp index c.
  destruct index as [t|m|t|t|t]; simpl.
  - apply Hcmp.
  - by intros [= <-].
  - intros [= <-]. exact Hends.
  - unfold endpointInRangeComparator. rewrite Hends. simpl.
    unfold compareOverrideables. rewrite Z.sub_diag. simpl. apply inRange_refl.
  - unfold startpointInRangeComparator.
    destruct (compareStarts hs) as [f|] eqn:Ef; [|discriminate].
    rewrite (Hstarts f eq_refl). simpl.
    unfold compareOverrideables. rewrite Z.sub_diag. simpl. apply inRange_refl.
Qed.

Lemma Interval_selfEqual (hs : IIntervalHelpers Interval.t) (v : Interval.t) :
  reflexiveHelpers hs v → selfEqual hs v.
Proof.
  intros Hhs. apply selfEqual_of_compare; [done|]. intros c. simpl.
  apply compareWith_refl; unfold Interval.compareStart, Interval.compareEnd; lia.
Qed.

Lemma intervalHelpers_reflexive v : reflexiveHelpers intervalHelpers v.
Proof. split; simpl; [lia|]. intros f [= <-]. lia. Qed.

Lemma numericHelpers_reflexive v : reflexiveHelpers numericHelpers v.
Proof. split; simpl; [unfold compareIntervalEnds; lia|]. by intros f. Qed.

(** For sequence intervals this is a property of the order of the merge
    tree. *)
Lemma SequenceInterval_selfEqual (v : SequenceInterval.t) :
  (∀ ref, compareReferencePositions (SequenceInterval.client v) ref ref = 0) →
  selfEqual sequenceIntervalHelpers v.
Proof.
  intros Hrefl. apply selfEqual_of_compare.
  - split; simpl; [apply Hrefl|]. intros f [= <-]. apply Hrefl.
  - intros c. simpl. apply compareWith_refl; apply Hrefl.
Qed.

(** ** changeInterval *)

(** An interval that is part of a collection in good order: it is a live
    object, the comparators find it equal to itself, and the id index holds
    it under its id only. *)
Definition registered {T : Type} {ops : I.ISerializableInterval T}
    (lc : LocalIntervalCollection.t T) (interval : nat) (v : T) : Prop :=
  LocalIntervalCollection.store lc !! interval = Some v ∧
  bounded lc ∧
  selfEqual (LocalIntervalCollection.helpers lc) v ∧
  Forall (λ ix, idConsistent ix interval v) (LocalIntervalCollection.indexes lc).

Section Checks.
Context {T : Type} {ops : I.ISerializableInterval T}.
Implicit Types (lc : LocalIntervalCollection.t T).

Lemma occurrences_addresses (ix : IntervalIndex) (a : nat) :
  occurrences ix a ≠ 0%nat → a ∈ addressesOf ix.
Proof.
  destruct ix as [t|m|t|t|t]; simpl;
    try (intros H; change (occ a t ≠ 0%nat) in H; unfold occ in H;
         destruct (filter (λ b, b = a) t) as [|b rest] eqn:E; [done|];
         assert (Hb : b ∈ filter (λ b, b = a) t) by (rewrite E; left);
         apply list_elem_of_filter in Hb as [-> Hb]; exact Hb).
  intros H. apply map_size_ne_0_lookup_1 in H as (key & [b H]).
  apply map_lookup_filter_Some in H as [H Hb]. simpl in Hb. subst b.
  apply list_elem_of_fmap. exists (key, a). split; [done|].
  by apply elem_of_map_to_list.
Qed.

Lemma boundedCheck_sound lc : boundedCheck lc = true → bounded lc.
Proof.
  unfold boundedCheck. intros H. apply andb_true_iff in H as [H1 H2].
  rewrite forallb_forall in H1. rewrite forallb_forall in H2. split.
  - intros a [v Ha].
    assert (Hin : In a (map_to_list (LocalIntervalCollection.store lc)).*1).
    { apply list_elem_of_In, list_elem_of_fmap. exists (a, v).
      split; [done|]. by apply elem_of_map_to_list. }
    apply H1 in Hin. by apply bool_decide_eq_true_1 in Hin.
  - apply Forall_forall. intros ix Hix a Hocc.
    specialize (H2 ix (proj1 (list_elem_of_In _ _) Hix)).
    rewrite forallb_forall in H2.
    apply occurrences_addresses, list_elem_of_In, H2 in Hocc.
    by apply bool_decide_eq_true_1 in Hocc.
Qed.

Lemma idConsistentCheck_sound lc interval v :
  idConsistentCheck lc interval v = true →
  Forall (λ ix, idConsistent ix interval v) (LocalIntervalCollection.indexes lc).
Proof.
  unfold idConsistentCheck. rewrite forallb_forall. intros H.
  apply Forall_forall. intros ix Hix m key -> Hkey.
  specialize (H _ (proj1 (list_elem_of_In _ _) Hix)). simpl in H.
  rewrite forallb_forall in H.
  specialize (H (key, interval)). simpl in H.
  rewrite decide_True in H by done.
  assert (Hin : In (key, interval) (map_to_list m))
    by by apply list_elem_of_In, elem_of_map_to_list.
  apply H in Hin. destruct (I.getIntervalId v) as [id|]; [|discriminate].
  f_equal. by apply bool_decide_eq_true_1 in Hin.
Qed.

Lemma soundCheck_sound lc :
  soundCheck lc = true →
  Forall (sound (LocalIntervalCollection.helpers lc)
                (LocalIntervalCollection.store lc))
         (LocalIntervalCollection.indexes lc).
Proof.
  unfold soundCheck. rewrite forallb_forall. intros H.
  apply Forall_forall. intros ix Hix.
  specialize (H _ (proj1 (list_elem_of_In _ _) Hix)).
  apply andb_true_iff in H as [Hcmp Hids]. split.
  - intros tree ->.
    by destruct (compareStarts (LocalIntervalCollection.helpers lc)).
  - intros a Ha. rewrite forallb_forall in Hids.
    apply occurrences_addresses, list_elem_of_In, Hids in Ha.
    destruct (LocalIntervalCollection.store lc !! a) as [v|] eqn:Hv;
      [|discriminate].
    simpl in Ha. destruct (I.getIntervalId v) as [id|] eqn:Hid;
      [|discriminate].
    by exists v, id.
Qed.

Lemma healthyCheck_sound lc :
  boundedCheck lc && soundCheck lc = true → healthy lc.
Proof.
  intros H. apply andb_true_iff in H as [Hb Hs].
  split; [by apply boundedCheck_sound|by apply soundCheck_sound].
Qed.

End Checks.

Lemma exampleText_reflexive ref : compareReferencePositions exampleText ref ref = 0.
Proof. simpl. lia. Qed.

(** C5 (as stated, refuted): the sequence interval [1, 3) is asked to move to
    the positions it is at; [changeInterval] does not return undefined, it
    replaces the interval. *)
Lemma changeInterval_sequence_same_positions :
  ∃ v, LocalIntervalCollection.store sequenceCollection1 !! 0%nat = Some v ∧
       localReferencePositionToPosition exampleText (SequenceInterval.start v) = 1 ∧
       localReferencePositionToPosition exampleText (SequenceInterval.end_ v) = 3 ∧
       (LocalIntervalCollection.changeInterval 0 (Some 1) (Some 3) None None
          sequenceCollection1).1 = Ok (Some 1%nat) ∧
       (LocalIntervalCollection.changeInterval 0 (Some 1) (Some 3) None None
          sequenceCollection1).2 ≠ sequenceCollection1.
Proof.
  destruct (LocalIntervalCollection.store sequenceCollection1 !! 0%nat)
    as [v|] eqn:Hv; [|by vm_compute in Hv].
  exists v. split; [done|].
  assert (v = default v (LocalIntervalCollection.store sequenceCollection1 !! 0%nat))
    as -> by by rewrite Hv.
  split_and!; [by vm_compute..|].
  intros Heq. apply (f_equal LocalIntervalCollection.nextAddress) in Heq.
  by vm_compute in Heq.
Qed.

(** [changeInterval] throws what [modify] throws, and nothing changes. *)
Lemma changeInterval_throws {T : Type} {ops : I.ISerializableInterval T}
    (lc : LocalIntervalCollection.t T) interval v start end_ op localSeq e :
  LocalIntervalCollection.store lc !! interval = Some v →
  I.modify v (LocalIntervalCollection.label lc) start end_ op localSeq = Throw e →
  LocalIntervalCollection.changeInterval interval start end_ op localSeq lc
  = (Throw e, lc).
Proof.
  intros Hv Hm. unfold LocalIntervalCollection.changeInterval.
  rewrite (bindM_run _ _ lc lc lc) by done.
  rewrite (bindM_run _ _ lc lc v)
    by (unfold LocalIntervalCollection.readInterval, readObject; by rewrite Hv).
  unfold bindM, liftR. by rewrite Hm.
Qed.

(** C5 (amended): [changeInterval] calls [modify] of the interval, on a
    collection in good order and an interval with an id. For a numeric
    interval: when the positions asked for are the current ones it returns
    undefined and leaves the collection as it is; otherwise it returns a new
    interval at the positions asked for, which is once in every index, and
    the old interval is in none. For a sequence interval [modify] has no such
    test: whenever [modify] returns, also when the positions asked for are
    the current ones, [changeInterval] returns the interval that [modify]
    built, once in every index, and the old interval is in none; and when
    [modify] throws, [changeInterval] throws the same and changes nothing. *)
Theorem changeInterval_spec :
  (∀ (lc : LocalIntervalCollection.t Interval.t) interval v id start end_ op
     localSeq,
     registered lc interval v → healthy lc → I.getIntervalId v = Ok id →
     let startPos := default (Interval.start v) start in
     let endPos := default (Interval.end_ v) end_ in
     (startPos = Interval.start v ∧ endPos = Interval.end_ v →
      LocalIntervalCollection.changeInterval interval start end_ op localSeq lc
      = (Ok None, lc)) ∧
     (¬ (startPos = Interval.start v ∧ endPos = Interval.end_ v) →
      ∃ new lc' v',
        LocalIntervalCollection.changeInterval interval start end_ op localSeq lc
        = (Ok (Some new), lc') ∧
        LocalIntervalCollection.store lc' !! new = Some v' ∧
        Interval.start v' = startPos ∧ Interval.end_ v' = endPos ∧
        absentFrom (LocalIntervalCollection.indexes lc') interval ∧
        onceIn (LocalIntervalCollection.indexes lc') new)) ∧
  (∀ (lc : LocalIntervalCollection.t SequenceInterval.t) interval v id start end_
     op localSeq,
     registered lc interval v → healthy lc → I.getIntervalId v = Ok id →
     match SequenceInterval.modify v (LocalIntervalCollection.label lc) start
             end_ op localSeq None with
     | Ok m =>
         ∃ new lc' v',
           LocalIntervalCollection.changeInterval interval start end_ op
             localSeq lc = (Ok (Some new), lc') ∧
           LocalIntervalCollection.store lc' !! new = Some v' ∧
           observeSequenceInterval v' = observeSequenceInterval m ∧
           absentFrom (LocalIntervalCollection.indexes lc') interval ∧
           onceIn (LocalIntervalCollection.indexes lc') new
     | Throw e =>
         LocalIntervalCollection.changeInterval interval start end_ op
           localSeq lc = (Throw e, lc)
     end).
Proof.
  split.
  - intros lc interval v id start end_ op localSeq (Hv & Hb & Hself & Hidx)
      Hhealthy Hid startPos endPos.
    pose proof (Interval_modify_spec v (LocalIntervalCollection.label lc)
                  start end_ op) as Hm.
    simpl in Hm. fold startPos endPos in Hm. split.
    + intros Hsame. rewrite bool_decide_eq_true_2 in Hm by done.
      by apply changeInterval_unchanged with (v := v).
    + intros Hdiff. rewrite bool_decide_eq_false_2 in Hm by done.
      destruct Hm as (m & Hm & Hms & Hme & _).
      destruct (changeInterval_returns lc interval v start end_ op localSeq
                  (Some m) Hhealthy Hv (ex_intro _ id Hid) Hm)
        as (r & lc' & Hrun & _ & _ & Hsome).
      { intros m' [= <-]. exists id. rewrite <- Hid.
        exact (Interval_modify_id v _ start end_ op localSeq m Hm). }
      pose proof Hrun as Hrun'.
      eapply (changeInterval_Ok observeInterval) in Hrun;
        [|apply observeInterval_callbacks|apply observeInterval_same
         |apply observeInterval_link|apply observeInterval_freeze|done].
      destruct Hrun as (v0 & Hv0 & Hcases).
      rewrite Hv in Hv0. injection Hv0 as <-.
      destruct Hcases as [(Hnone & _) | (m' & v' & Hm' & -> & Hnew & Hobs & _ & _
                                         & Honce & Habs)].
      * simpl in Hnone. congruence.
      * simpl in Hm'. rewrite Hm in Hm'. injection Hm' as <-.
        exists (LocalIntervalCollection.nextAddress lc), lc', v'.
        injection Hobs as Hos Hoe _.
        split_and!; try done; try congruence. by apply Habs.
  - intros lc interval v id start end_ op localSeq (Hv & Hb & Hself & Hidx)
      Hhealthy Hid.
    destruct (SequenceInterval.modify v (LocalIntervalCollection.label lc) start
                end_ op localSeq None) as [m|e] eqn:Hm.
    2:{ apply changeInterval_throws with (v := v); [done|]. simpl.
        by rewrite Hm. }
    assert (Hmodify : I.modify v (LocalIntervalCollection.label lc) start end_
                        op localSeq = Ok (Some m)) by (simpl; by rewrite Hm).
    destruct (changeInterval_returns lc interval v start end_ op localSeq
                (Some m) Hhealthy Hv (ex_intro _ id Hid) Hmodify)
      as (r & lc' & Hrun & _ & _ & Hsome).
    { intros m' [= <-]. exists id. rewrite <- Hid.
      exact (SequenceInterval_modify_id v _ start end_ op localSeq m Hmodify). }
    pose proof Hrun as Hrun'.
    eapply (changeInterval_Ok observeSequenceInterval) in Hrun;
      [|apply observeSequenceInterval_callbacks|apply observeSequenceInterval_same
       |apply observeSequenceInterval_link|apply observeSequenceInterval_freeze
       |done].
    destruct Hrun as (v0 & Hv0 & Hcases).
    rewrite Hv in Hv0. injection Hv0 as <-.
    destruct Hcases as [(Hnone & _) | (m' & v' & Hm' & -> & Hnew & Hobs & _ & _
                                       & Honce & Habs)].
    + rewrite Hmodify in Hnone. discriminate.
    + rewrite Hmodify in Hm'. injection Hm' as <-.
      exists (LocalIntervalCollection.nextAddress lc), lc', v'.
      split_and!; try done. by apply Habs.
Qed.

Lemma numericCollection1_registered :
  registered numericCollection1 0 (objectAt numericCollection1 0 noInterval).
Proof.
  split_and!.
  - by vm_compute.
  - apply boundedCheck_sound. by vm_compute.
  - apply Interval_selfEqual.
    assert (LocalIntervalCollection.helpers numericCollection1 = numericHelpers)
      as -> by reflexivity.
    apply numericHelpers_reflexive.
  - apply idConsistentCheck_sound. by vm_compute.
Qed.

Lemma sequenceCollection1_registered :
  registered sequenceCollection1 0 (objectAt sequenceCollection1 0 noSequenceInterval).
Proof.
  split_and!.
  - by vm_compute.
  - apply boundedCheck_sound. by vm_compute.
  - assert (LocalIntervalCollection.helpers sequenceCollection1
            = sequenceIntervalHelpers) as -> by reflexivity.
    apply SequenceInterval_selfEqual. intros ref.
    assert (SequenceInterval.client (objectAt sequenceCollection1 0 noSequenceInterval)
            = exampleText) as -> by reflexivity.
    apply exampleText_reflexive.
  - apply idConsistentCheck_sound. by vm_compute.
Qed.

Lemma numericCollection1_healthy : healthy numericCollection1.
Proof. apply healthyCheck_sound. vm_compute. reflexivity. Qed.

Lemma sequenceCollection1_healthy : healthy sequenceCollection1.
Proof. apply healthyCheck_sound. vm_compute. reflexivity. Qed.

Lemma changeInterval_spec_witness :
  LocalIntervalCollection.changeInterval 0 (Some 2) None None None
    numericCollection1 = (Ok None, numericCollection1) ∧
  ∃ new lc' v',
    LocalIntervalCollection.changeInterval 0 (Some 1) (Some 3) None None
      sequenceCollection1 = (Ok (Some new), lc') ∧
    LocalIntervalCollection.store lc' !! new = Some v' ∧
    absentFrom (LocalIntervalCollection.indexes lc') 0 ∧
    onceIn (LocalIntervalCollection.indexes lc') new.
Proof.
  split.
  - apply (proj1 (proj1 changeInterval_spec numericCollection1 0%nat
                    (objectAt numericCollection1 0 noInterval) "uuid-0"
                    (Some 2) None None None numericCollection1_registered
                    numericCollection1_healthy
                    ltac:(vm_compute; reflexivity))).
    vm_compute. split; reflexivity.
  - pose proof (proj2 changeInterval_spec sequenceCollection1 0%nat
                  (objectAt sequenceCollection1 0 noSequenceInterval) "uuid-0"
                  (Some 1) (Some 3) None None sequenceCollection1_registered
                  sequenceCollection1_healthy
                  ltac:(vm_compute; reflexivity)) as H.
    destruct (SequenceInterval.modify _ _ _ _ _ _ _) as [m|e] eqn:Hm in H.
    + destruct H as (new & lc' & v' & Hrun & Hnew & _ & Habs & Honce).
      exists new, lc', v'. exact (conj Hrun (conj Hnew (conj Habs Honce))).
    + exfalso. revert Hm. vm_compute. discriminate.
Defined.

(** ** Slide bursts *)

(** The number of [beforeSlide] calls that still await their [afterSlide]. *)
Fixpoint balance (steps : list LocalIntervalCollection.SlideStep) : Z :=
  match steps with
  | [] => 0
  | LocalIntervalCollection.beforeSlide :: rest => 1 + balance rest
  | LocalIntervalCollection.afterSlide :: rest => balance rest - 1
  | LocalIntervalCollection.slideTo _ _ _ :: rest => balance rest
  end.

(** Every [afterSlide] of the steps has a [beforeSlide] of the steps before
    it, and every [beforeSlide] gets its [afterSlide]. *)
Definition matched (steps : list LocalIntervalCollection.SlideStep) : Prop :=
  (∀ n, 0 ≤ balance (take n steps)) ∧ balance steps = 0.

(** A burst: the first [beforeSlide], matched calls, and the [afterSlide]
    that brings the count of [afterSlide] calls up to the count of
    [beforeSlide] calls. *)
Definition burst (middle : list LocalIntervalCollection.SlideStep)
  : list LocalIntervalCollection.SlideStep :=
  LocalIntervalCollection.beforeSlide
    :: middle ++ [LocalIntervalCollection.afterSlide].

Section SlideFacts.

Abbreviation slc := (LocalIntervalCollection.t SequenceInterval.t).
Implicit Types (lc : slc) (interval : nat) (w : SequenceInterval.t).

(** The listener of the interval is in the middle of a burst: [k] calls of
    [beforeSlide] await their [afterSlide]. *)
Definition sliding lc interval (k : Z) (prev : SequenceInterval.t) : Prop :=
  ∃ w, LocalIntervalCollection.store lc !! interval = Some w ∧
       SequenceInterval.callbacks w
       = Some (SequenceInterval.mkListener k (Some prev)).

(** Two states of the collection that differ in the object of the interval
    only. *)
Definition sameButObject lc lc' interval : Prop :=
  LocalIntervalCollection.indexes lc' = LocalIntervalCollection.indexes lc ∧
  LocalIntervalCollection.positionChanges lc'
  = LocalIntervalCollection.positionChanges lc ∧
  LocalIntervalCollection.helpers lc' = LocalIntervalCollection.helpers lc ∧
  LocalIntervalCollection.onPositionChange lc'
  = LocalIntervalCollection.onPositionChange lc ∧
  LocalIntervalCollection.client lc' = LocalIntervalCollection.client lc ∧
  ∀ a, a ≠ interval →
       LocalIntervalCollection.store lc' !! a
       = LocalIntervalCollection.store lc !! a.

Lemma sameButObject_refl lc interval : sameButObject lc lc interval.
Proof. by split_and!. Qed.

Lemma sameButObject_trans lc1 lc2 lc3 interval :
  sameButObject lc1 lc2 interval → sameButObject lc2 lc3 interval →
  sameButObject lc1 lc3 interval.
Proof.
  intros (H1 & H2 & H3 & H4 & H5 & H6) (G1 & G2 & G3 & G4 & G5 & G6).
  split_and!; try congruence. intros a Ha. rewrite G6, H6; done.
Qed.

Lemma sameButObject_write lc interval w :
  sameButObject lc
    (LocalIntervalCollection.setStore lc
       (<[interval := w]> (LocalIntervalCollection.store lc))) interval.
Proof.
  split_and!; try done. intros a Ha. simpl. by rewrite lookup_insert_ne.
Qed.

Lemma setListener_run lc interval w closures :
  LocalIntervalCollection.store lc !! interval = Some w →
  LocalIntervalCollection.setListener interval closures lc
  = (Ok (),
     LocalIntervalCollection.setStore lc
       (<[interval := SequenceInterval.setCallbacks w (Some closures)]>
          (LocalIntervalCollection.store lc))).
Proof.
  intros Hw. unfold LocalIntervalCollection.setListener, bindM,
    LocalIntervalCollection.readInterval, readObject.
  rewrite Hw. reflexivity.
Qed.

(** A [beforeSlide] in the middle of a burst only counts. *)
Lemma beforePositionChange_nested lc interval k prev :
  sliding lc interval k prev →
  ∃ lc', LocalIntervalCollection.beforePositionChange interval lc = (Ok (), lc') ∧
         sliding lc' interval (k + 1) prev ∧ sameButObject lc lc' interval.
Proof.
  intros (w & Hw & Hcb).
  eexists. split_and!.
  - unfold LocalIntervalCollection.beforePositionChange, bindM at 1,
      LocalIntervalCollection.readInterval, readObject.
    rewrite Hw. simpl. rewrite Hcb. simpl.
    unfold bindM. rewrite (setListener_run _ _ w) by done. reflexivity.
  - eexists. split; [apply lookup_insert_eq|]. done.
  - apply sameButObject_write.
Qed.

(** An [afterSlide] that does not bring the count to zero only counts. *)
Lemma afterPositionChange_nested lc interval k prev :
  sliding lc interval k prev → k - 1 ≠ 0 →
  ∃ lc', LocalIntervalCollection.afterPositionChange interval lc = (Ok (), lc') ∧
         sliding lc' interval (k - 1) prev ∧ sameButObject lc lc' interval.
Proof.
  intros (w & Hw & Hcb) Hk.
  eexists. split_and!.
  - unfold LocalIntervalCollection.afterPositionChange, bindM at 1,
      LocalIntervalCollection.readInterval, readObject.
    rewrite Hw. simpl. rewrite Hcb. simpl.
    unfold bindM. rewrite (setListener_run _ _ w) by done.
    destruct (Z.eqb_spec (k - 1) 0) as [|_]; [done|]. reflexivity.
  - eexists. split; [apply lookup_insert_eq|]. done.
  - apply sameButObject_write.
Qed.

(** Moving a reference leaves the listener alone. *)
Lemma slideReference_run lc interval k prev which segment offset :
  sliding lc interval k prev →
  ∃ lc', LocalIntervalCollection.slideReference interval which segment offset lc
         = (Ok (), lc') ∧
         sliding lc' interval k prev ∧ sameButObject lc lc' interval.
Proof.
  intros (w & Hw & Hcb).
  eexists. split_and!.
  - unfold LocalIntervalCollection.slideReference, bindM,
      LocalIntervalCollection.readInterval, readObject.
    rewrite Hw. reflexivity.
  - eexists. split; [apply lookup_insert_eq|]. by destruct which.
  - apply sameButObject_write.
Qed.

Lemma balance_take_cons step rest n :
  balance (take (S n) (step :: rest)) = balance [step] + balance (take n rest).
Proof. destruct step; simpl; lia. Qed.

(** Matched calls inside a burst all return, and leave the interval out of
    the indices, with as many calls pending as before. *)
Lemma slide_matched steps lc interval k prev :
  sliding lc interval k prev →
  (∀ n, 0 ≤ k - 1 + balance (take n steps)) →
  ∃ lc', LocalIntervalCollection.slide interval steps lc = (Ok (), lc') ∧
         sliding lc' interval (k + balance steps) prev ∧
         sameButObject lc lc' interval.
Proof.
  revert lc k. induction steps as [|step rest IH]; intros lc k Hs Hbal.
  - exists lc. split_and!; [done| |apply sameButObject_refl].
    simpl. by rewrite Z.add_0_r.
  - assert (Hrest : ∀ k', k' = k + balance [step] →
                          ∀ n, 0 ≤ k' - 1 + balance (take n rest)).
    { intros k' -> n. specialize (Hbal (S n)).
      rewrite balance_take_cons in Hbal. lia. }
    assert (Hfirst : 0 ≤ k - 1 + balance [step]).
    { specialize (Hbal 1%nat). simpl in Hbal.
      destruct step; simpl in *; lia. }
    unfold LocalIntervalCollection.slide. simpl.
    fold (LocalIntervalCollection.slide interval rest).
    destruct step as [|which segment offset|]; simpl in Hfirst.
    + destruct (beforePositionChange_nested _ _ _ _ Hs) as (lc1 & Hrun & Hs1 & Hsame).
      destruct (IH lc1 (k + 1) Hs1 (Hrest _ eq_refl)) as (lc' & Hrun' & Hs' & Hsame').
      exists lc'. split_and!.
      * unfold bindM. simpl. rewrite Hrun. exact Hrun'.
      * simpl. by replace (k + (1 + balance rest)) with (k + 1 + balance rest) by lia.
      * by eapply sameButObject_trans.
    + destruct (slideReference_run _ _ _ _ which segment offset Hs)
        as (lc1 & Hrun & Hs1 & Hsame).
      destruct (IH lc1 k Hs1) as (lc' & Hrun' & Hs' & Hsame').
      { intros n. specialize (Hrest k). simpl in Hrest. apply Hrest. lia. }
      exists lc'. split_and!.
      * unfold bindM. simpl. rewrite Hrun. exact Hrun'.
      * done.
      * by eapply sameButObject_trans.
    + destruct (afterPositionChange_nested _ _ _ _ Hs) as (lc1 & Hrun & Hs1 & Hsame);
        [lia|].
      destruct (IH lc1 (k - 1) Hs1) as (lc' & Hrun' & Hs' & Hsame').
      { intros n. specialize (Hrest (k - 1)). simpl in Hrest. apply Hrest. lia. }
      exists lc'. split_and!.
      * unfold bindM. simpl. rewrite Hrun. exact Hrun'.
      * simpl. by replace (k + (balance rest - 1)) with (k - 1 + balance rest) by lia.
      * by eapply sameButObject_trans.
Qed.

Lemma slide_app interval (xs ys : list LocalIntervalCollection.SlideStep) lc :
  LocalIntervalCollection.slide interval (xs ++ ys) lc
  = bindM (LocalIntervalCollection.slide interval xs)
          (λ _, LocalIntervalCollection.slide interval ys) lc.
Proof.
  unfold LocalIntervalCollection.slide. revert lc.
  induction xs as [|x xs IH]; intros lc; simpl; [done|].
  unfold bindM.
  destruct (LocalIntervalCollection.slideStep interval x lc) as [[[]|e] lc1];
    [|done].
  specialize (IH lc1). unfold bindM in IH. exact IH.
Qed.

(** An [afterSlide] that no [beforeSlide] went before is a fatal assertion. *)
Lemma afterPositionChange_idle lc interval w k :
  LocalIntervalCollection.store lc !! interval = Some w →
  SequenceInterval.callbacks w = Some (SequenceInterval.mkListener k None) →
  LocalIntervalCollection.afterPositionChange interval lc
  = (Throw (AssertionFailed 0x3fa), lc).
Proof.
  intros Hw Hcb.
  unfold LocalIntervalCollection.afterPositionChange, bindM,
    LocalIntervalCollection.readInterval, readObject.
  rewrite Hw. simpl. rewrite Hcb. reflexivity.
Qed.

(** The first [beforeSlide] of a burst takes the interval out of every
    index. *)
Lemma beforePositionChange_first lc interval v lc1 :
  LocalIntervalCollection.store lc !! interval = Some v →
  SequenceInterval.callbacks v = Some (SequenceInterval.mkListener 0 None) →
  (∀ w, SequenceInterval.client w = SequenceInterval.client v →
        selfEqual (LocalIntervalCollection.helpers lc) w) →
  Forall (λ ix, idConsistent ix interval v) (LocalIntervalCollection.indexes lc) →
  LocalIntervalCollection.beforePositionChange interval lc = (Ok (), lc1) →
  ∃ prev,
    sliding lc1 interval 1 prev ∧
    absentFrom (LocalIntervalCollection.indexes lc1) interval ∧
    LocalIntervalCollection.positionChanges lc1
    = LocalIntervalCollection.positionChanges lc ∧
    LocalIntervalCollection.onPositionChange lc1
    = LocalIntervalCollection.onPositionChange lc.
Proof.
  intros Hv Hcb Hself Hid Hrun.
  unfold LocalIntervalCollection.beforePositionChange, bindM at 1,
    LocalIntervalCollection.readInterval, readObject in Hrun.
  rewrite Hv in Hrun. simpl in Hrun. rewrite Hcb in Hrun. simpl in Hrun.
  unfold bindM at 1 in Hrun. rewrite (setListener_run _ _ v) in Hrun by done.
  apply bindM_Ok in Hrun as (this & s0 & [= <- <-] & Hrun).
  apply bindM_Ok in Hrun as (previousInterval & s0 & Hclone & Hrun).
  apply liftR_Ok in Hclone as [Hclone ->].
  apply bindM_Ok in Hrun as (startClone & s0 & Hsc & Hrun).
  apply liftR_Ok in Hsc as [Hsc ->].
  apply bindM_Ok in Hrun as (endClone & s0 & Hec & Hrun).
  apply liftR_Ok in Hec as [Hec ->].
  unfold bindM in Hrun.
  rewrite (setListener_run _ _ (SequenceInterval.setCallbacks v
             (Some (SequenceInterval.mkListener (0 + 1) None)))) in Hrun
    by apply lookup_insert_eq.
  unfold LocalIntervalCollection.removeIntervalFromIndexes in Hrun.
  destruct (LocalIntervalCollection.removeFromEach _ _ _ _) as [r ixs'] eqn:Hloop.
  injection Hrun as -> <-. simpl in *.
  exists (SequenceInterval.setEndpoints previousInterval startClone endClone).
  split_and!; try done.
  - eexists. split; [apply lookup_insert_eq|]. done.
  - eapply removeFromEach_absent; [exact Hloop|apply lookup_insert_eq| |].
    + by apply Hself.
    + eapply Forall_impl; [exact Hid|]. intros ix Hix m key Hm Hkey.
      by apply (Hix m key).
Qed.

(** The [afterSlide] that brings the count to zero puts the interval back
    into every index and calls [onPositionChange] once. *)
Lemma afterPositionChange_last lc interval prev lc' :
  sliding lc interval 1 prev →
  absentFrom (LocalIntervalCollection.indexes lc) interval →
  LocalIntervalCollection.afterPositionChange interval lc = (Ok (), lc') →
  onceIn (LocalIntervalCollection.indexes lc') interval ∧
  LocalIntervalCollection.positionChanges lc'
  = (if LocalIntervalCollection.onPositionChange lc
     then [(interval, prev)] else [])
    ++ LocalIntervalCollection.positionChanges lc ∧
  ∃ w', LocalIntervalCollection.store lc' !! interval = Some w' ∧
        SequenceInterval.callbacks w'
        = Some (SequenceInterval.mkListener 0 None).
Proof.
  intros (w & Hw & Hcb) Habs Hrun.
  unfold LocalIntervalCollection.afterPositionChange, bindM at 1,
    LocalIntervalCollection.readInterval, readObject in Hrun.
  rewrite Hw in Hrun. simpl in Hrun. rewrite Hcb in Hrun. simpl in Hrun.
  unfold bindM at 1 in Hrun. rewrite (setListener_run _ _ w) in Hrun by done.
  apply bindM_Ok in Hrun as ([] & lcB & Hadd & Hrun).
  unfold LocalIntervalCollection.addIntervalToIndexes in Hadd.
  destruct (LocalIntervalCollection.addToEach _ _ _ _) as [r [ixs' s']] eqn:Hloop.
  injection Hadd as -> <-. simpl in *.
  pose proof (addToEach_once _ _ _ _ _ _ Hloop Habs) as Honce.
  apply (addToEach_store SequenceInterval.callbacks) in Hloop as (_ & Hat & _);
    [|done].
  destruct (Hat _ (lookup_insert_eq _ _ _)) as (wB & HwB & HcbB).
  unfold bindM, LocalIntervalCollection.callOnPositionChange, update in Hrun.
  simpl in Hrun.
  destruct (LocalIntervalCollection.onPositionChange lc) eqn:Hopc.
  - rewrite (setListener_run _ _ wB) in Hrun by done.
    injection Hrun as <-. simpl. split_and!; try done.
    eexists. split; [apply lookup_insert_eq|]. done.
  - rewrite (setListener_run _ _ wB) in Hrun by done.
    injection Hrun as <-. simpl. split_and!; try done.
    eexists. split; [apply lookup_insert_eq|]. done.
Qed.

(** A fresh interval takes any properties: [clone] always returns. *)
Lemma addKey_step seq collaborating props mgr deltas kv :
  nonWritable props = ∅ →
  ∃ props' mgr' deltas',
    PropertiesManager.addKey seq collaborating (Ok (props, mgr, deltas)) kv
    = Ok (props', mgr', deltas') ∧
    nonWritable props' = ∅.
Proof.
  intros Hnw. unfold PropertiesManager.addKey. simpl.
  destruct (_ && _ && _); [by eauto|].
  unfold PropertiesManager.writeKey. rewrite Hnw.
  rewrite bool_decide_eq_false_2 by set_solver. simpl. by eauto.
Qed.

Lemma addKey_returns seq collaborating l props mgr deltas :
  nonWritable props = ∅ →
  ∃ r, foldl (PropertiesManager.addKey seq collaborating)
             (Ok (props, mgr, deltas)) l = Ok r.
Proof.
  revert props mgr deltas.
  induction l as [|kv rest IH]; intros props mgr deltas Hnw; [simpl; eauto|].
  destruct (addKey_step seq collaborating props mgr deltas kv Hnw)
    as (props' & mgr' & deltas' & Hstep & Hnw').
  replace (foldl (PropertiesManager.addKey seq collaborating)
             (Ok (props, mgr, deltas)) (kv :: rest))
    with (foldl (PropertiesManager.addKey seq collaborating)
            (PropertiesManager.addKey seq collaborating
               (Ok (props, mgr, deltas)) kv) rest) by reflexivity.
  rewrite Hstep. by apply IH.
Qed.

Lemma clone_returns w : ∃ c, SequenceInterval.clone w = Ok c.
Proof.
  unfold SequenceInterval.clone, SequenceInterval.new,
    SequenceInterval.addProperties, PropertiesManager.addProperties.
  simpl.
  destruct (addKey_returns None false
              (map_to_list (entries (SequenceInterval.properties w)))
              emptyProps PropertiesManager.new emptyProps eq_refl)
    as [[[props mgr] deltas] ->].
  simpl. eauto.
Qed.

Lemma cloneRef_returns lc ref :
  is_Some (LocalIntervalCollection.client lc) →
  ∃ r, LocalIntervalCollection.cloneRef lc ref = Ok r.
Proof.
  intros [c Hc]. unfold LocalIntervalCollection.cloneRef. rewrite Hc.
  destruct (getSegment ref); eauto.
Qed.

(** Indices in good order make a collection in good order. *)
Lemma healthy_setIndexes lc ixs :
  bounded lc →
  Forall (sound (LocalIntervalCollection.helpers lc)
                (LocalIntervalCollection.store lc)) ixs →
  healthy (LocalIntervalCollection.setIndexes lc ixs).
Proof.
  intros [Hstore _] Hsound. split; [split|]; simpl; try done.
  eapply Forall_impl; [exact Hsound|]. intros ix [_ Hids] a Ha.
  destruct (Hids a Ha) as (w & id & Hw & _). eauto.
Qed.

(** On a collection in good order the first [beforeSlide] returns. *)
Lemma beforePositionChange_returns lc interval v id :
  LocalIntervalCollection.store lc !! interval = Some v →
  SequenceInterval.callbacks v = Some (SequenceInterval.mkListener 0 None) →
  healthy lc → is_Some (LocalIntervalCollection.client lc) →
  I.getIntervalId v = Ok id →
  ∃ lc1, LocalIntervalCollection.beforePositionChange interval lc = (Ok (), lc1) ∧
         healthy lc1.
Proof.
  intros Hv Hcb Hhealthy Hclient Hid.
  set (vA := SequenceInterval.setCallbacks v
               (Some (SequenceInterval.mkListener (0 + 1) None))).
  set (lcA := LocalIntervalCollection.setStore lc
                (<[interval := vA]> (LocalIntervalCollection.store lc))).
  destruct (clone_returns v) as [previousInterval Hclone].
  destruct (cloneRef_returns lcA (SequenceInterval.start previousInterval))
    as [startClone Hsc]; [done|].
  destruct (cloneRef_returns lcA (SequenceInterval.end_ previousInterval))
    as [endClone Hec]; [done|].
  set (vB := SequenceInterval.setCallbacks vA
               (Some (SequenceInterval.mkListener (0 + 1)
                        (Some (SequenceInterval.setEndpoints previousInterval
                                 startClone endClone))))).
  set (lcB := LocalIntervalCollection.setStore lcA
                (<[interval := vB]> (LocalIntervalCollection.store lcA))).
  assert (HA : LocalIntervalCollection.setListener interval
                 (SequenceInterval.mkListener (0 + 1) None) lc = (Ok (), lcA))
    by by apply setListener_run.
  assert (HB : LocalIntervalCollection.setListener interval
                 (SequenceInterval.mkListener (0 + 1)
                    (Some (SequenceInterval.setEndpoints previousInterval
                             startClone endClone))) lcA = (Ok (), lcB))
    by (apply setListener_run; apply lookup_insert_eq).
  pose proof (setListener_extends I.getIntervalId id_callbacks _ _ _ _ _ HA)
    as HextA.
  pose proof (setListener_extends I.getIntervalId id_callbacks _ _ _ _ _ HB)
    as HextB.
  assert (HhealthyA : healthy lcA)
    by (apply (healthy_extends lc); [done..|apply Hhealthy]).
  assert (HhealthyB : healthy lcB)
    by (apply (healthy_extends lcA); [done..|apply HhealthyA]).
  destruct (removeFromEach_returns (LocalIntervalCollection.helpers lcB)
              (LocalIntervalCollection.store lcB) interval
              (LocalIntervalCollection.indexes lcB) (proj2 HhealthyB))
    as (ixs' & Hloop & Hsound').
  { exists vB, id. split; [apply lookup_insert_eq|]. exact Hid. }
  exists (LocalIntervalCollection.setIndexes lcB ixs').
  split; [|by apply healthy_setIndexes; [apply HhealthyB|]].
  unfold LocalIntervalCollection.beforePositionChange.
  rewrite (bindM_run _ _ lc lc v)
    by (unfold LocalIntervalCollection.readInterval, readObject; by rewrite Hv).
  simpl. rewrite Hcb. simpl.
  rewrite (bindM_run _ _ lc lcA ()) by exact HA.
  rewrite (bindM_run _ _ lcA lcA lcA) by done.
  rewrite (bindM_run _ _ lcA lcA previousInterval)
    by (unfold liftR; by rewrite Hclone).
  rewrite (bindM_run _ _ lcA lcA startClone) by (unfold liftR; by rewrite Hsc).
  rewrite (bindM_run _ _ lcA lcA endClone) by (unfold liftR; by rewrite Hec).
  rewrite (bindM_run _ _ lcA lcB ()) by exact HB.
  unfold LocalIntervalCollection.removeIntervalFromIndexes. by rewrite Hloop.
Qed.

(** On a collection in good order the last [afterSlide] of a burst returns. *)
Lemma afterPositionChange_returns lc interval prev id :
  sliding lc interval 1 prev → healthy lc →
  (∀ w, LocalIntervalCollection.store lc !! interval = Some w →
        I.getIntervalId w = Ok id) →
  ∃ lc', LocalIntervalCollection.afterPositionChange interval lc = (Ok (), lc').
Proof.
  intros (w & Hw & Hcb) Hhealthy Hid. specialize (Hid w Hw).
  set (wA := SequenceInterval.setCallbacks w
               (Some (SequenceInterval.mkListener (1 - 1) (Some prev)))).
  set (lcA := LocalIntervalCollection.setStore lc
                (<[interval := wA]> (LocalIntervalCollection.store lc))).
  assert (HA : LocalIntervalCollection.setListener interval
                 (SequenceInterval.mkListener (1 - 1) (Some prev)) lc
               = (Ok (), lcA)) by by apply setListener_run.
  pose proof (setListener_extends I.getIntervalId id_callbacks _ _ _ _ _ HA)
    as HextA.
  assert (HhealthyA : healthy lcA)
    by (apply (healthy_extends lc); [done..|apply Hhealthy]).
  destruct (addToEach_returns (LocalIntervalCollection.helpers lcA)
              (LocalIntervalCollection.store lcA) interval
              (LocalIntervalCollection.indexes lcA) (proj2 HhealthyA))
    as (ixs' & store' & Hloop & _ & Hmono).
  { exists wA, id. split; [apply lookup_insert_eq|]. exact Hid. }
  destruct (Hmono interval) as (wB & idB & HwB & _).
  { exists wA, id. split; [apply lookup_insert_eq|]. exact Hid. }
  set (lcB := LocalIntervalCollection.setStore
                (LocalIntervalCollection.setIndexes lcA ixs') store').
  assert (HB : LocalIntervalCollection.addIntervalToIndexes interval lcA
               = (Ok (), lcB)).
  { unfold LocalIntervalCollection.addIntervalToIndexes. by rewrite Hloop. }
  destruct (LocalIntervalCollection.callOnPositionChange interval prev lcB)
    as [rC lcC] eqn:HC.
  assert (HwC : LocalIntervalCollection.store lcC !! interval = Some wB).
  { unfold LocalIntervalCollection.callOnPositionChange, update in HC.
    injection HC as _ <-.
    match goal with
    | |- context [if ?b then _ else _] => destruct b
    end; exact HwB. }
  assert (HrC : rC = Ok ()).
  { unfold LocalIntervalCollection.callOnPositionChange, update in HC.
    by injection HC as <- _. }
  subst rC.
  eexists. unfold LocalIntervalCollection.afterPositionChange.
  rewrite (bindM_run _ _ lc lc w)
    by (unfold LocalIntervalCollection.readInterval, readObject; by rewrite Hw).
  simpl. rewrite Hcb. simpl.
  rewrite (bindM_run _ _ lc lcA ()) by exact HA.
  rewrite (bindM_run _ _ lcA lcB ()) by exact HB.
  rewrite (bindM_run _ _ lcB lcC ()) by exact HC.
  by apply setListener_run.
Qed.

End SlideFacts.

Lemma SequenceInterval_id_move (v si : SequenceInterval.t) s e :
  I.asSequenceInterval v = Some si →
  I.getIntervalId (I.ofSequenceInterval v (SequenceInterval.setEndpoints si s e))
  = I.getIntervalId v.
Proof. by intros [= ->]. Qed.

(** C2: a sequence interval with an id, in a collection in good order, whose
    listeners are installed and idle. An [afterSlide] that no [beforeSlide]
    went before is a fatal assertion (0x3fa). A burst returns: the first
    [beforeSlide] takes the interval out of every index; the matched calls in
    the middle return and leave it out; the [afterSlide] that brings the
    count of [afterSlide] calls up to the count of [beforeSlide] calls puts
    it into every index, once; [onPositionChange], when given, is called
    once, with the interval as it was before the burst; and the listeners
    are idle again, so that a further [afterSlide] is the fatal assertion. *)
Theorem slide_burst (lc : LocalIntervalCollection.t SequenceInterval.t)
    (interval : nat) (v : SequenceInterval.t) (id : string)
    (middle : list LocalIntervalCollection.SlideStep) :
  LocalIntervalCollection.store lc !! interval = Some v →
  SequenceInterval.callbacks v = Some (SequenceInterval.mkListener 0 None) →
  SequenceInterval.getIntervalId v = Ok id →
  (∀ w, SequenceInterval.client w = SequenceInterval.client v →
        selfEqual (LocalIntervalCollection.helpers lc) w) →
  Forall (λ ix, idConsistent ix interval v) (LocalIntervalCollection.indexes lc) →
  healthy lc →
  is_Some (LocalIntervalCollection.client lc) →
  matched middle →
  LocalIntervalCollection.afterPositionChange interval lc
  = (Throw (AssertionFailed 0x3fa), lc) ∧
  ∃ lc1 lc2 lc' prev,
    LocalIntervalCollection.slide interval (burst middle) lc = (Ok (), lc') ∧
    LocalIntervalCollection.beforePositionChange interval lc = (Ok (), lc1) ∧
    absentFrom (LocalIntervalCollection.indexes lc1) interval ∧
    LocalIntervalCollection.slide interval middle lc1 = (Ok (), lc2) ∧
    absentFrom (LocalIntervalCollection.indexes lc2) interval ∧
    LocalIntervalCollection.afterPositionChange interval lc2 = (Ok (), lc') ∧
    onceIn (LocalIntervalCollection.indexes lc') interval ∧
    LocalIntervalCollection.positionChanges lc'
    = (if LocalIntervalCollection.onPositionChange lc
       then [(interval, prev)] else [])
      ++ LocalIntervalCollection.positionChanges lc ∧
    LocalIntervalCollection.afterPositionChange interval lc'
    = (Throw (AssertionFailed 0x3fa), lc').
Proof.
  intros Hv Hcb Hidv Hself Hid Hhealthy Hclient [Hprefix Hzero].
  change (I.getIntervalId v = Ok id) in Hidv. split.
  - by eapply afterPositionChange_idle.
  - destruct (beforePositionChange_returns lc interval v id Hv Hcb Hhealthy
                Hclient Hidv) as (lc1 & Hfirst & Hhealthy1).
    destruct (beforePositionChange_first _ _ _ _ Hv Hcb Hself Hid Hfirst)
      as (prev & Hs1 & Habs1 & Hlog1 & Hopc1).
    destruct (slide_matched middle lc1 interval 1 prev Hs1)
      as (lc2 & Hmid & Hs2 & Hsame2).
    { intros n. specialize (Hprefix n). lia. }
    rewrite Hzero, Z.add_0_r in Hs2.
    pose proof (beforePositionChange_extends I.getIntervalId id_callbacks
                  _ _ _ _ Hfirst (proj1 Hhealthy)) as (_ & _ & Hstore1 & _).
    pose proof (slide_extends I.getIntervalId id_callbacks id_freeze
                  SequenceInterval_id_move _ _ _ _ _ Hmid (proj1 Hhealthy1))
      as Hext2.
    destruct Hsame2 as (Hix2 & Hlog2 & _ & Hopc2 & _).
    assert (Hhealthy2 : healthy lc2).
    { apply (healthy_extends lc1); [by intros _|done|].
      rewrite Hix2. apply Hhealthy1. }
    assert (Hid2 : ∀ w, LocalIntervalCollection.store lc2 !! interval = Some w →
                        I.getIntervalId w = Ok id).
    { intros w Hw. destruct (Hstore1 _ _ Hv) as (w1 & Hw1 & Hidw1).
      destruct Hext2 as (_ & _ & Hstore2 & _).
      destruct (Hstore2 _ _ Hw1) as (w2 & Hw2 & Hidw2).
      rewrite Hw in Hw2. injection Hw2 as <-. congruence. }
    destruct (afterPositionChange_returns lc2 interval prev id Hs2 Hhealthy2 Hid2)
      as (lc' & Hlast).
    assert (Habs2 : absentFrom (LocalIntervalCollection.indexes lc2) interval)
      by by rewrite Hix2.
    destruct (afterPositionChange_last _ _ _ _ Hs2 Habs2 Hlast)
      as (Honce & Hlog3 & w' & Hw' & Hcb').
    exists lc1, lc2, lc', prev. split_and!; try done.
    + unfold burst.
      change (LocalIntervalCollection.slide interval
                (LocalIntervalCollection.beforeSlide
                   :: middle ++ [LocalIntervalCollection.afterSlide]) lc)
        with (bindM (LocalIntervalCollection.beforePositionChange interval)
                (λ _, LocalIntervalCollection.slide interval
                        (middle ++ [LocalIntervalCollection.afterSlide])) lc).
      rewrite (bindM_run _ _ lc lc1 ()) by exact Hfirst.
      rewrite slide_app. rewrite (bindM_run _ _ lc1 lc2 ()) by exact Hmid.
      change (LocalIntervalCollection.slide interval
                [LocalIntervalCollection.afterSlide] lc2)
        with (bindM (LocalIntervalCollection.afterPositionChange interval)
                (λ _, ret ()) lc2).
      by rewrite (bindM_run _ _ lc2 lc' ()) by exact Hlast.
    + rewrite Hlog3, Hopc2, Hopc1, Hlog2, Hlog1. done.
    + by eapply afterPositionChange_idle.
Qed.


(** Both endpoints of the interval [1, 3) slide to the segment of
    position 2 in one operation of the merge tree. *)
Definition bothEndpointsSlide : list LocalIntervalCollection.SlideStep :=
  [ LocalIntervalCollection.beforeSlide;
    LocalIntervalCollection.slideTo LocalIntervalCollection.startEndpoint
      (Some 2%nat) 0;
    LocalIntervalCollection.slideTo LocalIntervalCollection.endEndpoint
      (Some 2%nat) 0;
    LocalIntervalCollection.afterSlide ].

Lemma bothEndpointsSlide_matched : matched bothEndpointsSlide.
Proof.
  split; [|reflexivity]. intros n.
  do 4 (destruct n as [|n]; [simpl; lia|]).
  simpl. rewrite take_nil. simpl. lia.
Qed.

Lemma slide_burst_witness :
  LocalIntervalCollection.afterPositionChange 0 sequenceCollection1
  = (Throw (AssertionFailed 0x3fa), sequenceCollection1) ∧
  ∃ lc',
    LocalIntervalCollection.slide 0 (burst bothEndpointsSlide)
      sequenceCollection1 = (Ok (), lc') ∧
    onceIn (LocalIntervalCollection.indexes lc') 0 ∧
    length (LocalIntervalCollection.positionChanges lc') = 1%nat.
Proof.
  destruct sequenceCollection1_registered as (Hv & _ & _ & Hid).
  destruct (slide_burst sequenceCollection1 0
              (objectAt sequenceCollection1 0 noSequenceInterval) "uuid-0"
              bothEndpointsSlide Hv) as [Hassert Hburst].
  - vm_compute. reflexivity.
  - vm_compute. reflexivity.
  - intros w Hw.
    assert (LocalIntervalCollection.helpers sequenceCollection1
            = sequenceIntervalHelpers) as -> by reflexivity.
    apply SequenceInterval_selfEqual. intros ref. rewrite Hw.
    assert (SequenceInterval.client
              (objectAt sequenceCollection1 0 noSequenceInterval)
            = exampleText) as -> by reflexivity.
    apply exampleText_reflexive.
  - exact Hid.
  - exact sequenceCollection1_healthy.
  - exists exampleText. reflexivity.
  - exact bothEndpointsSlide_matched.
  - split; [exact Hassert|].
    destruct Hburst
      as (lc1 & lc2 & lc' & prev & Hrun & _ & _ & _ & _ & _ & Honce & Hlog & _).
    exists lc'. split; [exact Hrun|]. split; [exact Honce|]. rewrite Hlog.
    assert (LocalIntervalCollection.onPositionChange sequenceCollection1 = true)
      as -> by reflexivity.
    assert (LocalIntervalCollection.positionChanges sequenceCollection1 = [])
      as -> by reflexivity.
    reflexivity.
Defined.

(** ** The id index through changeInterval *)

Section IdIndexFacts.
Context {T : Type} {ops : I.ISerializableInterval T} {laws : IntervalLaws T}.

Implicit Types (lc : LocalIntervalCollection.t T) (interval : nat).

(** The loop of [removeIntervalFromIndexes], index by index. *)
Lemma removeFromEach_lookup hs (store : gmap nat T) interval ixs ixs' i ix :
  LocalIntervalCollection.removeFromEach hs store interval ixs = (Ok (), ixs') →
  ixs !! i = Some ix →
  ∃ ix', ixs' !! i = Some ix' ∧
         IntervalIndex_remove hs ix interval store = Ok ix'.
Proof.
  revert ixs' i. induction ixs as [|ix0 rest IH]; intros ixs' i H Hi; [done|].
  simpl in H.
  destruct (IntervalIndex_remove hs ix0 interval store) as [ix1|e] eqn:Hix;
    [|discriminate].
  destruct (LocalIntervalCollection.removeFromEach hs store interval rest)
    as [r1 rest1] eqn:Hrest.
  injection H as -> <-. destruct i as [|i]; simpl in *.
  - injection Hi as <-. eauto.
  - by apply IH.
Qed.

(** The loop of [addIntervalToIndexes], index by index: every index adds the
    interval as an object with the id it had when the loop began. *)
Lemma addToEach_lookup hs (store : gmap nat T) interval ixs ixs' store' i ix w :
  LocalIntervalCollection.addToEach hs store interval ixs
  = (Ok (), (ixs', store')) →
  ixs !! i = Some ix →
  store !! interval = Some w →
  ∃ ix' store1 store2 w1,
    ixs' !! i = Some ix' ∧
    IntervalIndex_add hs ix interval store1 = Ok (ix', store2) ∧
    store1 !! interval = Some w1 ∧
    I.getIntervalId w1 = I.getIntervalId w.
Proof.
  revert store ixs' store' i w.
  induction ixs as [|ix0 rest IH]; intros store ixs' store' i w H Hi Hw; [done|].
  simpl in H.
  destruct (IntervalIndex_add hs ix0 interval store) as [[ix1 store1]|e] eqn:Hix;
    [|discriminate].
  destruct (LocalIntervalCollection.addToEach hs store1 interval rest)
    as [r1 [rest1 store2]] eqn:Hrest.
  injection H as -> <- <-. destruct i as [|i]; simpl in *.
  - injection Hi as <-. exists ix1, store, store1, w. done.
  - pose proof Hix as Hstore.
    apply IntervalIndex_add_store in Hstore as (w0 & Hw0 & Hcases).
    rewrite Hw in Hw0. injection Hw0 as <-.
    destruct Hcases as [-> | ->].
    + by eapply IH.
    + destruct (IH _ _ _ _ _ Hrest Hi (lookup_insert_eq _ _ _))
        as (ix' & s1 & s2 & w1 & H1 & H2 & H3 & H4).
      exists ix', s1, s2, w1. split_and!; try done. by rewrite H4, id_freeze.
Qed.

(** The id index of a collection after a successful [changeInterval] that
    replaced the interval: the entry of the old id is gone and the id of the
    new interval leads to the new object. *)
Lemma changeInterval_idIntervalMap lc interval start end_ op localSeq new lc'
    v m key key' :
  LocalIntervalCollection.changeInterval interval start end_ op localSeq lc
  = (Ok (Some new), lc') →
  bounded lc →
  (∃ m0, LocalIntervalCollection.indexes lc !! 1%nat = Some (IdIntervalIndex m0)) →
  LocalIntervalCollection.store lc !! interval = Some v →
  I.modify v (LocalIntervalCollection.label lc) start end_ op localSeq
  = Ok (Some m) →
  I.getIntervalId v = Ok key →
  I.getIntervalId m = Ok key' →
  LocalIntervalCollection.idIntervalMap lc'
  = <[key' := new]> (delete key (LocalIntervalCollection.idIntervalMap lc)).
Proof.
  intros Hrun Hb [m0 Hm0] Hv Hm Hkey Hkey'.
  unfold LocalIntervalCollection.changeInterval in Hrun.
  apply bindM_Ok in Hrun as (this & s0 & [= <- <-] & Hrun).
  apply bindM_Ok in Hrun as (v0 & s0 & Hread & Hrun).
  unfold LocalIntervalCollection.readInterval, readObject in Hread.
  rewrite Hv in Hread. injection Hread as <- <-.
  apply bindM_Ok in Hrun as (modified & s0 & Hmod & Hrun).
  apply liftR_Ok in Hmod as [Hmod ->]. rewrite Hm in Hmod.
  injection Hmod as <-.
  apply bindM_Ok in Hrun as (new0 & lc1 & Halloc & Hrun).
  injection Halloc as <- <-.
  set (fresh := LocalIntervalCollection.nextAddress lc) in *.
  set (lc1 := LocalIntervalCollection.mk _ _ _ _ _ _ _ _ _ _) in *.
  apply bindM_Ok in Hrun as ([] & lc2 & Hrem & Hrun).
  apply bindM_Ok in Hrun as ([] & lc3 & Hadd & Hrun).
  injection Hrun as <- <-.
  assert (Hne : interval ≠ fresh).
  { intros ->. destruct Hb as [Hstore _].
    specialize (Hstore fresh (mk_is_Some _ _ Hv)). subst fresh. lia. }
  (* the removal *)
  pose proof (removeExistingInterval_Ok _ _ _ Hrem) as Hloop1.
  destruct (removeFromEach_lookup _ _ _ _ _ _ _ Hloop1 Hm0) as (ix1 & Hix1 & Hrm).
  unfold IntervalIndex_remove, readObject in Hrm. simpl in Hrm.
  rewrite lookup_insert_ne in Hrm by done. rewrite Hv in Hrm. simpl in Hrm.
  rewrite Hkey in Hrm. simpl in Hrm. injection Hrm as <-.
  (* the addition *)
  unfold LocalIntervalCollection.add in Hadd.
  apply bindM_Ok in Hadd as ([] & lc2a & Hlink & Hadd).
  apply bindM_Ok in Hadd as ([] & lc2b & Hidx & Hlisten).
  pose proof (removeExistingInterval_extends I.getIntervalId id_callbacks
                _ _ _ _ Hrem) as Hext2.
  pose proof (linkEndpointsToInterval_extends I.getIntervalId id_link
                _ _ _ _ Hlink) as Hext2a.
  assert (Hb1 : bounded lc1).
  { pose proof (allocate_extends I.getIntervalId m lc (Ok fresh) lc1 eq_refl Hb)
      as (Hb1 & _). exact Hb1. }
  destruct (Hext2 Hb1) as (Hb2 & _ & Hs2 & _).
  destruct (Hext2a Hb2) as (Hb2a & _ & Hs2a & _).
  assert (Hnew1 : LocalIntervalCollection.store lc1 !! fresh = Some m)
    by apply lookup_insert_eq.
  destruct (Hs2 _ _ Hnew1) as (w2 & Hw2 & Hid2).
  destruct (Hs2a _ _ Hw2) as (w2a & Hw2a & Hid2a).
  apply (updateSequence_indexes fresh
           (λ si, SequenceInterval.setEndpoints si
                    (ref_addProperties (SequenceInterval.start si)
                       (mkProps {["interval" := JObject fresh]} ∅))
                    (ref_addProperties (SequenceInterval.end_ si)
                       (mkProps {["interval" := JObject fresh]} ∅))))
    in Hlink as (Hix2a & Hh2a & _).
  apply (updateSequence_indexes fresh
           (λ si, SequenceInterval.addPositionChangeListeners si
                    (SequenceInterval.mkListener 0 None)))
    in Hlisten as (Hix3 & _).
  unfold LocalIntervalCollection.addIntervalToIndexes in Hidx.
  destruct (LocalIntervalCollection.addToEach _ _ _ _) as [r [ixs' s']] eqn:Hloop2.
  injection Hidx as -> <-. simpl in Hix3.
  rewrite Hix2a in Hloop2.
  destruct (addToEach_lookup _ _ _ _ _ _ _ _ _ Hloop2 Hix1 Hw2a)
    as (ix' & s1 & s2 & w1 & Hix' & Hadd1 & Hw1 & Hid1).
  unfold IntervalIndex_add, readObject in Hadd1. rewrite Hw1 in Hadd1.
  simpl in Hadd1. rewrite Hid1, Hid2a, Hid2, Hkey' in Hadd1. simpl in Hadd1.
  injection Hadd1 as <- _.
  unfold LocalIntervalCollection.idIntervalMap.
  rewrite Hix3, Hix', Hm0. done.
Qed.

End IdIndexFacts.

(** ** IntervalCollection.add *)

(** C7: [add] throws when the interval type includes Transient, and throws
    when the stickiness is not End while the option
    [intervalStickinessEnabled] is off. In both cases the collection is left
    exactly as it was: no interval object is created, no op is emitted, no
    event is fired. *)
Theorem add_rejects {T : Type} {ops : I.ISerializableInterval T}
    (this : IntervalCollection.t T) (start end_ intervalType : Z)
    (props : option PropertySet) (stickiness : option Z) :
  Z.land intervalType IntervalType.Transient ≠ 0 ∨
  (default IntervalStickiness.END stickiness ≠ IntervalStickiness.END ∧
   default false (IntervalCollection.intervalStickinessEnabled this) = false) →
  ∃ e, IntervalCollection.add start end_ intervalType props stickiness this
       = (Throw e, this) ∧
       (IntervalCollection.attached this = true →
        e = if negb (Z.land intervalType IntervalType.Transient =? 0)
            then LoggingError "Can not add transient intervals"
            else UsageError
                   "attempted to set interval stickiness without enabling `intervalStickinessEnabled` feature flag").
Proof.
  intros Hbad. unfold IntervalCollection.add, bindM, get, throw.
  destruct (IntervalCollection.attached this) eqn:Hatt; simpl.
  - destruct (Z.land intervalType IntervalType.Transient =? 0) eqn:Htr; simpl.
    + destruct Hbad as [Hbad | [Hst Hopt]]; [lia|].
      rewrite Hopt. simpl.
      destruct (Z.eqb_spec (default IntervalStickiness.END stickiness)
                  IntervalStickiness.END) as [|_]; [done|].
      simpl. eauto.
    + eauto.
  - eexists. split; [done|]. discriminate.
Qed.

Lemma add_rejects_witness :
  IntervalCollection.add 1 3 IntervalType.Transient None None
    sequenceIntervalCollection1
  = (Throw (LoggingError "Can not add transient intervals"),
     sequenceIntervalCollection1) ∧
  ∃ e, IntervalCollection.add 1 3 IntervalType.SlideOnRemove None
         (Some IntervalStickiness.FULL) sequenceIntervalCollection1
       = (Throw e, sequenceIntervalCollection1).
Proof.
  split.
  - destruct (add_rejects sequenceIntervalCollection1 1 3 IntervalType.Transient
                None None) as (e & Hrun & He).
    + left. vm_compute. discriminate.
    + rewrite Hrun. rewrite He by reflexivity. reflexivity.
  - destruct (add_rejects sequenceIntervalCollection1 1 3
                IntervalType.SlideOnRemove None (Some IntervalStickiness.FULL))
      as (e & Hrun & _).
    + right. split; [vm_compute; discriminate | reflexivity].
    + exists e. exact Hrun.
Defined.

(** ** Acknowledging a remote change *)

Section AckFacts.
Context {T : Type} {ops : I.ISerializableInterval T}.
Implicit Types (this : IntervalCollection.t T).

Lemma onLocalCollection_Ok {A : Type} (m : M (LocalIntervalCollection.t T) A)
    this this' (a : A) :
  IntervalCollection.onLocalCollection m this = (Ok a, this') →
  ∃ lc lc', IntervalCollection.localCollection this = Some lc ∧
            m lc = (Ok a, lc') ∧
            this' = IntervalCollection.setLocalCollection this (Some lc').
Proof.
  unfold IntervalCollection.onLocalCollection.
  destruct (IntervalCollection.localCollection this) as [lc|]; [|discriminate].
  destruct (m lc) as [r lc'] eqn:Hm. intros [= -> <-]. eauto.
Qed.

(** The arguments that [ackChange] passes to [changeInterval] for a remote
    op: an endpoint with a pending local change is left out. *)
Definition remoteStart this (serializedInterval : SerializedIntervalDelta)
  : option Z :=
  if IntervalCollection.hasPendingChangeStart this
       (getPropOpt (d_properties serializedInterval) reservedIntervalIdKey)
  then None else d_start serializedInterval.

Definition remoteEnd this (serializedInterval : SerializedIntervalDelta)
  : option Z :=
  if IntervalCollection.hasPendingChangeEnd this
       (getPropOpt (d_properties serializedInterval) reservedIntervalIdKey)
  then None else d_end serializedInterval.

(** A remote [ackChange] that returns, for an interval the collection holds:
    the endpoints that have no pending local change went through
    [changeInterval], when there are any; then the properties of the op were
    added to the interval that resulted. *)
Lemma ackChange_remote_Ok this serializedInterval op localOpMetadata this' lc
    key interval :
  IntervalCollection.ackChange serializedInterval false op localOpMetadata this
  = (Ok (), this') →
  IntervalCollection.localCollection this = Some lc →
  getPropOpt (d_properties serializedInterval) reservedIntervalIdKey = JStr key →
  LocalIntervalCollection.getIntervalById lc key = Some interval →
  ∃ lc1 interval1 v1 r,
    ((remoteStart this serializedInterval = None ∧
      remoteEnd this serializedInterval = None ∧
      lc1 = lc ∧ interval1 = interval) ∨
     (∃ changed,
        LocalIntervalCollection.changeInterval interval
          (remoteStart this serializedInterval)
          (remoteEnd this serializedInterval) (Some op) None lc
        = (Ok changed, lc1) ∧
        interval1 = default interval changed)) ∧
    LocalIntervalCollection.store lc1 !! interval1 = Some v1 ∧
    I.addProperties v1
      (withoutKey (default emptyProps (d_properties serializedInterval))
         reservedIntervalIdKey) true (Some (sequenceNumber op)) = Ok r ∧
    IntervalCollection.localCollection this'
    = Some (LocalIntervalCollection.setStore lc1
              (<[interval1 := r.1]> (LocalIntervalCollection.store lc1))).
Proof.
  intros Hrun Hlc Hid Hfound.
  assert (Hid' : getProp (default emptyProps (d_properties serializedInterval))
                   reservedIntervalIdKey = JStr key).
  { rewrite <- Hid. by destruct (d_properties serializedInterval). }
  unfold IntervalCollection.ackChange in Hrun.
  apply bindM_Ok in Hrun as (this0 & s0 & [= <- <-] & Hrun).
  unfold IntervalCollection.attached in Hrun. rewrite Hlc in Hrun.
  rewrite bool_decide_eq_true_2 in Hrun by eauto. simpl in Hrun.
  apply bindM_Ok in Hrun as ([] & s0 & [= <-] & Hrun).
  apply bindM_Ok in Hrun as ([] & s0 & Hassert & Hrun).
  apply liftR_Ok in Hassert as [_ ->].
  apply bindM_Ok in Hrun as (found & s0 & Hget & Hrun).
  unfold IntervalCollection.getIntervalById in Hget. rewrite Hlc, Hid' in Hget.
  simpl in Hget. rewrite Hfound in Hget. injection Hget as <- <-.
  apply bindM_Ok in Hrun as (this0 & s0 & [= <- <-] & Hrun).
  rewrite Hid' in Hrun. rewrite <- Hid in Hrun.
  fold (remoteStart this serializedInterval) in Hrun.
  fold (remoteEnd this serializedInterval) in Hrun.
  apply bindM_Ok in Hrun as (newInterval & this1 & Hchange & Hrun).
  apply bindM_Ok in Hrun as (v1 & s0 & Hread & Hrun).
  apply onLocalCollection_Ok in Hread as (lc1 & lc1' & Hlc1 & Hread & ->).
  injection Hread as Hread <-.
  apply bindM_Ok in Hrun as (r & s0 & Hadd & Hrun).
  apply liftR_Ok in Hadd as [Hadd ->].
  apply bindM_Ok in Hrun as ([] & this2 & Hwrite & Hrun).
  apply onLocalCollection_Ok in Hwrite as (lc2 & lc2' & Hlc2 & Hwrite & ->).
  simpl in Hlc2. injection Hlc2 as <-. injection Hwrite as <-.
  unfold readObject in Hread.
  destruct (LocalIntervalCollection.store lc1 !! newInterval) as [w|] eqn:Hw;
    [|discriminate].
  injection Hread as ->.
  exists lc1, newInterval, v1, r. split_and!; try done.
  - destruct (bool_decide (is_Some (remoteStart this serializedInterval))
              || bool_decide (is_Some (remoteEnd this serializedInterval)))
      eqn:Hany.
    + right. apply bindM_Ok in Hchange as (changed & this3 & Hchange & Hret).
      injection Hret as <- <-.
      apply onLocalCollection_Ok in Hchange as (lc0 & lc0' & Hlc0 & Hchange & ->).
      rewrite Hlc in Hlc0. injection Hlc0 as <-.
      simpl in Hlc1. injection Hlc1 as <-. eauto.
    + left. injection Hchange as <- <-.
      apply orb_false_iff in Hany as [Hs He].
      apply bool_decide_eq_false_1 in Hs, He.
      rewrite Hlc in Hlc1. injection Hlc1 as <-.
      split_and!; try done.
      * by destruct (remoteStart this serializedInterval); [destruct Hs|].
      * by destruct (remoteEnd this serializedInterval); [destruct He|].
  - (* the calls that follow leave the local collection alone *)
    apply bindM_Ok in Hrun as ([] & this3 & Hdes & Hrun).
    apply bindM_Ok in Hrun as ([] & this4 & Hemit & Hrun).
    assert (H3 : IntervalCollection.localCollection this3
                 = Some (LocalIntervalCollection.setStore lc1
                           (<[newInterval := r.1]>
                              (LocalIntervalCollection.store lc1)))).
    { unfold IntervalCollection.callOnDeserialize, update in Hdes.
      injection Hdes as <-. by destruct (IntervalCollection.onDeserialize _). }
    assert (H4 : IntervalCollection.localCollection this4
                 = IntervalCollection.localCollection this3).
    { destruct (bool_decide (newInterval ≠ interval)).
      - apply bindM_Ok in Hemit as (old & this5 & Hold & Hemit).
        apply onLocalCollection_Ok in Hold as (lc5 & lc5' & Hlc5 & Hold & ->).
        injection Hold as _ <-. injection Hemit as <-. simpl. done.
      - by injection Hemit as <-. }
    rewrite <- H3, <- H4.
    match type of Hrun with
    | context [bool_decide ?P] => destruct (bool_decide P)
    end; by injection Hrun as <-.
Qed.

End AckFacts.

Section AckRemote.
Context {T : Type} {ops : I.ISerializableInterval T} {laws : IntervalLaws T}.
Context {O : Type} (obs : T → O).
Hypothesis obs_callbacks : ∀ v si cb,
  I.asSequenceInterval v = Some si →
  obs (I.ofSequenceInterval v (SequenceInterval.setCallbacks si cb)) = obs v.
Hypothesis obs_same : ∀ v si,
  I.asSequenceInterval v = Some si → obs (I.ofSequenceInterval v si) = obs v.
Hypothesis obs_link : ∀ v si p q,
  I.asSequenceInterval v = Some si →
  obs (I.ofSequenceInterval v
         (SequenceInterval.setEndpoints si
            (ref_addProperties (SequenceInterval.start si) p)
            (ref_addProperties (SequenceInterval.end_ si) q))) = obs v.
Hypothesis obs_freeze : ∀ v,
  obs (I.setProperties v
         (defineNonWritable (I.properties v) reservedIntervalIdKey)) = obs v.

Implicit Types (this : IntervalCollection.t T).

(** After a remote [ackChange] that returns, the id of the op leads to an
    interval that is the old one, or the one [modify] built from the
    endpoints that have no pending local change, with the properties of the
    op added. *)
Lemma ackChange_remote_interval this serializedInterval op localOpMetadata this'
    lc key interval v :
  IntervalCollection.ackChange serializedInterval false op localOpMetadata this
  = (Ok (), this') →
  IntervalCollection.localCollection this = Some lc →
  getPropOpt (d_properties serializedInterval) reservedIntervalIdKey = JStr key →
  LocalIntervalCollection.getIntervalById lc key = Some interval →
  registered lc interval v →
  ∃ lc' interval' v1 r,
    IntervalCollection.localCollection this' = Some lc' ∧
    LocalIntervalCollection.getIntervalById lc' key = Some interval' ∧
    LocalIntervalCollection.store lc' !! interval' = Some r.1 ∧
    I.addProperties v1
      (withoutKey (default emptyProps (d_properties serializedInterval))
         reservedIntervalIdKey) true (Some (sequenceNumber op)) = Ok r ∧
    ((remoteStart this serializedInterval = None ∧
      remoteEnd this serializedInterval = None ∧ v1 = v) ∨
     (I.modify v (LocalIntervalCollection.label lc)
        (remoteStart this serializedInterval)
        (remoteEnd this serializedInterval) (Some op) None = Ok None ∧
      v1 = v) ∨
     (∃ m, I.modify v (LocalIntervalCollection.label lc)
             (remoteStart this serializedInterval)
             (remoteEnd this serializedInterval) (Some op) None = Ok (Some m) ∧
           obs v1 = obs m)).
Proof.
  intros Hrun Hlc Hid Hfound (Hv & Hb & Hself & Hidx).
  destruct (ackChange_remote_Ok _ _ _ _ _ _ _ _ Hrun Hlc Hid Hfound)
    as (lc1 & interval1 & v1 & r & Hcases & Hv1 & Hadd & Hlc').
  set (lc' := LocalIntervalCollection.setStore lc1
                (<[interval1 := r.1]> (LocalIntervalCollection.store lc1))) in *.
  assert (Hmap : LocalIntervalCollection.idIntervalMap lc'
                 = LocalIntervalCollection.idIntervalMap lc1) by done.
  assert (Hstore : LocalIntervalCollection.store lc' !! interval1 = Some r.1)
    by apply lookup_insert_eq.
  exists lc', interval1, v1, r.
  unfold LocalIntervalCollection.getIntervalById. rewrite Hmap.
  destruct Hcases as [(Hs & He & -> & ->) | (changed & Hchange & ->)].
  - rewrite Hv in Hv1. injection Hv1 as <-. split_and!; try done. by left.
  - pose proof Hchange as Hchange'.
    eapply (changeInterval_Ok obs) in Hchange; try done.
    destruct Hchange as (v0 & Hv0 & Hcases). rewrite Hv in Hv0.
    injection Hv0 as <-.
    destruct Hcases as [(Hnone & -> & ->) | (m & v' & Hm & -> & Hnew & Hobs & _)].
    + simpl in *. rewrite Hv in Hv1. injection Hv1 as <-.
      split_and!; try done. right. by left.
    + simpl in *. rewrite Hnew in Hv1. injection Hv1 as <-.
      assert (Hix : ∃ m0, LocalIntervalCollection.indexes lc !! 1%nat
                          = Some (IdIntervalIndex m0)).
      { unfold LocalIntervalCollection.getIntervalById,
          LocalIntervalCollection.idIntervalMap in Hfound.
        destruct (LocalIntervalCollection.indexes lc !! 1%nat) as [[]|];
          try done. eauto. }
      assert (Hkey : I.getIntervalId v = Ok key).
      { destruct Hix as [m0 Hm0].
        pose proof (Forall_lookup_1 _ _ _ _ Hidx Hm0) as Hcons.
        apply (Hcons m0 key eq_refl).
        unfold LocalIntervalCollection.getIntervalById,
          LocalIntervalCollection.idIntervalMap in Hfound.
        by rewrite Hm0 in Hfound. }
      assert (Hkey' : I.getIntervalId m = Ok key)
        by by rewrite (modify_id _ _ _ _ _ _ _ Hm).
      rewrite (changeInterval_idIntervalMap
                 _ _ _ _ _ _ _ _ _ _ _ _ Hchange' Hb Hix Hv Hm Hkey Hkey').
      rewrite lookup_insert_eq. split_and!; try done. right. right. eauto.
Qed.

End AckRemote.

(** The endpoints of the interval that [SequenceInterval.modify] builds for
    an op: an endpoint that is not given is the reference of the old
    interval; one that is given is a reference created at the position, of
    the type of the old reference. *)
Lemma SequenceInterval_modify_endpoints this label s e op new :
  SequenceInterval.modify this label s e (Some op) None None = Ok new →
  match s with
  | None => SequenceInterval.start new = SequenceInterval.start this
  | Some p =>
      ∃ ref,
        createPositionReference (SequenceInterval.client this) p
          (refType (SequenceInterval.start this)) (Some op) None None
          (Some (startReferenceSlidingPreference IntervalStickiness.END))
        = Ok ref ∧
        observeReference (SequenceInterval.start new) = observeReference ref
  end ∧
  match e with
  | None => SequenceInterval.end_ new = SequenceInterval.end_ this
  | Some p =>
      ∃ ref,
        createPositionReference (SequenceInterval.client this) p
          (refType (SequenceInterval.end_ this)) (Some op) None None
          (Some (endReferenceSlidingPreference IntervalStickiness.END))
        = Ok ref ∧
        observeReference (SequenceInterval.end_ new) = observeReference ref
  end.
Proof.
  unfold SequenceInterval.modify. intros H.
  apply bindR_Ok in H as (startRef & Hs & H).
  apply bindR_Ok in H as (endRef & He & H).
  apply bindR_Ok in H as (newInterval & Hn & H).
  apply new_fields in Hn as (_ & Hns & Hne & _).
  injection H as <-. simpl. rewrite Hns, Hne. split.
  - destruct s as [p|]; [|by injection Hs].
    apply bindR_Ok in Hs as (ref & Hr & Hs). exists ref. split; [done|].
    destruct (ref_properties (SequenceInterval.start this));
      by injection Hs as <-.
  - destruct e as [p|]; [|by injection He].
    apply bindR_Ok in He as (ref & Hr & He). exists ref. split; [done|].
    destruct (ref_properties (SequenceInterval.end_ this));
      by injection He as <-.
Qed.

Lemma Interval_addProperties_fields (this : Interval.t) p collab seq r :
  Interval.addProperties this p collab seq = Ok r →
  Interval.start r.1 = Interval.start this ∧
  Interval.end_ r.1 = Interval.end_ this.
Proof.
  unfold Interval.addProperties. destruct p as [p|]; [|by intros [= <-]].
  destruct (PropertiesManager.addProperties _ _ _ _ _) as [[[props mgr] d]|];
    simpl; [|discriminate].
  by intros [= <-].
Qed.

Lemma observeSequenceInterval_endpoints (v w : SequenceInterval.t) :
  observeSequenceInterval v = observeSequenceInterval w →
  observeReference (SequenceInterval.start v)
  = observeReference (SequenceInterval.start w) ∧
  observeReference (SequenceInterval.end_ v)
  = observeReference (SequenceInterval.end_ w).
Proof.
  intros H. split.
  - exact (f_equal (λ x, x.1.1.1.1) H).
  - exact (f_equal (λ x, x.1.1.1.2) H).
Qed.

(** [hasPendingChangeStart] and [hasPendingChangeEnd] read the tables: they
    answer true exactly for an id under which the table holds a queue that
    is not empty. *)
Lemma hasPendingChange_tables {T : Type} (this : IntervalCollection.t T)
    (key : string) :
  IntervalCollection.hasPendingChangeStart this (JStr key)
  = match default [] (IntervalCollection.pendingChangesStart this !! key) with
    | [] => false
    | _ :: _ => true
    end ∧
  IntervalCollection.hasPendingChangeEnd this (JStr key)
  = match default [] (IntervalCollection.pendingChangesEnd this !! key) with
    | [] => false
    | _ :: _ => true
    end.
Proof.
  unfold IntervalCollection.hasPendingChangeStart,
    IntervalCollection.hasPendingChangeEnd.
  change (stringKey (JStr key)) with (Some key). simpl.
  split.
  - by destruct (IntervalCollection.pendingChangesStart this !! key)
      as [[|x l]|].
  - by destruct (IntervalCollection.pendingChangesEnd this !! key)
      as [[|x l]|].
Qed.

(** What a remote op does to one endpoint of a sequence interval: nothing
    when local changes of the endpoint are pending or the op has no position
    for it; otherwise the endpoint is a reference created at the position of
    the op. *)
Definition remoteEndpoint (client : Client) (op : ISequencedDocumentMessage)
    (pending : list SerializedIntervalDelta) (position : option Z)
    (preference : SlidingPreference)
    (old new : LocalReferencePosition) : Prop :=
  match position, pending with
  | Some p, [] =>
      ∃ ref,
        createPositionReference client p (refType old) (Some op) None None
          (Some preference) = Ok ref ∧
        observeReference new = observeReference ref
  | _, _ => observeReference new = observeReference old
  end.

(** C1: a remote op acknowledged by [ackChange] for an interval of the
    collection. The local changes of an endpoint that are pending for the id
    are the queue that [pendingChangesStart] (for the start) or
    [pendingChangesEnd] (for the end) holds under it, empty when the table
    has no entry. When [ackChange] returns, the id leads to an interval of
    which each endpoint is settled on its own: the endpoint of the old
    interval when the queue of that endpoint is not empty, the position of
    the op when it is empty (the old endpoint when the op has none). And
    when at least one endpoint has a position to apply, it went through
    [changeInterval] with exactly the endpoints whose queue is empty. First
    for numeric intervals, then for sequence intervals. *)
Theorem ackChange_remote_pending :
  (∀ (this : IntervalCollection.t Interval.t) serializedInterval op
     localOpMetadata this' lc key interval v,
     IntervalCollection.localCollection this = Some lc →
     getPropOpt (d_properties serializedInterval) reservedIntervalIdKey
     = JStr key →
     LocalIntervalCollection.getIntervalById lc key = Some interval →
     registered lc interval v →
     IntervalCollection.ackChange serializedInterval false op localOpMetadata
       this = (Ok (), this') →
     let pendingStart :=
       default [] (IntervalCollection.pendingChangesStart this !! key) in
     let pendingEnd :=
       default [] (IntervalCollection.pendingChangesEnd this !! key) in
     let start :=
       match pendingStart with
       | [] => d_start serializedInterval
       | _ :: _ => None
       end in
     let end_ :=
       match pendingEnd with
       | [] => d_end serializedInterval
       | _ :: _ => None
       end in
     (is_Some start ∨ is_Some end_ →
      ∃ changed lc1,
        LocalIntervalCollection.changeInterval interval start end_ (Some op)
          None lc = (Ok changed, lc1)) ∧
     ∃ lc' interval' v',
       IntervalCollection.localCollection this' = Some lc' ∧
       LocalIntervalCollection.getIntervalById lc' key = Some interval' ∧
       LocalIntervalCollection.store lc' !! interval' = Some v' ∧
       Interval.start v' = default (Interval.start v) start ∧
       Interval.end_ v' = default (Interval.end_ v) end_) ∧
  (∀ (this : IntervalCollection.t SequenceInterval.t) serializedInterval op
     localOpMetadata this' lc key interval v,
     IntervalCollection.localCollection this = Some lc →
     getPropOpt (d_properties serializedInterval) reservedIntervalIdKey
     = JStr key →
     LocalIntervalCollection.getIntervalById lc key = Some interval →
     registered lc interval v →
     IntervalCollection.ackChange serializedInterval false op localOpMetadata
       this = (Ok (), this') →
     let pendingStart :=
       default [] (IntervalCollection.pendingChangesStart this !! key) in
     let pendingEnd :=
       default [] (IntervalCollection.pendingChangesEnd this !! key) in
     let start :=
       match pendingStart with
       | [] => d_start serializedInterval
       | _ :: _ => None
       end in
     let end_ :=
       match pendingEnd with
       | [] => d_end serializedInterval
       | _ :: _ => None
       end in
     (is_Some start ∨ is_Some end_ →
      ∃ changed lc1,
        LocalIntervalCollection.changeInterval interval start end_ (Some op)
          None lc = (Ok changed, lc1)) ∧
     ∃ lc' interval' v',
       IntervalCollection.localCollection this' = Some lc' ∧
       LocalIntervalCollection.getIntervalById lc' key = Some interval' ∧
       LocalIntervalCollection.store lc' !! interval' = Some v' ∧
       remoteEndpoint (SequenceInterval.client v) op pendingStart
         (d_start serializedInterval)
         (startReferenceSlidingPreference IntervalStickiness.END)
         (SequenceInterval.start v) (SequenceInterval.start v') ∧
       remoteEndpoint (SequenceInterval.client v) op pendingEnd
         (d_end serializedInterval)
         (endReferenceSlidingPreference IntervalStickiness.END)
         (SequenceInterval.end_ v) (SequenceInterval.end_ v')).
Proof.
  split.
  - intros this ser op md this' lc key interval v Hlc Hid Hfound Hreg Hrun
      pendingStart pendingEnd start end_.
    destruct (hasPendingChange_tables this key) as [Hps Hpe].
    fold pendingStart in Hps. fold pendingEnd in Hpe.
    assert (Hs : remoteStart this ser = start).
    { unfold remoteStart. rewrite Hid, Hps. subst start.
      by destruct pendingStart. }
    assert (He : remoteEnd this ser = end_).
    { unfold remoteEnd. rewrite Hid, Hpe. subst end_.
      by destruct pendingEnd. }
    split.
    + intros Hany.
      destruct (ackChange_remote_Ok _ _ _ _ _ _ _ _ Hrun Hlc Hid Hfound)
        as (lc1 & interval1 & v1 & r & Hcases & _).
      rewrite Hs, He in Hcases.
      destruct Hcases as [(Hs0 & He0 & _) | (changed & Hchange & _)]; [|eauto].
      rewrite Hs0, He0 in Hany. destruct Hany as [[? ?]|[? ?]]; discriminate.
    + destruct (ackChange_remote_interval observeInterval
                  observeInterval_callbacks observeInterval_same
                  observeInterval_link observeInterval_freeze
                  _ _ _ _ _ _ _ _ _ Hrun Hlc Hid Hfound Hreg)
        as (lc' & interval' & v1 & r & Hlc' & Hfound' & Hstore & Hadd & Hcases).
      rewrite Hs, He in Hcases.
      apply (Interval_addProperties_fields v1 (Some _)) in Hadd as [Hrs Hre].
      exists lc', interval', r.1. rewrite Hrs, Hre. split_and!; try done.
      * destruct Hcases as [(-> & _ & ->) | [(Hnone & ->) | (m & Hm & Hobs)]].
        -- done.
        -- pose proof (Interval_modify_spec v (LocalIntervalCollection.label lc)
                         start end_ (Some op)) as Hspec.
           simpl in Hspec, Hnone. case_bool_decide as Hsame.
           ++ by destruct Hsame as [-> _].
           ++ destruct Hspec as (m & Hm & _). congruence.
        -- pose proof (Interval_modify_spec v (LocalIntervalCollection.label lc)
                         start end_ (Some op)) as Hspec.
           simpl in Hspec, Hm. case_bool_decide as Hsame; [congruence|].
           destruct Hspec as (m' & Hm' & Hms & _). rewrite Hm in Hm'.
           injection Hm' as <-. injection Hobs as Hos _ _. congruence.
      * destruct Hcases as [(_ & -> & ->) | [(Hnone & ->) | (m & Hm & Hobs)]].
        -- done.
        -- pose proof (Interval_modify_spec v (LocalIntervalCollection.label lc)
                         start end_ (Some op)) as Hspec.
           simpl in Hspec, Hnone. case_bool_decide as Hsame.
           ++ by destruct Hsame as [_ ->].
           ++ destruct Hspec as (m & Hm & _). congruence.
        -- pose proof (Interval_modify_spec v (LocalIntervalCollection.label lc)
                         start end_ (Some op)) as Hspec.
           simpl in Hspec, Hm. case_bool_decide as Hsame; [congruence|].
           destruct Hspec as (m' & Hm' & _ & Hme & _). rewrite Hm in Hm'.
           injection Hm' as <-. injection Hobs as _ Hoe _. congruence.
  - intros this ser op md this' lc key interval v Hlc Hid Hfound Hreg Hrun
      pendingStart pendingEnd start end_.
    destruct (hasPendingChange_tables this key) as [Hps Hpe].
    fold pendingStart in Hps. fold pendingEnd in Hpe.
    assert (Hs : remoteStart this ser = start).
    { unfold remoteStart. rewrite Hid, Hps. subst start.
      by destruct pendingStart. }
    assert (He : remoteEnd this ser = end_).
    { unfold remoteEnd. rewrite Hid, Hpe. subst end_.
      by destruct pendingEnd. }
    split.
    + intros Hany.
      destruct (ackChange_remote_Ok _ _ _ _ _ _ _ _ Hrun Hlc Hid Hfound)
        as (lc1 & interval1 & v1 & r & Hcases & _).
      rewrite Hs, He in Hcases.
      destruct Hcases as [(Hs0 & He0 & _) | (changed & Hchange & _)]; [|eauto].
      rewrite Hs0, He0 in Hany. destruct Hany as [[? ?]|[? ?]]; discriminate.
    + destruct (ackChange_remote_interval observeSequenceInterval
                  observeSequenceInterval_callbacks observeSequenceInterval_same
                  observeSequenceInterval_link observeSequenceInterval_freeze
                  _ _ _ _ _ _ _ _ _ Hrun Hlc Hid Hfound Hreg)
        as (lc' & interval' & v1 & r & Hlc' & Hfound' & Hstore & Hadd & Hcases).
      rewrite Hs, He in Hcases.
      apply (addProperties_fields v1) in Hadd as (_ & Hrs & Hre & _).
      exists lc', interval', r.1. rewrite Hrs, Hre.
      split_and!; try done.
      * unfold remoteEndpoint.
        destruct Hcases as [(Hs0 & _ & ->) | [(Hnone & ->) | (m & Hm & Hobs)]].
        -- subst start.
           by destruct (d_start ser), pendingStart.
        -- apply SequenceInterval_modify_Some in Hnone as (m & ? & _).
           discriminate.
        -- apply SequenceInterval_modify_Some in Hm as (m' & [= <-] & Hm).
           apply SequenceInterval_modify_endpoints in Hm as [Hms _].
           apply observeSequenceInterval_endpoints in Hobs as [Hos _].
           rewrite Hos. subst start.
           destruct (d_start ser) as [p|], pendingStart;
             try (by rewrite Hms); done.
      * unfold remoteEndpoint.
        destruct Hcases as [(_ & He0 & ->) | [(Hnone & ->) | (m & Hm & Hobs)]].
        -- subst end_.
           by destruct (d_end ser), pendingEnd.
        -- apply SequenceInterval_modify_Some in Hnone as (m & ? & _).
           discriminate.
        -- apply SequenceInterval_modify_Some in Hm as (m' & [= <-] & Hm).
           apply SequenceInterval_modify_endpoints in Hm as [_ Hme].
           apply observeSequenceInterval_endpoints in Hobs as [_ Hoe].
           rewrite Hoe. subst end_.
           destruct (d_end ser) as [p|], pendingEnd;
             try (by rewrite Hme); done.
Qed.

Lemma attached_localCollectionOf {T : Type} (this : IntervalCollection.t T)
    fallback :
  IntervalCollection.attached this = true →
  IntervalCollection.localCollection this = Some (localCollectionOf this fallback).
Proof.
  unfold IntervalCollection.attached, localCollectionOf.
  destruct (IntervalCollection.localCollection this); [done|].
  intros H. by apply bool_decide_eq_true_1 in H as [? ?].
Qed.

Lemma sequenceIntervalCollection2_registered :
  registered (localCollectionOf sequenceIntervalCollection2 emptySequenceCollection)
    1 (objectAt (localCollectionOf sequenceIntervalCollection2
                   emptySequenceCollection) 1 noSequenceInterval).
Proof.
  split_and!.
  - by vm_compute.
  - apply boundedCheck_sound. by vm_compute.
  - assert (LocalIntervalCollection.helpers
              (localCollectionOf sequenceIntervalCollection2
                 emptySequenceCollection)
            = sequenceIntervalHelpers) as -> by reflexivity.
    apply SequenceInterval_selfEqual. intros ref.
    assert (SequenceInterval.client
              (objectAt (localCollectionOf sequenceIntervalCollection2
                           emptySequenceCollection) 1 noSequenceInterval)
            = exampleText) as -> by reflexivity.
    apply exampleText_reflexive.
  - apply idConsistentCheck_sound. by vm_compute.
Qed.

Lemma ackChange_remote_pending_witness :
  let this := sequenceIntervalCollection2 in
  let lc := localCollectionOf this emptySequenceCollection in
  let v := objectAt lc 1 noSequenceInterval in
  ∃ lc' interval' v',
    IntervalCollection.localCollection
      (IntervalCollection.ackChange remoteChange false remoteOp None this).2
    = Some lc' ∧
    LocalIntervalCollection.getIntervalById lc' "shared-0" = Some interval' ∧
    LocalIntervalCollection.store lc' !! interval' = Some v' ∧
    remoteEndpoint (SequenceInterval.client v) remoteOp
      (default [] (IntervalCollection.pendingChangesStart this !! "shared-0"))
      (d_start remoteChange)
      (startReferenceSlidingPreference IntervalStickiness.END)
      (SequenceInterval.start v) (SequenceInterval.start v') ∧
    remoteEndpoint (SequenceInterval.client v) remoteOp
      (default [] (IntervalCollection.pendingChangesEnd this !! "shared-0"))
      (d_end remoteChange)
      (endReferenceSlidingPreference IntervalStickiness.END)
      (SequenceInterval.end_ v) (SequenceInterval.end_ v').
Proof.
  intros this lc v.
  assert (Hlc : IntervalCollection.localCollection this = Some lc).
  { apply attached_localCollectionOf. vm_compute. reflexivity. }
  assert (Hid : getPropOpt (d_properties remoteChange) reservedIntervalIdKey
                = JStr "shared-0") by (vm_compute; reflexivity).
  assert (Hfound : LocalIntervalCollection.getIntervalById lc "shared-0"
                   = Some 1%nat) by (vm_compute; reflexivity).
  assert (Hfst : (IntervalCollection.ackChange remoteChange false remoteOp None
                    this).1 = Ok ()) by (vm_compute; reflexivity).
  exact (proj2 (proj2 ackChange_remote_pending this remoteChange remoteOp None _
                  lc "shared-0" 1%nat v Hlc Hid Hfound
                  sequenceIntervalCollection2_registered
                  (pair_from_fst _ _ Hfst))).
Defined.

(** The run of the witness, evaluated: [pendingChangesStart] holds the local
    change of the start to 2 under the id and [pendingChangesEnd] holds
    nothing; the start stays at 2 and the end moves to 7. *)
Lemma ackChange_remote_example :
  let this := sequenceIntervalCollection2 in
  let this' :=
    (IntervalCollection.ackChange remoteChange false remoteOp None this).2 in
  IntervalCollection.pendingChangesStart this !! "shared-0"
  = Some [mkDelta 10 (Some 2) None IntervalType.SlideOnRemove None
            (Some (mkProps {[reservedIntervalIdKey := JStr "shared-0"]} ∅))] ∧
  IntervalCollection.pendingChangesEnd this !! "shared-0" = None ∧
  (λ lc, (λ v, (positionOf (SequenceInterval.start v),
               positionOf (SequenceInterval.end_ v)))
         <$> (LocalIntervalCollection.getIntervalById lc "shared-0"
              ≫= (LocalIntervalCollection.store lc !!.)))
  <$> IntervalCollection.localCollection this
  = Some (Some (2, 3)) ∧
  (λ lc, (λ v, (positionOf (SequenceInterval.start v),
               positionOf (SequenceInterval.end_ v)))
         <$> (LocalIntervalCollection.getIntervalById lc "shared-0"
              ≫= (LocalIntervalCollection.store lc !!.)))
  <$> IntervalCollection.localCollection this'
  = Some (Some (2, 7)).
Proof. vm_compute. split_and!; reflexivity. Qed.

(** ** Rebasing a pending local op *)

Section RebaseFacts.
Context {T : Type} {ops : I.ISerializableInterval T} {laws : IntervalLaws T}.
Implicit Types (this : IntervalCollection.t T).











(** [this.localSeqToRebasedInterval.get(localSeq) ??
     this.computeRebasedPositions(localSeq)] *)
Definition rebasedPositions this (localSeq : Z) : Result SerializedIntervalDelta :=
  match IntervalCollection.localSeqToRebasedInterval this !! localSeq with
  | Some positions => Ok positions
  | None => (IntervalCollection.computeRebasedPositions localSeq this).1
  end.





(** An interval found under an id in a collection in good order has an
    id. *)
Lemma getIntervalById_identified (lc : LocalIntervalCollection.t T) key interval :
  healthy lc →
  LocalIntervalCollection.getIntervalById lc key = Some interval →
  identified (LocalIntervalCollection.store lc) interval.
Proof.
  intros [_ Hsound] Hfound.
  unfold LocalIntervalCollection.getIntervalById,
    LocalIntervalCollection.idIntervalMap in Hfound.
  destruct (LocalIntervalCollection.indexes lc !! 1%nat) as [ix|] eqn:Hix;
    [|done].
  destruct ix as [t|m|t|t|t]; try done.
  apply (proj2 (Forall_lookup_1 _ _ _ _ Hsound Hix)). simpl.
  apply map_size_ne_0_lookup_2 with (i := key). exists interval.
  by apply map_lookup_filter_Some.
Qed.


End RebaseFacts.

(** [removeExistingInterval] on an interval in good order: afterwards the
    interval is in no index and its id leads nowhere. *)
Lemma removeExistingInterval_removed {T : Type} {ops : I.ISerializableInterval T}
    (lc lc' : LocalIntervalCollection.t T) interval v key :
  LocalIntervalCollection.removeExistingInterval interval lc = (Ok (), lc') →
  registered lc interval v →
  LocalIntervalCollection.getIntervalById lc key = Some interval →
  absentFrom (LocalIntervalCollection.indexes lc') interval ∧
  LocalIntervalCollection.getIntervalById lc' key = None.
Proof.
  intros Hrun (Hv & Hb & Hself & Hidx) Hfound.
  apply removeExistingInterval_Ok in Hrun. split.
  - by eapply removeFromEach_absent.
  - unfold LocalIntervalCollection.getIntervalById,
      LocalIntervalCollection.idIntervalMap in *.
    destruct (LocalIntervalCollection.indexes lc !! 1%nat) as [ix|] eqn:Hix;
      [|done].
    destruct ix as [t|m0|t|t|t]; try done.
    pose proof (Forall_lookup_1 _ _ _ _ Hidx Hix m0 key eq_refl Hfound) as Hkey.
    destruct (removeFromEach_lookup _ _ _ _ _ _ _ Hrun Hix) as (ix' & -> & Hrm).
    unfold IntervalIndex_remove, readObject in Hrm. rewrite Hv in Hrm.
    simpl in Hrm. rewrite Hkey in Hrm. simpl in Hrm. injection Hrm as <-.
    apply lookup_delete_eq.
Qed.





Lemma valueOf_Ok {A : Type} (fallback : A) (r : Result A) :
  match r with Ok _ => true | Throw _ => false end = true →
  r = Ok (valueOf fallback r).
Proof. by destruct r. Qed.


(** The run of the witness, evaluated: both positions of the pending op are
    detached, the result is undefined, and the interval, which was in every
    index and found under its id, is in none and no longer found. *)
Lemma rebaseLocalInterval_example :
  let this := sequenceIntervalCollection3 in
  let run := IntervalCollection.rebaseLocalInterval "add" (pendingOp this 1) 1 this in
  let summary (s : IntervalCollection.t SequenceInterval.t) :=
    (λ lc, (LocalIntervalCollection.getIntervalById lc "uuid-0",
            (λ ix, occurrences ix 0%nat) <$> LocalIntervalCollection.indexes lc))
    <$> IntervalCollection.localCollection s in
  (match rebasedPositions this 1 with
   | Ok positions => Some (d_start positions, d_end positions)
   | Throw _ => None
   end) = Some (Some DetachedReferencePosition, Some DetachedReferencePosition) ∧
  run.1 = Ok None ∧
  summary this = Some (Some 0%nat, [1; 1; 1]%nat) ∧
  summary run.2 = Some (None, [0; 0; 0]%nat).
Proof. vm_compute. split_and!; reflexivity. Qed.

(** * Further properties of the code *)

(** ** Numeric intervals *)

Lemma compareIds_antisym (a b : string) : compareIds b a = - compareIds a b.
Proof.
  unfold compareIds. rewrite (String.compare_antisym a b).
  by destruct (String.compare b a).
Qed.

Lemma compareIds_eq (a b : string) : compareIds a b = 0 ↔ a = b.
Proof.
  unfold compareIds. split.
  - intros H. apply String.compare_eq_iff.
    destruct (String.compare a b); [done|discriminate H|discriminate H].
  - intros ->. apply compareIds_refl.
Qed.

(** [compare], which both interval classes share: on two intervals with an
    id it is antisymmetric, and it ties exactly when start and end tie and
    the ids are equal or one of them is empty. *)
Lemma compareWith_antisymmetric {T : Type} (compareStart compareEnd : T → T → Z)
    (getIntervalId : T → Result string) (a b : T) ida idb :
  compareStart b a = - compareStart a b →
  compareEnd b a = - compareEnd a b →
  getIntervalId a = Ok ida → getIntervalId b = Ok idb →
  ∃ c, compareWith compareStart compareEnd getIntervalId a b = Ok c ∧
       compareWith compareStart compareEnd getIntervalId b a = Ok (- c) ∧
       (c = 0 ↔ compareStart a b = 0 ∧ compareEnd a b = 0 ∧
                (ida = idb ∨ ida = "" ∨ idb = "")).
Proof.
  intros Hs He Ha Hb. unfold compareWith. rewrite Hs, He, Ha, Hb. simpl.
  destruct (Z.eqb_spec (compareStart a b) 0) as [Hs0|Hs0].
  2:{ destruct (Z.eqb_spec (- compareStart a b) 0); [lia|].
      eexists. split_and!; [done..|]. split; [done|]. by intros [? _]. }
  rewrite Hs0. simpl.
  destruct (Z.eqb_spec (compareEnd a b) 0) as [He0|He0].
  2:{ destruct (Z.eqb_spec (- compareEnd a b) 0); [lia|].
      eexists. split_and!; [done..|]. split; [done|]. by intros (_ & ? & _). }
  rewrite He0. simpl.
  destruct (decide (ida = "")) as [->|Hida].
  { rewrite (bool_decide_eq_false_2 ("" ≠ "")) by (by intros H; apply H).
    exists 0. split; [done|]. split; [by case_bool_decide|].
    split; [intros _; split_and!; [done..|right; by left]|done]. }
  rewrite (bool_decide_eq_true_2 (ida ≠ "")) by done.
  destruct (decide (idb = "")) as [->|Hidb].
  { rewrite (bool_decide_eq_false_2 ("" ≠ "")) by (by intros H; apply H).
    exists 0. split_and!; try done.
    split; [intros _; split_and!; [done..|right; by right]|done]. }
  rewrite (bool_decide_eq_true_2 (idb ≠ "")) by done.
  exists (compareIds ida idb). split; [done|].
  split; [by rewrite compareIds_antisym|].
  rewrite compareIds_eq.
  split; [intros ->; split_and!; [done..|by left]|].
  by intros (_ & _ & [?|[?|?]]).
Qed.

(** X1: [Interval.compare] on two intervals that have an id. *)
Theorem Interval_compare_antisymmetric (a b : Interval.t) (ida idb : string) :
  Interval.getIntervalId a = Ok ida → Interval.getIntervalId b = Ok idb →
  ∃ c, I.compare a b = Ok c ∧ I.compare b a = Ok (- c) ∧
       (c = 0 ↔ Interval.start a = Interval.start b ∧
                Interval.end_ a = Interval.end_ b ∧
                (ida = idb ∨ ida = "" ∨ idb = "")).
Proof.
  intros Ha Hb.
  destruct (compareWith_antisymmetric Interval.compareStart Interval.compareEnd
              Interval.getIntervalId a b ida idb) as (c & H1 & H2 & H3);
    try done; try (unfold Interval.compareStart, Interval.compareEnd; lia).
  exists c. split_and!; try done. rewrite H3.
  unfold Interval.compareStart, Interval.compareEnd.
  split; intros (? & ? & ?); split_and!; try done; lia.
Qed.

Lemma Interval_compare_antisymmetric_witness :
  ∃ c, I.compare (objectAt numericCollection1 0 noInterval)
         (objectAt numericCollection1 0 noInterval) = Ok c ∧ c = 0.
Proof.
  destruct (Interval_compare_antisymmetric
              (objectAt numericCollection1 0 noInterval)
              (objectAt numericCollection1 0 noInterval) "uuid-0" "uuid-0")
    as (c & Hc & _ & Hzero).
  - vm_compute. reflexivity.
  - vm_compute. reflexivity.
  - exists c. split; [exact Hc|]. apply Hzero. split_and!; [done..|by left].
Defined.

(** Writing a bag of properties into another: a key of the new bag ends up
    with its new value, and without a value when the new value is null. *)
Lemma foldl_extendKey_lookup (l : list (string * JsValue))
    (acc : gmap string JsValue) (k : string) :
  NoDup l.*1 →
  foldl extendKey acc l !! k
  = match (list_to_map l : gmap string JsValue) !! k with
    | Some JNull => None
    | Some v => Some v
    | None => acc !! k
    end.
Proof.
  revert acc. induction l as [|[k0 v0] rest IH]; intros acc Hnd; [done|].
  apply NoDup_cons in Hnd as [Hk0 Hnd]. simpl. rewrite IH by done.
  destruct (decide (k = k0)) as [->|Hne].
  - rewrite lookup_insert_eq.
    rewrite (not_elem_of_list_to_map_1 _ _ Hk0). unfold extendKey. simpl.
    destruct v0; by rewrite ?lookup_delete_eq, ?lookup_insert_eq.
  - rewrite lookup_insert_ne by done.
    destruct (list_to_map rest !! k) as [v|]; [done|].
    unfold extendKey. simpl.
    destruct v0; by rewrite ?lookup_delete_ne, ?lookup_insert_ne.
Qed.

Lemma extendKey_map_lookup (m acc : gmap string JsValue) (k : string) :
  foldl extendKey acc (map_to_list m) !! k
  = match m !! k with
    | Some JNull => None
    | Some v => Some v
    | None => acc !! k
    end.
Proof.
  rewrite foldl_extendKey_lookup by apply NoDup_fst_map_to_list.
  by rewrite list_to_map_to_list.
Qed.

(** The properties of a new object: those given, without the null ones. *)
Lemma addProperties_fresh seq l props mgr deltas :
  nonWritable props = ∅ →
  ∃ props' mgr' deltas',
    foldl (PropertiesManager.addKey seq false) (Ok (props, mgr, deltas)) l
    = Ok (props', mgr', deltas') ∧
    entries props' = foldl extendKey (entries props) l ∧
    nonWritable props' = ∅.
Proof.
  revert props mgr deltas.
  induction l as [|kv rest IH]; intros props mgr deltas Hnw;
    [by exists props, mgr, deltas|].
  replace (foldl (PropertiesManager.addKey seq false)
             (Ok (props, mgr, deltas)) (kv :: rest))
    with (foldl (PropertiesManager.addKey seq false)
            (PropertiesManager.addKey seq false (Ok (props, mgr, deltas)) kv)
            rest) by reflexivity.
  unfold PropertiesManager.addKey at 2. simpl.
  unfold PropertiesManager.writeKey. rewrite Hnw.
  rewrite bool_decide_eq_false_2 by set_solver. simpl.
  destruct (IH (mkProps (extendKey (entries props) kv) ∅) mgr
              {| entries :=
                   <[kv.1 := match getProp props kv.1 with
                             | JUndefined => JNull
                             | v => v
                             end]> (entries deltas);
                 nonWritable := ∅ |} eq_refl)
    as (props' & mgr' & deltas' & Hrun & Hentries & Hnw').
  exists props', mgr', deltas'. split_and!; try done.
Qed.

Lemma Interval_new_props (s e : Z) (p : PropertySet) :
  ∃ v, Interval.new s e (Some p) = Ok v ∧
       Interval.start v = s ∧ Interval.end_ v = e ∧
       Interval.auxProps v = None ∧
       ∀ k, entries (Interval.properties v) !! k
            = match entries p !! k with
              | Some JNull => None
              | x => x
              end.
Proof.
  unfold Interval.new, Interval.addProperties,
    PropertiesManager.addProperties. simpl.
  destruct (addProperties_fresh None (map_to_list (entries p)) emptyProps
              PropertiesManager.new emptyProps eq_refl)
    as (props' & mgr' & deltas' & -> & Hentries & _).
  simpl. eexists. split; [done|]. simpl. split_and!; try done.
  intros k. rewrite Hentries, extendKey_map_lookup. simpl.
  destruct (entries p !! k) as [[]|]; done.
Qed.

(** X2: [overlaps] is symmetric, for all intervals. [union] always returns a
    new interval, from the least start to the greatest end, which carries the
    id of the first interval and overlaps each of the two intervals that is
    not reversed (whose start is not after its end). *)
Theorem Interval_union_covers (a b : Interval.t) :
  Interval.overlaps a b = Interval.overlaps b a ∧
  ∃ u, Interval.union a b = Ok u ∧
       Interval.start u = Z.min (Interval.start a) (Interval.start b) ∧
       Interval.end_ u = Z.max (Interval.end_ a) (Interval.end_ b) ∧
       (Interval.start a ≤ Interval.end_ a → Interval.overlaps a u = true) ∧
       (Interval.start b ≤ Interval.end_ b → Interval.overlaps b u = true) ∧
       (getProp (Interval.properties a) reservedIntervalIdKey ≠ JNull →
        getProp (Interval.properties u) reservedIntervalIdKey
        = getProp (Interval.properties a) reservedIntervalIdKey).
Proof.
  split.
  - unfold Interval.overlaps.
    destruct (Z.leb_spec (Interval.start a) (Interval.end_ b)),
      (Z.geb_spec (Interval.end_ a) (Interval.start b)),
      (Z.leb_spec (Interval.start b) (Interval.end_ a)),
      (Z.geb_spec (Interval.end_ b) (Interval.start a)); simpl; try done; lia.
  - unfold Interval.union.
    destruct (Interval_new_props
                (Z.min (Interval.start a) (Interval.start b))
                (Z.max (Interval.end_ a) (Interval.end_ b))
                (Interval.properties a)) as (u & Hu & Hs & He & _ & Hprops).
    exists u. split_and!; try done.
    + intros Ha. unfold Interval.overlaps. rewrite Hs, He.
      apply andb_true_iff. split; [apply Z.leb_le|apply Z.geb_le]; lia.
    + intros Hb. unfold Interval.overlaps. rewrite Hs, He.
      apply andb_true_iff. split; [apply Z.leb_le|apply Z.geb_le]; lia.
    + unfold getProp. rewrite Hprops.
      by destruct (entries (Interval.properties a) !! reservedIntervalIdKey)
        as [[]|].
Qed.

Lemma Interval_union_covers_witness :
  ∃ u, Interval.union (objectAt numericCollection1 0 noInterval)
         (Interval.mk 4 9 emptyProps PropertiesManager.new None None) = Ok u ∧
       Interval.start u = 2 ∧ Interval.end_ u = 9 ∧
       Interval.overlaps (objectAt numericCollection1 0 noInterval) u = true ∧
       Interval.overlaps
         (Interval.mk 4 9 emptyProps PropertiesManager.new None None) u = true ∧
       getProp (Interval.properties u) reservedIntervalIdKey = JStr "uuid-0".
Proof.
  destruct (Interval_union_covers (objectAt numericCollection1 0 noInterval)
              (Interval.mk 4 9 emptyProps PropertiesManager.new None None))
    as (_ & u & Hu & Hs & He & Ha & Hb & Hid).
  exists u. split; [exact Hu|]. split; [exact Hs|]. split; [exact He|].
  split; [apply Ha; vm_compute; discriminate|].
  split; [apply Hb; vm_compute; discriminate|].
  apply Hid. vm_compute. discriminate.
Defined.

(** X3: the auxiliary property sets of an interval accumulate in the order
    they are added, and none of them is serialized. *)
Theorem Interval_addPropertySet_accumulates (v : Interval.t)
    (sets : list PropertySet) :
  Interval.getAdditionalPropertySets (foldl Interval.addPropertySet v sets)
  = Interval.getAdditionalPropertySets v ++ sets ∧
  Interval.serialize (foldl Interval.addPropertySet v sets)
  = Interval.serialize v.
Proof.
  revert v. induction sets as [|p rest IH]; intros v; simpl.
  - by rewrite app_nil_r.
  - destruct (IH (Interval.addPropertySet v p)) as [-> ->].
    unfold Interval.getAdditionalPropertySets. simpl.
    by rewrite <- app_assoc.
Qed.

(** ** Sequence intervals *)

Lemma createPositionReferenceFromSegoff_fields client segoff refType' op localSeq
    fromSnapshot preference ref :
  createPositionReferenceFromSegoff client segoff refType' op localSeq
    fromSnapshot preference = Ok ref →
  refType ref = refType' ∧ ref_properties ref = None ∧
  getSegment ref = so_segment segoff.
Proof.
  unfold createPositionReferenceFromSegoff.
  destruct (so_segment segoff) as [segment|].
  - by intros [= <-].
  - case_match; [discriminate|]. by intros [= <-].
Qed.

Lemma createPositionReference_fields client pos refType' op fromSnapshot localSeq
    preference ref :
  createPositionReference client pos refType' op fromSnapshot localSeq preference
  = Ok ref →
  refType ref = refType' ∧ ref_properties ref = None.
Proof.
  unfold createPositionReference. intros H.
  apply bindR_Ok in H as (segoff & _ & H).
  apply createPositionReferenceFromSegoff_fields in H. tauto.
Qed.

(** The properties of a new sequence interval: those given, without the
    null ones. *)
Lemma SequenceInterval_new_props client s e intervalType (p : PropertySet)
    stickiness :
  ∃ v, SequenceInterval.new client s e intervalType (Some p) stickiness = Ok v ∧
       ∀ k, entries (SequenceInterval.properties v) !! k
            = match entries p !! k with
              | Some JNull => None
              | x => x
              end.
Proof.
  unfold SequenceInterval.new, SequenceInterval.addProperties,
    PropertiesManager.addProperties. simpl.
  destruct (addProperties_fresh None (map_to_list (entries p)) emptyProps
              PropertiesManager.new emptyProps eq_refl)
    as (props' & mgr' & deltas' & -> & Hentries & _).
  simpl. eexists. split; [done|]. simpl.
  intros k. rewrite Hentries, extendKey_map_lookup. simpl.
  destruct (entries p !! k) as [[]|]; done.
Qed.

Lemma rangeProp_on_reference ref label :
  getPropOpt
    (ref_properties
       (ref_addProperties ref
          (mkProps {[reservedRangeLabelsKey := labelArray (Some label)]} ∅)))
    reservedRangeLabelsKey = JArr [JStr label].
Proof.
  unfold getPropOpt, getProp, ref_addProperties, addProperties. simpl.
  rewrite extendKey_map_lookup. by rewrite lookup_singleton_eq.
Qed.

(** X4: an interval that [createSequenceInterval] returns, of a type other
    than Transient. Its endpoints are SlideOnRemove references when it comes
    from an op or from a snapshot, and StayOnRemove references otherwise,
    never both; they are range endpoints, or nest endpoints for the type
    Nest; and the endpoints and the interval carry the label of the
    collection. *)
Theorem createSequenceInterval_reference_types client label s e intervalType op
    fromSnapshot stickiness v :
  createSequenceInterval label s e client intervalType op fromSnapshot stickiness
  = Ok v →
  intervalType ≠ IntervalType.Transient →
  let acknowledged := bool_decide (is_Some op) || truthyFlag fromSnapshot in
  let startType := refType (SequenceInterval.start v) in
  let endType := refType (SequenceInterval.end_ v) in
  refTypeIncludesFlag startType ReferenceType.SlideOnRemove = acknowledged ∧
  refTypeIncludesFlag startType ReferenceType.StayOnRemove = negb acknowledged ∧
  refTypeIncludesFlag endType ReferenceType.SlideOnRemove = acknowledged ∧
  refTypeIncludesFlag endType ReferenceType.StayOnRemove = negb acknowledged ∧
  refTypeIncludesFlag startType
    (if intervalType =? IntervalType.Nest then ReferenceType.NestBegin
     else ReferenceType.RangeBegin) = true ∧
  refTypeIncludesFlag endType
    (if intervalType =? IntervalType.Nest then ReferenceType.NestEnd
     else ReferenceType.RangeEnd) = true ∧
  getPropOpt (ref_properties (SequenceInterval.start v)) reservedRangeLabelsKey
  = JArr [JStr label] ∧
  getPropOpt (ref_properties (SequenceInterval.end_ v)) reservedRangeLabelsKey
  = JArr [JStr label] ∧
  getProp (SequenceInterval.properties v) reservedRangeLabelsKey
  = JArr [JStr label].
Proof.
  intros H Htype acknowledged startType endType.
  unfold createSequenceInterval in H.
  rewrite (proj2 (Z.eqb_neq _ _) Htype) in H.
  fold acknowledged in H.
  assert (Hgoal : ∀ b e0,
    (try! startLref :=
       createPositionReference client s
         (if acknowledged then Z.lor b ReferenceType.SlideOnRemove
          else Z.lor b ReferenceType.StayOnRemove) op fromSnapshot None
         (Some (startReferenceSlidingPreference
                  (default IntervalStickiness.END stickiness))) in
     try! endLref :=
       createPositionReference client e
         (if acknowledged then Z.lor e0 ReferenceType.SlideOnRemove
          else Z.lor e0 ReferenceType.StayOnRemove) op fromSnapshot None
         (Some (endReferenceSlidingPreference
                  (default IntervalStickiness.END stickiness))) in
     SequenceInterval.new client
       (ref_addProperties startLref
          (mkProps {[reservedRangeLabelsKey := labelArray (Some label)]} ∅))
       (ref_addProperties endLref
          (mkProps {[reservedRangeLabelsKey := labelArray (Some label)]} ∅))
       intervalType
       (Some (mkProps {[reservedRangeLabelsKey := labelArray (Some label)]} ∅))
       (Some (default IntervalStickiness.END stickiness))) = Ok v →
    refType (SequenceInterval.start v)
    = (if acknowledged then Z.lor b ReferenceType.SlideOnRemove
       else Z.lor b ReferenceType.StayOnRemove) ∧
    refType (SequenceInterval.end_ v)
    = (if acknowledged then Z.lor e0 ReferenceType.SlideOnRemove
       else Z.lor e0 ReferenceType.StayOnRemove) ∧
    getPropOpt (ref_properties (SequenceInterval.start v)) reservedRangeLabelsKey
    = JArr [JStr label] ∧
    getPropOpt (ref_properties (SequenceInterval.end_ v)) reservedRangeLabelsKey
    = JArr [JStr label] ∧
    getProp (SequenceInterval.properties v) reservedRangeLabelsKey
    = JArr [JStr label]).
  { intros b e0 Hrun.
    apply bindR_Ok in Hrun as (startLref & Hs & Hrun).
    apply bindR_Ok in Hrun as (endLref & He & Hrun).
    apply createPositionReference_fields in Hs as [Hst _].
    apply createPositionReference_fields in He as [Het _].
    pose proof (new_fields _ _ _ _ _ _ _ Hrun) as (_ & Hvs & Hve & _).
    destruct (SequenceInterval_new_props client
                (ref_addProperties startLref
                   (mkProps {[reservedRangeLabelsKey := labelArray (Some label)]} ∅))
                (ref_addProperties endLref
                   (mkProps {[reservedRangeLabelsKey := labelArray (Some label)]} ∅))
                intervalType
                (mkProps {[reservedRangeLabelsKey := labelArray (Some label)]} ∅)
                (Some (default IntervalStickiness.END stickiness)))
      as (v' & Hv' & Hprops).
    rewrite Hrun in Hv'. injection Hv' as <-.
    rewrite Hvs, Hve. split_and!.
    - exact Hst.
    - exact Het.
    - apply rangeProp_on_reference.
    - apply rangeProp_on_reference.
    - unfold getProp. rewrite Hprops.
      change (entries (mkProps ?m _)) with m. by rewrite lookup_singleton_eq. }
  destruct (Z.eqb_spec intervalType IntervalType.Nest) as [Hnest|Hnest];
    cbv beta iota zeta in H; destruct acknowledged eqn:Hack;
    cbv beta iota zeta in H;
    apply Hgoal in H as (Hs & He & Hls & Hle & Hl);
    subst startType endType; rewrite Hs, He;
    split_and!; first [exact Hls | exact Hle | exact Hl | reflexivity].
Qed.

Lemma createSequenceInterval_reference_types_witness :
  refTypeIncludesFlag (refType (SequenceInterval.start stickyStartInterval))
    ReferenceType.StayOnRemove = true ∧
  refTypeIncludesFlag (refType (SequenceInterval.start stickyStartInterval))
    ReferenceType.SlideOnRemove = false.
Proof.
  assert (Hcreated :
    createSequenceInterval "comments" 1 3 exampleText IntervalType.SlideOnRemove
      None None (Some IntervalStickiness.START) = Ok stickyStartInterval)
    by (vm_compute; reflexivity).
  assert (Htype : IntervalType.SlideOnRemove ≠ IntervalType.Transient)
    by discriminate.
  destruct (createSequenceInterval_reference_types exampleText "comments" 1 3
              IntervalType.SlideOnRemove None None
              (Some IntervalStickiness.START) stickyStartInterval Hcreated Htype)
    as (Hslide & Hstay & _).
  split; [exact Hstay|exact Hslide].
Defined.

(** X5: the type Transient. From an op, [createSequenceInterval] fails with
    the assertion 0x2f5, whatever the client; without an op it always returns,
    with Transient references for endpoints, also where the position has no
    segment. This is how the indices make the probe intervals of their
    queries. *)
Theorem createSequenceInterval_transient client label s e fromSnapshot
    stickiness :
  (∀ op, createSequenceInterval label s e client IntervalType.Transient
           (Some op) fromSnapshot stickiness
         = Throw (AssertionFailed 0x2f5)) ∧
  ∃ v, createSequenceInterval label s e client IntervalType.Transient None
         fromSnapshot stickiness = Ok v ∧
       refType (SequenceInterval.start v) = ReferenceType.Transient ∧
       refType (SequenceInterval.end_ v) = ReferenceType.Transient ∧
       SequenceInterval.intervalType v = IntervalType.Transient.
Proof.
  split; [done|].
  assert (Href : ∀ pos preference,
    ∃ ref, createPositionReference client pos ReferenceType.Transient None
             fromSnapshot None preference = Ok ref ∧
           refType ref = ReferenceType.Transient).
  { intros pos preference. unfold createPositionReference. simpl.
    unfold createPositionReferenceFromSegoff.
    destruct (so_segment (getContainingSegment client pos None None));
      [by eexists|].
    rewrite (andb_false_r _ : _ && negb (refTypeIncludesFlag
               ReferenceType.Transient ReferenceType.Transient) = false).
    by eexists. }
  unfold createSequenceInterval.
  change (IntervalType.Transient =? IntervalType.Transient) with true.
  cbv beta iota zeta.
  destruct (Href s (Some (startReferenceSlidingPreference
                            (default IntervalStickiness.END stickiness))))
    as (startLref & -> & Hst).
  destruct (Href e (Some (endReferenceSlidingPreference
                            (default IntervalStickiness.END stickiness))))
    as (endLref & -> & Het).
  unfold bindR.
  destruct (SequenceInterval_new_props client
              (ref_addProperties startLref
                 (mkProps {[reservedRangeLabelsKey := labelArray (Some label)]} ∅))
              (ref_addProperties endLref
                 (mkProps {[reservedRangeLabelsKey := labelArray (Some label)]} ∅))
              IntervalType.Transient
              (mkProps {[reservedRangeLabelsKey := labelArray (Some label)]} ∅)
              (Some (default IntervalStickiness.END stickiness)))
    as (v & Hv & _).
  exists v. split; [exact Hv|].
  apply new_fields in Hv as (_ & -> & -> & _ & -> & _).
  split_and!; [exact Hst|exact Het|reflexivity].
Qed.

(** X16: [clone] always returns, for both kinds of interval. The clone of a
    numeric interval has the same positions and no auxiliary property sets;
    the clone of a sequence interval shares the client and both endpoint
    references, has the same type and the same stickiness, and has no
    listeners. Either clone carries the properties of the original, except
    those whose value is null. *)
Theorem clone_spec :
  (∀ v : Interval.t,
     ∃ c, Interval.clone v = Ok c ∧
          Interval.start c = Interval.start v ∧
          Interval.end_ c = Interval.end_ v ∧
          Interval.getAdditionalPropertySets c = [] ∧
          ∀ k, entries (Interval.properties c) !! k
               = match entries (Interval.properties v) !! k with
                 | Some JNull => None
                 | x => x
                 end) ∧
  (∀ v : SequenceInterval.t,
     ∃ c, SequenceInterval.clone v = Ok c ∧
          SequenceInterval.client c = SequenceInterval.client v ∧
          SequenceInterval.start c = SequenceInterval.start v ∧
          SequenceInterval.end_ c = SequenceInterval.end_ v ∧
          SequenceInterval.intervalType c = SequenceInterval.intervalType v ∧
          SequenceInterval.stickiness c = SequenceInterval.stickiness v ∧
          SequenceInterval.callbacks c = None ∧
          ∀ k, entries (SequenceInterval.properties c) !! k
               = match entries (SequenceInterval.properties v) !! k with
                 | Some JNull => None
                 | x => x
                 end).
Proof.
  split.
  - intros v. unfold Interval.clone.
    destruct (Interval_new_props (Interval.start v) (Interval.end_ v)
                (Interval.properties v)) as (c & Hc & Hs & He & Haux & Hprops).
    exists c. split_and!; try done.
    unfold Interval.getAdditionalPropertySets. by rewrite Haux.
  - intros v. unfold SequenceInterval.clone.
    destruct (SequenceInterval_new_props (SequenceInterval.client v)
                (SequenceInterval.start v) (SequenceInterval.end_ v)
                (SequenceInterval.intervalType v) (SequenceInterval.properties v)
                (Some (SequenceInterval.stickiness v)))
      as (c & Hc & Hprops).
    exists c. split; [done|].
    apply new_fields in Hc as (? & ? & ? & ? & ? & ?). split_and!; done.
Qed.

(** ** Removing an interval *)

(** The interval object as [removeExistingInterval] leaves it: a sequence
    interval has lost its listeners. *)
Definition withoutListeners {T : Type} {ops : I.ISerializableInterval T} (v : T)
  : T :=
  match I.asSequenceInterval v with
  | Some si =>
      I.ofSequenceInterval v (SequenceInterval.removePositionChangeListeners si)
  | None => v
  end.

Section CollectionExtras.
Context {T : Type} {ops : I.ISerializableInterval T} {laws : IntervalLaws T}.
Implicit Types (this : IntervalCollection.t T)
  (lc : LocalIntervalCollection.t T) (interval : nat).

Lemma onLocalCollection_run {A : Type} (m : M (LocalIntervalCollection.t T) A)
    this lc r lc' :
  IntervalCollection.localCollection this = Some lc →
  m lc = (r, lc') →
  IntervalCollection.onLocalCollection m this
  = (r, IntervalCollection.setLocalCollection this (Some lc')).
Proof.
  intros Hlc Hm. unfold IntervalCollection.onLocalCollection.
  by rewrite Hlc, Hm.
Qed.

Lemma removeExistingInterval_object lc lc' interval v :
  LocalIntervalCollection.removeExistingInterval interval lc = (Ok (), lc') →
  LocalIntervalCollection.store lc !! interval = Some v →
  LocalIntervalCollection.store lc' !! interval = Some (withoutListeners v) ∧
  ∀ a, a ≠ interval →
       LocalIntervalCollection.store lc' !! a
       = LocalIntervalCollection.store lc !! a.
Proof.
  unfold LocalIntervalCollection.removeExistingInterval. intros H Hv.
  apply bindM_Ok in H as ([] & lc1 & H1 & H2).
  assert (Hstore : LocalIntervalCollection.store lc1
                   = LocalIntervalCollection.store lc).
  { unfold LocalIntervalCollection.removeIntervalFromIndexes in H1.
    destruct (LocalIntervalCollection.removeFromEach _ _ _ _) as [r ixs'].
    by injection H1 as _ <-. }
  unfold LocalIntervalCollection.removeIntervalListeners, bindM,
    LocalIntervalCollection.readInterval, readObject in H2.
  rewrite Hstore, Hv in H2. unfold withoutListeners.
  destruct (I.asSequenceInterval v) as [si|].
  - injection H2 as <-. simpl. rewrite Hstore. split.
    + apply lookup_insert_eq.
    + intros a Hne. by apply lookup_insert_ne.
  - injection H2 as <-. by rewrite Hstore.
Qed.

(** [deleteExistingInterval] on an interval of a collection in good order:
    it returns, and this is the state it leaves. *)
Lemma deleteExistingInterval_returns this lc interval v local op :
  IntervalCollection.localCollection this = Some lc →
  healthy lc →
  LocalIntervalCollection.store lc !! interval = Some v →
  identified (LocalIntervalCollection.store lc) interval →
  ∃ this' lc',
    IntervalCollection.deleteExistingInterval interval local op this
    = (Ok (), this') ∧
    LocalIntervalCollection.removeExistingInterval interval lc = (Ok (), lc') ∧
    healthy lc' ∧
    IntervalCollection.localCollection this' = Some lc' ∧
    IntervalCollection.emitted this'
    = (if local
       then [IntervalCollection.mkEmitted "delete"
               (IntervalCollection.asDelta (I.serialize (withoutListeners v)))
               (match IntervalCollection.client this with
                | Some _ => IntervalCollection.collabWindowLocalSeq this + 1
                | None => 0
                end)]
       else []) ++ IntervalCollection.emitted this ∧
    IntervalCollection.events this'
    = IntervalCollection.deleteIntervalEvent interval local op
      :: IntervalCollection.events this ∧
    IntervalCollection.deserialized this'
    = (if negb local && IntervalCollection.onDeserialize this
       then [interval] else []) ++ IntervalCollection.deserialized this ∧
    IntervalCollection.localSeqToSerializedInterval this'
    = IntervalCollection.localSeqToSerializedInterval this ∧
    IntervalCollection.pendingChangesStart this'
    = IntervalCollection.pendingChangesStart this ∧
    IntervalCollection.pendingChangesEnd this'
    = IntervalCollection.pendingChangesEnd this.
Proof.
  intros Hlc Hhealthy Hv Hid.
  destruct (removeExistingInterval_returns lc interval Hhealthy Hid)
    as (lc' & Hrm & Hhealthy' & _).
  destruct (removeExistingInterval_object _ _ _ _ Hrm Hv) as [Hv' _].
  unfold IntervalCollection.deleteExistingInterval.
  unfold bindM at 1. unfold get at 1.
  unfold IntervalCollection.attached. rewrite Hlc.
  rewrite bool_decide_true by eauto. cbv beta iota zeta.
  change (negb true) with false. cbv iota.
  rewrite (bindM_run _ _ this
             (IntervalCollection.setLocalCollection this (Some lc')) ())
    by (by apply onLocalCollection_run with (lc := lc)).
  destruct local.
  - set (this1 := IntervalCollection.setLocalCollection this (Some lc')).
    assert (Hread :
      IntervalCollection.onLocalCollection
        (LocalIntervalCollection.readInterval interval) this1
      = (Ok (withoutListeners v), this1)).
    { unfold IntervalCollection.onLocalCollection, this1. simpl.
      unfold LocalIntervalCollection.readInterval, readObject.
      by rewrite Hv'. }
    unfold bindM at 1. unfold bindM at 1. rewrite Hread.
    unfold IntervalCollection.getNextLocalSeq, bindM, this1. simpl.
    destruct (IntervalCollection.client this); simpl;
      eexists _, lc'; split_and!; try done.
  - unfold bindM, IntervalCollection.callOnDeserialize,
      IntervalCollection.emit, update. simpl.
    destruct (IntervalCollection.onDeserialize this); simpl;
      eexists _, lc'; split_and!; try done.
Qed.

End CollectionExtras.

(** X6: [removeIntervalById] on an attached collection in good order. An id
    that leads to no interval changes nothing and returns [undefined]. An id
    that leads to an interval returns it: afterwards the id leads nowhere,
    the interval is in no index, one "delete" op carrying the serialized
    interval has been emitted under the next local sequence number, one
    [deleteInterval] event has been fired, and the op has not been recorded
    among the pending ops. *)
Theorem removeIntervalById_spec {T : Type} {ops : I.ISerializableInterval T}
    {laws : IntervalLaws T} (this : IntervalCollection.t T)
    (lc : LocalIntervalCollection.t T) :
  IntervalCollection.localCollection this = Some lc →
  healthy lc →
  (∀ id, stringKey id ≫= LocalIntervalCollection.getIntervalById lc = None →
         IntervalCollection.removeIntervalById id this = (Ok None, this)) ∧
  (∀ key interval v,
     LocalIntervalCollection.getIntervalById lc key = Some interval →
     registered lc interval v →
     ∃ this' lc',
       IntervalCollection.removeIntervalById (JStr key) this
       = (Ok (Some interval), this') ∧
       IntervalCollection.localCollection this' = Some lc' ∧
       healthy lc' ∧
       LocalIntervalCollection.getIntervalById lc' key = None ∧
       absentFrom (LocalIntervalCollection.indexes lc') interval ∧
       IntervalCollection.emitted this'
       = IntervalCollection.mkEmitted "delete"
           (IntervalCollection.asDelta (I.serialize (withoutListeners v)))
           (match IntervalCollection.client this with
            | Some _ => IntervalCollection.collabWindowLocalSeq this + 1
            | None => 0
            end)
         :: IntervalCollection.emitted this ∧
       IntervalCollection.events this'
       = IntervalCollection.deleteIntervalEvent interval true None
         :: IntervalCollection.events this ∧
       IntervalCollection.localSeqToSerializedInterval this'
       = IntervalCollection.localSeqToSerializedInterval this).
Proof.
  intros Hlc Hhealthy. split.
  - intros id Hnone. unfold IntervalCollection.removeIntervalById, bindM, get.
    by rewrite Hlc, Hnone.
  - intros key interval v Hfound Hreg.
    pose proof (getIntervalById_identified lc key interval Hhealthy Hfound)
      as Hid.
    destruct (deleteExistingInterval_returns this lc interval v true None Hlc
                Hhealthy (proj1 Hreg) Hid)
      as (this' & lc' & Hrun & Hrm & Hhealthy' & Hlc' & Hemitted & Hevents &
          _ & Hpending & _).
    destruct (removeExistingInterval_removed lc lc' interval v key Hrm Hreg
                Hfound) as [Habsent Hgone].
    exists this', lc'.
    unfold IntervalCollection.removeIntervalById, bindM at 1, get.
    rewrite Hlc.
    change (stringKey (JStr key) ≫= LocalIntervalCollection.getIntervalById lc)
      with (LocalIntervalCollection.getIntervalById lc key).
    rewrite Hfound. unfold bindM. rewrite Hrun. split_and!; done.
Qed.

Lemma removeIntervalById_spec_witness :
  IntervalCollection.removeIntervalById (JStr "none") sequenceIntervalCollection1
  = (Ok None, sequenceIntervalCollection1) ∧
  ∃ this' lc',
    IntervalCollection.removeIntervalById (JStr "uuid-0")
      sequenceIntervalCollection1 = (Ok (Some 0%nat), this') ∧
    IntervalCollection.localCollection this' = Some lc' ∧
    LocalIntervalCollection.getIntervalById lc' "uuid-0" = None.
Proof.
  assert (Hlc : IntervalCollection.localCollection sequenceIntervalCollection1
                = Some sequenceCollection1) by reflexivity.
  pose proof (removeIntervalById_spec sequenceIntervalCollection1
                sequenceCollection1 Hlc sequenceCollection1_healthy)
    as [Hunknown Hknown].
  split.
  - apply Hunknown. vm_compute. reflexivity.
  - assert (Hfound : LocalIntervalCollection.getIntervalById sequenceCollection1
                       "uuid-0" = Some 0%nat) by (vm_compute; reflexivity).
    destruct (Hknown "uuid-0" 0%nat _ Hfound sequenceCollection1_registered)
      as (this' & lc' & Hrun & Hlc' & _ & Hgone & _).
    exists this', lc'. exact (conj Hrun (conj Hlc' Hgone)).
Defined.

(** ** Acknowledged removals *)

(** X7: [ackDelete]. The acknowledgement of a local removal changes nothing.
    A remote removal whose id leads to no interval changes nothing either.
    A remote removal of an interval of an attached collection in good order
    takes the interval out of every index and out of the id index, hands it
    to the deserializer if there is one, fires one [deleteInterval] event
    carrying the op, and emits no op. *)
Theorem ackDelete_spec {T : Type} {ops : I.ISerializableInterval T}
    {laws : IntervalLaws T} (this : IntervalCollection.t T)
    (lc : LocalIntervalCollection.t T) (serializedInterval : ISerializedInterval)
    (op : ISequencedDocumentMessage) :
  IntervalCollection.localCollection this = Some lc →
  healthy lc →
  let id := (LocalIntervalCollection.ensureSerializedId serializedInterval).1 in
  IntervalCollection.ackDelete serializedInterval true op this = (Ok (), this) ∧
  (stringKey id ≫= LocalIntervalCollection.getIntervalById lc = None →
   IntervalCollection.ackDelete serializedInterval false op this
   = (Ok (), this)) ∧
  (∀ key interval v,
     id = JStr key →
     LocalIntervalCollection.getIntervalById lc key = Some interval →
     registered lc interval v →
     ∃ this' lc',
       IntervalCollection.ackDelete serializedInterval false op this
       = (Ok (), this') ∧
       IntervalCollection.localCollection this' = Some lc' ∧
       healthy lc' ∧
       LocalIntervalCollection.getIntervalById lc' key = None ∧
       absentFrom (LocalIntervalCollection.indexes lc') interval ∧
       IntervalCollection.emitted this' = IntervalCollection.emitted this ∧
       IntervalCollection.events this'
       = IntervalCollection.deleteIntervalEvent interval false (Some op)
         :: IntervalCollection.events this ∧
       IntervalCollection.deserialized this'
       = (if IntervalCollection.onDeserialize this then [interval] else [])
         ++ IntervalCollection.deserialized this).
Proof.
  intros Hlc Hhealthy id. split_and!.
  - reflexivity.
  - intros Hnone. unfold IntervalCollection.ackDelete, bindM, get.
    rewrite Hlc. fold id. by rewrite Hnone.
  - intros key interval v Hkey Hfound Hreg.
    pose proof (getIntervalById_identified lc key interval Hhealthy Hfound)
      as Hid.
    destruct (deleteExistingInterval_returns this lc interval v false (Some op)
                Hlc Hhealthy (proj1 Hreg) Hid)
      as (this' & lc' & Hrun & Hrm & Hhealthy' & Hlc' & Hemitted & Hevents &
          Hdeserialized & _).
    destruct (removeExistingInterval_removed lc lc' interval v key Hrm Hreg
                Hfound) as [Habsent Hgone].
    exists this', lc'.
    unfold IntervalCollection.ackDelete, bindM at 1, get.
    rewrite Hlc. fold id. rewrite Hkey.
    change (stringKey (JStr key) ≫= LocalIntervalCollection.getIntervalById lc)
      with (LocalIntervalCollection.getIntervalById lc key).
    rewrite Hfound. split_and!; done.
Qed.

Lemma ackDelete_spec_witness :
  IntervalCollection.ackDelete remoteDelete true remoteOp
    sequenceIntervalCollection1 = (Ok (), sequenceIntervalCollection1) ∧
  ∃ this' lc',
    IntervalCollection.ackDelete remoteDelete false remoteOp
      sequenceIntervalCollection1 = (Ok (), this') ∧
    IntervalCollection.localCollection this' = Some lc' ∧
    LocalIntervalCollection.getIntervalById lc' "uuid-0" = None ∧
    IntervalCollection.emitted this' = [].
Proof.
  assert (Hlc : IntervalCollection.localCollection sequenceIntervalCollection1
                = Some sequenceCollection1) by reflexivity.
  pose proof (ackDelete_spec sequenceIntervalCollection1 sequenceCollection1
                remoteDelete remoteOp Hlc sequenceCollection1_healthy)
    as (Hlocal & _ & Hremote).
  split; [exact Hlocal|].
  assert (Hkey : (LocalIntervalCollection.ensureSerializedId remoteDelete).1
                 = JStr "uuid-0") by (vm_compute; reflexivity).
  assert (Hfound : LocalIntervalCollection.getIntervalById sequenceCollection1
                     "uuid-0" = Some 0%nat) by (vm_compute; reflexivity).
  destruct (Hremote "uuid-0" 0%nat _ Hkey Hfound sequenceCollection1_registered)
    as (this' & lc' & Hrun & Hlc' & _ & Hgone & _ & Hemitted & _).
  exists this', lc'. exact (conj Hrun (conj Hlc' (conj Hgone Hemitted))).
Defined.

(** ** Attaching *)

Section Attach.
Context {T : Type} {ops : I.ISerializableInterval T}.
Implicit Types (this : IntervalCollection.t T).

(** Only the local collection differs, and it is not lost. *)
Definition sameButLocalCollection this this' : Prop :=
  ∃ lc', this' = IntervalCollection.setLocalCollection this lc' ∧
         (is_Some (IntervalCollection.localCollection this) → is_Some lc').

Lemma sameButLocalCollection_refl this : sameButLocalCollection this this.
Proof. exists (IntervalCollection.localCollection this). by destruct this. Qed.

Lemma sameButLocalCollection_trans this1 this2 this3 :
  sameButLocalCollection this1 this2 → sameButLocalCollection this2 this3 →
  sameButLocalCollection this1 this3.
Proof.
  intros (lc2 & -> & H2) (lc3 & -> & H3). exists lc3. split; [done|].
  intros H. by apply H3, H2.
Qed.

Lemma onLocalCollection_sameButLocalCollection {A : Type}
    (m : M (LocalIntervalCollection.t T) A) :
  preserves sameButLocalCollection (IntervalCollection.onLocalCollection m).
Proof.
  intros this r this'. unfold IntervalCollection.onLocalCollection.
  destruct (IntervalCollection.localCollection this) as [lc|] eqn:Hlc.
  - destruct (m lc) as [r' lc']. intros [= _ <-]. exists (Some lc'). eauto.
  - intros [= _ <-]. apply sameButLocalCollection_refl.
Qed.

Lemma attachSaved_sameButLocalCollection client label saved :
  preserves sameButLocalCollection
    (IntervalCollection.attachSaved client label saved).
Proof.
  unfold IntervalCollection.attachSaved.
  pose proof sameButLocalCollection_refl as Hrefl.
  pose proof sameButLocalCollection_trans as Htrans.
  apply preserves_bind; [done|by apply preserves_get|]. intros this0.
  apply preserves_bind; [done|by apply preserves_liftR|]. intros v.
  apply preserves_bind; [done|apply onLocalCollection_sameButLocalCollection|].
  intros interval.
  apply preserves_bind; [done| |].
  - destruct (ser_properties _); [|by apply preserves_ret].
    apply preserves_bind; [done|by apply preserves_liftR|]. intros r.
    apply onLocalCollection_sameButLocalCollection.
  - intros _. apply onLocalCollection_sameButLocalCollection.
Qed.

Lemma forEach_preserves {S A : Type} (R : S → S → Prop) (xs : list A)
    (body : A → M S unit) :
  (∀ s, R s s) → (∀ s1 s2 s3, R s1 s2 → R s2 s3 → R s1 s3) →
  (∀ x, preserves R (body x)) → preserves R (forEach xs body).
Proof.
  intros Hrefl Htrans Hbody. induction xs as [|x rest IH]; simpl.
  - by apply preserves_ret.
  - apply preserves_bind; [done|apply Hbody|]. intros _. exact IH.
Qed.

End Attach.

(** X8: a collection is attached once. A call of [attachGraph] that returns
    started from a collection that was not attached, with a client if the
    collection requires one; it leaves the collection attached, with the
    client it was given and without saved intervals; it emits no op and fires
    no event; and every later call of [attachGraph] throws and changes
    nothing. *)
Theorem attachGraph_once {T : Type} {ops : I.ISerializableInterval T}
    (this this' : IntervalCollection.t T) (client : option Client)
    (label : string) (uuidSource : nat → string) :
  IntervalCollection.attachGraph client label uuidSource this = (Ok (), this') →
  IntervalCollection.attached this = false ∧
  (IntervalCollection.requiresClient this = true → is_Some client) ∧
  IntervalCollection.attached this' = true ∧
  IntervalCollection.client this' = client ∧
  IntervalCollection.savedSerializedIntervals this' = None ∧
  IntervalCollection.emitted this' = IntervalCollection.emitted this ∧
  IntervalCollection.events this' = IntervalCollection.events this ∧
  ∀ client2 label2 uuidSource2,
    IntervalCollection.attachGraph client2 label2 uuidSource2 this'
    = (Throw (LoggingError "Only supports one Sequence attach"), this').
Proof.
  unfold IntervalCollection.attachGraph at 1. unfold bindM at 1, get at 1.
  destruct (IntervalCollection.attached this) eqn:Hattached; [discriminate|].
  destruct (bool_decide (client = None) &&
            IntervalCollection.requiresClient this) eqn:Hclient;
    [discriminate|].
  unfold bindM at 1, update at 1. intros H.
  apply bindM_Ok in H as ([] & this2 & Hloop & Hlast).
  apply (forEach_preserves sameButLocalCollection) in Hloop as (lc' & -> & Hsome);
    [|apply sameButLocalCollection_refl|apply sameButLocalCollection_trans
     |apply attachSaved_sameButLocalCollection].
  injection Hlast as <-.
  destruct Hsome as [lc2 ->]; [by eexists|].
  split_and!; try done.
  destruct client; [by eexists|].
  rewrite bool_decide_true in Hclient by done. simpl in Hclient. congruence.
Qed.

Lemma attachGraph_once_witness :
  let this :=
    IntervalCollection.mk sequenceIntervalHelpers true None None None false
      None ∅ ∅ ∅ ∅ 0 [] [] [] in
  let this' :=
    (IntervalCollection.attachGraph (Some exampleText) "comments" exampleUuids
       this).2 in
  IntervalCollection.localCollection this' = Some emptySequenceCollection ∧
  IntervalCollection.attachGraph None "again" exampleUuids this'
  = (Throw (LoggingError "Only supports one Sequence attach"), this').
Proof.
  intros this this'.
  assert (Hrun : IntervalCollection.attachGraph (Some exampleText) "comments"
                   exampleUuids this = (Ok (), this')) by reflexivity.
  split; [reflexivity|].
  exact (proj2 (proj2 (proj2 (proj2 (proj2 (proj2 (proj2
           (attachGraph_once this this' (Some exampleText) "comments"
              exampleUuids Hrun))))))) None "again" exampleUuids).
Defined.

(** ** addInterval, step by step *)

Section AddInterval.
Context {T : Type} {ops : I.ISerializableInterval T}.
Implicit Types (lc : LocalIntervalCollection.t T) (interval : nat).

(** The object with the properties that [addInterval] was given. *)
Definition withProperties (v0 : T) (props : option PropertySet) (v1 : T) : Prop :=
  match props with
  | Some p => ∃ r, I.addProperties v0 p false None = Ok r ∧ v1 = r.1
  | None => v1 = v0
  end.

(** The object with the id that [addInterval] gives it when it has none. *)
Definition withId (v1 : T) (id : string) : T :=
  match getProp (I.properties v1) reservedIntervalIdKey with
  | JUndefined | JNull =>
      I.setProperties v1
        (mkProps (<[reservedIntervalIdKey := JStr id]> (entries (I.properties v1)))
                 (nonWritable (I.properties v1)))
  | _ => v1
  end.

(** A run of [addInterval] that returns: the interval is a new object, made
    by [create], given the properties and an id, and then added. *)
Lemma addInterval_Ok lc lc' start end_ intervalType props op stickiness interval :
  LocalIntervalCollection.addInterval start end_ intervalType props op stickiness
    lc = (Ok interval, lc') →
  ∃ v0 v1 lc3,
    create (LocalIntervalCollection.helpers lc) (LocalIntervalCollection.label lc)
      start end_ (LocalIntervalCollection.client lc) intervalType op None
      (Some (default IntervalStickiness.END stickiness)) = Ok v0 ∧
    interval = LocalIntervalCollection.nextAddress lc ∧
    withProperties v0 props v1 ∧
    LocalIntervalCollection.store lc3
    = <[interval :=
          withId v1 (LocalIntervalCollection.uuidSource lc
                       (LocalIntervalCollection.uuidCalls lc))]>
        (LocalIntervalCollection.store lc) ∧
    LocalIntervalCollection.indexes lc3 = LocalIntervalCollection.indexes lc ∧
    LocalIntervalCollection.helpers lc3 = LocalIntervalCollection.helpers lc ∧
    LocalIntervalCollection.label lc3 = LocalIntervalCollection.label lc ∧
    LocalIntervalCollection.client lc3 = LocalIntervalCollection.client lc ∧
    LocalIntervalCollection.nextAddress lc3
    = S (LocalIntervalCollection.nextAddress lc) ∧
    LocalIntervalCollection.add interval lc3 = (Ok (), lc').
Proof.
  unfold LocalIntervalCollection.addInterval. intros H.
  apply bindM_Ok in H as (a & lc1 & Hcreate & H).
  unfold LocalIntervalCollection.createInterval in Hcreate.
  apply bindM_Ok in Hcreate as (? & ? & [= <- <-] & Hcreate).
  apply bindM_Ok in Hcreate as (v0 & ? & Hv0 & Halloc).
  apply liftR_Ok in Hv0 as [Hv0 ->].
  unfold LocalIntervalCollection.allocate in Halloc.
  injection Halloc as <- <-.
  apply bindM_Ok in H as (? & ? & [= <- <-] & H).
  apply bindM_Ok in H as ([] & lc2 & Hprops & H).
  apply bindM_Ok in H as (v1 & ? & Hread & H).
  apply bindM_Ok in H as ([] & lc3 & Hid & H).
  apply bindM_Ok in H as ([] & lc4 & Hadd & [= <- <-]).
  set (interval := LocalIntervalCollection.nextAddress lc) in *.
  set (lc1 := LocalIntervalCollection.mk _ _ _ _ _ _ _ _ _ _) in *.
  assert (Hlc2 : ∃ w, withProperties v0 props w ∧
                      lc2 = LocalIntervalCollection.setStore lc1
                              (<[interval := w]>
                                 (LocalIntervalCollection.store lc))).
  { destruct props as [p|].
    - apply bindM_Ok in Hprops as (foreign & lcx & Hforeign & Hprops).
      destruct foreign; [discriminate|].
      apply bindM_Ok in Hprops as (w0 & ? & Hw0 & Hprops).
      apply bindM_Ok in Hprops as (r & ? & Hr & Hprops).
      apply liftR_Ok in Hr as [Hr ->].
      unfold LocalIntervalCollection.readInterval, readObject in Hw0.
      assert (lcx = lc1) as ->.
      { match type of Hforeign with
        | context [isDefined ?l] => destruct (isDefined l)
        end; [|by injection Hforeign as <-].
        apply bindM_Ok in Hforeign as (? & ? & Hforeign & [= _ <-]).
        by apply liftR_Ok in Hforeign as [_ ->]. }
      simpl in Hw0. rewrite lookup_insert_eq in Hw0. injection Hw0 as <- <-.
      injection Hprops as <-. exists r.1. split; [by exists r|].
      unfold LocalIntervalCollection.setStore. simpl.
      by rewrite insert_insert_eq.
    - injection Hprops as <-. exists v0. split; [done|]. reflexivity. }
  destruct Hlc2 as (w & Hw & ->).
  unfold LocalIntervalCollection.readInterval, readObject in Hread.
  simpl in Hread. rewrite lookup_insert_eq in Hread. injection Hread as <- <-.
  exists v0, w. eexists. split_and!; [exact Hv0|reflexivity|exact Hw| | | | | | |exact Hadd].
  all: unfold withId;
    destruct (getProp (I.properties w) reservedIntervalIdKey) eqn:Hgot;
    first [ injection Hid as <-; simpl; by rewrite ?insert_insert_eq
          | apply bindM_Ok in Hid as (id & ? & [= <- <-] & [= <-]); simpl;
            by rewrite ?insert_insert_eq ].
Qed.

End AddInterval.

Section AddIntervalReturns.
Context {T : Type} {ops : I.ISerializableInterval T} {laws : IntervalLaws T}.
Implicit Types (lc : LocalIntervalCollection.t T) (interval : nat).

(** The properties given to [addInterval] carry no label, or the label of
    this collection. *)
Definition acceptedLabel (props : option PropertySet) (label : string) : Prop :=
  match props with
  | Some p =>
      isDefined (getProp p reservedRangeLabelsKey) = false ∨
      index0 (getProp p reservedRangeLabelsKey) = Ok (JStr label)
  | None => True
  end.

(** A new object at the next address keeps a collection in good order. *)
Lemma healthy_fresh lc lc3 w :
  healthy lc →
  LocalIntervalCollection.store lc3
  = <[LocalIntervalCollection.nextAddress lc := w]>
      (LocalIntervalCollection.store lc) →
  LocalIntervalCollection.nextAddress lc3
  = S (LocalIntervalCollection.nextAddress lc) →
  LocalIntervalCollection.indexes lc3 = LocalIntervalCollection.indexes lc →
  LocalIntervalCollection.helpers lc3 = LocalIntervalCollection.helpers lc →
  healthy lc3 ∧
  absentFrom (LocalIntervalCollection.indexes lc3)
             (LocalIntervalCollection.nextAddress lc).
Proof.
  intros [[Hstore Hlive] Hsound] Hs Hn Hix Hhs.
  assert (Hfresh : LocalIntervalCollection.store lc
                     !! LocalIntervalCollection.nextAddress lc = None).
  { destruct (LocalIntervalCollection.store lc
                !! LocalIntervalCollection.nextAddress lc) eqn:E; [|done].
    specialize (Hstore _ (mk_is_Some _ _ E)). lia. }
  split; [split; [split|]|].
  - intros a. rewrite Hs, Hn. intros Ha.
    apply lookup_insert_is_Some in Ha as [<-|[_ Ha]]; [lia|].
    specialize (Hstore _ Ha). lia.
  - rewrite Hix, Hs. eapply Forall_impl; [exact Hlive|]. intros ix Hx a Ha.
    apply lookup_insert_is_Some'. right. by apply Hx.
  - rewrite Hix, Hhs, Hs. eapply Forall_impl; [exact Hsound|].
    intros ix. apply sound_mono. intros a (v & id & Hv & Hid).
    exists v, id. split; [|done]. rewrite lookup_insert_ne; [done|].
    intros <-. congruence.
  - rewrite Hix. eapply Forall_impl; [exact Hlive|]. intros ix Hx. simpl in Hx.
    destruct (decide (occurrences ix (LocalIntervalCollection.nextAddress lc)
                      = 0%nat)) as [|Hocc]; [done|].
    destruct (Hx _ Hocc) as [? ?]. congruence.
Qed.

(** [add] and the id index: the interval is entered under its id, which it
    keeps. *)
Lemma add_idIntervalMap lc lc' interval v id m0 :
  LocalIntervalCollection.add interval lc = (Ok (), lc') →
  LocalIntervalCollection.store lc !! interval = Some v →
  I.getIntervalId v = Ok id →
  LocalIntervalCollection.indexes lc !! 1%nat = Some (IdIntervalIndex m0) →
  LocalIntervalCollection.idIntervalMap lc' = <[id := interval]> m0 ∧
  ∃ v', LocalIntervalCollection.store lc' !! interval = Some v' ∧
        I.getIntervalId v' = Ok id.
Proof.
  unfold LocalIntervalCollection.add. intros H Hv Hid Hm0.
  apply bindM_Ok in H as ([] & lc1 & Hlink & H).
  apply bindM_Ok in H as ([] & lc2 & Hidx & Hlisten).
  assert (Hw : ∃ w, LocalIntervalCollection.store lc1 !! interval = Some w ∧
                    I.getIntervalId w = Ok id).
  { unfold LocalIntervalCollection.linkEndpointsToInterval, bindM,
      LocalIntervalCollection.readInterval, readObject in Hlink.
    rewrite Hv in Hlink.
    destruct (I.asSequenceInterval v) as [si|] eqn:Hsi;
      injection Hlink as <-; [|by eauto].
    simpl. rewrite lookup_insert_eq. eexists. split; [done|].
    by rewrite id_link. }
  destruct Hw as (w & Hw & Hidw).
  apply (updateSequence_indexes interval
           (λ si, SequenceInterval.setEndpoints si
                    (ref_addProperties (SequenceInterval.start si)
                       (mkProps {["interval" := JObject interval]} ∅))
                    (ref_addProperties (SequenceInterval.end_ si)
                       (mkProps {["interval" := JObject interval]} ∅))))
    in Hlink as (Hix1 & _).
  unfold LocalIntervalCollection.addIntervalToIndexes in Hidx.
  destruct (LocalIntervalCollection.addToEach _ _ _ _) as [r [ixs' s']] eqn:Hloop.
  injection Hidx as -> <-.
  rewrite Hix1 in Hloop.
  destruct (addToEach_lookup _ _ _ _ _ _ _ _ _ Hloop Hm0 Hw)
    as (ix' & s1 & s2 & w1 & Hix' & Hadd1 & Hw1 & Hid1).
  unfold IntervalIndex_add, readObject in Hadd1. rewrite Hw1 in Hadd1.
  simpl in Hadd1. rewrite Hid1, Hidw in Hadd1. simpl in Hadd1.
  injection Hadd1 as <- _.
  apply (addToEach_store I.getIntervalId id_freeze) in Hloop as (_ & Hat & _).
  destruct (Hat _ Hw) as (w2 & Hw2 & Hidw2).
  pose proof Hlisten as Hix3.
  apply (updateSequence_indexes interval
           (λ si, SequenceInterval.addPositionChangeListeners si
                    (SequenceInterval.mkListener 0 None)))
    in Hix3 as (Hix3 & _).
  split.
  - unfold LocalIntervalCollection.idIntervalMap. rewrite Hix3. simpl.
    by rewrite Hix'.
  - unfold LocalIntervalCollection.addIntervalListeners, bindM,
      LocalIntervalCollection.readInterval, readObject in Hlisten.
    simpl in Hlisten. rewrite Hw2 in Hlisten.
    destruct (I.asSequenceInterval w2) as [si|] eqn:Hsi;
      injection Hlisten as <-; [|exists w2; split; [done|congruence]].
    simpl. rewrite lookup_insert_eq. eexists. split; [done|].
    rewrite <- Hidw, <- Hidw2.
    unfold SequenceInterval.addPositionChangeListeners.
    destruct (SequenceInterval.callbacks si); [by apply id_same|].
    by apply id_callbacks.
Qed.

(** [addInterval] returns on a collection in good order when [create]
    returns, the properties can be added and carry no foreign label, and the
    interval ends up with an id. *)
Lemma addInterval_returns lc start end_ intervalType props op stickiness v0 v1 id :
  healthy lc →
  create (LocalIntervalCollection.helpers lc) (LocalIntervalCollection.label lc)
    start end_ (LocalIntervalCollection.client lc) intervalType op None
    (Some (default IntervalStickiness.END stickiness)) = Ok v0 →
  withProperties v0 props v1 →
  acceptedLabel props (LocalIntervalCollection.label lc) →
  I.getIntervalId
    (withId v1 (LocalIntervalCollection.uuidSource lc
                  (LocalIntervalCollection.uuidCalls lc))) = Ok id →
  ∃ lc' v,
    LocalIntervalCollection.addInterval start end_ intervalType props op
      stickiness lc = (Ok (LocalIntervalCollection.nextAddress lc), lc') ∧
    healthy lc' ∧
    LocalIntervalCollection.store lc' !! LocalIntervalCollection.nextAddress lc
    = Some v ∧
    I.getIntervalId v = Ok id ∧
    onceIn (LocalIntervalCollection.indexes lc')
           (LocalIntervalCollection.nextAddress lc) ∧
    (∀ m0,
       LocalIntervalCollection.indexes lc !! 1%nat = Some (IdIntervalIndex m0) →
       LocalIntervalCollection.idIntervalMap lc'
       = <[id := LocalIntervalCollection.nextAddress lc]> m0).
Proof.
  intros Hhealthy Hcreate Hprops Hlabel Hid.
  set (fresh := LocalIntervalCollection.nextAddress lc).
  set (u := LocalIntervalCollection.uuidSource lc
              (LocalIntervalCollection.uuidCalls lc)) in *.
  destruct (LocalIntervalCollection.allocate v0 lc) as [r1 lc1] eqn:Halloc.
  injection Halloc as <- Hlc1.
  assert (H1 : LocalIntervalCollection.createInterval start end_ intervalType op
                 (Some (default IntervalStickiness.END stickiness)) lc
               = (Ok fresh, lc1)).
  { unfold LocalIntervalCollection.createInterval, bindM, get, liftR.
    simpl default. rewrite Hcreate. unfold LocalIntervalCollection.allocate.
    by rewrite Hlc1. }
  assert (Hstore1 : LocalIntervalCollection.store lc1
                    = <[fresh := v0]> (LocalIntervalCollection.store lc))
    by by rewrite <- Hlc1.
  assert (Hlabel1 : LocalIntervalCollection.label lc1
                    = LocalIntervalCollection.label lc) by by rewrite <- Hlc1.
  (* the properties *)
  set (lc2 := LocalIntervalCollection.setStore lc1
                (<[fresh := v1]> (LocalIntervalCollection.store lc))).
  assert (H2 :
    match props with
    | Some p =>
        let labels := getProp p reservedRangeLabelsKey in
        let! foreign :=
          if isDefined labels
          then let! first := liftR (index0 labels) in
               ret (differsFromString first (LocalIntervalCollection.label lc1))
          else ret false in
        if (foreign : bool)
        then throw (LoggingError
               "Adding an interval that belongs to another interval collection is not permitted")
        else
          let! v := LocalIntervalCollection.readInterval fresh in
          let! r := liftR (I.addProperties v p false None) in
          LocalIntervalCollection.writeInterval fresh r.1
    | None => ret ()
    end lc1 = (Ok (), lc2)).
  { destruct props as [p|]; simpl in Hprops, Hlabel.
    - destruct Hprops as (r & Hr & ->). cbv zeta.
      assert (Hforeign :
        (if isDefined (getProp p reservedRangeLabelsKey)
         then let! first := liftR (index0 (getProp p reservedRangeLabelsKey)) in
              ret (differsFromString first (LocalIntervalCollection.label lc1))
         else ret false) lc1 = (Ok false, lc1)).
      { destruct Hlabel as [-> | Hfirst]; [done|].
        destruct (isDefined _); [|done].
        unfold bindM, liftR. rewrite Hfirst, Hlabel1. unfold ret. simpl.
        by rewrite bool_decide_true. }
      rewrite (bindM_run _ _ lc1 lc1 false) by exact Hforeign.
      unfold bindM, LocalIntervalCollection.readInterval, readObject, liftR.
      rewrite Hstore1, lookup_insert_eq, Hr.
      unfold LocalIntervalCollection.writeInterval, update, lc2.
      by rewrite Hstore1, insert_insert_eq.
    - subst v1. unfold ret, lc2. f_equal. rewrite <- Hstore1.
      by destruct lc1. }
  (* the id *)
  assert (H3 : ∃ lc3,
    match getProp (I.properties v1) reservedIntervalIdKey with
    | JUndefined | JNull =>
        let! id := LocalIntervalCollection.uuid in
        LocalIntervalCollection.writeInterval fresh
          (I.setProperties v1
             (mkProps (<[reservedIntervalIdKey := JStr id]>
                         (entries (I.properties v1)))
                      (nonWritable (I.properties v1))))
    | _ => ret ()
    end lc2 = (Ok (), lc3) ∧
    LocalIntervalCollection.store lc3
    = <[fresh := withId v1 u]> (LocalIntervalCollection.store lc) ∧
    LocalIntervalCollection.nextAddress lc3 = S fresh ∧
    LocalIntervalCollection.indexes lc3 = LocalIntervalCollection.indexes lc ∧
    LocalIntervalCollection.helpers lc3 = LocalIntervalCollection.helpers lc).
  { unfold withId.
    destruct (getProp (I.properties v1) reservedIntervalIdKey);
      eexists; (split; [reflexivity|]); simpl; rewrite <- Hlc1; simpl;
      by rewrite ?insert_insert_eq. }
  destruct H3 as (lc3 & H3 & Hstore3 & Hnext3 & Hix3 & Hhs3).
  destruct (healthy_fresh lc lc3 _ Hhealthy Hstore3 Hnext3 Hix3 Hhs3)
    as [Hhealthy3 Habsent3].
  assert (Hw3 : LocalIntervalCollection.store lc3 !! fresh = Some (withId v1 u))
    by (rewrite Hstore3; apply lookup_insert_eq).
  destruct (add_returns lc3 fresh Hhealthy3) as (lc' & H4 & Hhealthy' & Hext).
  { by exists (withId v1 u), id. }
  destruct (Hext (proj1 Hhealthy3)) as (_ & _ & Hstore' & _).
  destruct (Hstore' _ _ Hw3) as (v & Hv & Hidv).
  exists lc', v. split_and!; [|done|done|congruence| |].
  2:{ destruct (add_Ok _ _ _ H4) as (st1 & st2 & Hloop).
      by eapply addToEach_once. }
  2:{ intros m0 Hm0. rewrite <- Hix3 in Hm0.
      by destruct (add_idIntervalMap lc3 lc' fresh _ id m0 H4 Hw3 Hid Hm0). }
  unfold LocalIntervalCollection.addInterval.
  rewrite (bindM_run _ _ lc lc1 fresh) by exact H1.
  rewrite (bindM_run _ _ lc1 lc1 lc1) by done.
  rewrite (bindM_run _ _ lc1 lc2 ()) by exact H2.
  rewrite (bindM_run _ _ lc2 lc2 v1)
    by (unfold LocalIntervalCollection.readInterval, readObject, lc2; simpl;
        by rewrite lookup_insert_eq).
  rewrite (bindM_run _ _ lc2 lc3 ()) by exact H3.
  rewrite (bindM_run _ _ lc3 lc' ()) by exact H4.
  done.
Qed.

End AddIntervalReturns.

(** ** The endpoints of an interval lead back to it *)

Lemma createSequenceInterval_labels client label s e intervalType op
    fromSnapshot stickiness v :
  createSequenceInterval label s e client intervalType op fromSnapshot stickiness
  = Ok v →
  ref_properties (SequenceInterval.start v)
  = Some (mkProps {[reservedRangeLabelsKey := JArr [JStr label]]} ∅) ∧
  ref_properties (SequenceInterval.end_ v)
  = Some (mkProps {[reservedRangeLabelsKey := JArr [JStr label]]} ∅).
Proof.
  unfold createSequenceInterval.
  destruct (if intervalType =? IntervalType.Transient then _ else _)
    as [beginRefType endRefType].
  intros H.
  apply bindR_Ok in H as (startLref & Hs & H).
  apply bindR_Ok in H as (endLref & He & H).
  apply new_fields in H as (_ & -> & -> & _).
  apply createPositionReference_fields in Hs as [_ Hs].
  apply createPositionReference_fields in He as [_ He].
  unfold ref_addProperties, addProperties. cbv beta iota zeta.
  change (ref_properties (mkRef _ _ _ _ ?p)) with p.
  rewrite Hs, He.
  change (default emptyProps None) with emptyProps.
  change (entries (mkProps ?m _)) with m.
  change (entries emptyProps) with (∅ : gmap string JsValue).
  rewrite map_to_list_singleton. done.
Qed.

Section Endpoints.
Implicit Types (lc : LocalIntervalCollection.t SequenceInterval.t)
  (interval : nat).

Definition endpoints (v : SequenceInterval.t)
  : LocalReferencePosition * LocalReferencePosition :=
  (SequenceInterval.start v, SequenceInterval.end_ v).

(** [add] links both endpoints to the interval and leaves them alone
    otherwise. *)
Lemma add_endpoints lc lc' interval v :
  LocalIntervalCollection.add interval lc = (Ok (), lc') →
  LocalIntervalCollection.store lc !! interval = Some v →
  ∃ v', LocalIntervalCollection.store lc' !! interval = Some v' ∧
        endpoints v'
        = (ref_addProperties (SequenceInterval.start v)
             (mkProps {["interval" := JObject interval]} ∅),
           ref_addProperties (SequenceInterval.end_ v)
             (mkProps {["interval" := JObject interval]} ∅)).
Proof.
  unfold LocalIntervalCollection.add. intros H Hv.
  apply bindM_Ok in H as ([] & lc1 & H1 & H).
  apply bindM_Ok in H as ([] & lc2 & H2 & H3).
  unfold LocalIntervalCollection.linkEndpointsToInterval, bindM,
    LocalIntervalCollection.readInterval, readObject in H1.
  rewrite Hv in H1. simpl in H1. injection H1 as <-.
  unfold LocalIntervalCollection.addIntervalToIndexes in H2.
  destruct (LocalIntervalCollection.addToEach _ _ _ _) as [r [ixs' s']] eqn:Hloop.
  injection H2 as -> <-.
  apply (addToEach_store endpoints) in Hloop as (_ & Hat & _); [|done].
  simpl in Hat.
  destruct (Hat _ (lookup_insert_eq _ _ _)) as (v2 & Hv2 & Hends).
  unfold LocalIntervalCollection.addIntervalListeners, bindM,
    LocalIntervalCollection.readInterval, readObject in H3.
  simpl in H3. rewrite Hv2 in H3. simpl in H3. injection H3 as <-.
  simpl. rewrite lookup_insert_eq. eexists. split; [done|].
  transitivity (endpoints v2); [|exact Hends].
  unfold SequenceInterval.addPositionChangeListeners.
  by destruct (SequenceInterval.callbacks v2).
Qed.

End Endpoints.

Lemma locator_unlinked (ref : LocalReferencePosition) label :
  ref_properties ref
  = Some (mkProps {[reservedRangeLabelsKey := JArr [JStr label]]} ∅) →
  intervalLocatorFromEndpoint ref = None.
Proof.
  unfold intervalLocatorFromEndpoint. intros ->. cbv beta iota zeta.
  unfold getProp. change (entries (default emptyProps (Some ?p))) with (entries p).
  change (entries (mkProps ?m _)) with m.
  by rewrite lookup_singleton_ne.
Qed.

Lemma getProp_ref_addProperties (ref : LocalReferencePosition)
    (p : PropertySet) (k : string) :
  getProp (default emptyProps (ref_properties (ref_addProperties ref p))) k
  = match entries p !! k with
    | Some JNull => JUndefined
    | Some v => v
    | None => getProp (default emptyProps (ref_properties ref)) k
    end.
Proof.
  unfold getProp, ref_addProperties, addProperties. simpl.
  rewrite extendKey_map_lookup.
  by destruct (entries p !! k) as [[]|].
Qed.

Lemma locator_linked (ref : LocalReferencePosition) label interval :
  ref_properties ref
  = Some (mkProps {[reservedRangeLabelsKey := JArr [JStr label]]} ∅) →
  intervalLocatorFromEndpoint
    (ref_addProperties ref (mkProps {["interval" := JObject interval]} ∅))
  = Some (mkLocator (JStr label) (JObject interval)).
Proof.
  intros Href. unfold intervalLocatorFromEndpoint. cbv beta iota zeta.
  rewrite !getProp_ref_addProperties.
  change (entries (mkProps ?m _)) with m.
  rewrite lookup_singleton_eq, lookup_singleton_ne by done.
  rewrite Href. unfold getProp.
  change (entries (default emptyProps (Some (mkProps ?m _)))) with m.
  by rewrite lookup_singleton_eq.
Qed.

(** X9: the endpoints of an interval lead back to it. An endpoint of a
    sequence interval that [createSequenceInterval] has just made locates
    nothing; once [addInterval] has added the interval to a collection,
    [intervalLocatorFromEndpoint] of either endpoint is the label of the
    collection and the interval itself. *)
Theorem endpoints_locate_interval
    (lc lc' : LocalIntervalCollection.t SequenceInterval.t)
    (start end_ intervalType : Z) (props : option PropertySet)
    (op : option ISequencedDocumentMessage) (stickiness : option Z)
    (interval : nat) :
  LocalIntervalCollection.helpers lc = sequenceIntervalHelpers →
  LocalIntervalCollection.addInterval start end_ intervalType props op stickiness
    lc = (Ok interval, lc') →
  ∃ c created v,
    LocalIntervalCollection.client lc = Some c ∧
    createSequenceInterval (LocalIntervalCollection.label lc) start end_ c
      intervalType op None (Some (default IntervalStickiness.END stickiness))
    = Ok created ∧
    intervalLocatorFromEndpoint (SequenceInterval.start created) = None ∧
    intervalLocatorFromEndpoint (SequenceInterval.end_ created) = None ∧
    LocalIntervalCollection.store lc' !! interval = Some v ∧
    intervalLocatorFromEndpoint (SequenceInterval.start v)
    = Some (mkLocator (JStr (LocalIntervalCollection.label lc))
              (JObject interval)) ∧
    intervalLocatorFromEndpoint (SequenceInterval.end_ v)
    = Some (mkLocator (JStr (LocalIntervalCollection.label lc))
              (JObject interval)).
Proof.
  intros Hhelpers Hrun.
  apply addInterval_Ok in Hrun
    as (v0 & v1 & lc3 & Hcreate & _ & Hprops & Hstore & _ & _ & _ & _ & _ & Hadd).
  rewrite Hhelpers in Hcreate. simpl in Hcreate.
  destruct (LocalIntervalCollection.client lc) as [c|]; [|discriminate].
  destruct (createSequenceInterval_labels _ _ _ _ _ _ _ _ _ Hcreate)
    as [Hstart Hend].
  assert (Hv1 : endpoints v1 = endpoints v0).
  { destruct props as [p|]; simpl in Hprops; [|by subst].
    destruct Hprops as (r & Hr & ->).
    apply addProperties_fields in Hr as (_ & Hs & He & _).
    unfold endpoints. by rewrite Hs, He. }
  set (v2 := withId v1 _) in Hstore.
  assert (Hv2 : endpoints v2 = endpoints v1).
  { subst v2. unfold withId.
    by destruct (getProp (I.properties v1) reservedIntervalIdKey). }
  destruct (add_endpoints lc3 lc' interval v2 Hadd) as (v & Hv & Hends).
  { rewrite Hstore. apply lookup_insert_eq. }
  rewrite Hv1 in Hv2. unfold endpoints in Hv2, Hends.
  injection Hv2 as Hs2 He2. injection Hends as Hs He.
  exists c, v0, v. rewrite Hs, He, Hs2, He2.
  split_and!; try done.
  - by eapply locator_unlinked.
  - by eapply locator_unlinked.
  - by apply locator_linked.
  - by apply locator_linked.
Qed.

Lemma endpoints_locate_interval_witness :
  ∃ v, LocalIntervalCollection.store sequenceCollection1 !! 0%nat = Some v ∧
       intervalLocatorFromEndpoint (SequenceInterval.start v)
       = Some (mkLocator (JStr "comments") (JObject 0)) ∧
       intervalLocatorFromEndpoint (SequenceInterval.end_ v)
       = Some (mkLocator (JStr "comments") (JObject 0)).
Proof.
  assert (Hhelpers : LocalIntervalCollection.helpers emptySequenceCollection
                     = sequenceIntervalHelpers) by reflexivity.
  assert (Hrun : LocalIntervalCollection.addInterval 1 3
                   IntervalType.SlideOnRemove None None None
                   emptySequenceCollection = (Ok 0%nat, sequenceCollection1))
    by (vm_compute; reflexivity).
  destruct (endpoints_locate_interval emptySequenceCollection
              sequenceCollection1 1 3 IntervalType.SlideOnRemove None None None
              0%nat Hhelpers Hrun)
    as (c & created & v & _ & _ & _ & _ & Hv & Hstart & Hend).
  exists v. exact (conj Hv (conj Hstart Hend)).
Defined.

(** ** Adding an interval through the collection *)

(** X10: [add] on an attached collection in good order, with a type that is
    not Transient and a stickiness that the options allow. When [create]
    returns and the properties can be added and carry no foreign label, [add]
    returns a new interval: it is once in every index, it is found under its
    id, one "add" op carrying the positions, the type, the stickiness and
    the properties of the interval has been emitted under the next local
    sequence number and recorded as pending under it, and one [addInterval]
    event has been fired. *)
Theorem add_spec {T : Type} {ops : I.ISerializableInterval T}
    {laws : IntervalLaws T} (this : IntervalCollection.t T)
    (lc : LocalIntervalCollection.t T) (start end_ intervalType : Z)
    (props : option PropertySet) (stickiness : option Z) (v0 v1 : T)
    (id : string) (m0 : gmap string nat) :
  IntervalCollection.localCollection this = Some lc →
  healthy lc →
  LocalIntervalCollection.indexes lc !! 1%nat = Some (IdIntervalIndex m0) →
  Z.land intervalType IntervalType.Transient = 0 →
  (default IntervalStickiness.END stickiness = IntervalStickiness.END ∨
   IntervalCollection.intervalStickinessEnabled this = Some true) →
  create (LocalIntervalCollection.helpers lc) (LocalIntervalCollection.label lc)
    start end_ (LocalIntervalCollection.client lc) intervalType None None
    (Some (default IntervalStickiness.END stickiness)) = Ok v0 →
  withProperties v0 props v1 →
  acceptedLabel props (LocalIntervalCollection.label lc) →
  I.getIntervalId
    (withId v1 (LocalIntervalCollection.uuidSource lc
                  (LocalIntervalCollection.uuidCalls lc))) = Ok id →
  let interval := LocalIntervalCollection.nextAddress lc in
  let localSeq :=
    match IntervalCollection.client this with
    | Some _ => IntervalCollection.collabWindowLocalSeq this + 1
    | None => 0
    end in
  ∃ this' lc' v,
    IntervalCollection.add start end_ intervalType props stickiness this
    = (Ok interval, this') ∧
    IntervalCollection.localCollection this' = Some lc' ∧
    healthy lc' ∧
    LocalIntervalCollection.store lc' !! interval = Some v ∧
    I.getIntervalId v = Ok id ∧
    LocalIntervalCollection.getIntervalById lc' id = Some interval ∧
    onceIn (LocalIntervalCollection.indexes lc') interval ∧
    let serializedInterval :=
      {| d_end := Some end_; d_intervalType := intervalType;
         d_properties := Some (I.properties v);
         d_sequenceNumber :=
           match IntervalCollection.client this with
           | Some c => getCurrentSeq c
           | None => 0
           end;
         d_start := Some start;
         d_stickiness := Some (default IntervalStickiness.END stickiness) |} in
    IntervalCollection.emitted this'
    = IntervalCollection.mkEmitted "add" serializedInterval localSeq
      :: IntervalCollection.emitted this ∧
    IntervalCollection.localSeqToSerializedInterval this'
    = <[localSeq := serializedInterval]>
        (IntervalCollection.localSeqToSerializedInterval this) ∧
    IntervalCollection.events this'
    = IntervalCollection.addIntervalEvent interval true None
      :: IntervalCollection.events this.
Proof.
  intros Hlc Hhealthy Hm0 Htype Hsticky Hcreate Hprops Hlabel Hid interval
    localSeq.
  destruct (addInterval_returns lc start end_ intervalType props None
              (Some (default IntervalStickiness.END stickiness)) v0 v1 id
              Hhealthy Hcreate Hprops Hlabel Hid)
    as (lc' & v & Hrun & Hhealthy' & Hv & Hidv & Honce & Hmap).
  set (this1 := IntervalCollection.setLocalCollection this (Some lc')).
  assert (Hread :
    IntervalCollection.onLocalCollection
      (LocalIntervalCollection.readInterval interval) this1 = (Ok v, this1)).
  { unfold IntervalCollection.onLocalCollection, this1. simpl.
    unfold LocalIntervalCollection.readInterval, readObject.
    fold interval in Hv. by rewrite Hv. }
  assert (Hgate :
    negb (default IntervalStickiness.END stickiness =? IntervalStickiness.END) &&
    negb (default false (IntervalCollection.intervalStickinessEnabled this))
    = false).
  { destruct Hsticky as [-> | ->]; [done|]. simpl. apply andb_false_r. }
  destruct (IntervalCollection.add start end_ intervalType props stickiness this)
    as [r this'] eqn:Hadd.
  unfold IntervalCollection.add in Hadd. cbv zeta in Hadd.
  rewrite (bindM_run _ _ this this this) in Hadd by done.
  unfold IntervalCollection.attached in Hadd. rewrite Hlc in Hadd.
  rewrite bool_decide_true in Hadd by eauto. rewrite Htype in Hadd.
  change (negb true) with false in Hadd.
  change (negb (0 =? 0)) with false in Hadd.
  cbv iota in Hadd. rewrite Hgate in Hadd.
  rewrite (bindM_run _ _ this this1 interval) in Hadd
    by (by apply onLocalCollection_run with (lc := lc)).
  rewrite (bindM_run _ _ this1 this1 v) in Hadd by exact Hread.
  unfold IntervalCollection.getNextLocalSeq, bindM, update,
    IntervalCollection.emitOp, IntervalCollection.emit, ret, this1 in Hadd.
  simpl in Hadd.
  assert (Hfound : LocalIntervalCollection.getIntervalById lc' id
                   = Some interval).
  { unfold LocalIntervalCollection.getIntervalById.
    rewrite (Hmap m0 Hm0). apply lookup_insert_eq. }
  exists this', lc', v. unfold localSeq.
  destruct (IntervalCollection.client this); injection Hadd as <- <-;
    split_and!; done.
Qed.

Lemma add_spec_witness :
  ∃ this' lc',
    IntervalCollection.add 4 6 IntervalType.SlideOnRemove None None
      sequenceIntervalCollection1 = (Ok 1%nat, this') ∧
    IntervalCollection.localCollection this' = Some lc' ∧
    LocalIntervalCollection.getIntervalById lc' "uuid-1" = Some 1%nat.
Proof.
  set (created :=
         valueOf noSequenceInterval
           (createSequenceInterval "comments" 4 6 exampleText
              IntervalType.SlideOnRemove None None
              (Some IntervalStickiness.END))).
  assert (Hlc : IntervalCollection.localCollection sequenceIntervalCollection1
                = Some sequenceCollection1) by reflexivity.
  assert (Hm0 : LocalIntervalCollection.indexes sequenceCollection1 !! 1%nat
                = Some (IdIntervalIndex
                          (LocalIntervalCollection.idIntervalMap
                             sequenceCollection1)))
    by (vm_compute; reflexivity).
  assert (Htype : Z.land IntervalType.SlideOnRemove IntervalType.Transient = 0)
    by reflexivity.
  assert (Hsticky :
    default IntervalStickiness.END None = IntervalStickiness.END ∨
    IntervalCollection.intervalStickinessEnabled sequenceIntervalCollection1
    = Some true) by (left; reflexivity).
  assert (Hcreate :
    create (LocalIntervalCollection.helpers sequenceCollection1)
      (LocalIntervalCollection.label sequenceCollection1) 4 6
      (LocalIntervalCollection.client sequenceCollection1)
      IntervalType.SlideOnRemove None None
      (Some (default IntervalStickiness.END None)) = Ok created)
    by (apply valueOf_Ok; vm_compute; reflexivity).
  assert (Hprops : withProperties created None created) by reflexivity.
  assert (Hlabel : acceptedLabel None
                     (LocalIntervalCollection.label sequenceCollection1))
    by exact I.
  assert (Hid :
    I.getIntervalId
      (withId created
         (LocalIntervalCollection.uuidSource sequenceCollection1
            (LocalIntervalCollection.uuidCalls sequenceCollection1)))
    = Ok "uuid-1") by (vm_compute; reflexivity).
  assert (Hnext : LocalIntervalCollection.nextAddress sequenceCollection1
                  = 1%nat) by (vm_compute; reflexivity).
  pose proof (add_spec sequenceIntervalCollection1 sequenceCollection1 4 6
                IntervalType.SlideOnRemove None None created created "uuid-1" _
                Hlc sequenceCollection1_healthy Hm0 Htype Hsticky Hcreate
                Hprops Hlabel Hid) as Hspec.
  cbv zeta in Hspec. rewrite Hnext in Hspec.
  destruct Hspec as (this' & lc' & v & Hrun & Hlc' & _ & _ & _ & Hfound & _).
  exists this', lc'. exact (conj Hrun (conj Hlc' Hfound)).
Defined.

(** ** The pending changes of an endpoint *)

(** X11: the pending changes of an endpoint of an interval form a queue.
    [addPendingChangeHelper] appends the op. [removePendingChangeHelper]
    does nothing when no change is pending for the id; otherwise it takes the
    oldest pending change off the queue, dropping the entry of the id with
    the last one, and throws "Mismatch in pending changes" afterwards when
    the positions of that change are not those of the op being
    acknowledged. *)
Theorem pending_changes_fifo {T : Type} (this : IntervalCollection.t T)
    (id : string) (start : bool) (op probe : SerializedIntervalDelta) :
  let pending (s : IntervalCollection.t T) :=
    (if start then IntervalCollection.pendingChangesStart s
     else IntervalCollection.pendingChangesEnd s) !! id in
  let has (s : IntervalCollection.t T) :=
    if start then IntervalCollection.hasPendingChangeStart s (JStr id)
    else IntervalCollection.hasPendingChangeEnd s (JStr id) in
  (∃ this1,
     IntervalCollection.addPendingChangeHelper id start op this = (Ok (), this1) ∧
     pending this1 = Some (default [] (pending this) ++ [op]) ∧
     has this1 = true) ∧
  (pending this = None →
   has this = false ∧
   IntervalCollection.removePendingChangeHelper (JStr id) start probe this
   = (Ok (), this)) ∧
  (∀ oldest rest,
     pending this = Some (oldest :: rest) →
     ∃ this',
       IntervalCollection.removePendingChangeHelper (JStr id) start probe this
       = (if bool_decide (d_start oldest = d_start probe) &&
             bool_decide (d_end oldest = d_end probe)
          then Ok ()
          else Throw (LoggingError "Mismatch in pending changes"), this') ∧
       pending this' = (if bool_decide (rest = []) then None else Some rest) ∧
       has this' = negb (bool_decide (rest = []))).
Proof.
  intros pending has. split_and!.
  - eexists. split; [reflexivity|].
    unfold pending, has, IntervalCollection.hasPendingChangeStart,
      IntervalCollection.hasPendingChangeEnd.
    destruct start; simpl; rewrite lookup_insert_eq;
      (split; [done|]); rewrite bool_decide_false; try done;
      by destruct (default [] _).
  - intros Hnone.
    unfold pending, has, IntervalCollection.hasPendingChangeStart,
      IntervalCollection.hasPendingChangeEnd,
      IntervalCollection.removePendingChangeHelper, bindM, get in *.
    destruct start; simpl; by rewrite Hnone.
  - intros oldest rest Hsome.
    unfold pending, has, IntervalCollection.hasPendingChangeStart,
      IntervalCollection.hasPendingChangeEnd,
      IntervalCollection.removePendingChangeHelper, bindM, get, update,
      differs in *.
    destruct start; simpl; rewrite Hsome; simpl;
      destruct (bool_decide (d_start oldest = d_start probe));
      destruct (bool_decide (d_end oldest = d_end probe)); simpl;
      eexists; (split; [reflexivity|]);
      destruct rest as [|next rest]; simpl;
      rewrite ?lookup_delete_eq, ?lookup_insert_eq; done.
Qed.

Lemma pending_changes_fifo_witness :
  IntervalCollection.hasPendingChangeStart sequenceIntervalCollection2
    (JStr "shared-0") = true ∧
  IntervalCollection.hasPendingChangeEnd sequenceIntervalCollection2
    (JStr "shared-0") = false ∧
  ∃ this',
    IntervalCollection.removePendingChangeHelper (JStr "shared-0") true
      remoteChange sequenceIntervalCollection2
    = (Throw (LoggingError "Mismatch in pending changes"), this') ∧
    IntervalCollection.pendingChangesStart this' !! "shared-0" = None.
Proof.
  assert (Hend : IntervalCollection.pendingChangesEnd sequenceIntervalCollection2
                 !! "shared-0" = None) by (vm_compute; reflexivity).
  assert (Hstart :
    IntervalCollection.pendingChangesStart sequenceIntervalCollection2
      !! "shared-0"
    = Some [pendingOp sequenceIntervalCollection2 1])
    by (vm_compute; reflexivity).
  pose proof (pending_changes_fifo sequenceIntervalCollection2 "shared-0" false
                remoteChange remoteChange) as (_ & Hnone & _).
  pose proof (pending_changes_fifo sequenceIntervalCollection2 "shared-0" true
                remoteChange remoteChange) as (_ & _ & Hsome).
  split; [vm_compute; reflexivity|].
  split; [exact (proj1 (Hnone Hend))|].
  destruct (Hsome _ _ Hstart) as (this' & Hrun & Hpending & _).
  exists this'. split; [exact Hrun|exact Hpending].
Defined.

(** ** Acknowledged additions *)

Lemma ensureSerializedId_fields (serializedInterval : ISerializedInterval) :
  let ensured :=
    (LocalIntervalCollection.ensureSerializedId serializedInterval).2 in
  ser_start ensured = ser_start serializedInterval ∧
  ser_end ensured = ser_end serializedInterval ∧
  ser_intervalType ensured = ser_intervalType serializedInterval ∧
  ser_stickiness ensured = ser_stickiness serializedInterval.
Proof.
  unfold LocalIntervalCollection.ensureSerializedId.
  by destruct (isDefined _).
Qed.

(** X12: [ackAdd]. The acknowledgement of a local addition needs the local
    sequence number of the op (assertion 0x553); with it, the op is no longer
    pending under that number, and nothing else changes when the interval is
    gone. A remote addition to an attached collection in good order, when
    the interval can be created from the op and the properties of the op can
    be added, returns a new interval that is once in every index and found
    under its id, hands it to the deserializer if there is one, fires one
    [addInterval] event carrying the op, emits no op and leaves the pending
    ops alone. *)
Theorem ackAdd_spec {T : Type} {ops : I.ISerializableInterval T}
    {laws : IntervalLaws T} (this : IntervalCollection.t T)
    (lc : LocalIntervalCollection.t T) (serializedInterval : ISerializedInterval)
    (op : ISequencedDocumentMessage) (v0 v1 : T) (id : string)
    (m0 : gmap string nat) :
  IntervalCollection.localCollection this = Some lc →
  healthy lc →
  LocalIntervalCollection.indexes lc !! 1%nat = Some (IdIntervalIndex m0) →
  let properties :=
    ser_properties
      (LocalIntervalCollection.ensureSerializedId serializedInterval).2 in
  create (LocalIntervalCollection.helpers lc) (LocalIntervalCollection.label lc)
    (ser_start serializedInterval) (ser_end serializedInterval)
    (LocalIntervalCollection.client lc) (ser_intervalType serializedInterval)
    (Some op) None
    (Some (default IntervalStickiness.END (ser_stickiness serializedInterval)))
  = Ok v0 →
  withProperties v0 properties v1 →
  acceptedLabel properties (LocalIntervalCollection.label lc) →
  I.getIntervalId
    (withId v1 (LocalIntervalCollection.uuidSource lc
                  (LocalIntervalCollection.uuidCalls lc))) = Ok id →
  let interval := LocalIntervalCollection.nextAddress lc in
  IntervalCollection.ackAdd serializedInterval true op None this
  = (Throw (AssertionFailed 0x553), this) ∧
  (∀ localSeq,
     stringKey (getPropOpt (ser_properties serializedInterval)
                  reservedIntervalIdKey)
       ≫= LocalIntervalCollection.getIntervalById lc = None →
     IntervalCollection.ackAdd serializedInterval true op (Some localSeq) this
     = (Ok None,
        IntervalCollection.setLocalSeqToSerializedInterval this
          (delete localSeq
             (IntervalCollection.localSeqToSerializedInterval this)))) ∧
  ∀ localOpMetadata,
  ∃ this' lc' v,
    IntervalCollection.ackAdd serializedInterval false op localOpMetadata this
    = (Ok (Some interval), this') ∧
    IntervalCollection.localCollection this' = Some lc' ∧
    healthy lc' ∧
    LocalIntervalCollection.store lc' !! interval = Some v ∧
    I.getIntervalId v = Ok id ∧
    LocalIntervalCollection.getIntervalById lc' id = Some interval ∧
    onceIn (LocalIntervalCollection.indexes lc') interval ∧
    IntervalCollection.emitted this' = IntervalCollection.emitted this ∧
    IntervalCollection.events this'
    = IntervalCollection.addIntervalEvent interval false (Some op)
      :: IntervalCollection.events this ∧
    IntervalCollection.deserialized this'
    = (if IntervalCollection.onDeserialize this then [interval] else [])
      ++ IntervalCollection.deserialized this ∧
    IntervalCollection.localSeqToSerializedInterval this'
    = IntervalCollection.localSeqToSerializedInterval this.
Proof.
  intros Hlc Hhealthy Hm0 properties Hcreate Hprops Hlabel Hid interval.
  split_and!.
  - reflexivity.
  - intros localSeq Hnone.
    unfold IntervalCollection.ackAdd, bindM, update,
      IntervalCollection.getIntervalById. simpl.
    rewrite Hlc.
    destruct (stringKey _) as [key|]; [|done]. simpl in Hnone.
    by rewrite Hnone.
  - intros localOpMetadata.
    destruct (addInterval_returns lc (ser_start serializedInterval)
                (ser_end serializedInterval)
                (ser_intervalType serializedInterval) properties (Some op)
                (ser_stickiness serializedInterval) v0 v1 id
                Hhealthy Hcreate Hprops Hlabel Hid)
      as (lc' & v & Hrun & Hhealthy' & Hv & Hidv & Honce & Hmap).
    set (this1 := IntervalCollection.setLocalCollection this (Some lc')).
    destruct (IntervalCollection.ackAdd serializedInterval false op
                localOpMetadata this) as [r this'] eqn:Hack.
    unfold IntervalCollection.ackAdd in Hack. cbv zeta in Hack.
    rewrite (bindM_run _ _ this this this) in Hack by done.
    unfold IntervalCollection.attached in Hack. rewrite Hlc in Hack.
    rewrite bool_decide_true in Hack by eauto.
    change (negb true) with false in Hack. cbv iota in Hack.
    destruct (ensureSerializedId_fields serializedInterval)
      as (Hs & He & Ht & Hk).
    rewrite Hs, He, Ht, Hk in Hack.
    rewrite (bindM_run _ _ this this1 interval) in Hack
      by (apply onLocalCollection_run with (lc := lc); [exact Hlc|exact Hrun]).
    unfold bindM, IntervalCollection.callOnDeserialize, update,
      IntervalCollection.emit, ret, this1 in Hack.
    simpl in Hack.
    assert (Hfound : LocalIntervalCollection.getIntervalById lc' id
                     = Some interval).
    { unfold LocalIntervalCollection.getIntervalById.
      rewrite (Hmap m0 Hm0). apply lookup_insert_eq. }
    exists this', lc', v.
    destruct (IntervalCollection.onDeserialize this); injection Hack as <- <-;
      split_and!; done.
Qed.

Lemma ackAdd_spec_witness :
  ∃ this' lc',
    IntervalCollection.ackAdd remoteAdded false remoteOp None
      sequenceIntervalCollection1 = (Ok (Some 1%nat), this') ∧
    IntervalCollection.localCollection this' = Some lc' ∧
    LocalIntervalCollection.getIntervalById lc' "remote-7" = Some 1%nat ∧
    IntervalCollection.emitted this' = [].
Proof.
  set (properties :=
         defineNonWritable
           (mkProps {[reservedIntervalIdKey := JStr "remote-7"]} ∅)
           reservedIntervalIdKey).
  set (created :=
         valueOf noSequenceInterval
           (createSequenceInterval "comments" 4 6 exampleText
              IntervalType.SlideOnRemove (Some remoteOp) None
              (Some IntervalStickiness.END))).
  set (added :=
         valueOf (noSequenceInterval, None)
           (I.addProperties created properties false None)).
  assert (Hlc : IntervalCollection.localCollection sequenceIntervalCollection1
                = Some sequenceCollection1) by reflexivity.
  assert (Hm0 : LocalIntervalCollection.indexes sequenceCollection1 !! 1%nat
                = Some (IdIntervalIndex
                          (LocalIntervalCollection.idIntervalMap
                             sequenceCollection1)))
    by (vm_compute; reflexivity).
  assert (Hcreate :
    create (LocalIntervalCollection.helpers sequenceCollection1)
      (LocalIntervalCollection.label sequenceCollection1)
      (ser_start remoteAdded) (ser_end remoteAdded)
      (LocalIntervalCollection.client sequenceCollection1)
      (ser_intervalType remoteAdded) (Some remoteOp) None
      (Some (default IntervalStickiness.END (ser_stickiness remoteAdded)))
    = Ok created) by (apply valueOf_Ok; vm_compute; reflexivity).
  assert (Hadded : I.addProperties created properties false None = Ok added)
    by (apply valueOf_Ok; vm_compute; reflexivity).
  assert (Hprops :
    withProperties created
      (ser_properties (LocalIntervalCollection.ensureSerializedId remoteAdded).2)
      added.1) by (exists added; split; [exact Hadded|reflexivity]).
  assert (Hlabel :
    acceptedLabel
      (ser_properties (LocalIntervalCollection.ensureSerializedId remoteAdded).2)
      (LocalIntervalCollection.label sequenceCollection1))
    by (left; vm_compute; reflexivity).
  assert (Hid :
    I.getIntervalId
      (withId added.1
         (LocalIntervalCollection.uuidSource sequenceCollection1
            (LocalIntervalCollection.uuidCalls sequenceCollection1)))
    = Ok "remote-7") by (vm_compute; reflexivity).
  assert (Hnext : LocalIntervalCollection.nextAddress sequenceCollection1
                  = 1%nat) by (vm_compute; reflexivity).
  pose proof (proj2 (proj2 (ackAdd_spec sequenceIntervalCollection1
                              sequenceCollection1 remoteAdded remoteOp created
                              added.1 "remote-7" _ Hlc
                              sequenceCollection1_healthy Hm0 Hcreate Hprops
                              Hlabel Hid)) None) as Hspec.
  rewrite Hnext in Hspec.
  destruct Hspec
    as (this' & lc' & v & Hrun & Hlc' & _ & _ & _ & Hfound & _ & Hemitted & _).
  exists this', lc'. exact (conj Hrun (conj Hlc' (conj Hfound Hemitted))).
Defined.

(** ** Changing an interval through the collection *)

Section ChangeFacts.
Context {T : Type} {ops : I.ISerializableInterval T} {laws : IntervalLaws T}.
Implicit Types (lc : LocalIntervalCollection.t T) (interval : nat).

(** [add] changes no object but the interval. *)
Lemma add_other_objects lc lc' interval a :
  LocalIntervalCollection.add interval lc = (Ok (), lc') →
  a ≠ interval →
  LocalIntervalCollection.store lc' !! a = LocalIntervalCollection.store lc !! a.
Proof.
  unfold LocalIntervalCollection.add. intros H Hne.
  apply bindM_Ok in H as ([] & lc1 & H1 & H).
  apply bindM_Ok in H as ([] & lc2 & H2 & H3).
  apply (updateSequence_indexes interval
           (λ si, SequenceInterval.setEndpoints si
                    (ref_addProperties (SequenceInterval.start si)
                       (mkProps {["interval" := JObject interval]} ∅))
                    (ref_addProperties (SequenceInterval.end_ si)
                       (mkProps {["interval" := JObject interval]} ∅))))
    in H1 as (_ & _ & _ & Hs1).
  apply (updateSequence_indexes interval
           (λ si, SequenceInterval.addPositionChangeListeners si
                    (SequenceInterval.mkListener 0 None)))
    in H3 as (_ & _ & _ & Hs3).
  unfold LocalIntervalCollection.addIntervalToIndexes in H2.
  destruct (LocalIntervalCollection.addToEach _ _ _ _) as [r [ixs' s']] eqn:Hloop.
  injection H2 as -> <-.
  apply (addToEach_store I.getIntervalId id_freeze) in Hloop as (Hs2 & _).
  rewrite Hs3 by done. simpl. rewrite Hs2 by done. by apply Hs1.
Qed.

(** The interval that [changeInterval] has replaced is still an object, without
    its listeners. *)
Lemma changeInterval_old_object lc lc' interval v start end_ op localSeq new :
  LocalIntervalCollection.changeInterval interval start end_ op localSeq lc
  = (Ok (Some new), lc') →
  bounded lc →
  LocalIntervalCollection.store lc !! interval = Some v →
  LocalIntervalCollection.store lc' !! interval = Some (withoutListeners v).
Proof.
  unfold LocalIntervalCollection.changeInterval. intros H Hb Hv.
  apply bindM_Ok in H as (this & s0 & [= <- <-] & H).
  apply bindM_Ok in H as (v0 & s0 & Hread & H).
  injection Hread as _ <-.
  apply bindM_Ok in H as (modified & s0 & Hm & H).
  apply liftR_Ok in Hm as [Hm ->].
  destruct modified as [m|]; [|discriminate].
  apply bindM_Ok in H as (new0 & lc1 & Halloc & H).
  injection Halloc as <- <-.
  set (fresh := LocalIntervalCollection.nextAddress lc) in *.
  set (lc1 := LocalIntervalCollection.mk _ _ _ _ _ _ _ _ _ _) in *.
  apply bindM_Ok in H as ([] & lc2 & Hrem & H).
  apply bindM_Ok in H as ([] & lc3 & Hadd & H).
  injection H as <- <-.
  assert (Hne : interval ≠ fresh).
  { intros ->. destruct Hb as [Hstore _].
    specialize (Hstore fresh (mk_is_Some _ _ Hv)). subst fresh. lia. }
  rewrite (add_other_objects _ _ _ _ Hadd Hne).
  apply (removeExistingInterval_object _ _ _ _ Hrem).
  simpl. by rewrite lookup_insert_ne.
Qed.

End ChangeFacts.

(** [change] of an interval found under the id, when [modify] builds a new
    interval. *)
Lemma change_known {T : Type} {ops : I.ISerializableInterval T}
    {laws : IntervalLaws T} (this : IntervalCollection.t T)
    (lc : LocalIntervalCollection.t T) key interval v m start end_ :
  IntervalCollection.localCollection this = Some lc →
  healthy lc →
  LocalIntervalCollection.getIntervalById lc key = Some interval →
  registered lc interval v →
  I.modify v (LocalIntervalCollection.label lc) start end_ None None
  = Ok (Some m) →
  let new := LocalIntervalCollection.nextAddress lc in
  let localSeq :=
    match IntervalCollection.client this with
    | Some _ => IntervalCollection.collabWindowLocalSeq this + 1
    | None => 0
    end in
  let old := withoutListeners v in
  let serializedInterval :=
    {| d_sequenceNumber := ser_sequenceNumber (I.serialize old);
       d_start := start; d_end := end_;
       d_intervalType := ser_intervalType (I.serialize old);
       d_stickiness := ser_stickiness (I.serialize old);
       d_properties :=
         Some (mkProps {[reservedIntervalIdKey := JStr key]} ∅) |} in
  ∃ this' lc',
    IntervalCollection.change (JStr key) start end_ this
    = (Ok (Some new), this') ∧
    IntervalCollection.localCollection this' = Some lc' ∧
    healthy lc' ∧
    LocalIntervalCollection.getIntervalById lc' key = Some new ∧
    absentFrom (LocalIntervalCollection.indexes lc') interval ∧
    onceIn (LocalIntervalCollection.indexes lc') new ∧
    IntervalCollection.emitted this'
    = IntervalCollection.mkEmitted "change" serializedInterval localSeq
      :: IntervalCollection.emitted this ∧
    IntervalCollection.localSeqToSerializedInterval this'
    = <[localSeq := serializedInterval]>
        (IntervalCollection.localSeqToSerializedInterval this) ∧
    IntervalCollection.pendingChangesStart this'
    = (if bool_decide (is_Some start)
       then <[key := default [] (IntervalCollection.pendingChangesStart this
                                   !! key) ++ [serializedInterval]]>
              (IntervalCollection.pendingChangesStart this)
       else IntervalCollection.pendingChangesStart this) ∧
    IntervalCollection.pendingChangesEnd this'
    = (if bool_decide (is_Some end_)
       then <[key := default [] (IntervalCollection.pendingChangesEnd this
                                   !! key) ++ [serializedInterval]]>
              (IntervalCollection.pendingChangesEnd this)
       else IntervalCollection.pendingChangesEnd this) ∧
    IntervalCollection.events this'
    = IntervalCollection.changeIntervalEvent new
        (IntervalCollection.asSeenByListener old) true None false
      :: IntervalCollection.events this.
Proof.
  intros Hlc Hhealthy Hfound Hreg Hmodify new localSeq old serializedInterval.
  assert (Hattached : IntervalCollection.attached this = true).
  { unfold IntervalCollection.attached. rewrite Hlc.
    by rewrite bool_decide_true by eauto. }
  pose proof Hreg as (Hv & Hb & Hself & Hidx).
  (* the id index *)
  assert (Hm0 : ∃ m0, LocalIntervalCollection.indexes lc !! 1%nat
                      = Some (IdIntervalIndex m0) ∧
                      m0 !! key = Some interval).
  { unfold LocalIntervalCollection.getIntervalById,
      LocalIntervalCollection.idIntervalMap in Hfound.
    destruct (LocalIntervalCollection.indexes lc !! 1%nat) as [ix|]; [|done].
    destruct ix; try done. eauto. }
  destruct Hm0 as (m0 & Hm0 & Hkey0).
  assert (Hid : I.getIntervalId v = Ok key)
    by exact (Forall_lookup_1 _ _ _ _ Hidx Hm0 m0 key eq_refl Hkey0).
  assert (Hidm : I.getIntervalId m = Ok key)
    by (rewrite <- Hid; by eapply modify_id).
  (* the local collection *)
  destruct (changeInterval_returns lc interval v start end_ None None
              (Some m) Hhealthy Hv (ex_intro _ key Hid) Hmodify)
    as (r & lc' & Hrun & Hhealthy' & _ & Hsome).
  { intros m' [= <-]. eauto. }
  destruct (Hsome (mk_is_Some _ _ eq_refl)) as [new' ->].
  pose proof Hrun as Hrun'.
  eapply (changeInterval_Ok I.getIntervalId) in Hrun';
    [|apply id_callbacks|apply id_same|apply id_link|apply id_freeze|done].
  destruct Hrun' as (v0 & Hv0 & Hcases).
  rewrite Hv in Hv0. injection Hv0 as <-.
  destruct Hcases as [(_ & Hnone & _) | (m' & v' & Hm' & Hnew & _ & _ & _ & _
                                         & Honce & Habs)]; [done|].
  injection Hnew as ->. fold new in Hrun, Honce.
  pose proof (changeInterval_idIntervalMap lc interval start end_ None None
                new lc' v m key key Hrun Hb (ex_intro _ m0 Hm0) Hv Hmodify
                Hid Hidm) as Hmap.
  pose proof (changeInterval_old_object lc lc' interval v start end_ None
                None new Hrun Hb Hv) as Hold.
  fold old in Hold.
  assert (Hidold : I.getIntervalId old = Ok key).
  { rewrite <- Hid. unfold old, withoutListeners.
    destruct (I.asSequenceInterval v) eqn:Hsi; [|done].
    by apply id_callbacks. }
  (* the collection *)
  set (this1 := IntervalCollection.setLocalCollection this (Some lc')).
  assert (Hread :
    IntervalCollection.onLocalCollection
      (LocalIntervalCollection.readInterval interval) this1
    = (Ok old, this1)).
  { unfold IntervalCollection.onLocalCollection, this1. simpl.
    unfold LocalIntervalCollection.readInterval, readObject.
    by rewrite Hold. }
  destruct (IntervalCollection.change (JStr key) start end_ this)
    as [r this'] eqn:Hchange.
  unfold IntervalCollection.change in Hchange.
  rewrite (bindM_run _ _ this this this) in Hchange by done.
  rewrite Hattached in Hchange. change (negb true) with false in Hchange.
  cbv iota in Hchange.
  rewrite (bindM_run _ _ this this (Some interval)) in Hchange
    by (unfold IntervalCollection.getIntervalById; rewrite Hlc; simpl;
        by rewrite Hfound).
  rewrite (bindM_run _ _ this this1 (Some new)) in Hchange
    by (by apply onLocalCollection_run with (lc := lc)).
  rewrite (bindM_run _ _ this1 this1 old) in Hchange by exact Hread.
  rewrite (bindM_run _ _ this1 this1 key) in Hchange
    by (unfold liftR; by rewrite Hidold).
  unfold IntervalCollection.getNextLocalSeq, bindM, update,
    IntervalCollection.emitOp, IntervalCollection.addPendingChange,
    IntervalCollection.addPendingChangeHelper, IntervalCollection.emitChange,
    IntervalCollection.emit, ret, this1 in Hchange.
  simpl in Hchange.
  exists this', lc'. unfold localSeq.
  assert (Hfound' : LocalIntervalCollection.getIntervalById lc' key
                    = Some new).
  { unfold LocalIntervalCollection.getIntervalById. rewrite Hmap.
    apply lookup_insert_eq. }
  specialize (Habs Hself Hidx).
  destruct (IntervalCollection.client this), start, end_; simpl in Hchange;
    injection Hchange as <- <-; split_and!; done.
Qed.


Lemma valueOf_Some {A : Type} (fallback : A) (r : Result (option A)) :
  match r with Ok (Some _) => true | _ => false end = true →
  r = Ok (Some (default fallback (valueOf None r))).
Proof. by destruct r as [[]|]. Qed.


(** ** Acknowledging a local interval *)

(** The reference has nowhere to slide to: it is off the sequence, or its
    segment does not hold it, or the merge tree leaves it where it is. *)
Definition staysPut (c : Client) (lref : LocalReferencePosition) : Prop :=
  match getSegment lref with
  | Some segment =>
      hasLocalRef c segment lref = true →
      getSlideToSegment c (mkSegoff (Some segment) (Some (getOffset lref)))
      = mkSegoff (Some segment) (Some (getOffset lref))
  | None => True
  end.

Lemma getSlideToSegment_staysPut {T : Type} (this : IntervalCollection.t T)
    (c : Client) (lref : LocalReferencePosition) :
  IntervalCollection.client this = Some c →
  staysPut c lref →
  IntervalCollection.getSlideToSegment_ lref this = (Ok None, this).
Proof.
  unfold IntervalCollection.getSlideToSegment_, staysPut, bindM, get.
  intros -> Hstays.
  destruct (getSegment lref) as [segment|]; [|done].
  destruct (hasLocalRef c segment lref); [|done].
  rewrite Hstays by done. simpl. by rewrite !bool_decide_true.
Qed.

(** The bits of a reference type after [setSlideOnRemove]. *)
Lemma setSlideOnRemove_flags (lref : LocalReferencePosition) :
  let lref' := IntervalCollection.setSlideOnRemove lref in
  refTypeIncludesFlag (refType lref') ReferenceType.SlideOnRemove = true ∧
  refTypeIncludesFlag (refType lref') ReferenceType.StayOnRemove = false ∧
  (∀ n, n ≠ 6 → n ≠ 7 →
        Z.testbit (refType lref') n = Z.testbit (refType lref) n) ∧
  getSegment lref' = getSegment lref ∧
  getOffset lref' = getOffset lref ∧
  slidingPreference lref' = slidingPreference lref ∧
  ref_properties lref' = ref_properties lref.
Proof.
  unfold IntervalCollection.setSlideOnRemove, ref_setRefType,
    refTypeIncludesFlag. simpl.
  set (t := refType lref).
  assert (H6 : Z.testbit (Z.lor (Z.land t (Z.lnot ReferenceType.StayOnRemove))
                            ReferenceType.SlideOnRemove) 6 = true).
  { rewrite Z.lor_spec. change (Z.testbit ReferenceType.SlideOnRemove 6) with true.
    apply orb_true_r. }
  assert (H7 : Z.testbit (Z.lor (Z.land t (Z.lnot ReferenceType.StayOnRemove))
                            ReferenceType.SlideOnRemove) 7 = false).
  { rewrite Z.lor_spec, Z.land_spec.
    change (Z.testbit ReferenceType.SlideOnRemove 7) with false.
    change (Z.testbit (Z.lnot ReferenceType.StayOnRemove) 7) with false.
    by rewrite andb_false_r. }
  split_and!; try done.
  - apply negb_true_iff, Z.eqb_neq. intros Hzero.
    apply (f_equal (λ z, Z.testbit z 6)) in Hzero.
    rewrite Z.land_spec, H6 in Hzero. by vm_compute in Hzero.
  - apply negb_false_iff, Z.eqb_eq. apply Z.bits_inj'. intros n Hn.
    rewrite Z.land_spec, Z.bits_0.
    change ReferenceType.StayOnRemove with (2 ^ 7) at 2.
    rewrite Z.pow2_bits_eqb by lia.
    destruct (Z.eqb_spec 7 n) as [<-|_]; [by rewrite H7|apply andb_false_r].
  - intros n Hn6 Hn7. destruct (Z.lt_ge_cases n 0) as [Hneg|Hpos].
    { by rewrite !Z.testbit_neg_r. }
    rewrite Z.lor_spec, Z.land_spec, Z.lnot_spec by done.
    change ReferenceType.StayOnRemove with (2 ^ 7).
    change ReferenceType.SlideOnRemove with (2 ^ 6).
    rewrite !Z.pow2_bits_eqb by lia.
    destruct (Z.eqb_spec 7 n) as [<-|_]; [done|].
    destruct (Z.eqb_spec 6 n) as [<-|_]; [done|].
    simpl. by rewrite andb_true_r, orb_false_r.
Qed.

(** X14: [ackInterval], which the acknowledgement of a local addition or
    change runs. A numeric interval, and a sequence interval whose endpoints
    are not StayOnRemove references, are left as they are. For a sequence
    interval with a StayOnRemove endpoint whose endpoints have nowhere to
    slide to, every endpoint without a pending change becomes a
    SlideOnRemove reference ([setSlideOnRemove] sets that bit, clears
    StayOnRemove and keeps the rest of the reference) and an endpoint with a
    pending change is left alone; the indices are not touched, no op is
    emitted and no event is fired. *)
Theorem ackInterval_settles {T : Type} {ops : I.ISerializableInterval T}
    (this : IntervalCollection.t T) (lc : LocalIntervalCollection.t T)
    (interval : nat) (v : T) (op : ISequencedDocumentMessage) :
  IntervalCollection.localCollection this = Some lc →
  LocalIntervalCollection.store lc !! interval = Some v →
  match I.asSequenceInterval v with
  | None => IntervalCollection.ackInterval interval op this = (Ok (), this)
  | Some si =>
      let id := getProp (SequenceInterval.properties si) reservedIntervalIdKey in
      let stays lref :=
        refTypeIncludesFlag (refType lref) ReferenceType.StayOnRemove in
      if negb (stays (SequenceInterval.start si)) &&
         negb (stays (SequenceInterval.end_ si))
      then IntervalCollection.ackInterval interval op this = (Ok (), this)
      else
        ∀ c, IntervalCollection.client this = Some c →
             staysPut c (SequenceInterval.start si) →
             staysPut c (SequenceInterval.end_ si) →
             IntervalCollection.ackInterval interval op this
             = (Ok (),
                IntervalCollection.setLocalCollection this
                  (Some (LocalIntervalCollection.setStore lc
                     (<[interval :=
                          I.ofSequenceInterval v
                            (SequenceInterval.setEndpoints si
                               (if IntervalCollection.hasPendingChangeStart this id
                                then SequenceInterval.start si
                                else IntervalCollection.setSlideOnRemove
                                       (SequenceInterval.start si))
                               (if IntervalCollection.hasPendingChangeEnd this id
                                then SequenceInterval.end_ si
                                else IntervalCollection.setSlideOnRemove
                                       (SequenceInterval.end_ si)))]>
                        (LocalIntervalCollection.store lc)))))
  end ∧
  ∀ lref,
    let lref' := IntervalCollection.setSlideOnRemove lref in
    refTypeIncludesFlag (refType lref') ReferenceType.SlideOnRemove = true ∧
    refTypeIncludesFlag (refType lref') ReferenceType.StayOnRemove = false ∧
    (∀ n, n ≠ 6 → n ≠ 7 →
          Z.testbit (refType lref') n = Z.testbit (refType lref) n) ∧
    getSegment lref' = getSegment lref ∧
    getOffset lref' = getOffset lref ∧
    slidingPreference lref' = slidingPreference lref ∧
    ref_properties lref' = ref_properties lref.
Proof.
  intros Hlc Hv. split; [|apply setSlideOnRemove_flags].
  assert (Hthis : IntervalCollection.setLocalCollection this (Some lc) = this).
  { destruct this. simpl in Hlc. by subst. }
  assert (Hread :
    IntervalCollection.onLocalCollection
      (LocalIntervalCollection.readInterval interval) this = (Ok v, this)).
  { rewrite <- Hthis at 2. apply onLocalCollection_run with (lc := lc); [done|].
    unfold LocalIntervalCollection.readInterval, readObject. by rewrite Hv. }
  unfold IntervalCollection.ackInterval.
  rewrite (bindM_run _ _ this this v) by exact Hread.
  destruct (I.asSequenceInterval v) as [si|]; [|done].
  cbv zeta.
  destruct (negb _ && negb _); [done|].
  intros c Hc Hstart Hend.
  rewrite (bindM_run _ _ this this None)
    by (by apply getSlideToSegment_staysPut with (c := c)).
  rewrite (bindM_run _ _ this this None)
    by (by apply getSlideToSegment_staysPut with (c := c)).
  rewrite (bindM_run _ _ this this this) by done.
  cbv zeta.
  erewrite bindM_run;
    [|apply onLocalCollection_run with (lc := lc); [done|reflexivity]].
  reflexivity.
Qed.

Lemma ackInterval_settles_witness :
  ∃ this' lc' v',
    IntervalCollection.ackInterval 0 remoteOp sequenceIntervalCollection1
    = (Ok (), this') ∧
    IntervalCollection.localCollection this' = Some lc' ∧
    LocalIntervalCollection.store lc' !! 0%nat = Some v' ∧
    refTypeIncludesFlag (refType (SequenceInterval.start v'))
      ReferenceType.SlideOnRemove = true ∧
    refTypeIncludesFlag
      (refType (SequenceInterval.start
                  (objectAt sequenceCollection1 0 noSequenceInterval)))
      ReferenceType.SlideOnRemove = false.
Proof.
  assert (Hlc : IntervalCollection.localCollection sequenceIntervalCollection1
                = Some sequenceCollection1) by reflexivity.
  assert (Hv : LocalIntervalCollection.store sequenceCollection1 !! 0%nat
               = Some (objectAt sequenceCollection1 0 noSequenceInterval))
    by (vm_compute; reflexivity).
  pose proof (proj1 (ackInterval_settles sequenceIntervalCollection1
                       sequenceCollection1 0%nat _ remoteOp Hlc Hv)) as Hspec.
  cbv beta iota zeta delta [I.asSequenceInterval
                              SequenceInterval_ISerializableInterval] in Hspec.
  assert (Hflags :
    negb (refTypeIncludesFlag
            (refType (SequenceInterval.start
                        (objectAt sequenceCollection1 0 noSequenceInterval)))
            ReferenceType.StayOnRemove) &&
    negb (refTypeIncludesFlag
            (refType (SequenceInterval.end_
                        (objectAt sequenceCollection1 0 noSequenceInterval)))
            ReferenceType.StayOnRemove) = false) by (vm_compute; reflexivity).
  rewrite Hflags in Hspec.
  assert (Hc : IntervalCollection.client sequenceIntervalCollection1
               = Some exampleText) by reflexivity.
  assert (Hstart : staysPut exampleText
                     (SequenceInterval.start
                        (objectAt sequenceCollection1 0 noSequenceInterval)))
    by (vm_compute; intros _; reflexivity).
  assert (Hend : staysPut exampleText
                   (SequenceInterval.end_
                      (objectAt sequenceCollection1 0 noSequenceInterval)))
    by (vm_compute; intros _; reflexivity).
  specialize (Hspec exampleText Hc Hstart Hend).
  eexists _, _, _. split; [exact Hspec|]. split; [reflexivity|].
  split; [apply lookup_insert_eq|]. split; vm_compute; reflexivity.
Defined.

(** ** Changing the properties of an interval *)

(** X15: [changeProperties] on an attached collection. An id that is not a
    string, a missing property bag and a property bag that sets the label
    are rejected, and an id that leads to no interval is ignored, all without
    changing anything. For an interval found under the id that takes the
    properties, the call returns: the interval object has the properties and
    stays where it is (no index, no endpoint and no pending change is
    touched); one "change" op without positions has been emitted under the
    next local sequence number and recorded as pending under it, carrying the
    given properties together with the id of the interval; and one
    [propertyChanged] event has been fired with the deltas. *)
Theorem changeProperties_spec {T : Type} {ops : I.ISerializableInterval T}
    (this : IntervalCollection.t T) (lc : LocalIntervalCollection.t T) :
  IntervalCollection.localCollection this = Some lc →
  (∀ id props,
     stringKey id = None →
     IntervalCollection.changeProperties id props this
     = (Throw (LoggingError "Change API requires an ID that is a string"),
        this)) ∧
  (∀ key,
     IntervalCollection.changeProperties (JStr key) None this
     = (Throw (LoggingError
                 "changeProperties should be called with a property set"),
        this)) ∧
  (∀ key props,
     isDefined (getProp props reservedRangeLabelsKey) = true →
     IntervalCollection.changeProperties (JStr key) (Some props) this
     = (Throw (LoggingError
                 "The label property should not be modified once inserted to the collection"),
        this)) ∧
  (∀ key props,
     isDefined (getProp props reservedRangeLabelsKey) = false →
     LocalIntervalCollection.getIntervalById lc key = None →
     IntervalCollection.changeProperties (JStr key) (Some props) this
     = (Ok (), this)) ∧
  (∀ key props interval v r id,
     isDefined (getProp props reservedRangeLabelsKey) = false →
     LocalIntervalCollection.getIntervalById lc key = Some interval →
     LocalIntervalCollection.store lc !! interval = Some v →
     I.addProperties v props true (Some UnassignedSequenceNumber) = Ok r →
     I.getIntervalId r.1 = Ok id →
     reservedIntervalIdKey ∉ nonWritable props →
     let localSeq :=
       match IntervalCollection.client this with
       | Some _ => IntervalCollection.collabWindowLocalSeq this + 1
       | None => 0
       end in
     let serializedInterval :=
       {| d_sequenceNumber := ser_sequenceNumber (I.serialize r.1);
          d_start := None; d_end := None;
          d_intervalType := ser_intervalType (I.serialize r.1);
          d_stickiness := ser_stickiness (I.serialize r.1);
          d_properties :=
            Some (mkProps (<[reservedIntervalIdKey := JStr id]> (entries props))
                          (nonWritable props)) |} in
     ∃ this',
       IntervalCollection.changeProperties (JStr key) (Some props) this
       = (Ok (), this') ∧
       IntervalCollection.localCollection this'
       = Some (LocalIntervalCollection.setStore lc
                 (<[interval := r.1]> (LocalIntervalCollection.store lc))) ∧
       IntervalCollection.emitted this'
       = IntervalCollection.mkEmitted "change" serializedInterval localSeq
         :: IntervalCollection.emitted this ∧
       IntervalCollection.localSeqToSerializedInterval this'
       = <[localSeq := serializedInterval]>
           (IntervalCollection.localSeqToSerializedInterval this) ∧
       IntervalCollection.pendingChangesStart this'
       = IntervalCollection.pendingChangesStart this ∧
       IntervalCollection.pendingChangesEnd this'
       = IntervalCollection.pendingChangesEnd this ∧
       IntervalCollection.events this'
       = IntervalCollection.propertyChangedEvent interval r.2 true None
         :: IntervalCollection.events this).
Proof.
  intros Hlc.
  assert (Hattached : IntervalCollection.attached this = true).
  { unfold IntervalCollection.attached. rewrite Hlc.
    by rewrite bool_decide_true by eauto. }
  assert (Hthis : IntervalCollection.setLocalCollection this (Some lc) = this).
  { destruct this. simpl in Hlc. by subst. }
  split_and!.
  - intros id props Hid.
    unfold IntervalCollection.changeProperties, bindM, get.
    rewrite Hattached. by destruct id.
  - intros key. unfold IntervalCollection.changeProperties, bindM, get.
    by rewrite Hattached.
  - intros key props Hlabel.
    unfold IntervalCollection.changeProperties, bindM, get.
    by rewrite Hattached, Hlabel.
  - intros key props Hlabel Hnone.
    unfold IntervalCollection.changeProperties.
    rewrite (bindM_run _ _ this this this) by done.
    rewrite Hattached, Hlabel. change (negb true) with false. cbv iota.
    rewrite (bindM_run _ _ this this None); [done|].
    unfold IntervalCollection.getIntervalById. rewrite Hlc. simpl.
    by rewrite Hnone.
  - intros key props interval v r id Hlabel Hfound Hv Hr Hid Hwritable localSeq
      serializedInterval.
    set (lc' := LocalIntervalCollection.setStore lc
                  (<[interval := r.1]> (LocalIntervalCollection.store lc))).
    set (this1 := IntervalCollection.setLocalCollection this (Some lc')).
    destruct (IntervalCollection.changeProperties (JStr key) (Some props) this)
      as [res this'] eqn:Hrun.
    unfold IntervalCollection.changeProperties in Hrun.
    rewrite (bindM_run _ _ this this this) in Hrun by done.
    rewrite Hattached, Hlabel in Hrun. change (negb true) with false in Hrun.
    cbv iota in Hrun.
    rewrite (bindM_run _ _ this this (Some interval)) in Hrun
      by (unfold IntervalCollection.getIntervalById; rewrite Hlc; simpl;
          by rewrite Hfound).
    rewrite (bindM_run _ _ this this v) in Hrun.
    2:{ rewrite <- Hthis at 2.
        apply onLocalCollection_run with (lc := lc); [done|].
        unfold LocalIntervalCollection.readInterval, readObject.
        by rewrite Hv. }
    rewrite (bindM_run _ _ this this r) in Hrun
      by (unfold liftR; by rewrite Hr).
    rewrite (bindM_run _ _ this this1 ()) in Hrun
      by (by apply onLocalCollection_run with (lc := lc)).
    rewrite (bindM_run _ _ this1 this1 id) in Hrun
      by (unfold liftR; by rewrite Hid).
    unfold IntervalCollection.assignProp in Hrun.
    rewrite bool_decide_false in Hrun by done.
    unfold IntervalCollection.getNextLocalSeq, bindM, liftR, update,
      IntervalCollection.emitOp, IntervalCollection.emit, this1 in Hrun.
    simpl in Hrun. exists this'. unfold localSeq.
    destruct (IntervalCollection.client this); injection Hrun as <- <-;
      split_and!; done.
Qed.

Lemma changeProperties_spec_witness :
  let props := mkProps {["colour" := JStr "red"]} ∅ in
  IntervalCollection.changeProperties (JStr "uuid-0")
    (Some (mkProps {[reservedRangeLabelsKey := JArr [JStr "other"]]} ∅))
    sequenceIntervalCollection1
  = (Throw (LoggingError
              "The label property should not be modified once inserted to the collection"),
     sequenceIntervalCollection1) ∧
  ∃ this' lc',
    IntervalCollection.changeProperties (JStr "uuid-0") (Some props)
      sequenceIntervalCollection1 = (Ok (), this') ∧
    IntervalCollection.localCollection this' = Some lc' ∧
    LocalIntervalCollection.indexes lc'
    = LocalIntervalCollection.indexes sequenceCollection1 ∧
    IntervalCollection.pendingChangesStart this' = ∅.
Proof.
  intros props.
  assert (Hlc : IntervalCollection.localCollection sequenceIntervalCollection1
                = Some sequenceCollection1) by reflexivity.
  pose proof (changeProperties_spec sequenceIntervalCollection1
                sequenceCollection1 Hlc) as (_ & _ & Hlabel & _ & Hknown).
  split.
  - apply Hlabel. vm_compute. reflexivity.
  - set (v := objectAt sequenceCollection1 0 noSequenceInterval).
    set (r := valueOf (noSequenceInterval, None)
                (I.addProperties v props true (Some UnassignedSequenceNumber))).
    assert (Hnolabel : isDefined (getProp props reservedRangeLabelsKey) = false)
      by (vm_compute; reflexivity).
    assert (Hfound : LocalIntervalCollection.getIntervalById sequenceCollection1
                       "uuid-0" = Some 0%nat) by (vm_compute; reflexivity).
    assert (Hv : LocalIntervalCollection.store sequenceCollection1 !! 0%nat
                 = Some v) by (vm_compute; reflexivity).
    assert (Hr : I.addProperties v props true (Some UnassignedSequenceNumber)
                 = Ok r) by (apply valueOf_Ok; vm_compute; reflexivity).
    assert (Hid : I.getIntervalId r.1 = Ok "uuid-0")
      by (vm_compute; reflexivity).
    assert (Hwritable : reservedIntervalIdKey ∉ nonWritable props)
      by apply not_elem_of_empty.
    destruct (Hknown "uuid-0" props 0%nat v r "uuid-0" Hnolabel Hfound Hv Hr
                Hid Hwritable)
      as (this' & Hrun & Hlc' & _ & _ & Hpending & _).
    exists this'. eexists. split; [exact Hrun|]. split; [exact Hlc'|].
    split; [reflexivity|exact Hpending].
Defined.

(** ** Loading the saved intervals *)

Section Load.
Context {T : Type} {ops : I.ISerializableInterval T} {laws : IntervalLaws T}.
Implicit Types (this : IntervalCollection.t T)
  (lc : LocalIntervalCollection.t T).

(** A saved interval can be loaded, and gets this id: [create] returns an
    interval from it, the interval takes the saved properties, and has the id
    afterwards. *)
Definition loadable (hs : IIntervalHelpers T) (label : string)
    (client : option Client) (saved : ISerializedInterval) (id : string)
  : Prop :=
  let serializedInterval :=
    (LocalIntervalCollection.ensureSerializedId saved).2 in
  ∃ v0 w,
    create hs label (ser_start serializedInterval) (ser_end serializedInterval)
      client (ser_intervalType serializedInterval) None (Some true)
      (ser_stickiness serializedInterval) = Ok v0 ∧
    match ser_properties serializedInterval with
    | Some properties =>
        ∃ r, I.addProperties v0 properties false None = Ok r ∧ w = r.1
    | None => w = v0
    end ∧
    I.getIntervalId w = Ok id.

(** The intervals loaded so far are found under their ids. *)
Definition loaded lc (ids : list string) : Prop :=
  healthy lc ∧
  ∃ m0, LocalIntervalCollection.indexes lc !! 1%nat = Some (IdIntervalIndex m0) ∧
        ∀ id, id ∈ ids →
              ∃ interval v,
                m0 !! id = Some interval ∧
                LocalIntervalCollection.store lc !! interval = Some v ∧
                I.getIntervalId v = Ok id.

Lemma idIntervalMap_index lc key interval m :
  LocalIntervalCollection.idIntervalMap lc = <[key := interval]> m →
  LocalIntervalCollection.indexes lc !! 1%nat
  = Some (IdIntervalIndex (<[key := interval]> m)).
Proof.
  unfold LocalIntervalCollection.idIntervalMap. intros H.
  destruct (LocalIntervalCollection.indexes lc !! 1%nat) as [[]|];
    try (by rewrite H);
    exfalso; symmetry in H; exact (insert_non_empty _ _ _ H).
Qed.

(** One round of the loop of [attachGraph]. *)
Lemma attachSaved_returns this lc client label saved id ids :
  IntervalCollection.localCollection this = Some lc →
  loaded lc ids →
  loadable (IntervalCollection.helpers this) label client saved id →
  ∃ lc',
    IntervalCollection.attachSaved client label saved this
    = (Ok (), IntervalCollection.setLocalCollection this (Some lc')) ∧
    loaded lc' (ids ++ [id]).
Proof.
  intros Hlc (Hhealthy & m0 & Hm0 & Hids) (v0 & w & Hcreate & Hprops & Hid).
  set (fresh := LocalIntervalCollection.nextAddress lc).
  set (lc1 := (LocalIntervalCollection.allocate v0 lc).2).
  set (this1 := IntervalCollection.setLocalCollection this (Some lc1)).
  set (lc2 := LocalIntervalCollection.setStore lc1
                (<[fresh := w]> (LocalIntervalCollection.store lc))).
  set (this2 := IntervalCollection.setLocalCollection this (Some lc2)).
  assert (Hstore2 : LocalIntervalCollection.store lc2
                    = <[fresh := w]> (LocalIntervalCollection.store lc))
    by reflexivity.
  assert (Hnext2 : LocalIntervalCollection.nextAddress lc2 = S fresh)
    by reflexivity.
  assert (Hix2 : LocalIntervalCollection.indexes lc2
                 = LocalIntervalCollection.indexes lc) by reflexivity.
  assert (Hhs2 : LocalIntervalCollection.helpers lc2
                 = LocalIntervalCollection.helpers lc) by reflexivity.
  destruct (healthy_fresh lc lc2 w Hhealthy Hstore2 Hnext2 Hix2 Hhs2)
    as [Hhealthy2 _].
  assert (Hw2 : LocalIntervalCollection.store lc2 !! fresh = Some w)
    by apply lookup_insert_eq.
  destruct (add_returns lc2 fresh Hhealthy2) as (lc' & Hadd & Hhealthy' & Hext).
  { by exists w, id. }
  rewrite <- Hix2 in Hm0.
  destruct (add_idIntervalMap lc2 lc' fresh w id m0 Hadd Hw2 Hid Hm0)
    as (Hmap & v' & Hv' & Hidv').
  destruct (Hext (proj1 Hhealthy2)) as (_ & _ & Hobjects & _).
  exists lc'. split.
  - unfold IntervalCollection.attachSaved. cbv zeta.
    rewrite (bindM_run _ _ this this this) by done.
    rewrite (bindM_run _ _ this this v0)
      by (unfold liftR; by rewrite Hcreate).
    rewrite (bindM_run _ _ this this1 fresh).
    2:{ by apply onLocalCollection_run with (lc := lc). }
    assert (Hstep :
      match ser_properties
              (LocalIntervalCollection.ensureSerializedId saved).2 with
      | Some properties =>
          let! r := liftR (I.addProperties v0 properties false None) in
          IntervalCollection.onLocalCollection
            (LocalIntervalCollection.writeInterval fresh r.1)
      | None => ret ()
      end this1 = (Ok (), this2)).
    { destruct (ser_properties _) as [properties|].
      - destruct Hprops as (r & Hr & ->).
        rewrite (bindM_run _ _ this1 this1 r)
          by (unfold liftR; by rewrite Hr).
        unfold IntervalCollection.onLocalCollection, this1, this2, lc2, lc1.
        simpl. by rewrite insert_insert_eq.
      - subst w. unfold ret, this1, this2, lc2, lc1. by do 3 f_equal. }
    rewrite (bindM_run _ _ this1 this2 ()) by exact Hstep.
    unfold IntervalCollection.onLocalCollection, this2. simpl.
    by rewrite Hadd.
  - split; [done|]. exists (<[id := fresh]> m0).
    split; [by apply idIntervalMap_index|].
    intros id0 Hin. destruct (decide (id0 = id)) as [->|Hne].
    + exists fresh, v'. split_and!; try done. apply lookup_insert_eq.
    + apply elem_of_app in Hin as [Hin|Hin];
        [|by apply list_elem_of_singleton in Hin].
      destruct (Hids id0 Hin) as (interval & v & Hfound & Hv & Hidv).
      assert (Hold : interval ≠ fresh).
      { intros ->. destruct Hhealthy as [[Hbound _] _].
        specialize (Hbound fresh (mk_is_Some _ _ Hv)). subst fresh. lia. }
      destruct (Hobjects interval v) as (v2 & Hv2 & Hidv2).
      { rewrite Hstore2. by rewrite lookup_insert_ne. }
      exists interval, v2. split_and!; try congruence.
      by rewrite lookup_insert_ne.
Qed.

(** The loop of [attachGraph]. *)
Lemma attachSaved_loop hs this lc client label saved ids done :
  IntervalCollection.helpers this = hs →
  IntervalCollection.localCollection this = Some lc →
  loaded lc done →
  Forall2 (loadable hs label client) saved ids →
  ∃ lc',
    forEach saved (IntervalCollection.attachSaved client label) this
    = (Ok (), IntervalCollection.setLocalCollection this (Some lc')) ∧
    loaded lc' (done ++ ids).
Proof.
  intros Hhs Hlc Hloaded Hall. revert this lc done Hhs Hlc Hloaded.
  induction Hall as [|s id saved ids Hs Hall IH];
    intros this lc done Hhs Hlc Hloaded.
  - exists lc. rewrite app_nil_r. split; [|done]. simpl. unfold ret.
    f_equal. destruct this. simpl in Hlc. by subst.
  - rewrite <- Hhs in Hs.
    destruct (attachSaved_returns this lc client label s id done Hlc Hloaded Hs)
      as (lc1 & Hrun1 & Hloaded1).
    destruct (IH (IntervalCollection.setLocalCollection this (Some lc1)) lc1
                (done ++ [id]) Hhs eq_refl Hloaded1) as (lc' & Hrun & Hloaded').
    exists lc'. simpl.
    rewrite (bindM_run _ _ _ _ () Hrun1), Hrun.
    split; [done|]. by rewrite <- app_assoc in Hloaded'.
Qed.

End Load.

(** X17: loading. [attachGraph] on a collection that is not attached, given
    a client if the collection requires one, when every saved interval can
    be loaded ([create] returns an interval from it and the interval takes
    the saved properties): the call returns and leaves an attached
    collection in good order, without saved intervals, in which the id of
    every saved interval (its own, or the legacy id that [ensureSerializedId]
    gave it) leads to an interval that has this id; no op is emitted and no
    event is fired. *)
Theorem attachGraph_loads {T : Type} {ops : I.ISerializableInterval T}
    {laws : IntervalLaws T} (this : IntervalCollection.t T)
    (client : option Client) (label : string) (uuidSource : nat → string)
    (ids : list string) :
  IntervalCollection.attached this = false →
  (IntervalCollection.requiresClient this = true → is_Some client) →
  Forall2 (loadable (IntervalCollection.helpers this) label client)
    (default [] (IntervalCollection.savedSerializedIntervals this)) ids →
  ∃ this' lc',
    IntervalCollection.attachGraph client label uuidSource this
    = (Ok (), this') ∧
    IntervalCollection.localCollection this' = Some lc' ∧
    healthy lc' ∧
    IntervalCollection.savedSerializedIntervals this' = None ∧
    IntervalCollection.client this' = client ∧
    (∀ id, id ∈ ids →
           ∃ interval v,
             LocalIntervalCollection.getIntervalById lc' id = Some interval ∧
             LocalIntervalCollection.store lc' !! interval = Some v ∧
             I.getIntervalId v = Ok id) ∧
    IntervalCollection.emitted this' = IntervalCollection.emitted this ∧
    IntervalCollection.events this' = IntervalCollection.events this.
Proof.
  intros Hattached Hclient Hall.
  set (lc0 := LocalIntervalCollection.new client label
                (IntervalCollection.helpers this) true uuidSource).
  assert (Hloaded0 : loaded lc0 []).
  { split; [apply healthyCheck_sound; reflexivity|].
    exists ∅. split; [reflexivity|]. intros id Hin.
    by apply elem_of_nil in Hin. }
  assert (Hgate : bool_decide (client = None) &&
                  IntervalCollection.requiresClient this = false).
  { destruct (IntervalCollection.requiresClient this); [|apply andb_false_r].
    destruct (Hclient eq_refl) as [c ->]. done. }
  unfold IntervalCollection.attachGraph.
  rewrite (bindM_run _ _ this this this) by done.
  rewrite Hattached, Hgate.
  unfold bindM at 1, update at 1.
  set (this0 := IntervalCollection.mk _ _ _ _ _ _ _ _ _ _ _ _ _ _ _).
  destruct (attachSaved_loop (IntervalCollection.helpers this) this0 lc0 client
              label _ ids [] eq_refl eq_refl Hloaded0 Hall)
    as (lc' & Hloop & Hhealthy' & m & Hm & Hids).
  rewrite (bindM_run _ _ this0 _ () Hloop). unfold update.
  eexists _, lc'. split_and!; try done.
  intros id Hin. destruct (Hids id Hin) as (interval & v & Hfound & Hv & Hid).
  exists interval, v. split_and!; try done.
  unfold LocalIntervalCollection.getIntervalById,
    LocalIntervalCollection.idIntervalMap. by rewrite Hm.
Qed.

Lemma loadable_example (saved : ISerializedInterval) (id : string)
    (properties : PropertySet) :
  let ensured := (LocalIntervalCollection.ensureSerializedId saved).2 in
  let created :=
    createSequenceInterval "comments" (ser_start ensured) (ser_end ensured)
      exampleText (ser_intervalType ensured) None (Some true)
      (ser_stickiness ensured) in
  ser_properties ensured = Some properties →
  match created with
  | Ok v0 =>
      match I.addProperties v0 properties false None with
      | Ok r =>
          match I.getIntervalId r.1 with
          | Ok id' => bool_decide (id' = id)
          | Throw _ => false
          end
      | Throw _ => false
      end
  | Throw _ => false
  end = true →
  loadable sequenceIntervalHelpers "comments" (Some exampleText) saved id.
Proof.
  intros ensured created Hproperties Hcheck. unfold loadable.
  fold ensured. rewrite Hproperties.
  change (create sequenceIntervalHelpers "comments" (ser_start ensured)
            (ser_end ensured) (Some exampleText) (ser_intervalType ensured)
            None (Some true) (ser_stickiness ensured)) with created.
  destruct created as [v0|]; [|discriminate].
  destruct (I.addProperties v0 properties false None) as [r|] eqn:Hr;
    [|discriminate].
  destruct (I.getIntervalId r.1) as [id'|] eqn:Hid; [|discriminate].
  apply bool_decide_eq_true_1 in Hcheck as ->.
  exists v0, r.1. split_and!; [done|by exists r|done].
Qed.

Lemma attachGraph_loads_witness :
  ∃ this' lc' first second,
    IntervalCollection.attachGraph (Some exampleText) "comments" exampleUuids
      snapshotCollection = (Ok (), this') ∧
    IntervalCollection.localCollection this' = Some lc' ∧
    LocalIntervalCollection.getIntervalById lc' "remote-7" = Some first ∧
    LocalIntervalCollection.getIntervalById lc' "legacy1-3" = Some second.
Proof.
  assert (Hattached : IntervalCollection.attached snapshotCollection = false)
    by reflexivity.
  assert (Hclient : IntervalCollection.requiresClient snapshotCollection = true →
                    is_Some (Some exampleText)) by (intros _; by eexists).
  assert (Hfirst : loadable sequenceIntervalHelpers "comments" (Some exampleText)
                     remoteAdded "remote-7").
  { apply (loadable_example remoteAdded "remote-7"
             (defineNonWritable
                (mkProps {[reservedIntervalIdKey := JStr "remote-7"]} ∅)
                reservedIntervalIdKey)); vm_compute; reflexivity. }
  assert (Hsecond : loadable sequenceIntervalHelpers "comments"
                      (Some exampleText) savedWithoutId "legacy1-3").
  { apply (loadable_example savedWithoutId "legacy1-3"
             (defineNonWritable
                (mkProps {[reservedIntervalIdKey := JStr "legacy1-3"]} ∅)
                reservedIntervalIdKey)); vm_compute; reflexivity. }
  assert (Hall :
    Forall2 (loadable (IntervalCollection.helpers snapshotCollection) "comments"
               (Some exampleText))
      (default [] (IntervalCollection.savedSerializedIntervals
                     snapshotCollection)) ["remote-7"; "legacy1-3"])
    by (repeat constructor; [exact Hfirst|exact Hsecond]).
  destruct (attachGraph_loads snapshotCollection (Some exampleText) "comments"
              exampleUuids ["remote-7"; "legacy1-3"] Hattached Hclient Hall)
    as (this' & lc' & Hrun & Hlc' & _ & _ & _ & Hids & _).
  destruct (Hids "remote-7") as (first & _ & Hf & _);
    [apply list_elem_of_here|].
  destruct (Hids "legacy1-3") as (second & _ & Hs & _);
    [apply list_elem_of_further, list_elem_of_here|].
  exists this', lc', first, second.
  exact (conj Hrun (conj Hlc' (conj Hf Hs))).
Defined.

(** ** A local change and its acknowledgement *)

Section PendingTables.
Context {T : Type} {ops : I.ISerializableInterval T}.
Implicit Types (this : IntervalCollection.t T).

(** The tables of pending ops and of pending changes are the same. *)
Definition samePendingTables this this' : Prop :=
  IntervalCollection.pendingChangesStart this'
  = IntervalCollection.pendingChangesStart this ∧
  IntervalCollection.pendingChangesEnd this'
  = IntervalCollection.pendingChangesEnd this ∧
  IntervalCollection.localSeqToSerializedInterval this'
  = IntervalCollection.localSeqToSerializedInterval this.

Lemma samePendingTables_refl this : samePendingTables this this.
Proof. done. Qed.

Lemma samePendingTables_trans this1 this2 this3 :
  samePendingTables this1 this2 → samePendingTables this2 this3 →
  samePendingTables this1 this3.
Proof. intros (? & ? & ?) (? & ? & ?). split_and!; congruence. Qed.

Lemma onLocalCollection_samePendingTables {A : Type}
    (m : M (LocalIntervalCollection.t T) A) :
  preserves samePendingTables (IntervalCollection.onLocalCollection m).
Proof.
  intros this r this'. unfold IntervalCollection.onLocalCollection.
  destruct (IntervalCollection.localCollection this) as [lc|].
  - destruct (m lc) as [r' lc']. by intros [= _ <-].
  - by intros [= _ <-].
Qed.

Lemma emit_samePendingTables (e : IntervalCollection.Event T) :
  preserves samePendingTables (IntervalCollection.emit e).
Proof. by intros this r this' [= _ <-]. Qed.

Lemma getSlideToSegment_samePendingTables (lref : LocalReferencePosition) :
  preserves samePendingTables
    (IntervalCollection.getSlideToSegment_ (T := T) lref).
Proof.
  intros this r this'.
  unfold IntervalCollection.getSlideToSegment_, bindM, get.
  destruct (IntervalCollection.client this) as [c|]; [|by intros [= _ <-]].
  destruct (getSegment lref) as [segment|]; [|by intros [= _ <-]].
  destruct (hasLocalRef c segment lref); [|by intros [= _ <-]].
  destruct (_ && _); by intros [= _ <-].
Qed.

Lemma getIntervalById_samePendingTables (id : JsValue) :
  preserves samePendingTables (IntervalCollection.getIntervalById (T := T) id).
Proof.
  intros this r this'. unfold IntervalCollection.getIntervalById.
  destruct (IntervalCollection.localCollection this); by intros [= _ <-].
Qed.

Ltac pending_step :=
  first
    [ apply preserves_ret, samePendingTables_refl
    | apply preserves_throw, samePendingTables_refl
    | apply preserves_liftR, samePendingTables_refl
    | apply preserves_get, samePendingTables_refl
    | apply onLocalCollection_samePendingTables
    | apply getSlideToSegment_samePendingTables
    | apply getIntervalById_samePendingTables
    | apply emit_samePendingTables
    | apply preserves_bind; [apply samePendingTables_trans| |intros ?]
    | match goal with
      | |- preserves _ (match ?x with _ => _ end) => destruct x
      end ].

Lemma ackInterval_samePendingTables interval op :
  preserves samePendingTables (IntervalCollection.ackInterval interval op).
Proof.
  unfold IntervalCollection.ackInterval, IntervalCollection.emitChange.
  repeat pending_step.
Qed.

(** The acknowledgement of a local change does its bookkeeping first: what
    follows leaves the tables alone, whether it returns or throws. *)
Lemma ackChange_local_samePendingTables serializedInterval op localSeq this
    this1 :
  IntervalCollection.attached this = true →
  (update (λ this, IntervalCollection.setLocalSeqToSerializedInterval this
             (delete localSeq
                (IntervalCollection.localSeqToSerializedInterval this))) ;;
   IntervalCollection.removePendingChange serializedInterval) this
  = (Ok (), this1) →
  samePendingTables this1
    (IntervalCollection.ackChange serializedInterval true op (Some localSeq)
       this).2.
Proof.
  intros Hattached Hprefix. unfold IntervalCollection.ackChange.
  rewrite (bindM_run _ _ this this this) by done.
  rewrite Hattached. change (negb true) with false. cbv iota.
  rewrite (bindM_run _ _ this this1 () Hprefix).
  match goal with
  | |- samePendingTables _ (?k ?s).2 =>
      assert (Hrest : preserves samePendingTables k);
      [|destruct (k s) as [r s'] eqn:Hrun; exact (Hrest _ _ _ Hrun)]
  end.
  cbv zeta.
  repeat first [apply ackInterval_samePendingTables | pending_step].
Qed.

(** The acknowledgement of the only pending change of an interval. *)
Lemma removePendingChange_last serializedInterval key this :
  getPropOpt (d_properties serializedInterval) reservedIntervalIdKey = JStr key →
  (is_Some (d_start serializedInterval) →
   IntervalCollection.pendingChangesStart this !! key = Some [serializedInterval]) →
  (is_Some (d_end serializedInterval) →
   IntervalCollection.pendingChangesEnd this !! key = Some [serializedInterval]) →
  ∃ this',
    IntervalCollection.removePendingChange serializedInterval this
    = (Ok (), this') ∧
    IntervalCollection.pendingChangesStart this'
    = (if bool_decide (is_Some (d_start serializedInterval))
       then delete key (IntervalCollection.pendingChangesStart this)
       else IntervalCollection.pendingChangesStart this) ∧
    IntervalCollection.pendingChangesEnd this'
    = (if bool_decide (is_Some (d_end serializedInterval))
       then delete key (IntervalCollection.pendingChangesEnd this)
       else IntervalCollection.pendingChangesEnd this) ∧
    IntervalCollection.localSeqToSerializedInterval this'
    = IntervalCollection.localSeqToSerializedInterval this.
Proof.
  intros Hid Hstart Hend.
  unfold IntervalCollection.removePendingChange. rewrite Hid.
  unfold IntervalCollection.removePendingChangeHelper, bindM, get, update,
    differs.
  simpl.
  destruct (d_start serializedInterval) as [s|] eqn:Hs;
    destruct (d_end serializedInterval) as [e|] eqn:He; simpl.
  - rewrite (Hstart (mk_is_Some _ _ eq_refl)). simpl.
    rewrite Hs, He, !bool_decide_true by done. simpl.
    rewrite (Hend (mk_is_Some _ _ eq_refl)). simpl.
    rewrite Hs, He, !bool_decide_true by done. simpl. by eexists.
  - rewrite (Hstart (mk_is_Some _ _ eq_refl)). simpl.
    rewrite Hs, He, !bool_decide_true by done. simpl. by eexists.
  - rewrite (Hend (mk_is_Some _ _ eq_refl)). simpl.
    rewrite Hs, He, !bool_decide_true by done. simpl. by eexists.
  - by eexists.
Qed.

End PendingTables.

(** X18: a local change and its acknowledgement. On an attached collection
    in good order, take an interval with no pending change and change it
    through [change]: the change of each endpoint that was given is pending,
    and the op is recorded under its local sequence number. When the op comes
    back and [ackChange] acknowledges it under that number, the tables of
    pending changes and of pending ops are again as they were before the
    change, whatever the rest of the acknowledgement does. *)
Theorem change_then_ack {T : Type} {ops : I.ISerializableInterval T}
    {laws : IntervalLaws T} (this : IntervalCollection.t T)
    (lc : LocalIntervalCollection.t T) (key : string) (interval : nat)
    (v m : T) (start end_ : option Z) (op : ISequencedDocumentMessage) :
  IntervalCollection.localCollection this = Some lc →
  healthy lc →
  LocalIntervalCollection.getIntervalById lc key = Some interval →
  registered lc interval v →
  I.modify v (LocalIntervalCollection.label lc) start end_ None None
  = Ok (Some m) →
  IntervalCollection.pendingChangesStart this !! key = None →
  IntervalCollection.pendingChangesEnd this !! key = None →
  let localSeq :=
    match IntervalCollection.client this with
    | Some _ => IntervalCollection.collabWindowLocalSeq this + 1
    | None => 0
    end in
  IntervalCollection.localSeqToSerializedInterval this !! localSeq = None →
  let this1 := (IntervalCollection.change (JStr key) start end_ this).2 in
  let this2 :=
    (IntervalCollection.ackChange (pendingOp this1 localSeq) true op
       (Some localSeq) this1).2 in
  IntervalCollection.hasPendingChangeStart this1 (JStr key)
  = bool_decide (is_Some start) ∧
  IntervalCollection.hasPendingChangeEnd this1 (JStr key)
  = bool_decide (is_Some end_) ∧
  is_Some (IntervalCollection.localSeqToSerializedInterval this1 !! localSeq) ∧
  d_start (pendingOp this1 localSeq) = start ∧
  d_end (pendingOp this1 localSeq) = end_ ∧
  IntervalCollection.pendingChangesStart this2
  = IntervalCollection.pendingChangesStart this ∧
  IntervalCollection.pendingChangesEnd this2
  = IntervalCollection.pendingChangesEnd this ∧
  IntervalCollection.localSeqToSerializedInterval this2
  = IntervalCollection.localSeqToSerializedInterval this.
Proof.
  intros Hlc Hhealthy Hfound Hreg Hmodify Hnostart Hnoend localSeq Hnoop
    this1 this2.
  destruct (change_known this lc key interval v m start end_ Hlc Hhealthy
              Hfound Hreg Hmodify)
    as (this' & lc' & Hrun & Hlc' & _ & _ & _ & _ & _ & Hops & Hps & Hpe & _).
  fold localSeq in Hops.
  assert (Hthis1 : this1 = this') by (unfold this1; by rewrite Hrun).
  set (serializedInterval := mkDelta _ start end_ _ _ _) in *.
  assert (Hop : pendingOp this1 localSeq = serializedInterval).
  { unfold pendingOp. by rewrite Hthis1, Hops, lookup_insert_eq. }
  rewrite Hnostart in Hps. rewrite Hnoend in Hpe. simpl in Hps, Hpe.
  assert (Hqueue_start :
    IntervalCollection.pendingChangesStart this1 !! key
    = if bool_decide (is_Some start) then Some [serializedInterval] else None).
  { rewrite Hthis1, Hps.
    destruct (bool_decide (is_Some start)); [apply lookup_insert_eq|done]. }
  assert (Hqueue_end :
    IntervalCollection.pendingChangesEnd this1 !! key
    = if bool_decide (is_Some end_) then Some [serializedInterval] else None).
  { rewrite Hthis1, Hpe.
    destruct (bool_decide (is_Some end_)); [apply lookup_insert_eq|done]. }
  assert (Hattached : IntervalCollection.attached this1 = true).
  { unfold IntervalCollection.attached. rewrite Hthis1, Hlc'.
    by rewrite bool_decide_true by eauto. }
  (* the bookkeeping of the acknowledgement *)
  set (this1a := IntervalCollection.setLocalSeqToSerializedInterval this1
                   (delete localSeq
                      (IntervalCollection.localSeqToSerializedInterval this1))).
  destruct (removePendingChange_last serializedInterval key this1a)
    as (this1b & Hremove & Hps' & Hpe' & Hops').
  { unfold serializedInterval, getPropOpt, getProp. simpl.
    by rewrite lookup_singleton_eq. }
  { intros Hsome. change (d_start serializedInterval) with start in Hsome.
    change (IntervalCollection.pendingChangesStart this1a)
      with (IntervalCollection.pendingChangesStart this1).
    by rewrite Hqueue_start, bool_decide_true. }
  { intros Hsome. change (d_end serializedInterval) with end_ in Hsome.
    change (IntervalCollection.pendingChangesEnd this1a)
      with (IntervalCollection.pendingChangesEnd this1).
    by rewrite Hqueue_end, bool_decide_true. }
  assert (Hprefix :
    (update (λ this, IntervalCollection.setLocalSeqToSerializedInterval this
               (delete localSeq
                  (IntervalCollection.localSeqToSerializedInterval this))) ;;
     IntervalCollection.removePendingChange serializedInterval) this1
    = (Ok (), this1b)) by exact Hremove.
  pose proof (ackChange_local_samePendingTables serializedInterval op localSeq
                this1 this1b Hattached Hprefix) as (Hs2 & He2 & Ho2).
  fold this2 in Hs2, He2, Ho2. rewrite <- Hop in Hs2, He2, Ho2.
  fold this2 in Hs2, He2, Ho2.
  split_and!.
  - unfold IntervalCollection.hasPendingChangeStart. simpl.
    rewrite Hqueue_start. by destruct (bool_decide (is_Some start)).
  - unfold IntervalCollection.hasPendingChangeEnd. simpl.
    rewrite Hqueue_end. by destruct (bool_decide (is_Some end_)).
  - rewrite Hthis1, Hops, lookup_insert_eq. by eexists.
  - by rewrite Hop.
  - by rewrite Hop.
  - rewrite Hs2, Hps'.
    change (d_start serializedInterval) with start.
    change (IntervalCollection.pendingChangesStart this1a)
      with (IntervalCollection.pendingChangesStart this1).
    rewrite Hthis1, Hps. destruct (bool_decide (is_Some start)); [|done].
    by apply delete_insert_id.
  - rewrite He2, Hpe'.
    change (d_end serializedInterval) with end_.
    change (IntervalCollection.pendingChangesEnd this1a)
      with (IntervalCollection.pendingChangesEnd this1).
    rewrite Hthis1, Hpe. destruct (bool_decide (is_Some end_)); [|done].
    by apply delete_insert_id.
  - rewrite Ho2, Hops'. unfold this1a. simpl. rewrite Hthis1, Hops.
    by apply delete_insert_id.
Qed.

Lemma change_then_ack_witness :
  let this1 :=
    (IntervalCollection.change (JStr "uuid-0") (Some 2) None
       sequenceIntervalCollection1).2 in
  let this2 :=
    (IntervalCollection.ackChange (pendingOp this1 1) true remoteOp (Some 1)
       this1).2 in
  IntervalCollection.hasPendingChangeStart this1 (JStr "uuid-0") = true ∧
  IntervalCollection.pendingChangesStart this2 = ∅ ∧
  IntervalCollection.localSeqToSerializedInterval this2 = ∅.
Proof.
  assert (Hlc : IntervalCollection.localCollection sequenceIntervalCollection1
                = Some sequenceCollection1) by reflexivity.
  assert (Hfound : LocalIntervalCollection.getIntervalById sequenceCollection1
                     "uuid-0" = Some 0%nat) by (vm_compute; reflexivity).
  assert (Hmodify :
    I.modify (objectAt sequenceCollection1 0 noSequenceInterval)
      (LocalIntervalCollection.label sequenceCollection1) (Some 2) None None
      None
    = Ok (Some (default noSequenceInterval
                  (valueOf None
                     (I.modify (objectAt sequenceCollection1 0
                                  noSequenceInterval)
                        (LocalIntervalCollection.label sequenceCollection1)
                        (Some 2) None None None)))))
    by (apply valueOf_Some; vm_compute; reflexivity).
  assert (Hnostart :
    IntervalCollection.pendingChangesStart sequenceIntervalCollection1
      !! "uuid-0" = None) by reflexivity.
  assert (Hnoend :
    IntervalCollection.pendingChangesEnd sequenceIntervalCollection1
      !! "uuid-0" = None) by reflexivity.
  assert (Hnoop :
    IntervalCollection.localSeqToSerializedInterval sequenceIntervalCollection1
      !! 1 = None) by reflexivity.
  pose proof (change_then_ack sequenceIntervalCollection1 sequenceCollection1
                "uuid-0" 0%nat _ _ (Some 2) None remoteOp Hlc
                sequenceCollection1_healthy Hfound
                sequenceCollection1_registered Hmodify Hnostart Hnoend Hnoop)
    as (Hpending & _ & _ & _ & _ & Hstart & _ & Hops).
  exact (conj Hpending (conj Hstart Hops)).
Defined.

(** ** Saving and loading a numeric interval *)

(** A new numeric interval: its properties are those given, without the null
    ones, and all of them are writable. *)
Lemma Interval_new_writable (s e : Z) (p : PropertySet) :
  ∃ v, Interval.new s e (Some p) = Ok v ∧
       Interval.start v = s ∧ Interval.end_ v = e ∧
       nonWritable (Interval.properties v) = ∅ ∧
       ∀ k, entries (Interval.properties v) !! k
            = match entries p !! k with
              | Some JNull => None
              | x => x
              end.
Proof.
  unfold Interval.new, Interval.addProperties,
    PropertiesManager.addProperties. simpl.
  destruct (addProperties_fresh None (map_to_list (entries p)) emptyProps
              PropertiesManager.new emptyProps eq_refl)
    as (props' & mgr' & deltas' & -> & Hentries & Hnw).
  simpl. eexists. split; [done|]. simpl. split_and!; try done.
  intros k. rewrite Hentries, extendKey_map_lookup. simpl.
  destruct (entries p !! k) as [[]|]; done.
Qed.

(** Adding properties to a numeric interval whose properties are writable,
    outside of a collaboration. *)
Lemma Interval_addProperties_writable (v : Interval.t) (p : PropertySet) :
  nonWritable (Interval.properties v) = ∅ →
  ∃ r, Interval.addProperties v (Some p) false None = Ok r ∧
       Interval.start r.1 = Interval.start v ∧
       Interval.end_ r.1 = Interval.end_ v ∧
       ∀ k, entries (Interval.properties r.1) !! k
            = match entries p !! k with
              | Some JNull => None
              | Some x => Some x
              | None => entries (Interval.properties v) !! k
              end.
Proof.
  intros Hnw. unfold Interval.addProperties, PropertiesManager.addProperties.
  rewrite andb_false_r.
  destruct (addProperties_fresh None (map_to_list (entries p))
              (Interval.properties v) (Interval.propertyManager v) emptyProps
              Hnw)
    as (props' & mgr' & deltas' & -> & Hentries & _).
  simpl. eexists. split; [done|]. simpl. split_and!; try done.
  intros k. by rewrite Hentries, extendKey_map_lookup.
Qed.

(** X19: what [serialize] saves of a numeric interval can be loaded again.
    For an interval whose id is neither undefined nor null, the loop of
    [attachGraph] can load the serialized interval: [createInterval] returns
    an interval from it, which takes the saved properties, and the loaded
    interval has the positions and the id of the saved one and its
    properties, except those whose value is null, together with the label of
    the collection when the saved interval had none. *)
Theorem Interval_serialize_loadable (v : Interval.t) (label : string)
    (client : option Client) (idValue : JsValue) :
  getProp (Interval.properties v) reservedIntervalIdKey = idValue →
  idValue ≠ JUndefined → idValue ≠ JNull →
  loadable intervalHelpers label client (Interval.serialize v)
    (toStringJs idValue) ∧
  ∃ created r,
    createInterval label (Interval.start v) (Interval.end_ v) = Ok created ∧
    I.addProperties created
      (defineNonWritable (Interval.properties v) reservedIntervalIdKey)
      false None = Ok r ∧
    Interval.start r.1 = Interval.start v ∧
    Interval.end_ r.1 = Interval.end_ v ∧
    Interval.getIntervalId r.1 = Ok (toStringJs idValue) ∧
    ∀ k, entries (Interval.properties r.1) !! k
         = match entries (Interval.properties v) !! k with
           | Some JNull => None
           | Some x => Some x
           | None =>
               if bool_decide (k = reservedRangeLabelsKey) &&
                  (0 <? Z.of_nat (String.length label))
               then Some (JArr [JStr label]) else None
           end.
Proof.
  intros Hid Hdefined Hnotnull.
  assert (Hentry : entries (Interval.properties v) !! reservedIntervalIdKey
                   = Some idValue).
  { unfold getProp in Hid.
    destruct (entries (Interval.properties v) !! reservedIntervalIdKey);
      simpl in Hid; congruence. }
  set (p := defineNonWritable (Interval.properties v) reservedIntervalIdKey).
  assert (Hp : ∀ k, entries p !! k = entries (Interval.properties v) !! k).
  { intros k. unfold p, defineNonWritable. simpl. rewrite Hid.
    by rewrite insert_id. }
  assert (Hensured :
    (LocalIntervalCollection.ensureSerializedId (Interval.serialize v)).2
    = mkSerialized 0 (Interval.start v) (Interval.end_ v) 0 None (Some p)).
  { unfold LocalIntervalCollection.ensureSerializedId. simpl. rewrite Hid.
    by destruct idValue. }
  unfold createInterval.
  set (rangeProp := if 0 <? Z.of_nat (String.length label) then _ else _).
  destruct (Interval_new_writable (Interval.start v) (Interval.end_ v) rangeProp)
    as (created & Hcreated & Hs0 & He0 & Hnw0 & Hprops0).
  destruct (Interval_addProperties_writable created p Hnw0)
    as (r & Hr & Hs & He & Hprops).
  assert (Hidr : Interval.getIntervalId r.1 = Ok (toStringJs idValue)).
  { unfold Interval.getIntervalId, getProp.
    rewrite Hprops, Hp, Hentry. by destruct idValue. }
  split.
  - unfold loadable. rewrite Hensured. simpl.
    exists created, r.1. split_and!; [exact Hcreated|by exists r|exact Hidr].
  - exists created, r. split_and!; try done; try congruence.
    intros k. rewrite Hprops, Hp.
    destruct (entries (Interval.properties v) !! k) as [x|]; [done|].
    rewrite Hprops0. unfold rangeProp.
    destruct (0 <? Z.of_nat (String.length label)); simpl.
    + destruct (decide (k = reservedRangeLabelsKey)) as [->|Hne].
      * rewrite bool_decide_true by done. simpl.
        by rewrite lookup_singleton_eq.
      * rewrite bool_decide_false by done. simpl.
        by rewrite lookup_singleton_ne.
    + by rewrite andb_false_r.
Qed.

Lemma Interval_serialize_loadable_witness :
  loadable intervalHelpers "" None
    (Interval.serialize (objectAt numericCollection1 0 noInterval)) "uuid-0".
Proof.
  assert (Hid : getProp (Interval.properties
                           (objectAt numericCollection1 0 noInterval))
                  reservedIntervalIdKey = JStr "uuid-0")
    by (vm_compute; reflexivity).
  assert (Hdefined : JStr "uuid-0" ≠ JUndefined) by discriminate.
  assert (Hnotnull : JStr "uuid-0" ≠ JNull) by discriminate.
  exact (proj1 (Interval_serialize_loadable
                  (objectAt numericCollection1 0 noInterval) "" None
                  (JStr "uuid-0") Hid Hdefined Hnotnull)).
Defined.

(** ** Range queries on numeric intervals *)

(** [mapRange] collects the entries that lie between the two keys. *)
Lemma mapRange_filter {T : Type} (compareKeys : T → T → Result Z)
    (store : gmap nat T) (lo hi : T) (inside : nat → bool) (tree : list nat) :
  Forall (λ a, ∃ v cl ch,
            store !! a = Some v ∧
            compareKeys lo v = Ok cl ∧ compareKeys v hi = Ok ch ∧
            inside a = (cl <=? 0) && (ch <=? 0)) tree →
  RedBlackTree.mapRange compareKeys store lo hi tree
  = Ok (List.filter inside tree).
Proof.
  induction 1 as [|a rest (v & cl & ch & Hv & Hcl & Hch & Hin) _ IH]; [done|].
  simpl. unfold readObject. rewrite Hv. simpl. rewrite Hcl, Hch. simpl.
  rewrite IH. simpl. by rewrite Hin.
Qed.

(** The end, or the start, of the interval at the address lies in the
    range. *)
Definition endInRange (store : gmap nat Interval.t) (start end_ : Z) (a : nat)
  : bool :=
  match store !! a with
  | Some v => (start <=? Interval.end_ v) && (Interval.end_ v <=? end_)
  | None => false
  end.

Definition startInRange (store : gmap nat Interval.t) (start end_ : Z) (a : nat)
  : bool :=
  match store !! a with
  | Some v => (start <=? Interval.start v) && (Interval.start v <=? end_)
  | None => false
  end.

(** X20: the range queries of [EndpointInRangeIndex] and
    [StartpointInRangeIndex] on numeric intervals. For a range with
    [0 < start ≤ end] and a tree of live intervals without a comparison
    override, [findIntervalsWithEndpointInRange] returns exactly the
    intervals of the tree whose end lies in [start, end], bounds included,
    and [findIntervalsWithStartpointInRange] exactly those whose start does,
    both in the order of the tree. *)
Theorem numeric_range_queries (client : option Client)
    (store : gmap nat Interval.t) (intervalTree : list nat) (start end_ : Z) :
  0 < start → start ≤ end_ →
  Forall (λ a, ∃ v, store !! a = Some v ∧ Interval.forceCompare v = None)
         intervalTree →
  findIntervalsWithEndpointInRange intervalHelpers client store intervalTree
    start end_
  = Ok (List.filter (endInRange store start end_) intervalTree) ∧
  findIntervalsWithStartpointInRange intervalHelpers client store intervalTree
    start end_
  = Ok (List.filter (startInRange store start end_) intervalTree).
Proof.
  intros Hstart Hrange Hlive.
  unfold findIntervalsWithEndpointInRange, findIntervalsWithStartpointInRange.
  assert ((start <=? 0) || (end_ <? start) = false) as ->.
  { apply orb_false_iff. split; lia. }
  destruct intervalTree as [|a0 rest]; [done|].
  change (false || RedBlackTree.isEmpty (a0 :: rest)) with false. cbv iota.
  change (create intervalHelpers "transient" ?s ?e client IntervalType.Transient
            None None None)
    with (createInterval "transient" s e).
  assert (Hprobe : ∀ pos, ∃ probe,
    createInterval "transient" pos pos = Ok probe ∧
    Interval.start probe = pos ∧ Interval.end_ probe = pos).
  { intros pos. unfold createInterval.
    destruct (Interval_new_writable pos pos
                (if 0 <? Z.of_nat (String.length "transient")
                 then mkProps {[reservedRangeLabelsKey
                                := labelArray (Some "transient")]} ∅
                 else emptyProps)) as (probe & Hprobe & Hs & He & _).
    exists probe. split; [exact Hprobe|]. split; [exact Hs|exact He]. }
  destruct (Hprobe start) as (lo & -> & Hlos & Hloe).
  destruct (Hprobe end_) as (hi & -> & His & Hhie).
  unfold bindR.
  split; apply mapRange_filter; (eapply Forall_impl; [exact Hlive|]);
    intros a (v & Hv & Hforce).
  - exists v.
    unfold endpointInRangeComparator, compareOverrideables, endInRange.
    simpl. rewrite Hv, Hforce, Hloe, Hhie. simpl.
    destruct (Z.eqb_spec (start - Interval.end_ v) 0) as [H1|H1];
      destruct (Z.eqb_spec (Interval.end_ v - end_) 0) as [H2|H2]; simpl;
      eexists _, _; (split_and!; [done..|]); lia.
  - exists v.
    unfold startpointInRangeComparator, compareOverrideables, startInRange.
    simpl. rewrite Hv, Hforce, Hlos, His. simpl.
    destruct (Z.eqb_spec (start - Interval.start v) 0) as [H1|H1];
      destruct (Z.eqb_spec (Interval.start v - end_) 0) as [H2|H2]; simpl;
      eexists _, _; (split_and!; [done..|]); lia.
Qed.

Lemma numeric_range_queries_witness :
  findIntervalsWithEndpointInRange intervalHelpers None
    (LocalIntervalCollection.store numericCollection1) [0%nat] 4 6
  = Ok [0%nat] ∧
  findIntervalsWithStartpointInRange intervalHelpers None
    (LocalIntervalCollection.store numericCollection1) [0%nat] 4 6
  = Ok [].
Proof.
  assert (Hstart : 0 < 4) by lia.
  assert (Hrange : 4 ≤ 6) by lia.
  assert (Hlive :
    Forall (λ a, ∃ v, LocalIntervalCollection.store numericCollection1 !! a
                      = Some v ∧ Interval.forceCompare v = None) [0%nat]).
  { repeat constructor. exists (objectAt numericCollection1 0 noInterval).
    split; vm_compute; reflexivity. }
  exact (numeric_range_queries None
           (LocalIntervalCollection.store numericCollection1) [0%nat] 4 6
           Hstart Hrange Hlive).
Defined.
